(** * Immersed boundary simulator: embedding and verified properties

    A shallow embedding of the numerical core of the ImmersedBoundary
    project (Chaste user project): the periodic geometry kernel and the
    geometric queries of [ImmersedBoundaryMesh], the force classes
    [ImmersedBoundaryMembraneElasticityForce] and
    [ImmersedBoundaryCellCellInteractionForce], and the spreading, upwind
    and spectral pressure stages of [ImmersedBoundarySimulationModifier].

    Conventions of the embedding.
    - A C++ [double] is a real number of [R]: arithmetic is idealised
      (no rounding, no NaN, no signed zero).  Comparisons are the
      decidable comparisons of [R], wrapped as booleans.
    - [unsigned] and [int] values are integers of [Z] or [nat]; where the
      source mixes [int] and [unsigned] the conversion modulo 2^32 is
      written out ([to_unsigned]).
    - [c_vector<double, 2>] is a pair of reals, [std::vector] is [list],
      pointers to nodes and elements are indices into the vectors of the
      mesh that owns them.
    - A C++ exception leaves the mutations made before the throw in place,
      so operations that can throw return the mesh together with an
      [outcome]. *)

From Stdlib Require Import Reals Lra Lia ZArith List Bool Arith.
Import ListNotations.

Open Scope R_scope.

(* ================================================================== *)
(** * Part I: the embedding *)
(* ================================================================== *)

(** ** Doubles *)

Definition Rltb (a b : R) : bool := if Rlt_dec a b then true else false.
Definition Rleb (a b : R) : bool := if Rle_dec a b then true else false.
Definition Rgtb (a b : R) : bool := Rltb b a.
Definition Rgeb (a b : R) : bool := Rleb b a.
Definition Reqb (a b : R) : bool := if Req_dec_T a b then true else false.

(** [fabs] and [copysign] of <cmath>. *)
Definition fabs (x : R) : R := Rabs x.

Definition copysign (magnitude sgn : R) : R :=
  if Rltb sgn 0 then - fabs magnitude else fabs magnitude.

(** [std::floor], and truncation towards zero. *)
Definition floor (x : R) : Z := Int_part x.

Definition trunc (x : R) : Z :=
  if Rltb x 0 then (- Int_part (- x))%Z else Int_part x.

(** [fmod(x, y)]: the remainder [x - n*y] with [n] the quotient [x/y]
    truncated towards zero, so the result carries the sign of [x]. *)
Definition fmod (x y : R) : R := x - IZR (trunc (x / y)) * y.

(** Conversion of an [int] to [unsigned] (usual arithmetic conversions). *)
Definition to_unsigned (z : Z) : Z := (z mod 2 ^ 32)%Z.

(** ** [c_vector<double, 2>] *)

Definition c_vector2 : Type := (R * R)%type.

Definition zero_vector : c_vector2 := (0, 0).
Definition vadd (a b : c_vector2) : c_vector2 := (fst a + fst b, snd a + snd b).
Definition vsub (a b : c_vector2) : c_vector2 := (fst a - fst b, snd a - snd b).
Definition vscale (v : c_vector2) (s : R) : c_vector2 := (fst v * s, snd v * s).
Definition vdiv (v : c_vector2) (s : R) : c_vector2 := (fst v / s, snd v / s).
Definition inner_prod (a b : c_vector2) : R := fst a * fst b + snd a * snd b.
Definition norm_2 (v : c_vector2) : R := sqrt (fst v * fst v + snd v * snd v).

(** ** Periodic geometry kernel (ImmersedBoundaryMesh.cpp) *)

(** The body of the loop over [dim] in [GetVectorFromAtoB]. *)
Definition GetVectorFromAtoB_dim (location1 location2 : R) : R :=
  let vector := location2 - location1 in
  if Rgtb (fabs vector) 0.5
  then copysign (fabs vector - 1.0) (- vector)
  else vector.

Definition GetVectorFromAtoB (rLocation1 rLocation2 : c_vector2) : c_vector2 :=
  (GetVectorFromAtoB_dim (fst rLocation1) (fst rLocation2),
   GetVectorFromAtoB_dim (snd rLocation1) (snd rLocation2)).

(** Reduction of one coordinate into [0,1), as [GetCentroidOfElement]
    writes it: [c < 0 ? c + 1.0 : fmod(c, 1.0)]. *)
Definition reduce_to_unit (c : R) : R :=
  if Rltb c 0 then c + 1.0 else fmod c 1.0.

(** ** Containers *)

(** [v[i] = f (v[i])] on a [std::vector]; an index out of range is
    undefined behaviour in the source and leaves the list as it is here. *)
Fixpoint list_update {A : Type} (f : A -> A) (i : nat) (l : list A) : list A :=
  match l, i with
  | [], _ => []
  | a :: t, O => f a :: t
  | a :: t, S j => a :: list_update f j t
  end.

(** A [std::vector<std::vector<T> >], indexed [grid[y][x]]. *)
Definition grid (A : Type) : Type := list (list A).

Definition grid_get {A : Type} (d : A) (g : grid A) (y x : nat) : A :=
  nth x (nth y g []) d.

Definition grid_update {A : Type} (f : A -> A) (y x : nat) (g : grid A) : grid A :=
  list_update (list_update f x) y g.

Definition list_sum (l : list R) : R := fold_right Rplus 0 l.

Definition grid_total (g : grid R) : R := list_sum (map list_sum g).

(** ** Nodes (the members of Chaste's [Node<2>] that the project uses) *)

Record Node : Type := {
  mIndex : nat;
  mLocation : c_vector2;
  mRegion : nat;
  mAppliedForce : c_vector2;
  mNodeAttributes : list R;
  mElementIndices : list nat
}.

(** ** ImmersedBoundarySimulationModifier.cpp *)

Record SimulationModifier : Type := {
  mNumGridPtsX : Z;
  mNumGridPtsY : Z;
  mGridSpacingX : R;
  mGridSpacingY : R;
  mReynolds : R
}.

(** The members as [SetupConstantMemberVariables] (and
    [SetMemberVariablesForTesting]) set them. *)
Definition SetMemberVariables (numGridPtsY numGridPtsX : Z) (reynolds : R)
  : SimulationModifier :=
  {| mNumGridPtsX := numGridPtsX;
     mNumGridPtsY := numGridPtsY;
     mGridSpacingX := 1.0 / IZR numGridPtsX;
     mGridSpacingY := 1.0 / IZR numGridPtsY;
     mReynolds := reynolds |}.

Definition Delta1D (dist spacing : R) : R :=
  (0.25 * (1.0 + cos (PI * dist / (2 * spacing)))) / spacing.

(** Conversion of an [unsigned] to [int]. *)
Definition to_int (z : Z) : Z := if (z <? 2 ^ 31)%Z then z else (z - 2 ^ 32)%Z.

(** [if (first_idx == -1) first_idx += numGridPts;] with [first_idx] an
    [int] and [numGridPts] an [unsigned]: the sum is taken in [unsigned]
    and converted back. *)
Definition wrap_first_idx (first_idx numGridPts : Z) : Z :=
  if (first_idx =? -1)%Z then to_int (to_unsigned (first_idx + numGridPts))
  else first_idx.

(** One cell of the 4x4 stencil of a node: the cell's position in the
    force grids and the two distances the delta function is applied to. *)
Record StencilPoint : Type := {
  grid_row : nat;
  grid_col : nat;
  dist_x : R;
  dist_y : R
}.

(** The loop over [y_idx] of [PropagateForcesToFluidGrid], for one
    [x_idx].  [first_idx_y] is carried through the iterations (and out of
    the loop): it is tested and possibly wrapped after [dist_y] has been
    computed. *)
Fixpoint spread_y_loop (m : SimulationModifier) (node_location : c_vector2)
    (col : nat) (dist_x : R) (y_idxs : list Z) (first_idx_y : Z)
  : list StencilPoint * Z :=
  match y_idxs with
  | [] => ([], first_idx_y)
  | y_idx :: rest =>
      let dist_y :=
        fabs (IZR (to_unsigned (first_idx_y + y_idx)) * mGridSpacingY m
              - snd node_location) in
      let first_idx_y := wrap_first_idx first_idx_y (mNumGridPtsY m) in
      let row := Z.to_nat (to_unsigned (first_idx_y + y_idx) mod mNumGridPtsY m) in
      let '(points, first_idx_y') :=
        spread_y_loop m node_location col dist_x rest first_idx_y in
      ({| grid_row := row; grid_col := col; dist_x := dist_x; dist_y := dist_y |}
         :: points, first_idx_y')
  end.

(** The loop over [x_idx]. *)
Fixpoint spread_x_loop (m : SimulationModifier) (node_location : c_vector2)
    (x_idxs : list Z) (first_idx_x first_idx_y : Z) : list StencilPoint :=
  match x_idxs with
  | [] => []
  | x_idx :: rest =>
      let dist_x :=
        fabs (IZR (to_unsigned (first_idx_x + x_idx)) * mGridSpacingX m
              - fst node_location) in
      let first_idx_x := wrap_first_idx first_idx_x (mNumGridPtsX m) in
      let col := Z.to_nat (to_unsigned (first_idx_x + x_idx) mod mNumGridPtsX m) in
      let '(points, first_idx_y') :=
        spread_y_loop m node_location col dist_x [0; 1; 2; 3]%Z first_idx_y in
      points ++ spread_x_loop m node_location rest first_idx_x first_idx_y'
  end.

(** The sixteen cells a node spreads to, in the order of the loops. *)
Definition spreading_stencil (m : SimulationModifier) (node_location : c_vector2)
  : list StencilPoint :=
  let first_idx_x := (floor (fst node_location / mGridSpacingX m) - 1)%Z in
  let first_idx_y := (floor (snd node_location / mGridSpacingY m) - 1)%Z in
  spread_x_loop m node_location [0; 1; 2; 3]%Z first_idx_x first_idx_y.

(** The two [+=] on the force grids, for one cell of the stencil. *)
Definition spread_to_cell (m : SimulationModifier) (dl : R) (applied_force : c_vector2)
    (grids : grid R * grid R) (p : StencilPoint) : grid R * grid R :=
  let force_x := fst applied_force * Delta1D (dist_x p) (mGridSpacingX m)
                 * Delta1D (dist_y p) (mGridSpacingY m) * dl in
  let force_y := snd applied_force * Delta1D (dist_x p) (mGridSpacingX m)
                 * Delta1D (dist_y p) (mGridSpacingY m) * dl in
  (grid_update (fun c => c + force_x) (grid_row p) (grid_col p) (fst grids),
   grid_update (fun c => c + force_y) (grid_row p) (grid_col p) (snd grids)).

(** [PropagateForcesToFluidGrid]: [dl] is the characteristic node spacing
    of the mesh, [grids] are [mFluidForceGridX] and [mFluidForceGridY]. *)
Definition PropagateForcesToFluidGrid (m : SimulationModifier) (dl : R)
    (nodes : list Node) (grids : grid R * grid R) : grid R * grid R :=
  fold_left
    (fun grids node =>
       fold_left (spread_to_cell m dl (mAppliedForce node))
                 (spreading_stencil m (mLocation node)) grids)
    nodes grids.

(** [SetupGrid]: [mNumGridPtsY] rows of [mNumGridPtsX] cells, which
    [resize] value-initialises in a fresh vector. *)
Definition SetupGrid {A : Type} (zero : A) (m : SimulationModifier) : grid A :=
  repeat (repeat zero (Z.to_nat (mNumGridPtsX m))) (Z.to_nat (mNumGridPtsY m)).

(** *** [UpwindScheme] *)

(** The variables that live across the iterations of the two loops. *)
Record UpwindState : Type := {
  prev_x : nat;
  next_x : nat;
  prev_y : nat;
  next_y : nat;
  out_x : grid R;
  out_y : grid R
}.

(** The body of the inner loop, at cell [(y, x)]: the two assignments,
    the two [+=], then the advance of [prev_x] and [next_x]. *)
Definition upwind_cell (m : SimulationModifier) (in_x in_y : grid R) (y : nat)
    (st : UpwindState) (x : nat) : UpwindState :=
  let u := grid_get 0 in_x in
  let v := grid_get 0 in_y in
  let numGridPtsX := Z.to_nat (mNumGridPtsX m) in
  let set_x :=
    if Rgtb (u y x) 0
    then u y x * (u y x - u y (prev_x st)) / mGridSpacingX m
    else u y x * (u y (next_x st) - u y x) / mGridSpacingX m in
  let set_y :=
    if Rgtb (u y x) 0
    then u y x * (v y x - v y (prev_x st)) / mGridSpacingX m
    else u y x * (v y (next_x st) - v y x) / mGridSpacingX m in
  let add_x :=
    if Rgtb (v y x) 0
    then v y x * (u y x - u (prev_y st) x) / mGridSpacingY m
    else v y x * (u (next_y st) x - u y x) / mGridSpacingY m in
  let add_y :=
    if Rgtb (v y x) 0
    then v y x * (v y x - v (prev_y st) x) / mGridSpacingY m
    else v y x * (v (next_y st) x - v y x) / mGridSpacingY m in
  {| prev_x := (prev_x st + 1) mod numGridPtsX;
     next_x := (next_x st + 1) mod numGridPtsX;
     prev_y := prev_y st;
     next_y := next_y st;
     out_x := grid_update (fun c => c + add_x) y x
                (grid_update (fun _ => set_x) y x (out_x st));
     out_y := grid_update (fun c => c + add_y) y x
                (grid_update (fun _ => set_y) y x (out_y st)) |}.

(** The inner loop over the cells [xs] of row [y]. *)
Definition upwind_x_loop (m : SimulationModifier) (in_x in_y : grid R) (y : nat)
    (xs : list nat) (st : UpwindState) : UpwindState :=
  fold_left (upwind_cell m in_x in_y y) xs st.

(** The body of the outer loop: row [y], then the advance of [prev_y]
    and [next_y]. *)
Definition upwind_row (m : SimulationModifier) (in_x in_y : grid R)
    (st : UpwindState) (y : nat) : UpwindState :=
  let numGridPtsY := Z.to_nat (mNumGridPtsY m) in
  let st' := upwind_x_loop m in_x in_y y (seq 0 (Z.to_nat (mNumGridPtsX m))) st in
  {| prev_x := prev_x st';
     next_x := next_x st';
     prev_y := (prev_y st' + 1) mod numGridPtsY;
     next_y := (next_y st' + 1) mod numGridPtsY;
     out_x := out_x st';
     out_y := out_y st' |}.

Definition upwind_y_loop (m : SimulationModifier) (in_x in_y : grid R)
    (ys : list nat) (st : UpwindState) : UpwindState :=
  fold_left (upwind_row m in_x in_y) ys st.

(** The state on entry to the outer loop.  [mNumGridPtsX - 1] is an
    [unsigned] subtraction. *)
Definition upwind_init (m : SimulationModifier) : UpwindState :=
  {| prev_x := Z.to_nat (to_unsigned (mNumGridPtsX m - 1));
     prev_y := Z.to_nat (to_unsigned (mNumGridPtsY m - 1));
     next_x := 1;
     next_y := 1;
     out_x := SetupGrid 0 m;
     out_y := SetupGrid 0 m |}.

Definition UpwindScheme (m : SimulationModifier) (in_x in_y : grid R)
  : grid R * grid R :=
  let st := upwind_y_loop m in_x in_y (seq 0 (Z.to_nat (mNumGridPtsY m)))
              (upwind_init m) in
  (out_x st, out_y st).

(** The loop state on entry to the iteration of cell [(y, x)]: rows
    [0 .. y-1] are done, and so are the cells [0 .. x-1] of row [y]. *)
Definition upwind_state_at (m : SimulationModifier) (in_x in_y : grid R)
    (y x : nat) : UpwindState :=
  upwind_x_loop m in_x in_y y (seq 0 x)
    (upwind_y_loop m in_x in_y (seq 0 y) (upwind_init m)).

(** *** The pressure stage of [SolveNavierStokesSpectral] *)

(** [std::complex<double>], as its real and imaginary parts. *)
Definition complex : Type := (R * R)%type.

Definition C0 : complex := (0, 0).
Definition mI : complex := (0, 1).
Definition Copp (a : complex) : complex := (- fst a, - snd a).
Definition Cadd (a b : complex) : complex := (fst a + fst b, snd a + snd b).
Definition Cmul (a b : complex) : complex :=
  (fst a * fst b - snd a * snd b, fst a * snd b + snd a * fst b).
(** [double * complex] and [complex / double]. *)
Definition Cscale (r : R) (a : complex) : complex := (r * fst a, r * snd a).
Definition Cdiv_real (a : complex) (r : R) : complex := (fst a / r, snd a / r).

(** The entries of [mSin2X] and [mSin2Y], as [SetupConstantMemberVariables]
    fills them. *)
Definition mSin2X (m : SimulationModifier) (x : nat) : R :=
  sin (2 * PI * IZR (Z.of_nat x) * mGridSpacingX m).

Definition mSin2Y (m : SimulationModifier) (y : nat) : R :=
  sin (2 * PI * IZR (Z.of_nat y) * mGridSpacingY m).

Definition pressure_numerator (m : SimulationModifier) (VelX_hat VelY_hat : grid complex)
    (y x : nat) : complex :=
  Cmul (Copp mI)
       (Cadd (Cdiv_real (Cscale (mSin2X m x) (grid_get C0 VelX_hat y x)) (mGridSpacingX m))
             (Cdiv_real (Cscale (mSin2Y m y) (grid_get C0 VelY_hat y x)) (mGridSpacingY m))).

Definition pressure_denominator (m : SimulationModifier) (dt : R) (y x : nat) : R :=
  (mSin2X m x * mSin2X m x / (mGridSpacingX m * mGridSpacingX m)
   + mSin2Y m y * mSin2Y m y / (mGridSpacingY m * mGridSpacingY m))
  * (dt / mReynolds m).

(** "Calculate pressure" and "Set some values to zero": every cell of
    [p_hat] is assigned the quotient, then four cells are overwritten, in
    the order of the source.  The source has no test on the denominator
    and no error exit. *)
Definition CalculatePressure (m : SimulationModifier) (dt : R)
    (VelX_hat VelY_hat : grid complex) : grid complex :=
  let numGridPtsX := Z.to_nat (mNumGridPtsX m) in
  let numGridPtsY := Z.to_nat (mNumGridPtsY m) in
  let p_hat :=
    map (fun y =>
           map (fun x => Cdiv_real (pressure_numerator m VelX_hat VelY_hat y x)
                                   (pressure_denominator m dt y x))
               (seq 0 numGridPtsX))
        (seq 0 numGridPtsY) in
  let p_hat := grid_update (fun _ => C0) 0 0 p_hat in
  let p_hat := grid_update (fun _ => C0) 0 (numGridPtsX / 2) p_hat in
  let p_hat := grid_update (fun _ => C0) (numGridPtsY / 2) (numGridPtsX / 2) p_hat in
  grid_update (fun _ => C0) (numGridPtsY / 2) 0 p_hat.

(** ** The mesh (ImmersedBoundaryMesh.cpp) *)

(** [FluidSource<2>]. *)
Record FluidSource : Type := {
  source_mIndex : nat;
  source_mLocation : c_vector2;
  source_mStrength : R;
  source_mAssociatedElementIndex : option nat
}.

(** [ImmersedBoundaryElement<2,2>].  The nodes of an element are pointers
    to nodes owned by the mesh: here, their positions in [mNodes].
    [None] stands for the sentinel [DOUBLE_UNSET] of the cached average
    node spacing, and for a null fluid source pointer. *)
Record ImmersedBoundaryElement : Type := {
  elem_mIndex : nat;
  elem_mNodes : list nat;
  mMembraneSpringConstant : R;
  mMembraneRestLength : R;
  mAverageNodeSpacing : option R;
  mElementAttributes : list R;
  mCornerNodes : list nat;
  mpFluidSource : option nat
}.

(** [ImmersedBoundaryMesh<2,2>].  [mMembraneIndex] is [None] for the
    sentinel [UINT_MAX] (no membrane element), [mElementDivisionSpacing]
    is [None] for [DOUBLE_UNSET]. *)
Record ImmersedBoundaryMesh : Type := {
  mNodes : list Node;
  mElements : list ImmersedBoundaryElement;
  mMembraneIndex : option nat;
  mElementDivisionSpacing : option R;
  mCharacteristicNodeSpacing : R;
  mElementFluidSources : list FluidSource;
  mBalancingFluidSources : list FluidSource
}.

Definition null_node : Node :=
  {| mIndex := 0; mLocation := zero_vector; mRegion := 0;
     mAppliedForce := zero_vector; mNodeAttributes := []; mElementIndices := [] |}.

Definition null_element : ImmersedBoundaryElement :=
  {| elem_mIndex := 0; elem_mNodes := []; mMembraneSpringConstant := 0;
     mMembraneRestLength := 0; mAverageNodeSpacing := None;
     mElementAttributes := []; mCornerNodes := []; mpFluidSource := None |}.

(** Dereferencing.  An index out of range is undefined behaviour in the
    source (it fails an assertion in a debug build); it reads a null
    object here. *)
Definition GetNode (mesh : ImmersedBoundaryMesh) (index : nat) : Node :=
  nth index (mNodes mesh) null_node.

Definition GetElement (mesh : ImmersedBoundaryMesh) (index : nat) : ImmersedBoundaryElement :=
  nth index (mElements mesh) null_element.

Definition GetNumNodes (mesh : ImmersedBoundaryMesh) : nat := length (mNodes mesh).
Definition GetNumElements (mesh : ImmersedBoundaryMesh) : nat := length (mElements mesh).

(** Accessors of an element: [GetNumNodes], [GetNodeGlobalIndex],
    [GetNode] and [GetNodeLocation] with a local index. *)
Definition elem_GetNumNodes (e : ImmersedBoundaryElement) : nat := length (elem_mNodes e).

Definition elem_GetNodeGlobalIndex (e : ImmersedBoundaryElement) (localIndex : nat) : nat :=
  nth localIndex (elem_mNodes e) 0%nat.

Definition elem_GetNode (mesh : ImmersedBoundaryMesh) (e : ImmersedBoundaryElement)
    (localIndex : nat) : Node :=
  GetNode mesh (elem_GetNodeGlobalIndex e localIndex).

Definition elem_GetNodeLocation (mesh : ImmersedBoundaryMesh) (e : ImmersedBoundaryElement)
    (localIndex : nat) : c_vector2 :=
  mLocation (elem_GetNode mesh e localIndex).

(** Mutation of one node, of one element, through its pointer. *)
Definition set_mNodes (mesh : ImmersedBoundaryMesh) (nodes : list Node) : ImmersedBoundaryMesh :=
  {| mNodes := nodes;
     mElements := mElements mesh;
     mMembraneIndex := mMembraneIndex mesh;
     mElementDivisionSpacing := mElementDivisionSpacing mesh;
     mCharacteristicNodeSpacing := mCharacteristicNodeSpacing mesh;
     mElementFluidSources := mElementFluidSources mesh;
     mBalancingFluidSources := mBalancingFluidSources mesh |}.

Definition set_mElements (mesh : ImmersedBoundaryMesh) (elements : list ImmersedBoundaryElement)
  : ImmersedBoundaryMesh :=
  {| mNodes := mNodes mesh;
     mElements := elements;
     mMembraneIndex := mMembraneIndex mesh;
     mElementDivisionSpacing := mElementDivisionSpacing mesh;
     mCharacteristicNodeSpacing := mCharacteristicNodeSpacing mesh;
     mElementFluidSources := mElementFluidSources mesh;
     mBalancingFluidSources := mBalancingFluidSources mesh |}.

Definition set_mElementFluidSources (mesh : ImmersedBoundaryMesh) (sources : list FluidSource)
  : ImmersedBoundaryMesh :=
  {| mNodes := mNodes mesh;
     mElements := mElements mesh;
     mMembraneIndex := mMembraneIndex mesh;
     mElementDivisionSpacing := mElementDivisionSpacing mesh;
     mCharacteristicNodeSpacing := mCharacteristicNodeSpacing mesh;
     mElementFluidSources := sources;
     mBalancingFluidSources := mBalancingFluidSources mesh |}.

Definition update_node (mesh : ImmersedBoundaryMesh) (index : nat) (f : Node -> Node)
  : ImmersedBoundaryMesh :=
  set_mNodes mesh (list_update f index (mNodes mesh)).

Definition update_element (mesh : ImmersedBoundaryMesh) (index : nat)
    (f : ImmersedBoundaryElement -> ImmersedBoundaryElement) : ImmersedBoundaryMesh :=
  set_mElements mesh (list_update f index (mElements mesh)).

(** Mutators of a node. *)
Definition AddAppliedForceContribution (force : c_vector2) (n : Node) : Node :=
  {| mIndex := mIndex n; mLocation := mLocation n; mRegion := mRegion n;
     mAppliedForce := vadd (mAppliedForce n) force;
     mNodeAttributes := mNodeAttributes n; mElementIndices := mElementIndices n |}.

Definition SetPoint (point : c_vector2) (n : Node) : Node :=
  {| mIndex := mIndex n; mLocation := point; mRegion := mRegion n;
     mAppliedForce := mAppliedForce n;
     mNodeAttributes := mNodeAttributes n; mElementIndices := mElementIndices n |}.

Definition SetRegion (region : nat) (n : Node) : Node :=
  {| mIndex := mIndex n; mLocation := mLocation n; mRegion := region;
     mAppliedForce := mAppliedForce n;
     mNodeAttributes := mNodeAttributes n; mElementIndices := mElementIndices n |}.

Definition set_mNodeAttributes (attributes : list R) (n : Node) : Node :=
  {| mIndex := mIndex n; mLocation := mLocation n; mRegion := mRegion n;
     mAppliedForce := mAppliedForce n;
     mNodeAttributes := attributes; mElementIndices := mElementIndices n |}.

Definition AddNodeAttribute (attribute : R) (n : Node) : Node :=
  set_mNodeAttributes (mNodeAttributes n ++ [attribute]) n.

(** [AddElement]: insertion into the ordered set of containing elements. *)
Fixpoint set_insert (i : nat) (s : list nat) : list nat :=
  match s with
  | [] => [i]
  | j :: t => if (i <? j)%nat then i :: s
              else if (i =? j)%nat then s
              else j :: set_insert i t
  end.

Definition AddElement (index : nat) (n : Node) : Node :=
  {| mIndex := mIndex n; mLocation := mLocation n; mRegion := mRegion n;
     mAppliedForce := mAppliedForce n;
     mNodeAttributes := mNodeAttributes n;
     mElementIndices := set_insert index (mElementIndices n) |}.

(** The result of an operation that can throw.  The mesh, which the
    operation mutates in place, is returned beside it: what was written
    before a throw stays written.  [Undefined] stands for executions the
    source gives no meaning to: a loop that cannot end, a read through a
    null pointer. *)
Inductive exception : Type :=
| NodeAttributesDiffer
    (* "All nodes must have the same number of attributes to use this force class." *)
| DivisionSpacingNotSet
    (* "The value of mElementDivisionSpacing has not been set." *)
| AxisDoesNotCrossTwoEdges
    (* "Cannot proceed with element division: the given axis of division
        does not cross two edges of the element" *)
| CouldNotSpaceElements.
    (* "Could not space elements far enough apart during cell division.
        Cannot currently handle this case" *)

Inductive outcome (A : Type) : Type :=
| Returned (a : A)
| Threw (e : exception)
| Undefined.

Arguments Returned {A} a.
Arguments Threw {A} e.
Arguments Undefined {A}.

(** Modelled from the spec: [GetDistanceBetweenNodes] is inherited from
    Chaste's [AbstractMesh], which is not part of the project; the spec
    has the surface area of an element as the "sum of torus distances
    between consecutive nodes", that is the norm of the shortest vector. *)
Definition GetDistanceBetweenNodes (mesh : ImmersedBoundaryMesh) (indexA indexB : nat) : R :=
  norm_2 (GetVectorFromAtoB (mLocation (GetNode mesh indexA)) (mLocation (GetNode mesh indexB))).

Definition GetSurfaceAreaOfElement (mesh : ImmersedBoundaryMesh) (index : nat) : R :=
  let p_element := GetElement mesh index in
  let num_nodes := elem_GetNumNodes p_element in
  fst (fold_left
         (fun (state : R * nat) local_index =>
            let '(surface_area, this_node_index) := state in
            let next_node_index :=
              elem_GetNodeGlobalIndex p_element ((local_index + 1) mod num_nodes)%nat in
            (surface_area + GetDistanceBetweenNodes mesh this_node_index next_node_index,
             next_node_index))
         (seq 0 num_nodes)
         (0, elem_GetNodeGlobalIndex p_element 0)).

Definition SetAverageNodeSpacing (spacing : R) (e : ImmersedBoundaryElement)
  : ImmersedBoundaryElement :=
  {| elem_mIndex := elem_mIndex e; elem_mNodes := elem_mNodes e;
     mMembraneSpringConstant := mMembraneSpringConstant e;
     mMembraneRestLength := mMembraneRestLength e;
     mAverageNodeSpacing := Some spacing;
     mElementAttributes := mElementAttributes e;
     mCornerNodes := mCornerNodes e; mpFluidSource := mpFluidSource e |}.

(** [GetAverageNodeSpacingOfElement]: the value is computed and cached on
    the element when asked to, or when the cache is unset. *)
Definition GetAverageNodeSpacingOfElement (mesh : ImmersedBoundaryMesh) (index : nat)
    (recalculate : bool) : ImmersedBoundaryMesh * R :=
  match recalculate, mAverageNodeSpacing (GetElement mesh index) with
  | false, Some spacing => (mesh, spacing)
  | _, _ =>
      let average_node_spacing :=
        GetSurfaceAreaOfElement mesh index
        / IZR (Z.of_nat (elem_GetNumNodes (GetElement mesh index))) in
      (update_element mesh index (SetAverageNodeSpacing average_node_spacing),
       average_node_spacing)
  end.

(** *** Centroid, moments and short axis *)

(** [index == mMembraneIndex]. *)
Definition is_membrane_index (mesh : ImmersedBoundaryMesh) (index : nat) : bool :=
  match mMembraneIndex mesh with
  | Some membrane_index => (index =? membrane_index)%nat
  | None => false
  end.

(** The variables of the loop over vertices of [GetCentroidOfElement]. *)
Record CentroidState : Type := {
  centroid_pos_1 : c_vector2;
  centroid_x : R;
  centroid_y : R;
  element_signed_area : R
}.

Definition GetCentroidOfElement (mesh : ImmersedBoundaryMesh) (index : nat) : c_vector2 :=
  let p_element := GetElement mesh index in
  if is_membrane_index mesh index then zero_vector
  else
    let num_nodes := elem_GetNumNodes p_element in
    let first_node_location := elem_GetNodeLocation mesh p_element 0 in
    let final :=
      fold_left
        (fun st local_index =>
           let next_node_location :=
             elem_GetNodeLocation mesh p_element ((local_index + 1) mod num_nodes)%nat in
           let pos_2 := GetVectorFromAtoB first_node_location next_node_location in
           let this_x := fst (centroid_pos_1 st) in
           let this_y := snd (centroid_pos_1 st) in
           let next_x := fst pos_2 in
           let next_y := snd pos_2 in
           let signed_area_term := this_x * next_y - this_y * next_x in
           {| centroid_pos_1 := pos_2;
              centroid_x := centroid_x st + (this_x + next_x) * signed_area_term;
              centroid_y := centroid_y st + (this_y + next_y) * signed_area_term;
              element_signed_area := element_signed_area st + 0.5 * signed_area_term |})
        (seq 0 num_nodes)
        {| centroid_pos_1 := zero_vector; centroid_x := 0; centroid_y := 0;
           element_signed_area := 0.0 |} in
    let centroid_0 :=
      fst first_node_location + centroid_x final / (6.0 * element_signed_area final) in
    let centroid_1 :=
      snd first_node_location + centroid_y final / (6.0 * element_signed_area final) in
    (reduce_to_unit centroid_0, reduce_to_unit centroid_1).

(** [c_vector<double, 3>]: the moments [(I_xx, I_yy, I_xy)]. *)
Definition c_vector3 : Type := (R * R * R)%type.

Definition moment_xx (moments : c_vector3) : R := fst (fst moments).
Definition moment_yy (moments : c_vector3) : R := snd (fst moments).
Definition moment_xy (moments : c_vector3) : R := snd moments.

Definition CalculateMomentsOfElement (mesh : ImmersedBoundaryMesh) (index : nat) : c_vector3 :=
  let p_element := GetElement mesh index in
  let num_nodes := elem_GetNumNodes p_element in
  let centroid := GetCentroidOfElement mesh index in
  let this_node_location := elem_GetNodeLocation mesh p_element 0 in
  let '(_, moments) :=
    fold_left
      (fun (st : c_vector2 * c_vector3) local_index =>
         let '(pos_1, moments) := st in
         let next_index := ((local_index + 1) mod num_nodes)%nat in
         let next_node_location := elem_GetNodeLocation mesh p_element next_index in
         let pos_2 := GetVectorFromAtoB centroid next_node_location in
         let signed_area_term := fst pos_1 * snd pos_2 - fst pos_2 * snd pos_1 in
         (pos_2,
          (moment_xx moments
           + (snd pos_1 * snd pos_1 + snd pos_1 * snd pos_2 + snd pos_2 * snd pos_2)
             * signed_area_term,
           moment_yy moments
           + (fst pos_1 * fst pos_1 + fst pos_1 * fst pos_2 + fst pos_2 * fst pos_2)
             * signed_area_term,
           moment_xy moments
           + (fst pos_1 * snd pos_2 + 2 * fst pos_1 * snd pos_1
              + 2 * fst pos_2 * snd pos_2 + fst pos_2 * snd pos_1)
             * signed_area_term)))
      (seq 0 num_nodes)
      (GetVectorFromAtoB centroid this_node_location, (0, 0, 0)) in
  let moments := (moment_xx moments / 12, moment_yy moments / 12, moment_xy moments / 24) in
  if Rltb (moment_xx moments) 0.0
  then (- moment_xx moments, - moment_yy moments, - moment_xy moments)
  else moments.

(** [GetShortAxisOfElement]; [ranf] is the number that
    [RandomNumberGenerator::Instance()->ranf()] returns when it is
    called. *)
Definition GetShortAxisOfElement (mesh : ImmersedBoundaryMesh) (index : nat) (ranf : R)
  : c_vector2 :=
  let moments := CalculateMomentsOfElement mesh index in
  let discriminant :=
    (moment_xx moments - moment_yy moments) * (moment_xx moments - moment_yy moments)
    + 4.0 * moment_xy moments * moment_xy moments in
  if Rltb (fabs discriminant) 1e-10
  then
    let short_axis_0 := ranf in
    (short_axis_0, sqrt (1.0 - short_axis_0 * short_axis_0))
  else if Reqb (moment_xy moments) 0.0
  then
    if Rltb (moment_xx moments) (moment_yy moments) then (0.0, 1.0) else (1.0, 0.0)
  else
    let lambda := 0.5 * (moment_xx moments + moment_yy moments + sqrt discriminant) in
    let short_axis := (1.0, (moment_xx moments - lambda) / moment_xy moments) in
    let magnitude := norm_2 short_axis in
    vdiv short_axis magnitude.

(** *** [DivideElement] *)

(** A loop [for (i = first; i != last;)] that stops at the first node
    satisfying a test and otherwise steps to [next i]: it finds a node,
    or ends without one, or never ends ([last] is never met: after as
    many steps as the element has nodes the indices repeat). *)
Inductive walk_result : Type :=
| FoundAt (i : nat)
| NoneFound
| NeverEnds.

Fixpoint walk_nodes (next : nat -> nat) (satisfied : nat -> bool) (last i fuel : nat)
  : walk_result :=
  match fuel with
  | O => NeverEnds
  | S fuel' =>
      if (i =? last)%nat then NoneFound
      else if satisfied i then FoundAt i
      else walk_nodes next satisfied last (next i) fuel'
  end.

(** One of the four loops "Find correct start_a / end_a / start_b /
    end_b": the node found is moved onto the plane at [half_spacing] from
    the centroid, at once. *)
Definition find_frontier (mesh : ImmersedBoundaryMesh) (elem_idx : nat)
    (centroid unit_perp : c_vector2) (half_spacing : R)
    (next : nat -> nat) (first last : nat) : ImmersedBoundaryMesh * walk_result :=
  let pElement := GetElement mesh elem_idx in
  let num_nodes := elem_GetNumNodes pElement in
  let perpendicular_dist i :=
    inner_prod (GetVectorFromAtoB centroid (mLocation (elem_GetNode mesh pElement i)))
               unit_perp in
  match walk_nodes next (fun i => Rgeb (fabs (perpendicular_dist i)) half_spacing)
                   last first (S num_nodes) with
  | FoundAt i =>
      let new_location :=
        vsub (mLocation (elem_GetNode mesh pElement i))
             (vscale unit_perp
                (copysign (fabs (perpendicular_dist i) - half_spacing)
                          (perpendicular_dist i))) in
      (update_node mesh (elem_GetNodeGlobalIndex pElement i) (SetPoint new_location),
       FoundAt i)
  | result => (mesh, result)
  end.

(** The index a loop leaves in [start_a] (and the like): the node found,
    or the initial value. *)
Definition found_or (result : walk_result) (initial : nat) : nat :=
  match result with
  | FoundAt i => i
  | _ => initial
  end.

(** The loops that fill a location stencil, from [node_idx] round to
    [stop]; [None] when the loop never ends. *)
Fixpoint collect_stencil (mesh : ImmersedBoundaryMesh) (pElement : ImmersedBoundaryElement)
    (stop node_idx fuel : nat) : option (list c_vector2) :=
  match fuel with
  | O => None
  | S fuel' =>
      if (node_idx =? stop)%nat then Some []
      else
        option_map (cons (mLocation (elem_GetNode mesh pElement node_idx)))
          (collect_stencil mesh pElement stop
             ((node_idx + 1) mod elem_GetNumNodes pElement)%nat fuel')
  end.

(** The cumulative distances around a stencil. *)
Fixpoint cumulative_after (previous : c_vector2) (back : R) (rest : list c_vector2) : list R :=
  match rest with
  | [] => []
  | location :: rest' =>
      let back' := back + norm_2 (GetVectorFromAtoB previous location) in
      back' :: cumulative_after location back' rest'
  end.

Definition cumulative_distances (stencil : list c_vector2) : list R :=
  match stencil with
  | [] => [0.0]
  | first :: rest => 0.0 :: cumulative_after first 0.0 rest
  end.

(** [while (location_along_arc > cumulative[last_idx_used + 1])
    last_idx_used++;].  [None] when the loop reads past the end of the
    vector. *)
Fixpoint advance_last_idx_used (location_along_arc : R) (cumulative : list R)
    (last_idx_used fuel : nat) : option nat :=
  match fuel with
  | O => None
  | S fuel' =>
      if (last_idx_used + 1 <? length cumulative)%nat
      then
        if Rgtb location_along_arc (nth (last_idx_used + 1) cumulative 0)
        then advance_last_idx_used location_along_arc cumulative (S last_idx_used) fuel'
        else Some last_idx_used
      else None
  end.

(** The loops over [node_idx] that place [num_nodes] points at equal
    arc length around a stencil: the new locations, in order. *)
Fixpoint resample_stencil (stencil : list c_vector2) (cumulative : list R)
    (target_spacing : R) (node_idxs : list nat) (last_idx_used : nat)
  : option (list c_vector2) :=
  match node_idxs with
  | [] => Some []
  | node_idx :: rest =>
      let location_along_arc := IZR (Z.of_nat node_idx) * target_spacing in
      match advance_last_idx_used location_along_arc cumulative last_idx_used
                                  (length cumulative) with
      | None => None
      | Some last_idx_used =>
          let interpolant :=
            (location_along_arc - nth last_idx_used cumulative 0)
            / (nth (last_idx_used + 1) cumulative 0 - nth last_idx_used cumulative 0) in
          let this_to_next :=
            GetVectorFromAtoB (nth last_idx_used stencil zero_vector)
                              (nth (last_idx_used + 1) stencil zero_vector) in
          let new_location :=
            vadd (nth last_idx_used stencil zero_vector) (vscale this_to_next interpolant) in
          option_map (cons new_location)
            (resample_stencil stencil cumulative target_spacing rest last_idx_used)
      end
  end.

(** A stencil, with its first location added on to the end, resampled. *)
Definition resample_daughter (stencil : list c_vector2) (num_nodes : nat)
  : option (list c_vector2) :=
  let stencil := stencil ++ [nth 0 stencil zero_vector] in
  let cumulative := cumulative_distances stencil in
  let target_spacing := last cumulative 0 / IZR (Z.of_nat num_nodes) in
  resample_stencil stencil cumulative target_spacing (seq 0 num_nodes) 0.

(** Modelled from the spec: the constructors of [Node] and of
    [ImmersedBoundaryElement] are not in the sources; a new node has the
    index and location it is given and nothing else, a new element has
    the index and nodes it is given, no fluid source and no cached
    spacing. *)
Definition new_Node (index : nat) (location : c_vector2) : Node :=
  {| mIndex := index; mLocation := location; mRegion := 0;
     mAppliedForce := zero_vector; mNodeAttributes := []; mElementIndices := [] |}.

Definition new_ImmersedBoundaryElement (index : nat) (nodes : list nat)
  : ImmersedBoundaryElement :=
  {| elem_mIndex := index; elem_mNodes := nodes;
     mMembraneSpringConstant := 0; mMembraneRestLength := 0;
     mAverageNodeSpacing := None; mElementAttributes := [];
     mCornerNodes := []; mpFluidSource := None |}.

Definition set_attributes_and_corners (attributes : list R) (corners : list nat)
    (e : ImmersedBoundaryElement) : ImmersedBoundaryElement :=
  {| elem_mIndex := elem_mIndex e; elem_mNodes := elem_mNodes e;
     mMembraneSpringConstant := mMembraneSpringConstant e;
     mMembraneRestLength := mMembraneRestLength e;
     mAverageNodeSpacing := mAverageNodeSpacing e;
     mElementAttributes := attributes;
     mCornerNodes := corners; mpFluidSource := mpFluidSource e |}.

Definition SetFluidSource (source : nat) (e : ImmersedBoundaryElement)
  : ImmersedBoundaryElement :=
  {| elem_mIndex := elem_mIndex e; elem_mNodes := elem_mNodes e;
     mMembraneSpringConstant := mMembraneSpringConstant e;
     mMembraneRestLength := mMembraneRestLength e;
     mAverageNodeSpacing := mAverageNodeSpacing e;
     mElementAttributes := mElementAttributes e;
     mCornerNodes := mCornerNodes e; mpFluidSource := Some source |}.

Definition set_source_location (location : c_vector2) (s : FluidSource) : FluidSource :=
  {| source_mIndex := source_mIndex s; source_mLocation := location;
     source_mStrength := source_mStrength s;
     source_mAssociatedElementIndex := source_mAssociatedElementIndex s |}.

(** "Move the existing nodes into position to become daughter-A nodes". *)
Definition move_nodes_to (mesh : ImmersedBoundaryMesh) (elem_idx : nat)
    (locations : list c_vector2) : ImmersedBoundaryMesh :=
  let pElement := GetElement mesh elem_idx in
  fold_left
    (fun mesh node_idx =>
       update_node mesh (elem_GetNodeGlobalIndex pElement node_idx)
                   (SetPoint (nth node_idx locations zero_vector)))
    (seq 0 (elem_GetNumNodes pElement)) mesh.

(** "Create new nodes at positions around the daughter-B stencil": each
    new node takes the current size of [mNodes] as its index. *)
Definition push_new_nodes (mesh : ImmersedBoundaryMesh) (locations : list c_vector2)
  : ImmersedBoundaryMesh :=
  fold_left
    (fun mesh new_location_b =>
       let new_node_idx := GetNumNodes mesh in
       set_mNodes mesh (mNodes mesh ++ [new_Node new_node_idx new_location_b]))
    locations mesh.

(** "Copy node attributes", onto the new nodes [new_nodes_vec]. *)
Definition copy_node_attributes (mesh : ImmersedBoundaryMesh) (elem_idx : nat)
    (new_nodes_vec : list nat) : ImmersedBoundaryMesh :=
  let pElement := GetElement mesh elem_idx in
  fold_left
    (fun mesh node_idx =>
       let old_node := elem_GetNode mesh pElement node_idx in
       update_node mesh (nth node_idx new_nodes_vec 0%nat)
         (fun new_node =>
            fold_left (fun n attribute => AddNodeAttribute attribute n)
                      (mNodeAttributes old_node)
                      (SetRegion (mRegion old_node) new_node)))
    (seq 0 (elem_GetNumNodes pElement)) mesh.

(** "Create the new element", [RegisterWithNodes], then the copies of the
    element attributes and of the corner nodes. *)
Definition push_new_element (mesh : ImmersedBoundaryMesh) (elem_idx : nat)
    (new_nodes_vec : list nat) : ImmersedBoundaryMesh :=
  let pElement := GetElement mesh elem_idx in
  let new_elem_idx := GetNumElements mesh in
  let mesh :=
    set_mElements mesh
      (mElements mesh ++ [new_ImmersedBoundaryElement new_elem_idx new_nodes_vec]) in
  let mesh :=
    fold_left (fun mesh node => update_node mesh node (AddElement new_elem_idx))
              new_nodes_vec mesh in
  update_element mesh new_elem_idx
    (fun e => set_attributes_and_corners
                (mElementAttributes e ++ mElementAttributes pElement)
                (mCornerNodes e ++ mCornerNodes pElement) e).

(** The two fluid sources: the one of the existing element is moved to
    the element's new centroid, through the pointer the element holds; a
    new one is made for the new element. *)
Definition update_fluid_sources (mesh : ImmersedBoundaryMesh) (elem_idx new_elem_idx : nat)
  : ImmersedBoundaryMesh * outcome nat :=
  let pElement := GetElement mesh elem_idx in
  match mpFluidSource pElement with
  | None => (mesh, Undefined)
  | Some source =>
      let mesh :=
        set_mElementFluidSources mesh
          (list_update
             (set_source_location (GetCentroidOfElement mesh (elem_mIndex pElement)))
             source (mElementFluidSources mesh)) in
      let new_centroid := GetCentroidOfElement mesh new_elem_idx in
      let new_source := length (mElementFluidSources mesh) in
      let mesh :=
        set_mElementFluidSources mesh
          (mElementFluidSources mesh
           ++ [{| source_mIndex := new_elem_idx;
                  source_mLocation := new_centroid;
                  source_mStrength := 0.0;
                  source_mAssociatedElementIndex := Some new_elem_idx |}]) in
      (update_element mesh new_elem_idx (SetFluidSource new_source), Returned new_elem_idx)
  end.

(** The second half of [DivideElement], once the four frontier nodes are
    found: stencils, resampling, new nodes, new element, fluid sources. *)
Definition divide_at_frontier (mesh : ImmersedBoundaryMesh) (elem_idx : nat)
    (start_a end_a start_b end_b : nat) : ImmersedBoundaryMesh * outcome nat :=
  let pElement := GetElement mesh elem_idx in
  let num_nodes := elem_GetNumNodes pElement in
  match collect_stencil mesh pElement ((end_a + 1) mod num_nodes)%nat start_a (S num_nodes),
        collect_stencil mesh pElement ((end_b + 1) mod num_nodes)%nat start_b (S num_nodes)
  with
  | Some daughter_a_location_stencil, Some daughter_b_location_stencil =>
      match resample_daughter daughter_a_location_stencil num_nodes,
            resample_daughter daughter_b_location_stencil num_nodes
      with
      | Some new_locations_a, Some new_locations_b =>
          let mesh := move_nodes_to mesh elem_idx new_locations_a in
          let new_nodes_vec := seq (GetNumNodes mesh) (length new_locations_b) in
          let mesh := push_new_nodes mesh new_locations_b in
          let mesh := copy_node_attributes mesh elem_idx new_nodes_vec in
          let new_elem_idx := GetNumElements mesh in
          let mesh := push_new_element mesh elem_idx new_nodes_vec in
          update_fluid_sources mesh elem_idx new_elem_idx
      | _, _ => (mesh, Undefined)
      end
  | _, _ => (mesh, Undefined)
  end.

(** [DivideElement].  [pElement] is the element at position [elem_idx]
    of [mElements].  The assertions of the source are checks of a debug
    build and are not part of the embedding. *)
Definition DivideElement (mesh : ImmersedBoundaryMesh) (elem_idx : nat)
    (nodeAIndex nodeBIndex : nat) (centroid axisOfDivision : c_vector2)
  : ImmersedBoundaryMesh * outcome nat :=
  match mElementDivisionSpacing mesh with
  | None => (mesh, Threw DivisionSpacingNotSet)
  | Some element_division_spacing =>
      let half_spacing := 0.5 * element_division_spacing in
      let unit_axis := vdiv axisOfDivision (norm_2 axisOfDivision) in
      let unit_perp := (- snd unit_axis, fst unit_axis) in
      let num_nodes := elem_GetNumNodes (GetElement mesh elem_idx) in
      let forwards i := ((i + 1) mod num_nodes)%nat in
      let backwards i := ((i + num_nodes - 1) mod num_nodes)%nat in
      let start_a := forwards nodeAIndex in
      let end_a := nodeBIndex in
      let start_b := forwards nodeBIndex in
      let end_b := nodeAIndex in
      let '(mesh, condition_1) :=
        find_frontier mesh elem_idx centroid unit_perp half_spacing forwards start_a end_a in
      let start_a := found_or condition_1 start_a in
      let '(mesh, condition_2) :=
        find_frontier mesh elem_idx centroid unit_perp half_spacing backwards end_a start_a in
      let end_a := found_or condition_2 end_a in
      let '(mesh, condition_3) :=
        find_frontier mesh elem_idx centroid unit_perp half_spacing forwards start_b end_b in
      let start_b := found_or condition_3 start_b in
      let '(mesh, condition_4) :=
        find_frontier mesh elem_idx centroid unit_perp half_spacing backwards end_b start_b in
      let end_b := found_or condition_4 end_b in
      match condition_1, condition_2, condition_3, condition_4 with
      | FoundAt _, FoundAt _, FoundAt _, FoundAt _ =>
          divide_at_frontier mesh elem_idx start_a end_a start_b end_b
      | NeverEnds, _, _, _ => (mesh, Undefined)
      | _, NeverEnds, _, _ => (mesh, Undefined)
      | _, _, NeverEnds, _ => (mesh, Undefined)
      | _, _, _, NeverEnds => (mesh, Undefined)
      | _, _, _, _ => (mesh, Threw CouldNotSpaceElements)
      end
  end.

(** ** ImmersedBoundaryCellCellInteractionForce.cpp *)

(** What the force reads of the [ImmersedBoundaryCellPopulation]. *)
Record ImmersedBoundaryCellPopulation : Type := {
  rGetMesh : ImmersedBoundaryMesh;
  GetInteractionDistance : R;
  GetIntrinsicSpacing : R
}.

Definition set_rGetMesh (pop : ImmersedBoundaryCellPopulation) (mesh : ImmersedBoundaryMesh)
  : ImmersedBoundaryCellPopulation :=
  {| rGetMesh := mesh;
     GetInteractionDistance := GetInteractionDistance pop;
     GetIntrinsicSpacing := GetIntrinsicSpacing pop |}.

Record CellCellInteractionForce : Type := {
  mSpringConst : R;
  mRestLength : R;
  mNumProteins : nat;
  mProteinNodeAttributeLocations : list nat;
  mLinearSpring : bool;
  mMorse : bool
}.

(** The three [+=] of [InitializeProteinLevels] on the attributes of one
    node. *)
Definition add_protein_levels (force : CellCellInteractionForce)
    (e_cad p_cad integrin : R) (n : Node) : Node :=
  let attributes := mNodeAttributes n in
  let attributes :=
    list_update (fun a => a + e_cad)
      (nth 0 (mProteinNodeAttributeLocations force) 0%nat) attributes in
  let attributes :=
    list_update (fun a => a + p_cad)
      (nth 1 (mProteinNodeAttributeLocations force) 0%nat) attributes in
  let attributes :=
    list_update (fun a => a + integrin)
      (nth 2 (mProteinNodeAttributeLocations force) 0%nat) attributes in
  set_mNodeAttributes attributes n.

(** The body of the loop over elements of [InitializeProteinLevels].
    Both branches of the test on the membrane element assign 1.0 to
    [e_cad]. *)
Definition InitializeProteinLevels_element (force : CellCellInteractionForce)
    (mesh : ImmersedBoundaryMesh) (elem_idx : nat) : ImmersedBoundaryMesh :=
  let is_membrane_element :=
    match mMembraneIndex mesh with
    | Some membrane_index => (elem_idx =? membrane_index)%nat
    | None => false
    end in
  let e_cad := if is_membrane_element then 1.0 else 1.0 in
  let p_cad := 0.0 in
  let integrin := 0.0 in
  let elem := GetElement mesh elem_idx in
  fold_left
    (fun mesh node_idx =>
       update_node mesh (elem_GetNodeGlobalIndex elem node_idx)
                   (add_protein_levels force e_cad p_cad integrin))
    (seq 0 (elem_GetNumNodes elem)) mesh.

Definition InitializeProteinLevels (force : CellCellInteractionForce)
    (mesh : ImmersedBoundaryMesh) : ImmersedBoundaryMesh :=
  fold_left (InitializeProteinLevels_element force) (seq 0 (GetNumElements mesh)) mesh.

(** The block guarded by [mProteinNodeAttributeLocations.empty()]: it
    runs on the first call only. *)
Definition CellCell_SetUp (force : CellCellInteractionForce)
    (pop : ImmersedBoundaryCellPopulation)
  : CellCellInteractionForce * ImmersedBoundaryCellPopulation * outcome unit :=
  let mesh := rGetMesh pop in
  let force :=
    {| mSpringConst := mSpringConst force;
       mRestLength := 0.25 * GetInteractionDistance pop;
       mNumProteins := mNumProteins force;
       mProteinNodeAttributeLocations := mProteinNodeAttributeLocations force;
       mLinearSpring := mLinearSpring force;
       mMorse := mMorse force |} in
  let num_node_attributes := length (mNodeAttributes (GetNode mesh 0)) in
  if forallb (fun n => (length (mNodeAttributes n) =? num_node_attributes)%nat) (mNodes mesh)
  then
    let force :=
      {| mSpringConst := mSpringConst force;
         mRestLength := mRestLength force;
         mNumProteins := mNumProteins force;
         mProteinNodeAttributeLocations :=
           mProteinNodeAttributeLocations force
           ++ map (fun protein_idx => (num_node_attributes + protein_idx)%nat)
                  (seq 0 (mNumProteins force));
         mLinearSpring := mLinearSpring force;
         mMorse := mMorse force |} in
    let mesh :=
      set_mNodes mesh
        (map (fun n => fold_left (fun n _ => AddNodeAttribute 0.0 n)
                                 (seq 0 (mNumProteins force)) n)
             (mNodes mesh)) in
    let mesh := InitializeProteinLevels force mesh in
    (force, set_rGetMesh pop mesh, Returned tt)
  else (force, pop, Threw NodeAttributesDiffer).

(** The first containing element of a node, [*ContainingElementsBegin()]. *)
Definition first_containing_element (n : Node) : nat := hd 0%nat (mElementIndices n).

(** The forces of one pair of nodes, [force_a_to_b] and [force_b_to_a],
    with the mesh after the two look-ups of the average node spacing;
    [None] when the pair is skipped (same element, or out of range). *)
Definition pair_forces (force : CellCellInteractionForce)
    (pop : ImmersedBoundaryCellPopulation) (mesh : ImmersedBoundaryMesh)
    (pair : nat * nat) : option (c_vector2 * c_vector2 * ImmersedBoundaryMesh) :=
  let e_cad_idx := nth 0 (mProteinNodeAttributeLocations force) 0%nat in
  let p_cad_idx := nth 1 (mProteinNodeAttributeLocations force) 0%nat in
  let integrin_idx := nth 2 (mProteinNodeAttributeLocations force) 0%nat in
  let intrinsic_spacing := GetIntrinsicSpacing pop in
  let well_width := 0.25 * GetInteractionDistance pop in
  let p_node_a := GetNode mesh (fst pair) in
  let p_node_b := GetNode mesh (snd pair) in
  if (first_containing_element p_node_a =? first_containing_element p_node_b)%nat
  then None
  else
    let r_a_attribs := mNodeAttributes p_node_a in
    let r_b_attribs := mNodeAttributes p_node_b in
    let vector_between_nodes := GetVectorFromAtoB (mLocation p_node_a) (mLocation p_node_b) in
    let normed_dist := norm_2 vector_between_nodes in
    if Rltb normed_dist (GetInteractionDistance pop)
    then
      let '(mesh, node_a_elem_spacing) :=
        GetAverageNodeSpacingOfElement mesh (first_containing_element p_node_a) false in
      let '(mesh, node_b_elem_spacing) :=
        GetAverageNodeSpacingOfElement mesh (first_containing_element p_node_b) false in
      let elem_spacing := 0.5 * (node_a_elem_spacing + node_b_elem_spacing) in
      let effective_spring_const := mSpringConst force * elem_spacing / intrinsic_spacing in
      let protein_mult :=
        Rmin (nth e_cad_idx r_a_attribs 0) (nth e_cad_idx r_b_attribs 0)
        + Rmin (nth p_cad_idx r_a_attribs 0) (nth p_cad_idx r_b_attribs 0)
        + Rmax (nth integrin_idx r_a_attribs 0) (nth integrin_idx r_b_attribs 0) in
      let vector_between_nodes :=
        if mLinearSpring force
        then vscale vector_between_nodes
               (effective_spring_const * protein_mult * (normed_dist - mRestLength force)
                / normed_dist)
        else
          let morse_exp := exp ((mRestLength force - normed_dist) / well_width) in
          vscale vector_between_nodes
            (2.0 * well_width * effective_spring_const * protein_mult * morse_exp
             * (1.0 - morse_exp) / normed_dist) in
      let force_a_to_b :=
        vdiv (vscale vector_between_nodes elem_spacing) node_a_elem_spacing in
      let force_b_to_a :=
        vdiv (vscale (vscale vector_between_nodes (-1.0)) elem_spacing) node_b_elem_spacing in
      Some (force_a_to_b, force_b_to_a, mesh)
    else None.

(** The body of the loop over the pairs. *)
Definition pair_step (force : CellCellInteractionForce)
    (pop : ImmersedBoundaryCellPopulation) (mesh : ImmersedBoundaryMesh)
    (pair : nat * nat) : ImmersedBoundaryMesh :=
  match pair_forces force pop mesh pair with
  | None => mesh
  | Some (force_a_to_b, force_b_to_a, mesh) =>
      let mesh := update_node mesh (fst pair) (AddAppliedForceContribution force_a_to_b) in
      update_node mesh (snd pair) (AddAppliedForceContribution force_b_to_a)
  end.

(** [AddImmersedBoundaryForceContribution]; [UpdateProteinLevels] is
    empty in the source. *)
Definition CellCell_AddImmersedBoundaryForceContribution (force : CellCellInteractionForce)
    (pop : ImmersedBoundaryCellPopulation) (rNodePairs : list (nat * nat))
  : CellCellInteractionForce * ImmersedBoundaryCellPopulation * outcome unit :=
  let '(force, pop, set_up) :=
    match mProteinNodeAttributeLocations force with
    | [] => CellCell_SetUp force pop
    | _ :: _ => (force, pop, Returned tt)
    end in
  match set_up with
  | Returned _ =>
      (force, set_rGetMesh pop (fold_left (pair_step force pop) rNodePairs (rGetMesh pop)),
       Returned tt)
  | Threw e => (force, pop, Threw e)
  | Undefined => (force, pop, Undefined)
  end.

(** ** ImmersedBoundaryMembraneElasticityForce.cpp *)

(** The first loop over the nodes of an element in [AddForceContribution]:
    the entry [node_idx] of [elastic_force_to_next_node]. *)
Definition elastic_force_to_next_node (mesh : ImmersedBoundaryMesh)
    (elem : ImmersedBoundaryElement) (node_idx : nat) : c_vector2 :=
  let num_nodes := elem_GetNumNodes elem in
  let spring_constant := mMembraneSpringConstant elem in
  let rest_length := mMembraneRestLength elem in
  let next_idx := ((node_idx + 1) mod num_nodes)%nat in
  let apical_or_basal := (mRegion (elem_GetNode mesh elem node_idx) <? 2)%nat in
  let modified_spring_constant :=
    if apical_or_basal then spring_constant * 10.0 else spring_constant in
  let modified_rest_length :=
    if apical_or_basal then rest_length * 4.0 else rest_length in
  let vector := GetVectorFromAtoB (elem_GetNodeLocation mesh elem next_idx)
                                  (elem_GetNodeLocation mesh elem node_idx) in
  let normed_dist := norm_2 vector in
  vscale vector (modified_spring_constant * (normed_dist - modified_rest_length) / normed_dist).

(** The body of the loop over elements: the vector of spring forces is
    filled from the mesh as it is on entry, then every node of the element
    receives the contributions of its two springs. *)
Definition membrane_force_on_element (mesh : ImmersedBoundaryMesh)
    (elem : ImmersedBoundaryElement) : ImmersedBoundaryMesh :=
  let num_nodes := elem_GetNumNodes elem in
  let forces := map (elastic_force_to_next_node mesh elem) (seq 0 num_nodes) in
  fold_left
    (fun mesh node_idx =>
       let prev_idx := ((node_idx + num_nodes - 1) mod num_nodes)%nat in
       let aggregate_force :=
         vsub (nth prev_idx forces zero_vector) (nth node_idx forces zero_vector) in
       update_node mesh (elem_GetNodeGlobalIndex elem node_idx)
                   (AddAppliedForceContribution aggregate_force))
    (seq 0 num_nodes) mesh.

Definition Membrane_AddForceContribution (mesh : ImmersedBoundaryMesh) : ImmersedBoundaryMesh :=
  fold_left membrane_force_on_element (mElements mesh) mesh.

(* ================================================================== *)
(** * Part II: properties *)
(* ================================================================== *)

(** ** Facts on doubles *)

Lemma Rltb_true a b : a < b -> Rltb a b = true.
Proof. intros H; unfold Rltb; destruct (Rlt_dec a b); [reflexivity | contradiction]. Qed.

Lemma Rltb_false a b : b <= a -> Rltb a b = false.
Proof. intros H; unfold Rltb; destruct (Rlt_dec a b); [lra | reflexivity]. Qed.

Lemma Rleb_true a b : a <= b -> Rleb a b = true.
Proof. intros H; unfold Rleb; destruct (Rle_dec a b); [reflexivity | contradiction]. Qed.

Lemma Rleb_false a b : b < a -> Rleb a b = false.
Proof. intros H; unfold Rleb; destruct (Rle_dec a b); [lra | reflexivity]. Qed.

Lemma Rgtb_true a b : b < a -> Rgtb a b = true.
Proof. apply Rltb_true. Qed.

Lemma Rgtb_false a b : a <= b -> Rgtb a b = false.
Proof. apply Rltb_false. Qed.

Lemma Rgeb_true a b : b <= a -> Rgeb a b = true.
Proof. apply Rleb_true. Qed.

Lemma Rgeb_false a b : a < b -> Rgeb a b = false.
Proof. apply Rleb_false. Qed.

Lemma Rltb_spec a b : Rltb a b = true <-> a < b.
Proof. unfold Rltb; destruct (Rlt_dec a b); split; intros; try assumption; try reflexivity; try discriminate; contradiction. Qed.

Lemma Rleb_spec a b : Rleb a b = true <-> a <= b.
Proof. unfold Rleb; destruct (Rle_dec a b); split; intros; try assumption; try reflexivity; try discriminate; contradiction. Qed.

(** Equalities between closed expressions: [lra], or [field] once the
    decimal constants are unfolded to quotients of integers. *)
Ltac real_eq :=
  solve [ lra
        | unfold Q2R; cbn [QArith_base.Qnum QArith_base.Qden]; field; lra
        | unfold Q2R; cbn [QArith_base.Qnum QArith_base.Qden]; field ].

Lemma Int_part_unique (r : R) (z : Z) : IZR z <= r < IZR z + 1 -> Int_part r = z.
Proof. intros H; symmetry; apply Int_part_spec; lra. Qed.

Lemma fmod_1_unit x : 0 <= x < 1 -> fmod x 1.0 = x.
Proof.
  intros H; unfold fmod, trunc.
  rewrite Rltb_false by (apply Rmult_le_pos; lra).
  rewrite (Int_part_unique (x / 1.0) 0) by (simpl; lra).
  simpl; lra.
Qed.

Lemma fmod_1_next x : 1 <= x < 2 -> fmod x 1.0 = x - 1.
Proof.
  intros H; unfold fmod, trunc.
  rewrite Rltb_false by lra.
  rewrite (Int_part_unique (x / 1.0) 1) by (simpl; lra).
  simpl; lra.
Qed.

(** ** C2: shortest vector on the unit torus *)

(** The sign function used by the contract. *)
Definition sign (x : R) : R :=
  if Rltb 0 x then 1 else if Rltb x 0 then -1 else 0.

(** What the contract says of one component [v] of the vector from
    coordinate [a] to coordinate [b]. *)
Definition shortest_component (a b v : R) : Prop :=
  (Rabs (b - a) > 0.5 -> v = sign (a - b) * (1 - Rabs (b - a))) /\
  (Rabs (b - a) <= 0.5 -> v = b - a) /\
  Rabs v <= 0.5 /\
  reduce_to_unit (a + v) = b.

Lemma GetVectorFromAtoB_dim_contract a b :
  0 <= a < 1 -> 0 <= b < 1 -> shortest_component a b (GetVectorFromAtoB_dim a b).
Proof.
  intros Ha Hb. unfold shortest_component, GetVectorFromAtoB_dim, copysign, fabs, sign.
  destruct (Rle_dec (Rabs (b - a)) 0.5) as [Hle | Hgt].
  - rewrite Rgtb_false by assumption.
    repeat split; try lra.
    unfold reduce_to_unit. rewrite Rltb_false by lra.
    replace (a + (b - a)) with b by ring. apply fmod_1_unit; assumption.
  - apply Rnot_le_lt in Hgt. rewrite Rgtb_true by assumption.
    destruct (Rlt_dec (b - a) 0) as [Hneg | Hpos].
    + (* b - a < -0.5: step forwards across the boundary *)
      rewrite (Rabs_left (b - a)) in * by assumption.
      rewrite (Rltb_false (- (b - a)) 0) by lra.
      rewrite (Rltb_true 0 (a - b)) by lra.
      rewrite (Rabs_left (- (b - a) - 1.0)) by lra.
      repeat split; try lra.
      * rewrite Rabs_pos_eq by lra. lra.
      * unfold reduce_to_unit. rewrite Rltb_false by lra.
        rewrite fmod_1_next by lra. lra.
    + (* b - a > 0.5: step backwards across the boundary *)
      apply Rnot_lt_le in Hpos.
      rewrite (Rabs_pos_eq (b - a)) in * by assumption.
      rewrite (Rltb_true (- (b - a)) 0) by lra.
      rewrite (Rltb_false 0 (a - b)) by lra.
      rewrite (Rltb_true (a - b) 0) by lra.
      rewrite (Rabs_left (b - a - 1.0)) by lra.
      repeat split; try lra.
      * rewrite Rabs_left by lra. lra.
      * unfold reduce_to_unit. rewrite Rltb_true by lra. lra.
Qed.

Lemma norm_2_bound (v : c_vector2) (c : R) :
  Rabs (fst v) <= c -> Rabs (snd v) <= c -> norm_2 v <= sqrt (c * c + c * c).
Proof.
  intros H1 H2. unfold norm_2. apply sqrt_le_1_alt.
  assert (forall x, Rabs x <= c -> x * x <= c * c) as Hsq.
  { intros x Hx. unfold Rabs in Hx. destruct (Rcase_abs x); nra. }
  apply Rplus_le_compat; apply Hsq; assumption.
Qed.

(** C2.  For points [A], [B] of the unit square, each component of
    [GetVectorFromAtoB A B] is [sign(A-B) * (1 - |B-A|)] when
    [|B-A| > 0.5] and [B-A] otherwise; it is at most 0.5 in absolute
    value, so the norm of the vector is at most [sqrt (0.5^2 + 0.5^2)];
    and adding the vector to [A] and reducing into [0,1) gives [B]. *)
Theorem GetVectorFromAtoB_contract (A B : c_vector2) :
  0 <= fst A < 1 -> 0 <= snd A < 1 ->
  0 <= fst B < 1 -> 0 <= snd B < 1 ->
  shortest_component (fst A) (fst B) (fst (GetVectorFromAtoB A B)) /\
  shortest_component (snd A) (snd B) (snd (GetVectorFromAtoB A B)) /\
  norm_2 (GetVectorFromAtoB A B) <= sqrt (0.5 * 0.5 + 0.5 * 0.5).
Proof.
  intros HA1 HA2 HB1 HB2.
  pose proof (GetVectorFromAtoB_dim_contract (fst A) (fst B) HA1 HB1) as H1.
  pose proof (GetVectorFromAtoB_dim_contract (snd A) (snd B) HA2 HB2) as H2.
  split; [exact H1 | split; [exact H2 |]].
  apply norm_2_bound; [apply H1 | apply H2].
Qed.

Lemma GetVectorFromAtoB_contract_witness :
  shortest_component 0.9 0.1 (fst (GetVectorFromAtoB (0.9, 0.2) (0.1, 0.3))) /\
  shortest_component 0.2 0.3 (snd (GetVectorFromAtoB (0.9, 0.2) (0.1, 0.3))) /\
  norm_2 (GetVectorFromAtoB (0.9, 0.2) (0.1, 0.3)) <= sqrt (0.5 * 0.5 + 0.5 * 0.5).
Proof.
  apply (GetVectorFromAtoB_contract (0.9, 0.2) (0.1, 0.3)); simpl; lra.
Defined.

(** ** C1: the spreading stencil *)

(** The weight of one cell: [phi(dist_x,Dx) * phi(dist_y,Dy) * Dx * Dy]. *)
Definition stencil_weight (m : SimulationModifier) (p : StencilPoint) : R :=
  Delta1D (dist_x p) (mGridSpacingX m) * Delta1D (dist_y p) (mGridSpacingY m)
  * mGridSpacingX m * mGridSpacingY m.

Definition stencil_weight_sum (m : SimulationModifier) (node_location : c_vector2) : R :=
  list_sum (map (stencil_weight m) (spreading_stencil m node_location)).

(** *** The cosine of the delta function, in units of the grid spacing *)

Definition cos_quarter (t : R) : R := cos (PI * t / 2).

Lemma cos_period_Z (x : R) (k : Z) : cos (x + 2 * IZR k * PI) = cos x.
Proof.
  destruct (Z_le_gt_dec 0 k) as [Hk | Hk].
  - rewrite <- (Z2Nat.id k Hk), <- INR_IZR_INZ. apply cos_period.
  - rewrite <- (cos_period (x + 2 * IZR k * PI) (Z.to_nat (- k))).
    rewrite INR_IZR_INZ, Z2Nat.id by lia. rewrite opp_IZR. f_equal. ring.
Qed.

Lemma cos_quarter_period (t : R) (n : Z) : cos_quarter (t + 4 * IZR n) = cos_quarter t.
Proof.
  unfold cos_quarter. rewrite <- (cos_period_Z (PI * t / 2) n). f_equal. field.
Qed.

Lemma cos_quarter_shift2 (t : R) : cos_quarter (t + 2) = - cos_quarter t.
Proof.
  unfold cos_quarter. rewrite <- neg_cos. f_equal. field.
Qed.

Lemma cos_quarter_even (t : R) : cos_quarter (- t) = cos_quarter t.
Proof.
  unfold cos_quarter. rewrite <- (cos_neg (PI * t / 2)). f_equal. field.
Qed.

Lemma cos_quarter_Rabs (t : R) : cos_quarter (Rabs t) = cos_quarter t.
Proof.
  unfold Rabs. destruct (Rcase_abs t); [apply cos_quarter_even | reflexivity].
Qed.

(** Four consecutive grid points around a node: the cosines cancel. *)
Lemma cos_quarter_four (t : R) :
  cos_quarter (t - 1) + cos_quarter t + cos_quarter (t + 1) + cos_quarter (t + 2) = 0.
Proof.
  rewrite (cos_quarter_shift2 t).
  replace (t + 1) with (t - 1 + 2) by ring. rewrite (cos_quarter_shift2 (t - 1)). ring.
Qed.

(** The delta function at the grid point of index [I], times the spacing. *)
Lemma Delta1D_scaled (I v D : R) :
  0 < D ->
  Delta1D (fabs (I * D - v)) D * D = 0.25 * (1 + cos_quarter (I - v / D)).
Proof.
  intros HD. unfold Delta1D, fabs.
  replace (PI * Rabs (I * D - v) / (2 * D)) with (PI * Rabs (I - v / D) / 2).
  - fold (cos_quarter (Rabs (I - v / D))). rewrite cos_quarter_Rabs.
    unfold Q2R; cbn [QArith_base.Qnum QArith_base.Qden]. field. lra.
  - replace (I * D - v) with (D * (I - v / D)) by (field; lra).
    rewrite Rabs_mult, (Rabs_pos_eq D) by lra. field. lra.
Qed.

(** Partition of unity along one axis: four grid indices that are
    consecutive modulo 4 carry weights that sum to 1, wherever the node is. *)
Lemma axis_weights_sum (I0 I1 I2 I3 F n0 n1 n2 n3 : Z) (u : R) :
  I0 = (F - 1 + 4 * n0)%Z -> I1 = (F + 4 * n1)%Z ->
  I2 = (F + 1 + 4 * n2)%Z -> I3 = (F + 2 + 4 * n3)%Z ->
  0.25 * (1 + cos_quarter (IZR I0 - u)) + 0.25 * (1 + cos_quarter (IZR I1 - u))
  + 0.25 * (1 + cos_quarter (IZR I2 - u)) + 0.25 * (1 + cos_quarter (IZR I3 - u)) = 1.
Proof.
  intros -> -> -> ->.
  pose proof (cos_quarter_four (IZR F - u)) as H4.
  replace (IZR (F - 1 + 4 * n0) - u) with (IZR F - u - 1 + 4 * IZR n0)
    by (rewrite plus_IZR, minus_IZR, mult_IZR; ring).
  replace (IZR (F + 4 * n1) - u) with (IZR F - u + 4 * IZR n1)
    by (rewrite plus_IZR, mult_IZR; ring).
  replace (IZR (F + 1 + 4 * n2) - u) with (IZR F - u + 1 + 4 * IZR n2)
    by (rewrite !plus_IZR, mult_IZR; ring).
  replace (IZR (F + 2 + 4 * n3) - u) with (IZR F - u + 2 + 4 * IZR n3)
    by (rewrite !plus_IZR, mult_IZR; ring).
  rewrite !cos_quarter_period. lra.
Qed.

(** *** Integer conversions in the loops *)

Lemma to_unsigned_small (z : Z) : (0 <= z < 2 ^ 32)%Z -> to_unsigned z = z.
Proof. intros H. unfold to_unsigned. apply Z.mod_small. exact H. Qed.

Lemma wrap_first_idx_nonneg (f N : Z) : (0 <= f)%Z -> wrap_first_idx f N = f.
Proof.
  intros H. unfold wrap_first_idx.
  destruct (Z.eqb_spec f (-1)); [lia | reflexivity].
Qed.

Lemma wrap_first_idx_neg1 (N : Z) : (0 < N < 2 ^ 31)%Z -> wrap_first_idx (-1) N = (N - 1)%Z.
Proof.
  intros H. unfold wrap_first_idx. simpl Z.eqb. cbv iota.
  assert (2 ^ 31 = 2147483648)%Z as E31 by reflexivity.
  assert (2 ^ 32 = 4294967296)%Z as E32 by reflexivity.
  rewrite to_unsigned_small by lia.
  unfold to_int. destruct (Z.ltb_spec (-1 + N) (2 ^ 31)); lia.
Qed.

Lemma wrap_first_idx_idem (f N : Z) :
  (0 < N < 2 ^ 31)%Z -> wrap_first_idx (wrap_first_idx f N) N = wrap_first_idx f N.
Proof.
  intros H. destruct (Z.eq_dec f (-1)) as [-> | Hf].
  - rewrite wrap_first_idx_neg1 by assumption. apply wrap_first_idx_nonneg. lia.
  - unfold wrap_first_idx at 2. destruct (Z.eqb_spec f (-1)); [contradiction |].
    unfold wrap_first_idx. destruct (Z.eqb_spec f (-1)); [contradiction | reflexivity].
Qed.

(** *** The stencil as a product of two axes *)

(** The weight along one axis of the grid point the loop visits when the
    loop variable added to [first_idx] is [k]. *)
Definition axis_weight (first_idx k : Z) (v D : R) : R :=
  Delta1D (fabs (IZR (to_unsigned (first_idx + k)) * D - v)) D * D.

(** Sum of the four weights of one pass over an axis: [first_idx] is the
    value on entry, wrapped after the first distance has been computed. *)
Definition axis_pass (first_idx N : Z) (v D : R) : R :=
  axis_weight first_idx 0 v D
  + axis_weight (wrap_first_idx first_idx N) 1 v D
  + axis_weight (wrap_first_idx first_idx N) 2 v D
  + axis_weight (wrap_first_idx first_idx N) 3 v D.

Lemma stencil_weight_sum_axes (m : SimulationModifier) (loc : c_vector2) :
  (0 < mNumGridPtsX m < 2 ^ 31)%Z ->
  (0 < mNumGridPtsY m < 2 ^ 31)%Z ->
  let fx := (floor (fst loc / mGridSpacingX m) - 1)%Z in
  let fy := (floor (snd loc / mGridSpacingY m) - 1)%Z in
  let wy := wrap_first_idx fy (mNumGridPtsY m) in
  stencil_weight_sum m loc =
    axis_weight fx 0 (fst loc) (mGridSpacingX m)
      * axis_pass fy (mNumGridPtsY m) (snd loc) (mGridSpacingY m)
    + (axis_pass fx (mNumGridPtsX m) (fst loc) (mGridSpacingX m)
       - axis_weight fx 0 (fst loc) (mGridSpacingX m))
      * axis_pass wy (mNumGridPtsY m) (snd loc) (mGridSpacingY m).
Proof.
  intros HNx HNy fx fy wy.
  unfold stencil_weight_sum, spreading_stencil.
  fold fx. fold fy.
  cbn [spread_x_loop spread_y_loop app map list_sum fold_right].
  rewrite !(wrap_first_idx_idem fy) by assumption. fold wy.
  unfold stencil_weight, axis_pass, axis_weight.
  cbn [dist_x dist_y].
  subst wy. rewrite !(wrap_first_idx_idem fy), !(wrap_first_idx_idem fx) by assumption.
  ring.
Qed.

Lemma axis_weight_scaled (first_idx k : Z) (v D : R) :
  0 < D ->
  axis_weight first_idx k v D
  = 0.25 * (1 + cos_quarter (IZR (to_unsigned (first_idx + k)) - v / D)).
Proof. intros HD. unfold axis_weight. apply Delta1D_scaled. exact HD. Qed.

(** One pass over an axis sums to 1 when the first index does not wrap,
    and also when it wraps on a grid whose size is a multiple of 4: the
    distances taken from the wrapped index are off by the whole period of
    the domain, which is then a multiple of the period [4 * D] of the
    cosine. *)
Lemma axis_pass_one (N f : Z) (v D : R) :
  (0 < N < 2 ^ 31)%Z -> 0 < D ->
  (-1 <= f <= N - 2)%Z -> (f = -1 -> N mod 4 = 0)%Z ->
  axis_pass f N v D = 1 /\ axis_pass (wrap_first_idx f N) N v D = 1.
Proof.
  intros HN HD Hf Hwrap.
  assert (2 ^ 31 = 2147483648)%Z as E31 by reflexivity.
  assert (2 ^ 32 = 4294967296)%Z as E32 by reflexivity.
  unfold axis_pass. rewrite wrap_first_idx_idem by assumption.
  rewrite !axis_weight_scaled by assumption.
  destruct (Z.eq_dec f (-1)) as [-> | Hne].
  - specialize (Hwrap eq_refl).
    apply Z.mod_divide in Hwrap; [| lia]. destruct Hwrap as [n Hn].
    rewrite wrap_first_idx_neg1 by assumption.
    rewrite !(to_unsigned_small (N - 1 + _)) by lia.
    replace (to_unsigned (-1 + 0)) with 4294967295%Z by reflexivity.
    split.
    + apply (axis_weights_sum _ _ _ _ 0 1073741824 n n n); lia.
    + apply (axis_weights_sum _ _ _ _ N 0 0 0 0); lia.
  - rewrite wrap_first_idx_nonneg by lia.
    rewrite !(to_unsigned_small (f + _)) by lia.
    split; apply (axis_weights_sum _ _ _ _ (f + 1) 0 0 0 0); lia.
Qed.

Lemma floor_grid_index (N : Z) (v : R) :
  (0 < N)%Z -> 0 <= v < 1 ->
  (0 <= floor (v / (1.0 / IZR N)) <= N - 1)%Z /\
  (1.0 / IZR N <= v -> (1 <= floor (v / (1.0 / IZR N)))%Z).
Proof.
  intros HN Hv. unfold floor.
  assert (0 < IZR N) as HNR by (apply IZR_lt; exact HN).
  assert (v / (1.0 / IZR N) = v * IZR N) as E.
  { unfold Q2R; cbn [QArith_base.Qnum QArith_base.Qden]. field. lra. }
  rewrite E.
  destruct (base_Int_part (v * IZR N)) as [Hlo Hhi].
  assert (0 <= v * IZR N < IZR N) as Hb by nra.
  repeat split.
  - apply Z.lt_succ_r, lt_IZR. rewrite succ_IZR. lra.
  - apply Z.lt_succ_r, lt_IZR. rewrite succ_IZR, minus_IZR. lra.
  - intros Hge.
    assert (1 <= v * IZR N) as H1.
    { apply (Rmult_le_compat_r (IZR N)) in Hge; [| lra].
      replace (1.0 / IZR N * IZR N) with 1 in Hge; [exact Hge |].
      unfold Q2R; cbn [QArith_base.Qnum QArith_base.Qden]. field. lra. }
    assert (0 < Int_part (v * IZR N))%Z by (apply lt_IZR; lra). lia.
Qed.

(** Partition of unity of the spreading stencil as the code builds it:
    for a node of the unit square the sixteen weights sum to 1 along each
    axis where the stencil does not wrap (the coordinate is at least one
    grid spacing) or the number of grid points is a multiple of 4. *)
Theorem stencil_partition_of_unity (numGridPtsY numGridPtsX : Z) (reynolds : R)
    (node_location : c_vector2) :
  (0 < numGridPtsX < 2 ^ 31)%Z -> (0 < numGridPtsY < 2 ^ 31)%Z ->
  0 <= fst node_location < 1 -> 0 <= snd node_location < 1 ->
  ((numGridPtsX mod 4 = 0)%Z \/ 1.0 / IZR numGridPtsX <= fst node_location) ->
  ((numGridPtsY mod 4 = 0)%Z \/ 1.0 / IZR numGridPtsY <= snd node_location) ->
  stencil_weight_sum (SetMemberVariables numGridPtsY numGridPtsX reynolds) node_location = 1.
Proof.
  intros HNx HNy Hx Hy Hwx Hwy.
  rewrite stencil_weight_sum_axes by assumption.
  cbn [mNumGridPtsX mNumGridPtsY mGridSpacingX mGridSpacingY SetMemberVariables].
  assert (0 < IZR numGridPtsX) as HNxR by (apply IZR_lt; lia).
  assert (0 < IZR numGridPtsY) as HNyR by (apply IZR_lt; lia).
  assert (0 < 1.0 / IZR numGridPtsX) as HDx by (apply Rdiv_lt_0_compat; lra).
  assert (0 < 1.0 / IZR numGridPtsY) as HDy by (apply Rdiv_lt_0_compat; lra).
  destruct (floor_grid_index numGridPtsX (fst node_location)) as [Hfx Hfx1]; [lia | assumption |].
  destruct (floor_grid_index numGridPtsY (snd node_location)) as [Hfy Hfy1]; [lia | assumption |].
  destruct (axis_pass_one numGridPtsX
              (floor (fst node_location / (1.0 / IZR numGridPtsX)) - 1)
              (fst node_location) (1.0 / IZR numGridPtsX)) as [Hpx _];
    [assumption | assumption | lia | |].
  { intros E. destruct Hwx as [H4 | Hge]; [exact H4 | specialize (Hfx1 Hge); lia]. }
  destruct (axis_pass_one numGridPtsY
              (floor (snd node_location / (1.0 / IZR numGridPtsY)) - 1)
              (snd node_location) (1.0 / IZR numGridPtsY)) as [Hpy Hpy'];
    [assumption | assumption | lia | |].
  { intros E. destruct Hwy as [H4 | Hge]; [exact H4 | specialize (Hfy1 Hge); lia]. }
  rewrite Hpx, Hpy, Hpy'. ring.
Qed.

(** ** Facts on vectors and grids *)

Lemma list_update_length {A : Type} (f : A -> A) (i : nat) (l : list A) :
  length (list_update f i l) = length l.
Proof.
  revert i; induction l as [| a t IH]; intros [| j]; simpl; try reflexivity.
  rewrite IH. reflexivity.
Qed.

Lemma nth_list_update_eq {A : Type} (f : A -> A) (i : nat) (l : list A) (d : A) :
  (i < length l)%nat -> nth i (list_update f i l) d = f (nth i l d).
Proof.
  revert i; induction l as [| a t IH]; intros [| j] H; simpl in *; try lia.
  - reflexivity.
  - apply IH. lia.
Qed.

Lemma nth_list_update_neq {A : Type} (f : A -> A) (i j : nat) (l : list A) (d : A) :
  i <> j -> nth j (list_update f i l) d = nth j l d.
Proof.
  revert i j; induction l as [| a t IH]; intros [| i] [| j] H; simpl; try reflexivity.
  - contradiction.
  - apply IH. lia.
Qed.

Lemma nth_list_update_default {A : Type} (f : A -> A) (i : nat) (l : list A) (d : A) :
  (length l <= i)%nat -> nth i (list_update f i l) d = d.
Proof.
  intros H. apply nth_overflow. rewrite list_update_length. exact H.
Qed.

(** A grid of [ny] rows of [nx] cells. *)
Definition grid_wf {A : Type} (g : grid A) (ny nx : nat) : Prop :=
  length g = ny /\ forall y, (y < ny)%nat -> length (nth y g []) = nx.

Lemma grid_wf_update {A : Type} (f : A -> A) (y x : nat) (g : grid A) (ny nx : nat) :
  grid_wf g ny nx -> grid_wf (grid_update f y x g) ny nx.
Proof.
  intros [Hlen Hrows]. unfold grid_update. split.
  - rewrite list_update_length. exact Hlen.
  - intros y' Hy'. destruct (Nat.eq_dec y y') as [-> | Hne].
    + rewrite nth_list_update_eq by lia. rewrite list_update_length. apply Hrows, Hy'.
    + rewrite nth_list_update_neq by exact Hne. apply Hrows, Hy'.
Qed.

Lemma grid_get_update_eq {A : Type} (f : A -> A) (d : A) (y x : nat) (g : grid A)
    (ny nx : nat) :
  grid_wf g ny nx -> (y < ny)%nat -> (x < nx)%nat ->
  grid_get d (grid_update f y x g) y x = f (grid_get d g y x).
Proof.
  intros [Hlen Hrows] Hy Hx. unfold grid_get, grid_update.
  rewrite nth_list_update_eq by lia.
  apply nth_list_update_eq. rewrite Hrows by exact Hy. exact Hx.
Qed.

Lemma grid_get_update_neq {A : Type} (f : A -> A) (d : A) (y x y' x' : nat) (g : grid A) :
  (y' <> y \/ x' <> x) ->
  grid_get d (grid_update f y x g) y' x' = grid_get d g y' x'.
Proof.
  intros H. unfold grid_get, grid_update.
  destruct (Nat.eq_dec y y') as [<- | Hne].
  - destruct H as [H | H]; [contradiction |].
    destruct (Nat.lt_ge_cases y (length g)) as [Hlt | Hge].
    + rewrite nth_list_update_eq by exact Hlt. apply nth_list_update_neq. lia.
    + rewrite nth_list_update_default by exact Hge.
      rewrite (nth_overflow g) by exact Hge. reflexivity.
  - rewrite nth_list_update_neq by exact Hne. reflexivity.
Qed.

Lemma SetupGrid_wf {A : Type} (zero : A) (m : SimulationModifier) :
  grid_wf (SetupGrid zero m) (Z.to_nat (mNumGridPtsY m)) (Z.to_nat (mNumGridPtsX m)).
Proof.
  unfold SetupGrid. split.
  - apply repeat_length.
  - intros y Hy.
    assert (In (nth y (repeat (repeat zero (Z.to_nat (mNumGridPtsX m)))
                         (Z.to_nat (mNumGridPtsY m))) [])
               (repeat (repeat zero (Z.to_nat (mNumGridPtsX m)))
                       (Z.to_nat (mNumGridPtsY m)))) as Hin
        by (apply nth_In; rewrite repeat_length; exact Hy).
    apply repeat_spec in Hin. rewrite Hin. apply repeat_length.
Qed.

(** ** C1, continued: what a node deposits on the force grids *)

Lemma list_sum_cons (a : R) (l : list R) : list_sum (a :: l) = a + list_sum l.
Proof. reflexivity. Qed.

Lemma list_sum_update_add (a : R) (i : nat) (l : list R) :
  (i < length l)%nat -> list_sum (list_update (fun c => c + a) i l) = list_sum l + a.
Proof.
  revert i. induction l as [| b t IH]; intros [| j] H; simpl in H; try lia;
    cbn [list_update]; rewrite !list_sum_cons.
  - lra.
  - rewrite IH by lia. lra.
Qed.

Lemma grid_total_update_add (a : R) (y x : nat) (g : grid R) (ny nx : nat) :
  grid_wf g ny nx -> (y < ny)%nat -> (x < nx)%nat ->
  grid_total (grid_update (fun c => c + a) y x g) = grid_total g + a.
Proof.
  intros [Hlen Hrows] Hy Hx.
  assert (x < length (nth y g []))%nat as Hrow by (rewrite Hrows by exact Hy; exact Hx).
  rewrite <- Hlen in Hy. clear Hlen Hrows Hx.
  unfold grid_total, grid_update. revert y Hy Hrow.
  induction g as [| row g IH]; intros [| y] Hy Hrow; simpl in Hy, Hrow; try lia;
    cbn [list_update map]; rewrite !list_sum_cons.
  - rewrite list_sum_update_add by exact Hrow. lra.
  - rewrite IH by (try lia; exact Hrow). lra.
Qed.

Definition in_grid (m : SimulationModifier) (p : StencilPoint) : Prop :=
  (grid_row p < Z.to_nat (mNumGridPtsY m))%nat /\ (grid_col p < Z.to_nat (mNumGridPtsX m))%nat.

Lemma spreading_stencil_in_grid (m : SimulationModifier) (node_location : c_vector2) :
  (0 < mNumGridPtsX m)%Z -> (0 < mNumGridPtsY m)%Z ->
  Forall (in_grid m) (spreading_stencil m node_location).
Proof.
  intros HNx HNy. unfold spreading_stencil.
  cbn [spread_x_loop spread_y_loop app].
  repeat constructor; cbn [grid_row grid_col];
    (apply Z2Nat.inj_lt; [apply Z.mod_pos_bound; assumption | lia
                         | apply Z.mod_pos_bound; assumption]).
Qed.

Lemma spread_to_cells_total (m : SimulationModifier) (dl : R) (applied_force : c_vector2)
    (points : list StencilPoint) (grids : grid R * grid R) :
  grid_wf (fst grids) (Z.to_nat (mNumGridPtsY m)) (Z.to_nat (mNumGridPtsX m)) ->
  grid_wf (snd grids) (Z.to_nat (mNumGridPtsY m)) (Z.to_nat (mNumGridPtsX m)) ->
  Forall (in_grid m) points ->
  let grids' := fold_left (spread_to_cell m dl applied_force) points grids in
  let deltas :=
    list_sum (map (fun p => Delta1D (dist_x p) (mGridSpacingX m)
                            * Delta1D (dist_y p) (mGridSpacingY m)) points) in
  grid_total (fst grids') = grid_total (fst grids) + fst applied_force * dl * deltas /\
  grid_total (snd grids') = grid_total (snd grids) + snd applied_force * dl * deltas.
Proof.
  intros Hx Hy Hin. revert grids Hx Hy.
  induction Hin as [| p points [Hrow Hcol] Hin IH]; intros grids Hx Hy; cbn zeta.
  - cbn [fold_left map]. unfold list_sum. simpl. split; lra.
  - cbn [fold_left map]. rewrite list_sum_cons.
    destruct (IH (spread_to_cell m dl applied_force grids p)) as [Ex Ey].
    + unfold spread_to_cell. cbn [fst]. apply grid_wf_update. exact Hx.
    + unfold spread_to_cell. cbn [snd]. apply grid_wf_update. exact Hy.
    + cbn zeta in Ex, Ey. rewrite Ex, Ey. unfold spread_to_cell. cbn [fst snd].
      rewrite (grid_total_update_add _ _ _ _ _ _ Hx), (grid_total_update_add _ _ _ _ _ _ Hy)
        by assumption.
      split; ring.
Qed.

Lemma list_sum_map_scale {A : Type} (f : A -> R) (c : R) (l : list A) :
  list_sum (map (fun a => f a * c) l) = list_sum (map f l) * c.
Proof.
  induction l as [| a l IH]; cbn [map]; [unfold list_sum; simpl; lra |].
  rewrite !list_sum_cons, IH. ring.
Qed.

Lemma list_sum_repeat_0 (n : nat) : list_sum (repeat 0 n) = 0.
Proof. induction n as [| n IH]; [reflexivity |]. cbn [repeat]. rewrite list_sum_cons, IH. lra. Qed.

Lemma grid_total_SetupGrid (m : SimulationModifier) : grid_total (SetupGrid 0 m) = 0.
Proof.
  unfold grid_total, SetupGrid. induction (Z.to_nat (mNumGridPtsY m)) as [| n IH];
    [reflexivity |].
  cbn [repeat map]. rewrite list_sum_cons, IH, list_sum_repeat_0. lra.
Qed.

(** What one node adds to the force grids: the grids hold a force per
    unit area, and their totals times the area [Dx * Dy] of a cell grow
    by the applied force times [dl] times the sum of the weights. *)
Lemma PropagateForcesToFluidGrid_one_node (m : SimulationModifier) (dl : R) (node : Node)
    (grids : grid R * grid R) :
  (0 < mNumGridPtsX m)%Z -> (0 < mNumGridPtsY m)%Z ->
  grid_wf (fst grids) (Z.to_nat (mNumGridPtsY m)) (Z.to_nat (mNumGridPtsX m)) ->
  grid_wf (snd grids) (Z.to_nat (mNumGridPtsY m)) (Z.to_nat (mNumGridPtsX m)) ->
  let grids' := PropagateForcesToFluidGrid m dl [node] grids in
  let cell_area := mGridSpacingX m * mGridSpacingY m in
  let weights := stencil_weight_sum m (mLocation node) in
  grid_total (fst grids') * cell_area
  = grid_total (fst grids) * cell_area + fst (mAppliedForce node) * dl * weights /\
  grid_total (snd grids') * cell_area
  = grid_total (snd grids) * cell_area + snd (mAppliedForce node) * dl * weights.
Proof.
  intros HNx HNy Hx Hy grids' cell_area weights.
  destruct (spread_to_cells_total m dl (mAppliedForce node)
              (spreading_stencil m (mLocation node)) grids Hx Hy
              (spreading_stencil_in_grid m (mLocation node) HNx HNy)) as [Ex Ey].
  cbn zeta in Ex, Ey. unfold grids', PropagateForcesToFluidGrid. cbn [fold_left].
  rewrite Ex, Ey. unfold weights, stencil_weight_sum.
  replace (map (stencil_weight m) (spreading_stencil m (mLocation node)))
    with (map (fun p => Delta1D (dist_x p) (mGridSpacingX m)
                        * Delta1D (dist_y p) (mGridSpacingY m) * cell_area)
              (spreading_stencil m (mLocation node))).
  - rewrite list_sum_map_scale. split; ring.
  - apply map_ext. intros p. unfold stencil_weight, cell_area. ring.
Qed.

(** Where the weights sum to 1, a node on empty grids deposits its force
    times [dl]: the totals of the grids times the area of a cell. *)
Lemma PropagateForcesToFluidGrid_deposit (numGridPtsY numGridPtsX : Z) (reynolds dl : R)
    (node : Node) :
  (0 < numGridPtsX < 2 ^ 31)%Z -> (0 < numGridPtsY < 2 ^ 31)%Z ->
  0 <= fst (mLocation node) < 1 -> 0 <= snd (mLocation node) < 1 ->
  ((numGridPtsX mod 4 = 0)%Z \/ 1.0 / IZR numGridPtsX <= fst (mLocation node)) ->
  ((numGridPtsY mod 4 = 0)%Z \/ 1.0 / IZR numGridPtsY <= snd (mLocation node)) ->
  let m := SetMemberVariables numGridPtsY numGridPtsX reynolds in
  let grids' := PropagateForcesToFluidGrid m dl [node] (SetupGrid 0 m, SetupGrid 0 m) in
  grid_total (fst grids') * (mGridSpacingX m * mGridSpacingY m)
  = fst (mAppliedForce node) * dl /\
  grid_total (snd grids') * (mGridSpacingX m * mGridSpacingY m)
  = snd (mAppliedForce node) * dl.
Proof.
  intros HNx HNy Hx Hy Hwx Hwy m grids'.
  destruct (PropagateForcesToFluidGrid_one_node m dl node (SetupGrid 0 m, SetupGrid 0 m))
    as [Ex Ey]; try apply SetupGrid_wf; try (cbn; lia).
  cbn zeta in Ex, Ey. fold grids' in Ex, Ey. cbn [fst snd] in Ex, Ey.
  rewrite grid_total_SetupGrid in Ex, Ey.
  pose proof (stencil_partition_of_unity numGridPtsY numGridPtsX reynolds (mLocation node)
                HNx HNy Hx Hy Hwx Hwy) as Hw.
  fold m in Hw. rewrite Hw in Ex, Ey.
  split; lra.
Qed.

(** On a 6 x 6 grid the node at (1/18, 1/2) lies within one grid spacing
    of the left edge, so its stencil wraps around in x: [first_idx_x] is
    -1.  The distance for the first column is taken from the index -1
    (converted to [unsigned], which the period of the cosine absorbs),
    the distances for the other three columns from the wrapped index 5:
    they are 17/18, 20/18 and 23/18, where the columns 0, 1 and 2 that
    receive the force are at 1/18, 2/18 and 5/18 from the node.  The
    sixteen weights sum to 3/4. *)
Lemma stencil_weight_sum_near_edge_6 :
  stencil_weight_sum (SetMemberVariables 6 6 1) (1 / 18, 1 / 2) = 3 / 4.
Proof.
  rewrite stencil_weight_sum_axes by (cbn; lia).
  cbn [mNumGridPtsX mNumGridPtsY mGridSpacingX mGridSpacingY SetMemberVariables fst snd].
  unfold floor.
  rewrite (Int_part_unique (1 / 18 / (1.0 / 6)) 0) by lra.
  rewrite (Int_part_unique (1 / 2 / (1.0 / 6)) 3) by lra.
  change (0 - 1)%Z with (-1)%Z. change (3 - 1)%Z with 2%Z.
  destruct (axis_pass_one 6 2 (1 / 2) (1.0 / 6)) as [Hy Hy']; [lia | lra | lia | lia |].
  rewrite Hy, Hy'.
  unfold axis_pass. rewrite wrap_first_idx_neg1 by lia.
  rewrite !axis_weight_scaled by lra.
  change (to_unsigned (-1 + 0)) with 4294967295%Z.
  change (to_unsigned (6 - 1 + 1)) with 6%Z.
  change (to_unsigned (6 - 1 + 2)) with 7%Z.
  change (to_unsigned (6 - 1 + 3)) with 8%Z.
  replace (1 / 18 / (1.0 / 6)) with (1 / 3) by lra.
  replace (4294967295 - 1 / 3) with (2 / 3 - 2 + 4 * IZR 1073741824) by lra.
  replace (6 - 1 / 3) with (- (1 / 3) + 2 + 4 * IZR 1) by lra.
  replace (7 - 1 / 3) with (2 / 3 + 2 + 4 * IZR 1) by lra.
  replace (8 - 1 / 3) with (- (1 / 3) + 4 * IZR 2) by lra.
  rewrite !cos_quarter_period, !cos_quarter_shift2.
  assert (cos_quarter (2 / 3 - 2) = - cos_quarter (2 / 3)) as E.
  { pose proof (cos_quarter_shift2 (2 / 3 - 2)) as H.
    replace (2 / 3 - 2 + 2) with (2 / 3) in H by lra. lra. }
  rewrite E.
  assert (cos_quarter (2 / 3) = 1 / 2) as E3.
  { unfold cos_quarter. rewrite <- cos_PI3. f_equal. lra. }
  rewrite E3. lra.
Qed.

(** The node of the lemma above, carrying the unit force (1, 0). *)
Definition near_edge_node : Node :=
  {| mIndex := 0; mLocation := (1 / 18, 1 / 2); mRegion := 0;
     mAppliedForce := (1, 0); mNodeAttributes := []; mElementIndices := [] |}.

(** C1.  On a 6 x 6 grid, for the node at (1/18, 1/2), which lies within
    one grid spacing of the left edge, the sixteen weights of the
    stencil that [PropagateForcesToFluidGrid] builds sum to 3/4 and not
    to 1; carrying the unit force (1, 0), the node deposits on empty
    grids, in total (the grids hold a force per unit area: the total
    times the area of a cell), 3/4 of [dl] and not [dl]. *)
Theorem spreading_near_edge_6_deposits_three_quarters :
  let m := SetMemberVariables 6 6 1 in
  stencil_weight_sum m (mLocation near_edge_node) = 3 / 4 /\
  forall dl : R,
    let grids' :=
      PropagateForcesToFluidGrid m dl [near_edge_node] (SetupGrid 0 m, SetupGrid 0 m) in
    grid_total (fst grids') * (mGridSpacingX m * mGridSpacingY m) = 3 / 4 * dl /\
    grid_total (snd grids') * (mGridSpacingX m * mGridSpacingY m) = 0.
Proof.
  intros m. split; [exact stencil_weight_sum_near_edge_6 |].
  intros dl grids'.
  destruct (PropagateForcesToFluidGrid_one_node m dl near_edge_node
              (SetupGrid 0 m, SetupGrid 0 m)) as [Ex Ey];
    try apply SetupGrid_wf; try (cbn; lia).
  cbn zeta in Ex, Ey. fold grids' in Ex, Ey. cbn [fst snd] in Ex, Ey.
  rewrite grid_total_SetupGrid in Ex, Ey.
  cbn [mLocation mAppliedForce near_edge_node fst snd] in Ex, Ey.
  pose proof stencil_weight_sum_near_edge_6 as Hw. fold m in Hw. rewrite Hw in Ex, Ey.
  split; lra.
Qed.

(** ** C7: the upwind scheme *)

(** The first-order upwind formula with the periodic neighbours computed
    inline, [(x - 1 + N) mod N] and [(x + 1) mod N]: the advection term
    of [f] (the component [u] or [v] being advected) at cell [(y, x)]. *)
Definition upwind_inline (m : SimulationModifier) (u v f : nat -> nat -> R)
    (y x : nat) : R :=
  let numGridPtsX := Z.to_nat (mNumGridPtsX m) in
  let numGridPtsY := Z.to_nat (mNumGridPtsY m) in
  (if Rgtb (u y x) 0
   then u y x * (f y x - f y ((x + numGridPtsX - 1) mod numGridPtsX)) / mGridSpacingX m
   else u y x * (f y ((x + 1) mod numGridPtsX) - f y x) / mGridSpacingX m)
  + (if Rgtb (v y x) 0
     then v y x * (f y x - f ((y + numGridPtsY - 1) mod numGridPtsY) x) / mGridSpacingY m
     else v y x * (f ((y + 1) mod numGridPtsY) x - f y x) / mGridSpacingY m).

Section Upwind.

Variable m : SimulationModifier.
Variables in_x in_y : grid R.

Let numGridPtsX := Z.to_nat (mNumGridPtsX m).
Let numGridPtsY := Z.to_nat (mNumGridPtsY m).

Lemma upwind_x_loop_indices (y : nat) (n a : nat) (st : UpwindState) :
  let st' := upwind_x_loop m in_x in_y y (seq a n) st in
  (prev_x st < numGridPtsX)%nat -> (next_x st < numGridPtsX)%nat ->
  prev_x st' = ((prev_x st + n) mod numGridPtsX)%nat /\
  next_x st' = ((next_x st + n) mod numGridPtsX)%nat /\
  prev_y st' = prev_y st /\ next_y st' = next_y st.
Proof.
  revert a st. induction n as [| n IH]; intros a st st' Hp Hn.
  - subst st'. simpl. rewrite !Nat.add_0_r, !Nat.mod_small by assumption. auto.
  - subst st'. simpl seq. unfold upwind_x_loop. simpl fold_left.
    fold (upwind_x_loop m in_x in_y y (seq (S a) n) (upwind_cell m in_x in_y y st a)).
    assert (numGridPtsX <> 0)%nat as Hnz by lia.
    destruct (IH (S a) (upwind_cell m in_x in_y y st a)) as (E1 & E2 & E3 & E4).
    + simpl. apply Nat.mod_upper_bound. exact Hnz.
    + simpl. apply Nat.mod_upper_bound. exact Hnz.
    + rewrite E1, E2, E3, E4. simpl. fold numGridPtsX.
      rewrite !Nat.Div0.add_mod_idemp_l.
      repeat split; f_equal; lia.
Qed.

Lemma upwind_row_indices (y : nat) (st : UpwindState) :
  (prev_x st < numGridPtsX)%nat -> (next_x st < numGridPtsX)%nat ->
  prev_x (upwind_row m in_x in_y st y) = prev_x st /\
  next_x (upwind_row m in_x in_y st y) = next_x st /\
  prev_y (upwind_row m in_x in_y st y) = ((prev_y st + 1) mod numGridPtsY)%nat /\
  next_y (upwind_row m in_x in_y st y) = ((next_y st + 1) mod numGridPtsY)%nat.
Proof.
  intros Hp Hn. unfold upwind_row. simpl.
  destruct (upwind_x_loop_indices y numGridPtsX 0 st Hp Hn) as (E1 & E2 & E3 & E4).
  fold numGridPtsX. rewrite E1, E2, E3, E4.
  replace (prev_x st + numGridPtsX)%nat with (prev_x st + 1 * numGridPtsX)%nat by lia.
  replace (next_x st + numGridPtsX)%nat with (next_x st + 1 * numGridPtsX)%nat by lia.
  rewrite !Nat.Div0.mod_add, !Nat.mod_small by assumption. auto.
Qed.

Lemma upwind_y_loop_indices (n a : nat) (st : UpwindState) :
  let st' := upwind_y_loop m in_x in_y (seq a n) st in
  (prev_x st < numGridPtsX)%nat -> (next_x st < numGridPtsX)%nat ->
  (prev_y st < numGridPtsY)%nat -> (next_y st < numGridPtsY)%nat ->
  prev_x st' = prev_x st /\ next_x st' = next_x st /\
  prev_y st' = ((prev_y st + n) mod numGridPtsY)%nat /\
  next_y st' = ((next_y st + n) mod numGridPtsY)%nat.
Proof.
  revert a st. induction n as [| n IH]; intros a st st' Hpx Hnx Hpy Hny.
  - subst st'. simpl. rewrite !Nat.add_0_r, !Nat.mod_small by assumption. auto.
  - subst st'. simpl seq. unfold upwind_y_loop. simpl fold_left.
    fold (upwind_y_loop m in_x in_y (seq (S a) n) (upwind_row m in_x in_y st a)).
    assert (numGridPtsY <> 0)%nat as Hnz by lia.
    destruct (upwind_row_indices a st Hpx Hnx) as (R1 & R2 & R3 & R4).
    destruct (IH (S a) (upwind_row m in_x in_y st a)) as (E1 & E2 & E3 & E4).
    + rewrite R1. exact Hpx.
    + rewrite R2. exact Hnx.
    + rewrite R3. apply Nat.mod_upper_bound. exact Hnz.
    + rewrite R4. apply Nat.mod_upper_bound. exact Hnz.
    + rewrite E1, E2, E3, E4, R1, R2, R3, R4.
      rewrite !Nat.Div0.add_mod_idemp_l.
      repeat split; f_equal; lia.
Qed.

(** The invariant of the loop-carried indices. *)
Lemma upwind_state_at_indices (y x : nat) :
  (1 < numGridPtsX)%nat -> (1 < numGridPtsY)%nat ->
  (mNumGridPtsX m < 2 ^ 32)%Z -> (mNumGridPtsY m < 2 ^ 32)%Z ->
  let st := upwind_state_at m in_x in_y y x in
  prev_x st = ((x + numGridPtsX - 1) mod numGridPtsX)%nat /\
  next_x st = ((x + 1) mod numGridPtsX)%nat /\
  prev_y st = ((y + numGridPtsY - 1) mod numGridPtsY)%nat /\
  next_y st = ((y + 1) mod numGridPtsY)%nat.
Proof.
  intros HNx HNy HBx HBy st. subst st. unfold upwind_state_at.
  assert (prev_x (upwind_init m) = numGridPtsX - 1)%nat as Ipx.
  { simpl. rewrite to_unsigned_small by (subst numGridPtsX; lia).
    subst numGridPtsX; lia. }
  assert (prev_y (upwind_init m) = numGridPtsY - 1)%nat as Ipy.
  { simpl. rewrite to_unsigned_small by (subst numGridPtsY; lia).
    subst numGridPtsY; lia. }
  destruct (upwind_y_loop_indices y 0 (upwind_init m)) as (E1 & E2 & E3 & E4);
    [rewrite Ipx; lia | simpl; lia | rewrite Ipy; lia | simpl; lia |].
  destruct (upwind_x_loop_indices y x 0
              (upwind_y_loop m in_x in_y (seq 0 y) (upwind_init m)))
    as (F1 & F2 & F3 & F4);
    [rewrite E1, Ipx; lia | rewrite E2; simpl; lia |].
  rewrite F1, F2, F3, F4, E1, E2, E3, E4, Ipx, Ipy. simpl next_x. simpl next_y.
  repeat split; f_equal; lia.
Qed.

(** The output grids keep their size, and a cell is written only by its
    own iteration. *)
Lemma upwind_cell_wf (y x : nat) (st : UpwindState) :
  grid_wf (out_x st) numGridPtsY numGridPtsX ->
  grid_wf (out_y st) numGridPtsY numGridPtsX ->
  grid_wf (out_x (upwind_cell m in_x in_y y st x)) numGridPtsY numGridPtsX /\
  grid_wf (out_y (upwind_cell m in_x in_y y st x)) numGridPtsY numGridPtsX.
Proof.
  intros Hx Hy. simpl. split; repeat apply grid_wf_update; assumption.
Qed.

Lemma upwind_x_loop_wf (y : nat) (xs : list nat) (st : UpwindState) :
  grid_wf (out_x st) numGridPtsY numGridPtsX ->
  grid_wf (out_y st) numGridPtsY numGridPtsX ->
  grid_wf (out_x (upwind_x_loop m in_x in_y y xs st)) numGridPtsY numGridPtsX /\
  grid_wf (out_y (upwind_x_loop m in_x in_y y xs st)) numGridPtsY numGridPtsX.
Proof.
  revert st. induction xs as [| x xs IH]; intros st Hx Hy; [split; assumption |].
  unfold upwind_x_loop. simpl.
  destruct (upwind_cell_wf y x st Hx Hy) as [Hx' Hy']. apply IH; assumption.
Qed.

Lemma upwind_y_loop_wf (ys : list nat) (st : UpwindState) :
  grid_wf (out_x st) numGridPtsY numGridPtsX ->
  grid_wf (out_y st) numGridPtsY numGridPtsX ->
  grid_wf (out_x (upwind_y_loop m in_x in_y ys st)) numGridPtsY numGridPtsX /\
  grid_wf (out_y (upwind_y_loop m in_x in_y ys st)) numGridPtsY numGridPtsX.
Proof.
  revert st. induction ys as [| y ys IH]; intros st Hx Hy; [split; assumption |].
  unfold upwind_y_loop. simpl. apply IH; unfold upwind_row; simpl;
    apply upwind_x_loop_wf; assumption.
Qed.

Lemma upwind_x_loop_frame (y : nat) (xs : list nat) (st : UpwindState) (y0 x0 : nat) :
  (y0 <> y \/ ~ In x0 xs) ->
  grid_get 0 (out_x (upwind_x_loop m in_x in_y y xs st)) y0 x0 = grid_get 0 (out_x st) y0 x0 /\
  grid_get 0 (out_y (upwind_x_loop m in_x in_y y xs st)) y0 x0 = grid_get 0 (out_y st) y0 x0.
Proof.
  revert st. induction xs as [| x xs IH]; intros st H; [split; reflexivity |].
  unfold upwind_x_loop. simpl fold_left.
  fold (upwind_x_loop m in_x in_y y xs (upwind_cell m in_x in_y y st x)).
  assert (y0 <> y \/ x0 <> x) as Hcell.
  { destruct H as [H | H]; [left; exact H | right; intros ->; apply H; left; reflexivity]. }
  destruct (IH (upwind_cell m in_x in_y y st x)) as [Ex Ey].
  { destruct H as [H | H]; [left; exact H | right; intros Hin; apply H; right; exact Hin]. }
  rewrite Ex, Ey. simpl. rewrite !grid_get_update_neq by exact Hcell. split; reflexivity.
Qed.

Lemma upwind_y_loop_frame (ys : list nat) (st : UpwindState) (y0 x0 : nat) :
  ~ In y0 ys ->
  grid_get 0 (out_x (upwind_y_loop m in_x in_y ys st)) y0 x0 = grid_get 0 (out_x st) y0 x0 /\
  grid_get 0 (out_y (upwind_y_loop m in_x in_y ys st)) y0 x0 = grid_get 0 (out_y st) y0 x0.
Proof.
  revert st. induction ys as [| y ys IH]; intros st H; [split; reflexivity |].
  unfold upwind_y_loop. simpl fold_left.
  fold (upwind_y_loop m in_x in_y ys (upwind_row m in_x in_y st y)).
  destruct (IH (upwind_row m in_x in_y st y)) as [Ex Ey].
  { intros Hin; apply H; right; exact Hin. }
  rewrite Ex, Ey. unfold upwind_row. simpl.
  apply upwind_x_loop_frame. left. intros ->. apply H. left. reflexivity.
Qed.

(** The value the scheme leaves in cell [(y, x)] is the one written by
    the iteration of that cell, from the loop state on entry to it. *)
Lemma UpwindScheme_cell (y x : nat) :
  (y < numGridPtsY)%nat -> (x < numGridPtsX)%nat ->
  let st := upwind_state_at m in_x in_y y x in
  grid_get 0 (fst (UpwindScheme m in_x in_y)) y x
    = grid_get 0 (out_x (upwind_cell m in_x in_y y st x)) y x /\
  grid_get 0 (snd (UpwindScheme m in_x in_y)) y x
    = grid_get 0 (out_y (upwind_cell m in_x in_y y st x)) y x.
Proof.
  intros Hy Hx st. unfold UpwindScheme. cbn [fst snd]. fold numGridPtsY.
  replace numGridPtsY with (y + (1 + (numGridPtsY - y - 1)))%nat at 1 2 by lia.
  rewrite !seq_app. unfold upwind_y_loop. rewrite !fold_left_app.
  fold (upwind_y_loop m in_x in_y (seq 0 y) (upwind_init m)).
  simpl (seq (0 + y) 1). simpl (fold_left _ [y] _).
  match goal with
  | |- context [fold_left _ (seq ?a ?n) ?s] =>
      fold (upwind_y_loop m in_x in_y (seq a n) s);
      destruct (upwind_y_loop_frame (seq a n) s y x) as [Ex Ey]
  end.
  { rewrite in_seq. lia. }
  rewrite Ex, Ey. unfold upwind_row. cbn [out_x out_y]. fold numGridPtsX.
  replace numGridPtsX with (x + (1 + (numGridPtsX - x - 1)))%nat at 1 2 by lia.
  rewrite !seq_app. unfold upwind_x_loop. rewrite !fold_left_app.
  fold (upwind_x_loop m in_x in_y y (seq 0 x)
          (upwind_y_loop m in_x in_y (seq 0 y) (upwind_init m))).
  fold (upwind_state_at m in_x in_y y x). fold st.
  simpl (seq (0 + x) 1). simpl (fold_left _ [x] _).
  match goal with
  | |- context [fold_left _ (seq ?a ?n) ?s] =>
      fold (upwind_x_loop m in_x in_y y (seq a n) s);
      destruct (upwind_x_loop_frame y (seq a n) s y x) as [Fx Fy]
  end.
  { right. rewrite in_seq. lia. }
  rewrite Fx, Fy. split; reflexivity.
Qed.

Lemma upwind_state_at_wf (y x : nat) :
  grid_wf (out_x (upwind_state_at m in_x in_y y x)) numGridPtsY numGridPtsX /\
  grid_wf (out_y (upwind_state_at m in_x in_y y x)) numGridPtsY numGridPtsX.
Proof.
  unfold upwind_state_at.
  destruct (upwind_y_loop_wf (seq 0 y) (upwind_init m)) as [Hx Hy];
    [apply SetupGrid_wf | apply SetupGrid_wf |].
  apply upwind_x_loop_wf; assumption.
Qed.

End Upwind.

(** C7.  On a grid of at least two points in each direction, the
    loop-carried indices of [UpwindScheme], on entry to the iteration of
    every cell [(y, x)], are the periodic neighbours
    [(x - 1 + N) mod N], [(x + 1) mod N], [(y - 1 + N) mod N] and
    [(y + 1) mod N]; and the two output grids hold at every cell the
    first-order upwind term of [u] and of [v], as the formula with
    inline periodic indices gives it. *)
Theorem UpwindScheme_refines_inline (m : SimulationModifier) (in_x in_y : grid R)
    (y x : nat) :
  (2 <= mNumGridPtsX m < 2 ^ 32)%Z -> (2 <= mNumGridPtsY m < 2 ^ 32)%Z ->
  (y < Z.to_nat (mNumGridPtsY m))%nat -> (x < Z.to_nat (mNumGridPtsX m))%nat ->
  let st := upwind_state_at m in_x in_y y x in
  let numGridPtsX := Z.to_nat (mNumGridPtsX m) in
  let numGridPtsY := Z.to_nat (mNumGridPtsY m) in
  prev_x st = ((x + numGridPtsX - 1) mod numGridPtsX)%nat /\
  next_x st = ((x + 1) mod numGridPtsX)%nat /\
  prev_y st = ((y + numGridPtsY - 1) mod numGridPtsY)%nat /\
  next_y st = ((y + 1) mod numGridPtsY)%nat /\
  grid_get 0 (fst (UpwindScheme m in_x in_y)) y x
    = upwind_inline m (grid_get 0 in_x) (grid_get 0 in_y) (grid_get 0 in_x) y x /\
  grid_get 0 (snd (UpwindScheme m in_x in_y)) y x
    = upwind_inline m (grid_get 0 in_x) (grid_get 0 in_y) (grid_get 0 in_y) y x.
Proof.
  intros HNx HNy Hy Hx st numGridPtsX numGridPtsY.
  destruct (upwind_state_at_indices m in_x in_y y x) as (I1 & I2 & I3 & I4); try lia.
  fold st numGridPtsX numGridPtsY in I1, I2, I3, I4.
  destruct (UpwindScheme_cell m in_x in_y y x Hy Hx) as [Cx Cy].
  destruct (upwind_state_at_wf m in_x in_y y x) as [Wx Wy].
  fold st in Cx, Cy, Wx, Wy.
  repeat split; try assumption.
  - rewrite Cx. cbn [out_x upwind_cell].
    rewrite (grid_get_update_eq _ _ _ _ _ (Z.to_nat (mNumGridPtsY m)) (Z.to_nat (mNumGridPtsX m)));
      [| apply grid_wf_update; exact Wx | exact Hy | exact Hx].
    rewrite (grid_get_update_eq _ _ _ _ _ _ _ Wx Hy Hx).
    rewrite I1, I2, I3, I4. reflexivity.
  - rewrite Cy. cbn [out_y upwind_cell].
    rewrite (grid_get_update_eq _ _ _ _ _ (Z.to_nat (mNumGridPtsY m)) (Z.to_nat (mNumGridPtsX m)));
      [| apply grid_wf_update; exact Wy | exact Hy | exact Hx].
    rewrite (grid_get_update_eq _ _ _ _ _ _ _ Wy Hy Hx).
    rewrite I1, I2, I3, I4. reflexivity.
Qed.

Lemma UpwindScheme_refines_inline_witness :
  let m := SetMemberVariables 2 2 1 in
  let in_x := [[1; -1]; [2; 0]] in
  let in_y := [[0; 1]; [-1; 3]] in
  let st := upwind_state_at m in_x in_y 1 0 in
  prev_x st = ((0 + 2 - 1) mod 2)%nat /\
  next_x st = ((0 + 1) mod 2)%nat /\
  prev_y st = ((1 + 2 - 1) mod 2)%nat /\
  next_y st = ((1 + 1) mod 2)%nat /\
  grid_get 0 (fst (UpwindScheme m in_x in_y)) 1 0
    = upwind_inline m (grid_get 0 in_x) (grid_get 0 in_y) (grid_get 0 in_x) 1 0 /\
  grid_get 0 (snd (UpwindScheme m in_x in_y)) 1 0
    = upwind_inline m (grid_get 0 in_x) (grid_get 0 in_y) (grid_get 0 in_y) 1 0.
Proof.
  intros m in_x in_y.
  apply (UpwindScheme_refines_inline m in_x in_y 1 0); cbn; lia.
Defined.

(** ** C6: the pressure solve *)

Lemma sin_grid_zero (N : Z) (k : nat) :
  (0 < N)%Z -> (Z.of_nat k < N)%Z ->
  sin (2 * PI * IZR (Z.of_nat k) * (1.0 / IZR N)) = 0 <->
  (k = 0%nat \/ (2 * Z.of_nat k = N)%Z).
Proof.
  intros HN Hk.
  assert (0 < IZR N) as HNR by (apply IZR_lt; exact HN).
  assert (0 <= IZR (Z.of_nat k) < IZR N) as HkR.
  { split; [apply IZR_le; lia | apply IZR_lt; exact Hk]. }
  pose proof PI_RGT_0 as Hpi.
  set (t := IZR (Z.of_nat k) / IZR N).
  assert (0 <= t < 1) as Ht.
  { unfold t. split.
    - apply Rmult_le_pos; [lra | left; apply Rinv_0_lt_compat; exact HNR].
    - apply (Rmult_lt_reg_r (IZR N)); [exact HNR |].
      unfold Rdiv. rewrite Rmult_assoc, Rinv_l by lra. lra. }
  replace (2 * PI * IZR (Z.of_nat k) * (1.0 / IZR N)) with (2 * PI * t)
    by (unfold t, Q2R; cbn [QArith_base.Qnum QArith_base.Qden]; field; lra).
  split.
  - intros Hsin.
    destruct (sin_eq_O_2PI_0 (2 * PI * t)) as [H0 | [H1 | H2]]; try assumption; try nra.
    + left. assert (t = 0) as Ht0 by nra.
      unfold t in Ht0.
      assert (IZR (Z.of_nat k) = 0) as Hk0.
      { apply (Rmult_eq_reg_r (/ IZR N)); [| apply Rinv_neq_0_compat; lra].
        unfold Rdiv in Ht0. lra. }
      apply eq_IZR in Hk0. lia.
    + right. assert (t = 1 / 2) as Ht1 by nra.
      unfold t in Ht1.
      assert (2 * IZR (Z.of_nat k) = IZR N) as Hk1.
      { apply (Rmult_eq_reg_r (/ IZR N)); [| apply Rinv_neq_0_compat; lra].
        rewrite Rinv_r by lra. unfold Rdiv in Ht1. lra. }
      rewrite <- mult_IZR in Hk1. apply eq_IZR in Hk1. exact Hk1.
  - intros [-> | H2].
    + unfold t. simpl. unfold Rdiv. rewrite Rmult_0_l, Rmult_0_r. apply sin_0.
    + assert (t = 1 / 2) as Ht1.
      { assert (IZR N = 2 * IZR (Z.of_nat k)) as HN2
          by (rewrite <- H2, mult_IZR; reflexivity).
        unfold t. rewrite HN2. field. lra. }
      rewrite Ht1. replace (2 * PI * (1 / 2)) with PI by lra. apply sin_PI.
Qed.

Lemma half_even (N : Z) (k : nat) :
  (0 < N)%Z -> (N mod 2 = 0)%Z ->
  (2 * Z.of_nat k = N)%Z <-> k = (Z.to_nat N / 2)%nat.
Proof.
  intros HN Heven.
  apply Z.mod_divide in Heven; [| lia]. destruct Heven as [q Hq].
  assert (Z.to_nat N = Z.to_nat q * 2)%nat as E by lia.
  rewrite E, Nat.div_mul by lia. lia.
Qed.

Lemma grid_get_tabulate {A : Type} (d : A) (F : nat -> nat -> A) (ny nx y x : nat) :
  (y < ny)%nat -> (x < nx)%nat ->
  grid_get d (map (fun y => map (fun x => F y x) (seq 0 nx)) (seq 0 ny)) y x = F y x.
Proof.
  intros Hy Hx. unfold grid_get.
  rewrite (nth_indep _ [] (map (fun x => F 0%nat x) (seq 0 nx)))
    by (rewrite length_map, length_seq; exact Hy).
  rewrite (map_nth (fun y => map (fun x => F y x) (seq 0 nx)) (seq 0 ny) 0%nat y).
  rewrite seq_nth by exact Hy. simpl.
  rewrite (nth_indep _ d (F y 0%nat)) by (rewrite length_map, length_seq; exact Hx).
  rewrite (map_nth (fun x => F y x) (seq 0 nx) 0%nat x).
  rewrite seq_nth by exact Hx. reflexivity.
Qed.

Lemma grid_wf_tabulate {A : Type} (F : nat -> nat -> A) (ny nx : nat) :
  grid_wf (map (fun y => map (fun x => F y x) (seq 0 nx)) (seq 0 ny)) ny nx.
Proof.
  split.
  - rewrite length_map, length_seq. reflexivity.
  - intros y Hy.
    rewrite (nth_indep _ [] (map (fun x => F 0%nat x) (seq 0 nx)))
      by (rewrite length_map, length_seq; exact Hy).
    rewrite (map_nth (fun y => map (fun x => F y x) (seq 0 nx)) (seq 0 ny) 0%nat y).
    rewrite length_map, length_seq. reflexivity.
Qed.

(** The four modes at which [p_hat] is forced to zero, as [(y, x)]:
    (0,0), (0,Nx/2), (Ny/2,0) and (Ny/2,Nx/2). *)
Definition gauge_mode (numGridPtsY numGridPtsX y x : nat) : Prop :=
  (y = 0%nat \/ y = (numGridPtsY / 2)%nat) /\ (x = 0%nat \/ x = (numGridPtsX / 2)%nat).

Lemma gauge_mode_dec (numGridPtsY numGridPtsX y x : nat) :
  {gauge_mode numGridPtsY numGridPtsX y x} + {~ gauge_mode numGridPtsY numGridPtsX y x}.
Proof.
  unfold gauge_mode.
  destruct (Nat.eq_dec y 0), (Nat.eq_dec y (numGridPtsY / 2)),
           (Nat.eq_dec x 0), (Nat.eq_dec x (numGridPtsX / 2));
    try (left; tauto); right; tauto.
Qed.

Lemma pressure_denominator_zero (numGridPtsY numGridPtsX : Z) (reynolds dt : R) (y x : nat) :
  (0 < numGridPtsX)%Z -> (numGridPtsX mod 2 = 0)%Z ->
  (0 < numGridPtsY)%Z -> (numGridPtsY mod 2 = 0)%Z ->
  0 < dt -> 0 < reynolds ->
  (y < Z.to_nat numGridPtsY)%nat -> (x < Z.to_nat numGridPtsX)%nat ->
  pressure_denominator (SetMemberVariables numGridPtsY numGridPtsX reynolds) dt y x = 0
  <-> gauge_mode (Z.to_nat numGridPtsY) (Z.to_nat numGridPtsX) y x.
Proof.
  intros HNx HEx HNy HEy Hdt HRe Hy Hx.
  unfold pressure_denominator, mSin2X, mSin2Y, gauge_mode.
  cbn [mGridSpacingX mGridSpacingY mReynolds SetMemberVariables].
  pose proof (sin_grid_zero numGridPtsX x HNx ltac:(lia)) as Sx.
  pose proof (sin_grid_zero numGridPtsY y HNy ltac:(lia)) as Sy.
  rewrite (half_even numGridPtsX x HNx HEx) in Sx.
  rewrite (half_even numGridPtsY y HNy HEy) in Sy.
  rewrite <- Sx, <- Sy.
  set (a := sin (2 * PI * IZR (Z.of_nat x) * (1.0 / IZR numGridPtsX))).
  set (b := sin (2 * PI * IZR (Z.of_nat y) * (1.0 / IZR numGridPtsY))).
  assert (0 < 1.0 / IZR numGridPtsX) as HDx
    by (apply Rdiv_lt_0_compat; [lra | apply IZR_lt; exact HNx]).
  assert (0 < 1.0 / IZR numGridPtsY) as HDy
    by (apply Rdiv_lt_0_compat; [lra | apply IZR_lt; exact HNy]).
  set (Dx := 1.0 / IZR numGridPtsX) in *. set (Dy := 1.0 / IZR numGridPtsY) in *.
  assert (0 < dt / reynolds) as Hq by (apply Rdiv_lt_0_compat; assumption).
  assert (0 < / (Dx * Dx)) as HiX by (apply Rinv_0_lt_compat; nra).
  assert (0 < / (Dy * Dy)) as HiY by (apply Rinv_0_lt_compat; nra).
  unfold Rdiv at 1 2.
  split.
  - intros H.
    assert (a * a * / (Dx * Dx) + b * b * / (Dy * Dy) = 0) as H0 by nra.
    assert (0 <= a * a * / (Dx * Dx)) by (apply Rmult_le_pos; nra).
    assert (0 <= b * b * / (Dy * Dy)) by (apply Rmult_le_pos; nra).
    assert (a * a = 0) by nra. assert (b * b = 0) by nra.
    split; nra.
  - intros [Hb Ha]. rewrite Ha, Hb. ring.
Qed.

Lemma grid_get_set {A : Type} (d v : A) (y0 x0 : nat) (g : grid A) (ny nx y x : nat) :
  grid_wf g ny nx -> (y < ny)%nat -> (x < nx)%nat ->
  grid_get d (grid_update (fun _ => v) y0 x0 g) y x
  = if ((y =? y0) && (x =? x0))%nat then v else grid_get d g y x.
Proof.
  intros Hwf Hy Hx.
  destruct (Nat.eqb_spec y y0) as [-> | Hny]; [destruct (Nat.eqb_spec x x0) as [-> | Hnx] |]; simpl.
  - rewrite (grid_get_update_eq _ _ _ _ _ ny nx) by assumption. reflexivity.
  - apply grid_get_update_neq. right. exact Hnx.
  - apply grid_get_update_neq. left. exact Hny.
Qed.



(** ** Facts on the mesh *)

Lemma GetNode_update_node_eq (mesh : ImmersedBoundaryMesh) (g : nat) (f : Node -> Node) :
  (g < GetNumNodes mesh)%nat ->
  GetNode (update_node mesh g f) g = f (GetNode mesh g).
Proof. intros H. unfold GetNode, update_node. simpl. apply nth_list_update_eq. exact H. Qed.

Lemma GetNode_update_node_neq (mesh : ImmersedBoundaryMesh) (g g' : nat) (f : Node -> Node) :
  g <> g' -> GetNode (update_node mesh g f) g' = GetNode mesh g'.
Proof. intros H. unfold GetNode, update_node. simpl. apply nth_list_update_neq. exact H. Qed.

Lemma GetNumNodes_update_node (mesh : ImmersedBoundaryMesh) (g : nat) (f : Node -> Node) :
  GetNumNodes (update_node mesh g f) = GetNumNodes mesh.
Proof. unfold GetNumNodes, update_node. simpl. apply list_update_length. Qed.

(** Two meshes with the same node locations and regions. *)
Definition same_geometry (mesh mesh' : ImmersedBoundaryMesh) : Prop :=
  GetNumNodes mesh' = GetNumNodes mesh /\
  mElements mesh' = mElements mesh /\
  forall g, mLocation (GetNode mesh' g) = mLocation (GetNode mesh g) /\
            mRegion (GetNode mesh' g) = mRegion (GetNode mesh g).

Lemma same_geometry_refl (mesh : ImmersedBoundaryMesh) : same_geometry mesh mesh.
Proof. repeat split; reflexivity. Qed.

Lemma same_geometry_trans (m1 m2 m3 : ImmersedBoundaryMesh) :
  same_geometry m1 m2 -> same_geometry m2 m3 -> same_geometry m1 m3.
Proof.
  intros (N1 & E1 & G1) (N2 & E2 & G2). repeat split; try congruence.
  - rewrite (proj1 (G2 g)). apply G1.
  - rewrite (proj2 (G2 g)). apply G1.
Qed.

Lemma same_geometry_add_force (mesh : ImmersedBoundaryMesh) (g : nat) (force : c_vector2) :
  same_geometry mesh (update_node mesh g (AddAppliedForceContribution force)).
Proof.
  repeat split.
  - apply GetNumNodes_update_node.
  - destruct (Nat.eq_dec g g0) as [<- | Hne].
    + destruct (Nat.lt_ge_cases g (GetNumNodes mesh)) as [Hlt | Hge].
      * rewrite GetNode_update_node_eq by exact Hlt. reflexivity.
      * unfold GetNode, update_node. simpl.
        rewrite nth_list_update_default by exact Hge.
        rewrite nth_overflow by exact Hge. reflexivity.
    + rewrite GetNode_update_node_neq by exact Hne. reflexivity.
  - destruct (Nat.eq_dec g g0) as [<- | Hne].
    + destruct (Nat.lt_ge_cases g (GetNumNodes mesh)) as [Hlt | Hge].
      * rewrite GetNode_update_node_eq by exact Hlt. reflexivity.
      * unfold GetNode, update_node. simpl.
        rewrite nth_list_update_default by exact Hge.
        rewrite nth_overflow by exact Hge. reflexivity.
    + rewrite GetNode_update_node_neq by exact Hne. reflexivity.
Qed.

(** Adding forces to the nodes [global idx], for [idx] in a list. *)
Definition add_forces (global : nat -> nat) (force : nat -> c_vector2) (idxs : list nat)
    (mesh : ImmersedBoundaryMesh) : ImmersedBoundaryMesh :=
  fold_left (fun mesh idx => update_node mesh (global idx) (AddAppliedForceContribution (force idx)))
            idxs mesh.

Lemma add_forces_geometry global force idxs mesh :
  same_geometry mesh (add_forces global force idxs mesh).
Proof.
  revert mesh. induction idxs as [| i idxs IH]; intros mesh; [apply same_geometry_refl |].
  unfold add_forces. simpl. eapply same_geometry_trans; [apply same_geometry_add_force |].
  apply IH.
Qed.

Lemma add_forces_frame global force idxs mesh g :
  ~ In g (map global idxs) ->
  GetNode (add_forces global force idxs mesh) g = GetNode mesh g.
Proof.
  revert mesh. induction idxs as [| i idxs IH]; intros mesh H; [reflexivity |].
  unfold add_forces. simpl.
  fold (add_forces global force idxs
          (update_node mesh (global i) (AddAppliedForceContribution (force i)))).
  rewrite IH by (intros Hin; apply H; right; exact Hin).
  apply GetNode_update_node_neq. intros E. apply H. left. exact E.
Qed.

Lemma add_forces_hit global force idxs mesh i :
  NoDup (map global idxs) -> In i idxs -> (global i < GetNumNodes mesh)%nat ->
  mAppliedForce (GetNode (add_forces global force idxs mesh) (global i))
  = vadd (mAppliedForce (GetNode mesh (global i))) (force i).
Proof.
  revert mesh. induction idxs as [| j idxs IH]; intros mesh Hnd Hin Hlt; [destruct Hin |].
  simpl in Hnd. inversion Hnd as [| ? ? Hnotin Hnd']; subst.
  unfold add_forces. simpl.
  fold (add_forces global force idxs
          (update_node mesh (global j) (AddAppliedForceContribution (force j)))).
  destruct Hin as [-> | Hin].
  - rewrite add_forces_frame by exact Hnotin.
    rewrite GetNode_update_node_eq by exact Hlt. reflexivity.
  - rewrite IH; [| exact Hnd' | exact Hin | rewrite GetNumNodes_update_node; exact Hlt].
    rewrite GetNode_update_node_neq; [reflexivity |].
    intros E. apply Hnotin. rewrite E. apply in_map. exact Hin.
Qed.

Lemma map_nth_seq {A : Type} (l : list A) (d : A) :
  map (fun i => nth i l d) (seq 0 (length l)) = l.
Proof.
  induction l as [| a l IH]; [reflexivity |].
  simpl. f_equal. rewrite <- seq_shift, map_map. exact IH.
Qed.

Lemma nth_map_seq {A : Type} (f : nat -> A) (n i : nat) (d : A) :
  (i < n)%nat -> nth i (map f (seq 0 n)) d = f i.
Proof.
  intros H. rewrite (nth_indep _ d (f 0%nat)) by (rewrite length_map, length_seq; exact H).
  rewrite (map_nth f (seq 0 n) 0%nat i), seq_nth by exact H. reflexivity.
Qed.

(** ** C4: the membrane elasticity force *)

(** Hooke's law along an edge: [F = k (|d| - l) d^], with [d^ = d / |d|]. *)
Definition hooke_force (k l : R) (d : c_vector2) : c_vector2 :=
  vscale (vdiv d (norm_2 d)) (k * (norm_2 d - l)).

(** The spring force of edge [i] when the spring is stiffened (constant
    times 10, rest length times 4) according to [stiff]. *)
Definition edge_force (stiff : bool) (mesh : ImmersedBoundaryMesh)
    (elem : ImmersedBoundaryElement) (i : nat) : c_vector2 :=
  let next := ((i + 1) mod elem_GetNumNodes elem)%nat in
  hooke_force (if stiff then mMembraneSpringConstant elem * 10 else mMembraneSpringConstant elem)
              (if stiff then mMembraneRestLength elem * 4 else mMembraneRestLength elem)
              (GetVectorFromAtoB (elem_GetNodeLocation mesh elem next)
                                 (elem_GetNodeLocation mesh elem i)).

(** A region is apical (1) or basal (0). *)
Definition apical_or_basal (region : nat) : bool := ((region =? 1) || (region =? 0))%nat.

(** The rule of the claim: the spring is stiffened when either endpoint
    of the edge is apical or basal. *)
Definition either_endpoint_force (mesh : ImmersedBoundaryMesh)
    (elem : ImmersedBoundaryElement) (i : nat) : c_vector2 :=
  let next := ((i + 1) mod elem_GetNumNodes elem)%nat in
  edge_force (apical_or_basal (mRegion (elem_GetNode mesh elem i))
              || apical_or_basal (mRegion (elem_GetNode mesh elem next)))
             mesh elem i.

(** The rule of the code: the spring is stiffened when node [i], the
    first endpoint of the edge, is apical or basal. *)
Definition first_endpoint_force (mesh : ImmersedBoundaryMesh)
    (elem : ImmersedBoundaryElement) (i : nat) : c_vector2 :=
  edge_force (apical_or_basal (mRegion (elem_GetNode mesh elem i))) mesh elem i.

(** Every node index of every element is a node of the mesh, and no node
    occurs twice in the elements ("each node is only ever in a single
    cell"). *)
Definition nodes_owned_once (mesh : ImmersedBoundaryMesh) : Prop :=
  NoDup (concat (map elem_mNodes (mElements mesh))) /\
  forall g, In g (concat (map elem_mNodes (mElements mesh))) -> (g < GetNumNodes mesh)%nat.

Lemma apical_or_basal_lt (region : nat) : apical_or_basal region = (region <? 2)%nat.
Proof.
  unfold apical_or_basal.
  destruct (Nat.eqb_spec region 1), (Nat.eqb_spec region 0), (Nat.ltb_spec region 2);
    simpl; try reflexivity; lia.
Qed.

Lemma elastic_force_first_endpoint mesh elem i :
  elastic_force_to_next_node mesh elem i = first_endpoint_force mesh elem i.
Proof.
  unfold elastic_force_to_next_node, first_endpoint_force, edge_force, hooke_force.
  rewrite apical_or_basal_lt.
  assert (10.0 = 10) as E10 by lra. assert (4.0 = 4) as E4 by lra.
  rewrite E10, E4.
  destruct (mRegion (elem_GetNode mesh elem i) <? 2)%nat;
    unfold vscale, vdiv; cbn [fst snd]; f_equal; unfold Rdiv; ring.
Qed.

Lemma elastic_force_geometry mesh mesh' elem i :
  same_geometry mesh mesh' ->
  elastic_force_to_next_node mesh' elem i = elastic_force_to_next_node mesh elem i.
Proof.
  intros (_ & _ & G). unfold elastic_force_to_next_node, elem_GetNodeLocation, elem_GetNode.
  rewrite !(proj1 (G _)), !(proj2 (G _)). reflexivity.
Qed.

Lemma membrane_force_on_element_add_forces mesh elem :
  membrane_force_on_element mesh elem
  = add_forces (elem_GetNodeGlobalIndex elem)
      (fun node_idx =>
         vsub (elastic_force_to_next_node mesh elem
                 ((node_idx + elem_GetNumNodes elem - 1) mod elem_GetNumNodes elem)%nat)
              (elastic_force_to_next_node mesh elem node_idx))
      (seq 0 (elem_GetNumNodes elem)) mesh.
Proof.
  unfold membrane_force_on_element, add_forces.
  set (n := elem_GetNumNodes elem).
  assert (forall idxs m0, (forall i, In i idxs -> (i < n)%nat) ->
    fold_left
      (fun mesh0 node_idx =>
         update_node mesh0 (elem_GetNodeGlobalIndex elem node_idx)
           (AddAppliedForceContribution
              (vsub (nth ((node_idx + n - 1) mod n)%nat
                         (map (elastic_force_to_next_node mesh elem) (seq 0 n)) zero_vector)
                    (nth node_idx (map (elastic_force_to_next_node mesh elem) (seq 0 n))
                         zero_vector)))) idxs m0
    = fold_left
      (fun mesh0 idx =>
         update_node mesh0 (elem_GetNodeGlobalIndex elem idx)
           (AddAppliedForceContribution
              (vsub (elastic_force_to_next_node mesh elem ((idx + n - 1) mod n)%nat)
                    (elastic_force_to_next_node mesh elem idx)))) idxs m0) as H.
  { induction idxs as [| i idxs IH]; intros m0 Hi; [reflexivity |].
    simpl. rewrite IH by (intros j Hj; apply Hi; right; exact Hj).
    assert (i < n)%nat as Hlt by (apply Hi; left; reflexivity).
    rewrite !nth_map_seq; [reflexivity | exact Hlt | apply Nat.mod_upper_bound; lia]. }
  apply H. intros i Hi. apply in_seq in Hi. lia.
Qed.

Lemma membrane_elements_geometry (es : list ImmersedBoundaryElement) mesh :
  same_geometry mesh (fold_left membrane_force_on_element es mesh).
Proof.
  revert mesh. induction es as [| e es IH]; intros mesh; [apply same_geometry_refl |].
  simpl. eapply same_geometry_trans; [| apply IH].
  rewrite membrane_force_on_element_add_forces. apply add_forces_geometry.
Qed.

Lemma membrane_elements_frame (es : list ImmersedBoundaryElement) mesh g :
  ~ In g (concat (map elem_mNodes es)) ->
  GetNode (fold_left membrane_force_on_element es mesh) g = GetNode mesh g.
Proof.
  revert mesh. induction es as [| e es IH]; intros mesh H; [reflexivity |].
  simpl in *. rewrite IH by (intros Hin; apply H, in_or_app; right; exact Hin).
  rewrite membrane_force_on_element_add_forces. apply add_forces_frame.
  unfold elem_GetNodeGlobalIndex, elem_GetNumNodes. rewrite map_nth_seq.
  intros Hin. apply H, in_or_app. left. exact Hin.
Qed.

Lemma NoDup_app3_middle {A : Type} (l1 l2 l3 : list A) (g : A) :
  NoDup (l1 ++ l2 ++ l3) -> In g l2 -> NoDup l2 /\ ~ In g l1 /\ ~ In g l3.
Proof.
  intros Hnd Hin. split.
  - apply NoDup_app_remove_l in Hnd. apply NoDup_app_remove_r in Hnd. exact Hnd.
  - apply in_split in Hin. destruct Hin as (a & b & ->).
    replace (l1 ++ (a ++ g :: b) ++ l3) with ((l1 ++ a) ++ g :: (b ++ l3)) in Hnd
      by (rewrite <- !app_assoc; reflexivity).
    apply NoDup_remove_2 in Hnd.
    split; intros H; apply Hnd; rewrite !in_app_iff; tauto.
Qed.

(** C4 (as the code has it).  In the membrane elasticity force the spring
    of edge [i], from node [i] to node [i+1], is [F_i = k (|d| - l) d^]
    with [d] the vector from the next node to this one; [k] is the
    element's spring constant times 10 and [l] its rest length times 4
    when node [i], the first endpoint of the edge, is apical (1) or basal
    (0), and the unmodified constants otherwise.  When every node belongs
    to one element only, the call adds [F_(i-1) - F_i] to the applied
    force of node [i]. *)
Theorem membrane_force_contribution (mesh : ImmersedBoundaryMesh) (k i : nat) :
  nodes_owned_once mesh ->
  (k < GetNumElements mesh)%nat ->
  (i < elem_GetNumNodes (GetElement mesh k))%nat ->
  let elem := GetElement mesh k in
  let n := elem_GetNumNodes elem in
  elastic_force_to_next_node mesh elem i = first_endpoint_force mesh elem i /\
  mAppliedForce (elem_GetNode (Membrane_AddForceContribution mesh) elem i)
  = vadd (mAppliedForce (elem_GetNode mesh elem i))
         (vsub (first_endpoint_force mesh elem ((i + n - 1) mod n)%nat)
               (first_endpoint_force mesh elem i)).
Proof.
  intros [Hnd Hrange] Hk Hi elem n.
  split; [apply elastic_force_first_endpoint |].
  destruct (nth_split (mElements mesh) null_element Hk) as (pre & post & Hsplit & _).
  fold (GetElement mesh k) in Hsplit. fold elem in Hsplit.
  set (g := elem_GetNodeGlobalIndex elem i).
  assert (In g (elem_mNodes elem)) as Hg by (apply nth_In; exact Hi).
  rewrite Hsplit, map_app, concat_app in Hnd, Hrange. simpl in Hnd, Hrange.
  destruct (NoDup_app3_middle _ _ _ g Hnd Hg) as (Hnde & Hpre & Hpost).
  unfold Membrane_AddForceContribution. rewrite Hsplit, fold_left_app. simpl fold_left.
  unfold elem_GetNode. fold g.
  rewrite membrane_elements_frame by exact Hpost.
  set (mesh1 := fold_left membrane_force_on_element pre mesh).
  assert (same_geometry mesh mesh1) as Hgeo by apply membrane_elements_geometry.
  assert (GetNode mesh1 g = GetNode mesh g) as Hframe
    by (apply membrane_elements_frame; exact Hpre).
  rewrite membrane_force_on_element_add_forces.
  unfold g.
  rewrite add_forces_hit.
  - fold g. rewrite Hframe. fold n.
    rewrite !(elastic_force_geometry mesh mesh1) by exact Hgeo.
    rewrite !elastic_force_first_endpoint. reflexivity.
  - unfold elem_GetNodeGlobalIndex, elem_GetNumNodes. rewrite map_nth_seq. exact Hnde.
  - apply in_seq. split; [apply Nat.le_0_l | exact Hi].
  - destruct Hgeo as (Hlen & _). rewrite Hlen. apply Hrange.
    rewrite !in_app_iff. right. left. exact Hg.
Qed.

Lemma GetVectorFromAtoB_dim_near (a b : R) :
  Rabs (b - a) <= 0.5 -> GetVectorFromAtoB_dim a b = b - a.
Proof.
  intros H. unfold GetVectorFromAtoB_dim, fabs. rewrite Rgtb_false by exact H. reflexivity.
Qed.

Lemma GetVectorFromAtoB_near (A B : c_vector2) :
  Rabs (fst B - fst A) <= 0.5 -> Rabs (snd B - snd A) <= 0.5 ->
  GetVectorFromAtoB A B = vsub B A.
Proof.
  intros H1 H2. unfold GetVectorFromAtoB, vsub.
  rewrite !GetVectorFromAtoB_dim_near by assumption. reflexivity.
Qed.

Lemma norm_2_horizontal (a : R) : norm_2 (a, 0) = Rabs a.
Proof.
  unfold norm_2. cbn [fst snd]. rewrite Rmult_0_l, Rplus_0_r.
  fold (Rsqr a). apply sqrt_Rsqr_abs.
Qed.

Lemma norm_2_vertical (b : R) : norm_2 (0, b) = Rabs b.
Proof.
  unfold norm_2. cbn [fst snd]. rewrite Rmult_0_l, Rplus_0_l.
  fold (Rsqr b). apply sqrt_Rsqr_abs.
Qed.

(** A triangle whose node 0 is lateral and whose node 1 is apical. *)
Definition triangle_node (index : nat) (location : c_vector2) (region : nat) : Node :=
  {| mIndex := index; mLocation := location; mRegion := region;
     mAppliedForce := zero_vector; mNodeAttributes := []; mElementIndices := [0%nat] |}.

Definition triangle_element : ImmersedBoundaryElement :=
  {| elem_mIndex := 0; elem_mNodes := [0; 1; 2]%nat;
     mMembraneSpringConstant := 1; mMembraneRestLength := 0.05;
     mAverageNodeSpacing := None; mElementAttributes := [];
     mCornerNodes := []; mpFluidSource := None |}.

Definition triangle_mesh : ImmersedBoundaryMesh :=
  {| mNodes := [triangle_node 0 (0.1, 0.1) 2; triangle_node 1 (0.2, 0.1) 1;
                triangle_node 2 (0.15, 0.2) 2];
     mElements := [triangle_element];
     mMembraneIndex := None;
     mElementDivisionSpacing := None;
     mCharacteristicNodeSpacing := 0.1;
     mElementFluidSources := [];
     mBalancingFluidSources := [] |}.

Lemma triangle_edge_0 :
  GetVectorFromAtoB (elem_GetNodeLocation triangle_mesh triangle_element 1)
                    (elem_GetNodeLocation triangle_mesh triangle_element 0)
  = (-0.1, 0).
Proof.
  cbn [elem_GetNodeLocation elem_GetNode elem_GetNodeGlobalIndex GetNode triangle_mesh
       triangle_element triangle_node elem_mNodes mNodes nth mLocation].
  rewrite GetVectorFromAtoB_near; cbn [fst snd].
  - unfold vsub; cbn [fst snd]. f_equal; lra.
  - apply Rabs_le; lra.
  - apply Rabs_le; lra.
Qed.

(** C4, as stated, fails on the code: on the edge from the lateral node 0
    to the apical node 1 of the triangle, the code applies the unmodified
    spring (force [-0.05] along x), where the claim's rule, stiffening
    the spring when either endpoint is apical or basal, gives [1]. *)
Lemma membrane_either_endpoint_counterexample :
  elastic_force_to_next_node triangle_mesh triangle_element 0
  <> either_endpoint_force triangle_mesh triangle_element 0.
Proof.
  rewrite elastic_force_first_endpoint.
  unfold first_endpoint_force, either_endpoint_force, edge_force.
  change ((0 + 1) mod elem_GetNumNodes triangle_element)%nat with 1%nat.
  rewrite triangle_edge_0.
  change (mRegion (elem_GetNode triangle_mesh triangle_element 0)) with 2%nat.
  change (mRegion (elem_GetNode triangle_mesh triangle_element 1)) with 1%nat.
  cbn [apical_or_basal Nat.eqb orb mMembraneSpringConstant mMembraneRestLength triangle_element].
  unfold hooke_force. rewrite norm_2_horizontal.
  rewrite Rabs_left by lra.
  unfold vscale, vdiv. cbn [fst snd].
  intros H. apply (f_equal fst) in H. cbn [fst] in H.
  replace (- (-0.1)) with 0.1 in H by lra.
  lra.
Qed.

Lemma membrane_force_contribution_witness :
  let elem := GetElement triangle_mesh 0 in
  let n := elem_GetNumNodes elem in
  elastic_force_to_next_node triangle_mesh elem 1 = first_endpoint_force triangle_mesh elem 1 /\
  mAppliedForce (elem_GetNode (Membrane_AddForceContribution triangle_mesh) elem 1)
  = vadd (mAppliedForce (elem_GetNode triangle_mesh elem 1))
         (vsub (first_endpoint_force triangle_mesh elem ((1 + n - 1) mod n)%nat)
               (first_endpoint_force triangle_mesh elem 1)).
Proof.
  apply (membrane_force_contribution triangle_mesh 0 1).
  - split.
    + cbn. repeat constructor; cbn; intuition lia.
    + cbn. intros g Hg. intuition lia.
  - cbn. lia.
  - cbn. lia.
Defined.

(** ** Facts on loops that update nodes *)

(** The nodes [global idx], for [idx] in a list, updated in turn. *)
Definition update_nodes (global : nat -> nat) (f : nat -> Node -> Node) (idxs : list nat)
    (mesh : ImmersedBoundaryMesh) : ImmersedBoundaryMesh :=
  fold_left (fun mesh idx => update_node mesh (global idx) (f idx)) idxs mesh.

Lemma update_nodes_elements global f idxs mesh :
  mElements (update_nodes global f idxs mesh) = mElements mesh /\
  mMembraneIndex (update_nodes global f idxs mesh) = mMembraneIndex mesh /\
  GetNumNodes (update_nodes global f idxs mesh) = GetNumNodes mesh.
Proof.
  revert mesh. induction idxs as [| i idxs IH]; intros mesh; [auto |].
  unfold update_nodes. simpl.
  fold (update_nodes global f idxs (update_node mesh (global i) (f i))).
  destruct (IH (update_node mesh (global i) (f i))) as (E1 & E2 & E3).
  rewrite E1, E2, E3, GetNumNodes_update_node. auto.
Qed.

Lemma update_nodes_frame global f idxs mesh g :
  ~ In g (map global idxs) ->
  GetNode (update_nodes global f idxs mesh) g = GetNode mesh g.
Proof.
  revert mesh. induction idxs as [| i idxs IH]; intros mesh H; [reflexivity |].
  unfold update_nodes. simpl.
  fold (update_nodes global f idxs (update_node mesh (global i) (f i))).
  rewrite IH by (intros Hin; apply H; right; exact Hin).
  apply GetNode_update_node_neq. intros E. apply H. left. exact E.
Qed.

Lemma update_nodes_hit global f idxs mesh i :
  NoDup (map global idxs) -> In i idxs -> (global i < GetNumNodes mesh)%nat ->
  GetNode (update_nodes global f idxs mesh) (global i) = f i (GetNode mesh (global i)).
Proof.
  revert mesh. induction idxs as [| j idxs IH]; intros mesh Hnd Hin Hlt; [destruct Hin |].
  simpl in Hnd. inversion Hnd as [| ? ? Hnotin Hnd']; subst.
  unfold update_nodes. simpl.
  fold (update_nodes global f idxs (update_node mesh (global j) (f j))).
  destruct Hin as [-> | Hin].
  - rewrite update_nodes_frame by exact Hnotin.
    apply GetNode_update_node_eq. exact Hlt.
  - rewrite IH; [| exact Hnd' | exact Hin | rewrite GetNumNodes_update_node; exact Hlt].
    rewrite GetNode_update_node_neq; [reflexivity |].
    intros E. apply Hnotin. rewrite E. apply in_map. exact Hin.
Qed.

Lemma NoDup_concat_nth {A : Type} (ls : list (list A)) (k : nat) :
  NoDup (concat ls) -> NoDup (nth k ls []).
Proof.
  revert k. induction ls as [| l ls IH]; intros k H.
  - destruct k; constructor.
  - simpl in H. destruct k as [| k]; simpl.
    + apply NoDup_app_remove_r in H. exact H.
    + apply IH. apply NoDup_app_remove_l in H. exact H.
Qed.

Lemma In_concat_nth {A : Type} (ls : list (list A)) (k : nat) (g : A) :
  In g (nth k ls []) -> In g (concat ls).
Proof.
  revert k. induction ls as [| l ls IH]; intros k H.
  - destruct k; destruct H.
  - simpl. apply in_or_app. destruct k as [| k]; simpl in H; [left; exact H |].
    right. apply (IH k). exact H.
Qed.

Lemma NoDup_concat_disjoint {A : Type} (ls : list (list A)) (j k : nat) (g : A) :
  NoDup (concat ls) -> j <> k -> In g (nth j ls []) -> In g (nth k ls []) -> False.
Proof.
  revert j k. induction ls as [| l ls IH]; intros j k Hnd Hjk Hj Hk.
  - destruct j; destruct Hj.
  - simpl in Hnd.
    destruct j as [| j], k as [| k]; simpl in Hj, Hk.
    + contradiction.
    + destruct (NoDup_app3_middle [] l (concat ls) g Hnd Hj) as (_ & _ & Hno).
      apply Hno. apply (In_concat_nth ls k). exact Hk.
    + destruct (NoDup_app3_middle [] l (concat ls) g Hnd Hk) as (_ & _ & Hno).
      apply Hno. apply (In_concat_nth ls j). exact Hj.
    + apply (IH j k); [apply NoDup_app_remove_l in Hnd; exact Hnd | lia | exact Hj | exact Hk].
Qed.

Lemma elem_mNodes_nth (mesh : ImmersedBoundaryMesh) (k : nat) :
  elem_mNodes (GetElement mesh k) = nth k (map elem_mNodes (mElements mesh)) [].
Proof.
  unfold GetElement. change (@nil nat) with (elem_mNodes null_element).
  rewrite map_nth. reflexivity.
Qed.

Lemma list_update_app_r {A : Type} (f : A -> A) (l l' : list A) (i : nat) :
  list_update f (length l + i) (l ++ l') = l ++ list_update f i l'.
Proof.
  induction l as [| a l IH]; simpl; [reflexivity |]. rewrite IH. reflexivity.
Qed.

(** ** C5: protein levels after the set-up of the cell-cell force *)

(** The level of protein 0 (E-cadherin), 1 (P-cadherin) or 2 (Integrin)
    at a node: the attribute at the location the force recorded. *)
Definition protein_level (force : CellCellInteractionForce) (protein : nat) (n : Node) : R :=
  nth (nth protein (mProteinNodeAttributeLocations force) 0%nat) (mNodeAttributes n) 0.

(** The nodes that belong to some element, membrane element included. *)
Definition element_nodes (mesh : ImmersedBoundaryMesh) : list nat :=
  concat (map elem_mNodes (mElements mesh)).

Lemma InitializeProteinLevels_element_eq force mesh elem_idx :
  InitializeProteinLevels_element force mesh elem_idx
  = update_nodes (elem_GetNodeGlobalIndex (GetElement mesh elem_idx))
      (fun _ => add_protein_levels force 1.0 0.0 0.0)
      (seq 0 (elem_GetNumNodes (GetElement mesh elem_idx))) mesh.
Proof.
  unfold InitializeProteinLevels_element, update_nodes.
  destruct (match mMembraneIndex mesh with
            | Some membrane_index => (elem_idx =? membrane_index)%nat
            | None => false
            end); reflexivity.
Qed.

Lemma InitializeProteinLevels_frame force idxs mesh g :
  (forall j, In j idxs -> ~ In g (elem_mNodes (GetElement mesh j))) ->
  mElements (fold_left (InitializeProteinLevels_element force) idxs mesh) = mElements mesh /\
  GetNumNodes (fold_left (InitializeProteinLevels_element force) idxs mesh) = GetNumNodes mesh /\
  GetNode (fold_left (InitializeProteinLevels_element force) idxs mesh) g = GetNode mesh g.
Proof.
  revert mesh. induction idxs as [| i idxs IH]; intros mesh H; [auto |].
  simpl. rewrite InitializeProteinLevels_element_eq.
  set (mesh1 := update_nodes _ _ _ mesh).
  destruct (update_nodes_elements (elem_GetNodeGlobalIndex (GetElement mesh i))
              (fun _ => add_protein_levels force 1.0 0.0 0.0)
              (seq 0 (elem_GetNumNodes (GetElement mesh i))) mesh) as (E1 & _ & E3).
  fold mesh1 in E1, E3.
  destruct (IH mesh1) as (F1 & F2 & F3).
  { intros j Hj. unfold GetElement. rewrite E1. apply H. right. exact Hj. }
  rewrite F1, F2, F3, E1, E3. repeat split.
  apply update_nodes_frame.
  unfold elem_GetNodeGlobalIndex, elem_GetNumNodes. rewrite map_nth_seq.
  apply H. left. reflexivity.
Qed.

Lemma InitializeProteinLevels_node force mesh g :
  nodes_owned_once mesh ->
  (In g (element_nodes mesh) ->
   GetNode (InitializeProteinLevels force mesh) g
   = add_protein_levels force 1.0 0.0 0.0 (GetNode mesh g)) /\
  (~ In g (element_nodes mesh) ->
   GetNode (InitializeProteinLevels force mesh) g = GetNode mesh g).
Proof.
  intros [Hnd Hrange]. fold (element_nodes mesh) in Hnd, Hrange.
  unfold InitializeProteinLevels. split.
  - intros Hin. unfold element_nodes in Hin.
    apply in_concat in Hin. destruct Hin as (l & Hl & Hg).
    apply (In_nth _ _ []) in Hl. destruct Hl as (k & Hk & <-).
    rewrite length_map in Hk. fold (GetNumElements mesh) in Hk.
    rewrite <- elem_mNodes_nth in Hg.
    assert (forall j, j <> k -> ~ In g (elem_mNodes (GetElement mesh j))) as Hother.
    { intros j Hjk Hj. rewrite elem_mNodes_nth in Hj, Hg.
      apply (NoDup_concat_disjoint _ j k g Hnd Hjk Hj Hg). }
    replace (GetNumElements mesh) with (k + (1 + (GetNumElements mesh - k - 1)))%nat by lia.
    rewrite !seq_app, !fold_left_app. simpl (seq (0 + k) 1). simpl (fold_left _ [k] _).
    set (mesh1 := fold_left (InitializeProteinLevels_element force) (seq 0 k) mesh).
    destruct (InitializeProteinLevels_frame force (seq 0 k) mesh g) as (E1 & E2 & E3).
    { intros j Hj. apply Hother. apply in_seq in Hj. lia. }
    fold mesh1 in E1, E2, E3.
    set (mesh2 := InitializeProteinLevels_element force mesh1 k).
    assert (mElements mesh2 = mElements mesh /\ GetNumNodes mesh2 = GetNumNodes mesh /\
            GetNode mesh2 g = add_protein_levels force 1.0 0.0 0.0 (GetNode mesh g))
      as (G1 & G2 & G3).
    { subst mesh2. rewrite InitializeProteinLevels_element_eq.
      assert (GetElement mesh1 k = GetElement mesh k) as Ek by (unfold GetElement; rewrite E1; reflexivity).
      rewrite Ek.
      destruct (update_nodes_elements (elem_GetNodeGlobalIndex (GetElement mesh k))
                  (fun _ => add_protein_levels force 1.0 0.0 0.0)
                  (seq 0 (elem_GetNumNodes (GetElement mesh k))) mesh1) as (U1 & _ & U3).
      rewrite U1, U3, E1, E2. repeat split.
      apply (In_nth _ _ 0%nat) in Hg. destruct Hg as (i & Hi & Hgi).
      fold (elem_GetNodeGlobalIndex (GetElement mesh k) i) in Hgi.
      rewrite <- Hgi.
      rewrite update_nodes_hit.
      - rewrite Hgi, E3. reflexivity.
      - unfold elem_GetNodeGlobalIndex, elem_GetNumNodes. rewrite map_nth_seq.
        rewrite elem_mNodes_nth. apply NoDup_concat_nth. exact Hnd.
      - apply in_seq. split; [apply Nat.le_0_l | exact Hi].
      - rewrite E2, Hgi. apply Hrange. unfold element_nodes.
        apply (In_concat_nth _ k). rewrite <- elem_mNodes_nth.
        rewrite <- Hgi. apply nth_In. exact Hi. }
    destruct (InitializeProteinLevels_frame force
                (seq (0 + k + 1) (GetNumElements mesh - k - 1)) mesh2 g) as (_ & _ & F3).
    { intros j Hj. unfold GetElement. rewrite G1. apply Hother. apply in_seq in Hj. lia. }
    rewrite F3. exact G3.
  - intros Hnot.
    apply InitializeProteinLevels_frame.
    intros j _ Hj. apply Hnot. unfold element_nodes.
    apply (In_concat_nth _ j). rewrite <- elem_mNodes_nth. exact Hj.
Qed.

Lemma GetNode_update_node_preserved {T : Type} (proj : Node -> T)
    (mesh : ImmersedBoundaryMesh) (g g' : nat) (f : Node -> Node) :
  (forall n, proj (f n) = proj n) ->
  proj (GetNode (update_node mesh g f) g') = proj (GetNode mesh g').
Proof.
  intros Hf. destruct (Nat.eq_dec g g') as [<- | Hne].
  - destruct (Nat.lt_ge_cases g (GetNumNodes mesh)) as [Hlt | Hge].
    + rewrite GetNode_update_node_eq by exact Hlt. apply Hf.
    + unfold GetNode, update_node. simpl.
      rewrite nth_list_update_default by exact Hge.
      rewrite nth_overflow by exact Hge. reflexivity.
  - rewrite GetNode_update_node_neq by exact Hne. reflexivity.
Qed.

Lemma GetAverageNodeSpacingOfElement_nodes mesh index recalculate :
  mNodes (fst (GetAverageNodeSpacingOfElement mesh index recalculate)) = mNodes mesh.
Proof.
  unfold GetAverageNodeSpacingOfElement.
  destruct recalculate, (mAverageNodeSpacing (GetElement mesh index)); reflexivity.
Qed.

Lemma pair_forces_nodes force pop mesh pair force_a_to_b force_b_to_a mesh' :
  pair_forces force pop mesh pair = Some (force_a_to_b, force_b_to_a, mesh') ->
  mNodes mesh' = mNodes mesh.
Proof.
  unfold pair_forces.
  destruct (first_containing_element (GetNode mesh (fst pair))
            =? first_containing_element (GetNode mesh (snd pair)))%nat; [discriminate |].
  destruct (Rltb _ _); [| discriminate].
  pose proof (GetAverageNodeSpacingOfElement_nodes mesh
                (first_containing_element (GetNode mesh (fst pair))) false) as Ha.
  destruct (GetAverageNodeSpacingOfElement mesh
              (first_containing_element (GetNode mesh (fst pair))) false) as [mesh1 sa].
  pose proof (GetAverageNodeSpacingOfElement_nodes mesh1
                (first_containing_element (GetNode mesh (snd pair))) false) as Hb.
  destruct (GetAverageNodeSpacingOfElement mesh1
              (first_containing_element (GetNode mesh (snd pair))) false) as [mesh2 sb].
  simpl in Ha, Hb. intros H. inversion H; subst. congruence.
Qed.

Lemma pair_step_attributes force pop mesh pair g :
  mNodeAttributes (GetNode (pair_step force pop mesh pair) g) = mNodeAttributes (GetNode mesh g).
Proof.
  unfold pair_step.
  destruct (pair_forces force pop mesh pair) as [[[fa fb] mesh'] |] eqn:E; [| reflexivity].
  apply pair_forces_nodes in E.
  rewrite !(GetNode_update_node_preserved mNodeAttributes) by reflexivity.
  unfold GetNode. rewrite E. reflexivity.
Qed.

Lemma pair_loop_attributes force pop pairs mesh g :
  mNodeAttributes (GetNode (fold_left (pair_step force pop) pairs mesh) g)
  = mNodeAttributes (GetNode mesh g).
Proof.
  revert mesh. induction pairs as [| pair pairs IH]; intros mesh; [reflexivity |].
  simpl. rewrite IH. apply pair_step_attributes.
Qed.

(** C5 (as the code has it).  After the first call of the cell-cell
    force on a mesh whose nodes each belong to one element, every node of
    every element, the membrane element included, has E-cadherin level 1;
    a node of no element has E-cadherin level 0; and the P-cadherin and
    Integrin levels of every node are 0. *)
Theorem protein_levels_after_set_up (force force' : CellCellInteractionForce)
    (pop pop' : ImmersedBoundaryCellPopulation) (rNodePairs : list (nat * nat)) (g : nat) :
  mProteinNodeAttributeLocations force = [] ->
  mNumProteins force = 3%nat ->
  nodes_owned_once (rGetMesh pop) ->
  CellCell_AddImmersedBoundaryForceContribution force pop rNodePairs
    = (force', pop', Returned tt) ->
  (g < GetNumNodes (rGetMesh pop))%nat ->
  let node := GetNode (rGetMesh pop') g in
  (In g (element_nodes (rGetMesh pop)) -> protein_level force' 0 node = 1) /\
  (~ In g (element_nodes (rGetMesh pop)) -> protein_level force' 0 node = 0) /\
  protein_level force' 1 node = 0 /\
  protein_level force' 2 node = 0.
Proof.
  intros Hempty Hthree Howned Hcall Hg node.
  unfold CellCell_AddImmersedBoundaryForceContribution in Hcall.
  rewrite Hempty in Hcall. unfold CellCell_SetUp in Hcall.
  cbn [mNumProteins mProteinNodeAttributeLocations mSpringConst mRestLength
       mLinearSpring mMorse] in Hcall.
  rewrite Hempty, Hthree in Hcall.
  set (mesh := rGetMesh pop) in *.
  set (n0 := length (mNodeAttributes (GetNode mesh 0))) in *.
  destruct (forallb (fun n => (length (mNodeAttributes n) =? n0)%nat) (mNodes mesh)) eqn:Hall;
    [| discriminate].
  cbn [app map seq rGetMesh set_rGetMesh] in Hcall.
  inversion Hcall as [[Hforce Hpop]]. clear Hcall.
  set (force1 := {| mSpringConst := mSpringConst force;
                    mRestLength := 0.25 * GetInteractionDistance pop;
                    mNumProteins := 3;
                    mProteinNodeAttributeLocations := [(n0 + 0)%nat; (n0 + 1)%nat; (n0 + 2)%nat];
                    mLinearSpring := mLinearSpring force;
                    mMorse := mMorse force |}) in *.
  set (add3 := fun n : Node =>
                 AddNodeAttribute 0.0 (AddNodeAttribute 0.0 (AddNodeAttribute 0.0 n))) in *.
  set (mesh1 := set_mNodes mesh (map add3 (mNodes mesh))) in *.
  set (old := mNodeAttributes (GetNode mesh g)).
  assert (length old = n0) as Hold.
  { rewrite forallb_forall in Hall.
    apply Nat.eqb_eq, Hall. apply nth_In. exact Hg. }
  assert (GetNode mesh1 g = add3 (GetNode mesh g)) as Hnode1.
  { unfold GetNode, mesh1. cbn [mNodes set_mNodes].
    rewrite (nth_indep _ null_node (add3 null_node)) by (rewrite length_map; exact Hg).
    apply map_nth. }
  assert (mNodeAttributes (GetNode mesh1 g) = old ++ [0.0; 0.0; 0.0]) as Hattr1.
  { rewrite Hnode1. unfold add3. cbn [AddNodeAttribute set_mNodeAttributes mNodeAttributes].
    fold old. rewrite <- !app_assoc. reflexivity. }
  assert (nodes_owned_once mesh1) as Howned1.
  { destruct Howned as [Hnd Hrange]. split; [exact Hnd |].
    intros g' Hg'. unfold GetNumNodes, mesh1. cbn [mNodes set_mNodes].
    rewrite length_map. apply Hrange. exact Hg'. }
  destruct (InitializeProteinLevels_node force1 mesh1 g Howned1) as [Hin Hout].
  change (element_nodes mesh1) with (element_nodes mesh) in Hin, Hout.
  subst node. unfold protein_level.
  rewrite <- Hpop. cbn [rGetMesh set_rGetMesh].
  rewrite pair_loop_attributes.
  cbn [mProteinNodeAttributeLocations nth force1].
  rewrite <- Hold.
  repeat split.
  - intros Hel. rewrite (Hin Hel).
    unfold add_protein_levels.
    cbn [mNodeAttributes set_mNodeAttributes mProteinNodeAttributeLocations nth force1].
    rewrite Hattr1, <- Hold, !list_update_app_r. cbn [list_update].
    rewrite app_nth2_plus. cbn [nth]. lra.
  - intros Hel. rewrite (Hout Hel), Hattr1, app_nth2_plus. cbn [nth]. lra.
  - destruct (in_dec Nat.eq_dec g (element_nodes mesh)) as [Hel | Hel].
    + rewrite (Hin Hel). unfold add_protein_levels.
      cbn [mNodeAttributes set_mNodeAttributes mProteinNodeAttributeLocations nth force1].
      rewrite Hattr1, <- Hold, !list_update_app_r. cbn [list_update].
      rewrite app_nth2_plus. cbn [nth]. lra.
    + rewrite (Hout Hel), Hattr1, app_nth2_plus. cbn [nth]. lra.
  - destruct (in_dec Nat.eq_dec g (element_nodes mesh)) as [Hel | Hel].
    + rewrite (Hin Hel). unfold add_protein_levels.
      cbn [mNodeAttributes set_mNodeAttributes mProteinNodeAttributeLocations nth force1].
      rewrite Hattr1, <- Hold, !list_update_app_r. cbn [list_update].
      rewrite app_nth2_plus. cbn [nth]. lra.
    + rewrite (Hout Hel), Hattr1, app_nth2_plus. cbn [nth]. lra.
Qed.

(** A mesh with a membrane element (element 0, node 0) and one cell
    (element 1, node 1). *)
Definition lamina_node (index element : nat) (location : c_vector2) : Node :=
  {| mIndex := index; mLocation := location; mRegion := 2;
     mAppliedForce := zero_vector; mNodeAttributes := []; mElementIndices := [element] |}.

Definition lamina_element (index node : nat) : ImmersedBoundaryElement :=
  {| elem_mIndex := index; elem_mNodes := [node];
     mMembraneSpringConstant := 1; mMembraneRestLength := 0.05;
     mAverageNodeSpacing := None; mElementAttributes := [];
     mCornerNodes := []; mpFluidSource := None |}.

Definition lamina_mesh : ImmersedBoundaryMesh :=
  {| mNodes := [lamina_node 0 0 (0.5, 0.1); lamina_node 1 1 (0.5, 0.5)];
     mElements := [lamina_element 0 0; lamina_element 1 1];
     mMembraneIndex := Some 0%nat;
     mElementDivisionSpacing := None;
     mCharacteristicNodeSpacing := 0.1;
     mElementFluidSources := [];
     mBalancingFluidSources := [] |}.

Definition lamina_population : ImmersedBoundaryCellPopulation :=
  {| rGetMesh := lamina_mesh; GetInteractionDistance := 0.1; GetIntrinsicSpacing := 0.01 |}.

(** The force as its constructor leaves it (the rest length is assigned
    by the set-up before it is read). *)
Definition new_cell_cell_force : CellCellInteractionForce :=
  {| mSpringConst := 1000; mRestLength := 0; mNumProteins := 3;
     mProteinNodeAttributeLocations := []; mLinearSpring := true; mMorse := false |}.

(** C5, as stated, fails on the code: after the first call, node 0, which
    belongs to the membrane element only, has E-cadherin level 1, not 0. *)
Lemma membrane_E_cadherin_counterexample :
  let result :=
    CellCell_AddImmersedBoundaryForceContribution new_cell_cell_force lamina_population [] in
  snd result = Returned tt /\
  protein_level (fst (fst result)) 0 (GetNode (rGetMesh (snd (fst result))) 0) = 1 /\
  protein_level (fst (fst result)) 0 (GetNode (rGetMesh (snd (fst result))) 0) <> 0.
Proof.
  cbn -[Rplus]. repeat split; lra.
Qed.

Lemma protein_levels_after_set_up_witness :
  let result :=
    CellCell_AddImmersedBoundaryForceContribution new_cell_cell_force lamina_population [] in
  let node := GetNode (rGetMesh (snd (fst result))) 1 in
  (In 1%nat (element_nodes lamina_mesh) -> protein_level (fst (fst result)) 0 node = 1) /\
  (~ In 1%nat (element_nodes lamina_mesh) -> protein_level (fst (fst result)) 0 node = 0) /\
  protein_level (fst (fst result)) 1 node = 0 /\
  protein_level (fst (fst result)) 2 node = 0.
Proof.
  intros result.
  apply (protein_levels_after_set_up new_cell_cell_force (fst (fst result))
           lamina_population (snd (fst result)) [] 1%nat).
  - reflexivity.
  - reflexivity.
  - split.
    + cbn. repeat constructor; cbn; intuition lia.
    + cbn. intros g Hg. intuition lia.
  - reflexivity.
  - cbn. lia.
Defined.

(** ** C8: symmetry of the cell-cell interaction force *)

(** The average node spacings the loop reads for the elements of the two
    nodes of a pair, in the order of the two calls. *)
Definition pair_spacings (mesh : ImmersedBoundaryMesh) (pair : nat * nat) : R * R :=
  let elem_a := first_containing_element (GetNode mesh (fst pair)) in
  let elem_b := first_containing_element (GetNode mesh (snd pair)) in
  let '(mesh, node_a_elem_spacing) := GetAverageNodeSpacingOfElement mesh elem_a false in
  let '(_, node_b_elem_spacing) := GetAverageNodeSpacingOfElement mesh elem_b false in
  (node_a_elem_spacing, node_b_elem_spacing).

(** C8.  For an interacting pair of distinct nodes whose elements have
    equal average node spacings, the force added to the first node and
    the force added to the second are the negatives of each other, with
    the linear spring law and with the Morse potential alike. *)
Theorem cell_cell_pair_forces_opposite (force : CellCellInteractionForce)
    (pop : ImmersedBoundaryCellPopulation) (mesh mesh' : ImmersedBoundaryMesh)
    (a b : nat) (force_a_to_b force_b_to_a : c_vector2) :
  pair_forces force pop mesh (a, b) = Some (force_a_to_b, force_b_to_a, mesh') ->
  fst (pair_spacings mesh (a, b)) = snd (pair_spacings mesh (a, b)) ->
  a <> b -> (a < GetNumNodes mesh)%nat -> (b < GetNumNodes mesh)%nat ->
  vadd force_a_to_b force_b_to_a = zero_vector /\
  mAppliedForce (GetNode (pair_step force pop mesh (a, b)) a)
    = vadd (mAppliedForce (GetNode mesh a)) force_a_to_b /\
  mAppliedForce (GetNode (pair_step force pop mesh (a, b)) b)
    = vadd (mAppliedForce (GetNode mesh b)) force_b_to_a.
Proof.
  intros Hpair Hspacing Hab Ha Hb.
  pose proof (pair_forces_nodes _ _ _ _ _ _ _ Hpair) as Hnodes.
  split; [| split].
  - unfold pair_forces in Hpair. unfold pair_spacings in Hspacing.
    cbn [fst snd] in Hpair, Hspacing.
    destruct (first_containing_element (GetNode mesh a)
              =? first_containing_element (GetNode mesh b))%nat; [discriminate |].
    destruct (Rltb _ _); [| discriminate].
    destruct (GetAverageNodeSpacingOfElement mesh
                (first_containing_element (GetNode mesh a)) false) as [mesh1 sa].
    destruct (GetAverageNodeSpacingOfElement mesh1
                (first_containing_element (GetNode mesh b)) false) as [mesh2 sb].
    cbn [fst snd] in Hspacing. subst sb.
    inversion Hpair as [[Hfa Hfb Hmesh]]. clear Hpair Hfa Hfb Hmesh.
    assert (-1.0 = -1) as E by lra. rewrite E.
    unfold vadd, vdiv, vscale, zero_vector. cbn [fst snd].
    f_equal; unfold Rdiv; ring.
  - unfold pair_step. rewrite Hpair. cbn [fst snd].
    rewrite GetNode_update_node_neq by (intros E; apply Hab; symmetry; exact E).
    rewrite GetNode_update_node_eq by (unfold GetNumNodes; rewrite Hnodes; exact Ha).
    unfold GetNode. rewrite Hnodes. reflexivity.
  - unfold pair_step. rewrite Hpair. cbn [fst snd].
    rewrite GetNode_update_node_eq
      by (rewrite GetNumNodes_update_node; unfold GetNumNodes; rewrite Hnodes; exact Hb).
    rewrite GetNode_update_node_neq by exact Hab.
    unfold GetNode. rewrite Hnodes. reflexivity.
Qed.

(** Two cells of one node each, 0.02 apart, with equal cached spacings. *)
Definition pair_node (index : nat) (location : c_vector2) : Node :=
  {| mIndex := index; mLocation := location; mRegion := 2;
     mAppliedForce := zero_vector; mNodeAttributes := [1; 0; 0];
     mElementIndices := [index] |}.

Definition pair_element (index : nat) : ImmersedBoundaryElement :=
  {| elem_mIndex := index; elem_mNodes := [index];
     mMembraneSpringConstant := 1; mMembraneRestLength := 0.05;
     mAverageNodeSpacing := Some 0.01; mElementAttributes := [];
     mCornerNodes := []; mpFluidSource := None |}.

Definition pair_mesh : ImmersedBoundaryMesh :=
  {| mNodes := [pair_node 0 (0.5, 0.5); pair_node 1 (0.5, 0.52)];
     mElements := [pair_element 0; pair_element 1];
     mMembraneIndex := None;
     mElementDivisionSpacing := None;
     mCharacteristicNodeSpacing := 0.01;
     mElementFluidSources := [];
     mBalancingFluidSources := [] |}.

Definition pair_population : ImmersedBoundaryCellPopulation :=
  {| rGetMesh := pair_mesh; GetInteractionDistance := 0.1; GetIntrinsicSpacing := 0.01 |}.

Definition morse_force : CellCellInteractionForce :=
  {| mSpringConst := 1000; mRestLength := 0.025; mNumProteins := 3;
     mProteinNodeAttributeLocations := [0; 1; 2]%nat;
     mLinearSpring := false; mMorse := true |}.

Lemma pair_mesh_interacts :
  exists force_a_to_b force_b_to_a,
    pair_forces morse_force pair_population pair_mesh (0%nat, 1%nat)
    = Some (force_a_to_b, force_b_to_a, pair_mesh).
Proof.
  unfold pair_forces.
  cbn [fst snd GetNode nth mNodes pair_mesh pair_node first_containing_element hd
       mElementIndices mLocation Nat.eqb].
  rewrite GetVectorFromAtoB_near by (cbn [fst snd]; apply Rabs_le; lra).
  unfold vsub at 1. cbn [fst snd].
  replace (0.5 - 0.5) with 0 by lra.
  rewrite norm_2_vertical, Rabs_pos_eq by lra.
  rewrite Rltb_true by (cbn [GetInteractionDistance pair_population]; lra).
  unfold GetAverageNodeSpacingOfElement.
  cbn [GetElement nth mElements pair_mesh pair_element mAverageNodeSpacing].
  eexists. eexists. reflexivity.
Qed.

Lemma cell_cell_pair_forces_opposite_witness :
  exists force_a_to_b force_b_to_a,
    vadd force_a_to_b force_b_to_a = zero_vector /\
    mAppliedForce (GetNode (pair_step morse_force pair_population pair_mesh (0%nat, 1%nat)) 0)
      = vadd (mAppliedForce (GetNode pair_mesh 0)) force_a_to_b /\
    mAppliedForce (GetNode (pair_step morse_force pair_population pair_mesh (0%nat, 1%nat)) 1)
      = vadd (mAppliedForce (GetNode pair_mesh 1)) force_b_to_a.
Proof.
  destruct pair_mesh_interacts as (force_a_to_b & force_b_to_a & Hpair).
  exists force_a_to_b, force_b_to_a.
  apply (cell_cell_pair_forces_opposite morse_force pair_population pair_mesh pair_mesh
           0 1 force_a_to_b force_b_to_a Hpair).
  - reflexivity.
  - lia.
  - cbn. lia.
  - cbn. lia.
Defined.

(** ** C10: the degenerate branch of the short axis *)

(** C10.  Whenever [GetShortAxisOfElement] takes its degenerate branch
    (the discriminant of the moments is below 1e-10 in absolute value),
    then for every random draw [ranf] of [0,1) the vector returned is
    [(ranf, sqrt (1 - ranf^2))]: it has norm 1 and both components are
    non-negative, so it lies in the closed first quadrant. *)
Theorem short_axis_degenerate_branch (mesh : ImmersedBoundaryMesh) (index : nat) (ranf : R) :
  0 <= ranf < 1 ->
  let moments := CalculateMomentsOfElement mesh index in
  fabs ((moment_xx moments - moment_yy moments) * (moment_xx moments - moment_yy moments)
        + 4.0 * moment_xy moments * moment_xy moments) < 1e-10 ->
  let short_axis := GetShortAxisOfElement mesh index ranf in
  short_axis = (ranf, sqrt (1 - ranf * ranf)) /\
  norm_2 short_axis = 1 /\
  0 <= fst short_axis /\ 0 <= snd short_axis.
Proof.
  intros Hr moments Hdisc short_axis.
  assert (short_axis = (ranf, sqrt (1 - ranf * ranf))) as E.
  { subst short_axis. unfold GetShortAxisOfElement. fold moments.
    rewrite Rltb_true by exact Hdisc.
    replace 1.0 with 1 by lra. reflexivity. }
  rewrite E. cbn [fst snd].
  assert (0 <= 1 - ranf * ranf) as Hpos by nra.
  repeat split.
  - unfold norm_2. cbn [fst snd]. rewrite sqrt_sqrt by exact Hpos.
    replace (ranf * ranf + (1 - ranf * ranf)) with 1 by ring. apply sqrt_1.
  - apply Hr.
  - apply sqrt_pos.
Qed.

(** A small triangle: legs of length 0.01 at (0.5, 0.5). *)
Definition small_triangle_mesh : ImmersedBoundaryMesh :=
  {| mNodes := [triangle_node 0 (0.5, 0.5) 2; triangle_node 1 (0.51, 0.5) 2;
                triangle_node 2 (0.5, 0.51) 2];
     mElements := [triangle_element];
     mMembraneIndex := None;
     mElementDivisionSpacing := None;
     mCharacteristicNodeSpacing := 0.01;
     mElementFluidSources := [];
     mBalancingFluidSources := [] |}.

Lemma small_triangle_centroid :
  GetCentroidOfElement small_triangle_mesh 0 = (0.5 + 1 / 300, 0.5 + 1 / 300).
Proof.
  unfold GetCentroidOfElement.
  cbn [is_membrane_index mMembraneIndex small_triangle_mesh GetElement mElements nth
       triangle_element elem_GetNumNodes elem_mNodes length seq fold_left
       elem_GetNodeLocation elem_GetNode elem_GetNodeGlobalIndex GetNode mNodes
       triangle_node mLocation Nat.modulo Nat.divmod Nat.add fst snd Nat.sub
       centroid_pos_1 centroid_x centroid_y element_signed_area zero_vector].
  rewrite !GetVectorFromAtoB_near by (cbn [fst snd]; apply Rabs_le; lra).
  unfold vsub. cbn [fst snd].
  match goal with
  | |- (reduce_to_unit ?a, reduce_to_unit ?b) = _ =>
      replace a with (0.5 + 1 / 300) by real_eq;
      replace b with (0.5 + 1 / 300) by real_eq
  end.
  unfold reduce_to_unit. rewrite Rltb_false by lra.
  rewrite fmod_1_unit by lra. reflexivity.
Qed.

Lemma small_triangle_moments :
  CalculateMomentsOfElement small_triangle_mesh 0
  = (1 / 3600000000, 1 / 3600000000, - (1 / 7200000000)).
Proof.
  unfold CalculateMomentsOfElement. rewrite small_triangle_centroid.
  cbn [small_triangle_mesh GetElement mElements nth
       triangle_element elem_GetNumNodes elem_mNodes length seq fold_left
       elem_GetNodeLocation elem_GetNode elem_GetNodeGlobalIndex GetNode mNodes
       triangle_node mLocation Nat.modulo Nat.divmod Nat.add fst snd Nat.sub].
  rewrite !GetVectorFromAtoB_near by (cbn [fst snd]; apply Rabs_le; lra).
  unfold vsub, moment_xx, moment_yy, moment_xy. cbn [fst snd].
  rewrite Rltb_false by lra.
  f_equal; [f_equal |]; real_eq.
Qed.

Lemma short_axis_degenerate_branch_witness :
  let short_axis := GetShortAxisOfElement small_triangle_mesh 0 0.6 in
  short_axis = (0.6, sqrt (1 - 0.6 * 0.6)) /\
  norm_2 short_axis = 1 /\
  0 <= fst short_axis /\ 0 <= snd short_axis.
Proof.
  apply (short_axis_degenerate_branch small_triangle_mesh 0 0.6).
  - lra.
  - rewrite small_triangle_moments. unfold moment_xx, moment_yy, moment_xy, fabs.
    cbn [fst snd]. apply Rabs_def1; lra.
Defined.

(** ** Facts on element division *)

(** What division must keep of the nodes and of the elements: the index
    of every node, and the index and node list of every element. *)
Definition node_indices (mesh : ImmersedBoundaryMesh) : list nat :=
  map mIndex (mNodes mesh).

Definition element_outline (e : ImmersedBoundaryElement) : nat * list nat :=
  (elem_mIndex e, elem_mNodes e).

Definition element_outlines (mesh : ImmersedBoundaryMesh) : list (nat * list nat) :=
  map element_outline (mElements mesh).

Lemma map_list_update_preserved {A B : Type} (proj : A -> B) (f : A -> A) (i : nat)
    (l : list A) :
  (forall a, proj (f a) = proj a) -> map proj (list_update f i l) = map proj l.
Proof.
  intros Hf. revert i. induction l as [| a l IH]; intros [| i]; simpl; try reflexivity.
  - rewrite Hf. reflexivity.
  - rewrite IH. reflexivity.
Qed.

(** A phase that only writes to nodes, and not to their indices. *)
Definition nodes_only (mesh mesh' : ImmersedBoundaryMesh) : Prop :=
  mElements mesh' = mElements mesh /\ node_indices mesh' = node_indices mesh.

Lemma nodes_only_refl mesh : nodes_only mesh mesh.
Proof. split; reflexivity. Qed.

Lemma nodes_only_trans m1 m2 m3 : nodes_only m1 m2 -> nodes_only m2 m3 -> nodes_only m1 m3.
Proof. intros [E1 N1] [E2 N2]. split; congruence. Qed.

Lemma nodes_only_update_node mesh g f :
  (forall n, mIndex (f n) = mIndex n) -> nodes_only mesh (update_node mesh g f).
Proof.
  intros Hf. split; [reflexivity |].
  unfold node_indices, update_node. simpl. apply map_list_update_preserved. exact Hf.
Qed.

Lemma nodes_only_fold {A : Type} (step : ImmersedBoundaryMesh -> A -> ImmersedBoundaryMesh)
    (l : list A) mesh :
  (forall m a, nodes_only m (step m a)) -> nodes_only mesh (fold_left step l mesh).
Proof.
  intros Hstep. revert mesh. induction l as [| a l IH]; intros mesh; [apply nodes_only_refl |].
  simpl. eapply nodes_only_trans; [apply Hstep | apply IH].
Qed.



Lemma move_nodes_to_nodes_only mesh elem_idx locations :
  nodes_only mesh (move_nodes_to mesh elem_idx locations).
Proof.
  unfold move_nodes_to. apply nodes_only_fold.
  intros m a. apply nodes_only_update_node. reflexivity.
Qed.

Lemma AddNodeAttributes_mIndex (attributes : list R) (n : Node) :
  mIndex (fold_left (fun n attribute => AddNodeAttribute attribute n) attributes n) = mIndex n.
Proof.
  revert n. induction attributes as [| a l IH]; intros n; [reflexivity |].
  simpl. rewrite IH. reflexivity.
Qed.

Lemma copy_node_attributes_nodes_only mesh elem_idx new_nodes_vec :
  nodes_only mesh (copy_node_attributes mesh elem_idx new_nodes_vec).
Proof.
  unfold copy_node_attributes. apply nodes_only_fold.
  intros m a. apply nodes_only_update_node.
  intros n. rewrite AddNodeAttributes_mIndex. reflexivity.
Qed.

Lemma push_new_nodes_view mesh locations :
  mElements (push_new_nodes mesh locations) = mElements mesh /\
  node_indices (push_new_nodes mesh locations)
  = node_indices mesh ++ seq (GetNumNodes mesh) (length locations).
Proof.
  revert mesh. induction locations as [| loc locations IH]; intros mesh.
  - simpl. rewrite app_nil_r. auto.
  - unfold push_new_nodes. simpl fold_left.
    fold (push_new_nodes
            (set_mNodes mesh (mNodes mesh ++ [new_Node (GetNumNodes mesh) loc])) locations).
    destruct (IH (set_mNodes mesh (mNodes mesh ++ [new_Node (GetNumNodes mesh) loc])))
      as [E N].
    rewrite E, N. split; [reflexivity |].
    unfold node_indices, GetNumNodes. cbn [mNodes set_mNodes].
    rewrite map_app, length_app, <- app_assoc. simpl.
    replace (length (mNodes mesh) + 1)%nat with (S (length (mNodes mesh))) by lia.
    reflexivity.
Qed.



Lemma resample_stencil_length stencil cumulative target_spacing node_idxs last_idx_used locations :
  resample_stencil stencil cumulative target_spacing node_idxs last_idx_used = Some locations ->
  length locations = length node_idxs.
Proof.
  revert last_idx_used locations.
  induction node_idxs as [| i node_idxs IH]; intros last_idx_used locations H.
  - inversion H. reflexivity.
  - simpl in H.
    destruct (advance_last_idx_used _ _ _ _) as [last' |]; [| discriminate].
    destruct (resample_stencil stencil cumulative target_spacing node_idxs last') as [l |] eqn:E;
      [| discriminate].
    inversion H; subst. simpl. f_equal. apply (IH last'). exact E.
Qed.

Lemma resample_daughter_length stencil num_nodes locations :
  resample_daughter stencil num_nodes = Some locations -> length locations = num_nodes.
Proof.
  unfold resample_daughter. intros H. apply resample_stencil_length in H.
  rewrite length_seq in H. exact H.
Qed.

Lemma nodes_only_outlines mesh mesh' :
  nodes_only mesh mesh' ->
  element_outlines mesh' = element_outlines mesh /\
  GetNumElements mesh' = GetNumElements mesh /\
  forall e, GetElement mesh' e = GetElement mesh e.
Proof.
  intros [E _]. unfold element_outlines, GetNumElements, GetElement. rewrite E. auto.
Qed.

















(** *** The resampling loops stay inside the vectors *)

Lemma advance_last_idx_used_defined (location_along_arc : R) (cumulative : list R)
    (fuel last_idx_used : nat) :
  (last_idx_used + 1 < length cumulative)%nat ->
  location_along_arc <= nth (length cumulative - 1) cumulative 0 ->
  (length cumulative <= last_idx_used + 1 + fuel)%nat ->
  exists last', advance_last_idx_used location_along_arc cumulative last_idx_used fuel
                = Some last'
                /\ (last' + 1 < length cumulative)%nat.
Proof.
  revert last_idx_used. induction fuel as [| fuel IH]; intros last_idx_used Hlt Hle Hfuel.
  - lia.
  - simpl. destruct (Nat.ltb_spec (last_idx_used + 1) (length cumulative)) as [_ | Hge]; [| lia].
    destruct (Rlt_dec (nth (last_idx_used + 1) cumulative 0) location_along_arc) as [Hgt | Hngt].
    + rewrite Rgtb_true by exact Hgt.
      assert (last_idx_used + 1 <> length cumulative - 1)%nat as Hne.
      { intros E. rewrite E in Hgt. lra. }
      apply IH; [lia | exact Hle | lia].
    + rewrite Rgtb_false by lra. exists last_idx_used. split; [reflexivity | exact Hlt].
Qed.

Lemma resample_stencil_defined (stencil : list c_vector2) (cumulative : list R)
    (target_spacing : R) (node_idxs : list nat) (last_idx_used : nat) :
  (last_idx_used + 1 < length cumulative)%nat ->
  (forall node_idx, In node_idx node_idxs ->
     IZR (Z.of_nat node_idx) * target_spacing <= nth (length cumulative - 1) cumulative 0) ->
  exists locations,
    resample_stencil stencil cumulative target_spacing node_idxs last_idx_used = Some locations.
Proof.
  revert last_idx_used. induction node_idxs as [| i node_idxs IH]; intros last_idx_used Hlt Hle.
  - exists []. reflexivity.
  - simpl.
    destruct (advance_last_idx_used_defined (IZR (Z.of_nat i) * target_spacing) cumulative
                (length cumulative) last_idx_used) as (last' & -> & Hlt');
      [exact Hlt | apply Hle; left; reflexivity | lia |].
    destruct (IH last' Hlt') as (locations & ->).
    { intros j Hj. apply Hle. right. exact Hj. }
    eexists. reflexivity.
Qed.

Lemma cumulative_after_length previous back rest :
  length (cumulative_after previous back rest) = length rest.
Proof.
  revert previous back. induction rest as [| loc rest IH]; intros previous back; [reflexivity |].
  simpl. rewrite IH. reflexivity.
Qed.

Lemma norm_2_nonneg (v : c_vector2) : 0 <= norm_2 v.
Proof. unfold norm_2. apply sqrt_pos. Qed.

Lemma cumulative_after_nonneg previous back rest (i : nat) :
  0 <= back -> 0 <= nth i (cumulative_after previous back rest) 0.
Proof.
  revert previous back i. induction rest as [| loc rest IH]; intros previous back i Hback.
  - destruct i; simpl; lra.
  - pose proof (norm_2_nonneg (GetVectorFromAtoB previous loc)) as Hn.
    destruct i as [| i]; simpl; [lra | apply IH; lra].
Qed.

Lemma cumulative_distances_spec (stencil : list c_vector2) :
  stencil <> [] ->
  length (cumulative_distances stencil) = length stencil /\
  forall i, 0 <= nth i (cumulative_distances stencil) 0.
Proof.
  destruct stencil as [| first rest]; [contradiction |]. intros _. simpl. split.
  - rewrite cumulative_after_length. reflexivity.
  - intros [| i]; [lra |]. apply cumulative_after_nonneg. lra.
Qed.

(** Resampling a stencil that is not empty to a positive number of
    nodes reads inside the vectors and ends. *)
Lemma resample_daughter_defined (stencil : list c_vector2) (num_nodes : nat) :
  stencil <> [] -> (0 < num_nodes)%nat ->
  exists locations, resample_daughter stencil num_nodes = Some locations.
Proof.
  intros Hne Hpos. unfold resample_daughter.
  set (closed := stencil ++ [nth 0 stencil zero_vector]).
  assert (closed <> []) as Hclosed by (unfold closed; destruct stencil; discriminate).
  destruct (cumulative_distances_spec closed Hclosed) as [Hlen Hnonneg].
  assert (2 <= length closed)%nat as H2.
  { unfold closed. rewrite length_app. simpl. destruct stencil; [contradiction | simpl; lia]. }
  set (cumulative := cumulative_distances closed) in *.
  assert (last cumulative 0 = nth (length cumulative - 1) cumulative 0) as Hlast.
  { destruct (exists_last (l := cumulative)) as (l' & a & E).
    - intros E. rewrite E in Hlen. simpl in Hlen. lia.
    - rewrite E, last_last, length_app. simpl.
      replace (length l' + 1 - 1)%nat with (length l') by lia.
      rewrite nth_middle. reflexivity. }
  rewrite Hlast.
  set (total := nth (length cumulative - 1) cumulative 0).
  assert (0 <= total) as Htotal by apply Hnonneg.
  apply resample_stencil_defined; [lia |].
  intros i Hi. apply in_seq in Hi. fold total.
  assert (0 < IZR (Z.of_nat num_nodes)) as Hn by (apply IZR_lt; lia).
  assert (0 <= IZR (Z.of_nat i) <= IZR (Z.of_nat num_nodes)) as Hi'.
  { split; apply IZR_le; lia. }
  unfold Rdiv. rewrite <- Rmult_assoc.
  apply (Rmult_le_reg_r (IZR (Z.of_nat num_nodes))); [exact Hn |].
  rewrite Rmult_assoc, Rinv_l by lra. nra.
Qed.

(** *** When the four walks and the second half return *)

Lemma find_frontier_found_first mesh elem_idx centroid unit_perp half_spacing next first last :
  first <> last ->
  half_spacing
  <= Rabs (inner_prod
             (GetVectorFromAtoB centroid
                (mLocation (elem_GetNode mesh (GetElement mesh elem_idx) first)))
             unit_perp) ->
  find_frontier mesh elem_idx centroid unit_perp half_spacing next first last
  = (update_node mesh (elem_GetNodeGlobalIndex (GetElement mesh elem_idx) first)
       (SetPoint
          (vsub (mLocation (elem_GetNode mesh (GetElement mesh elem_idx) first))
             (vscale unit_perp
                (copysign
                   (fabs (inner_prod
                            (GetVectorFromAtoB centroid
                               (mLocation (elem_GetNode mesh (GetElement mesh elem_idx) first)))
                            unit_perp)
                    - half_spacing)
                   (inner_prod
                      (GetVectorFromAtoB centroid
                         (mLocation (elem_GetNode mesh (GetElement mesh elem_idx) first)))
                      unit_perp))))),
     FoundAt first).
Proof.
  intros Hne Hfar. unfold find_frontier. cbn [walk_nodes].
  apply Nat.eqb_neq in Hne. rewrite Hne.
  unfold fabs at 1. rewrite Rgeb_true by exact Hfar. reflexivity.
Qed.

Lemma find_frontier_none_after_one mesh elem_idx centroid unit_perp half_spacing next
    first last :
  (0 < elem_GetNumNodes (GetElement mesh elem_idx))%nat ->
  first <> last -> next first = last ->
  Rabs (inner_prod
          (GetVectorFromAtoB centroid
             (mLocation (elem_GetNode mesh (GetElement mesh elem_idx) first)))
          unit_perp)
  < half_spacing ->
  find_frontier mesh elem_idx centroid unit_perp half_spacing next first last
  = (mesh, NoneFound).
Proof.
  intros Hpos Hne Hnext Hnear. unfold find_frontier.
  destruct (elem_GetNumNodes (GetElement mesh elem_idx)) as [| n] eqn:E; [lia |].
  cbn [walk_nodes]. apply Nat.eqb_neq in Hne. rewrite Hne.
  unfold fabs at 1. rewrite Rgeb_false by exact Hnear.
  rewrite Hnext, Nat.eqb_refl. reflexivity.
Qed.

Lemma push_new_element_old_element mesh elem_idx new_nodes_vec (e : nat) :
  (e < GetNumElements mesh)%nat ->
  GetElement (push_new_element mesh elem_idx new_nodes_vec) e = GetElement mesh e.
Proof.
  intros He. unfold push_new_element.
  set (mesh1 := set_mElements mesh
                  (mElements mesh
                   ++ [new_ImmersedBoundaryElement (GetNumElements mesh) new_nodes_vec])).
  set (mesh2 := fold_left
                  (fun mesh0 node => update_node mesh0 node (AddElement (GetNumElements mesh)))
                  new_nodes_vec mesh1).
  assert (nodes_only mesh1 mesh2) as [E _].
  { apply nodes_only_fold. intros m a. apply nodes_only_update_node. reflexivity. }
  unfold GetElement, update_element. cbn [mElements set_mElements].
  rewrite nth_list_update_neq by lia.
  rewrite E. unfold mesh1. cbn [mElements set_mElements].
  apply app_nth1. exact He.
Qed.

(** The second half of [DivideElement] returns when the element has a
    fluid source and the two stencils are filled and not empty. *)
Lemma divide_at_frontier_returns mesh elem_idx start_a end_a start_b end_b
    stencil_a stencil_b source :
  (elem_idx < GetNumElements mesh)%nat ->
  (0 < elem_GetNumNodes (GetElement mesh elem_idx))%nat ->
  mpFluidSource (GetElement mesh elem_idx) = Some source ->
  collect_stencil mesh (GetElement mesh elem_idx)
    ((end_a + 1) mod elem_GetNumNodes (GetElement mesh elem_idx))%nat start_a
    (S (elem_GetNumNodes (GetElement mesh elem_idx))) = Some stencil_a ->
  collect_stencil mesh (GetElement mesh elem_idx)
    ((end_b + 1) mod elem_GetNumNodes (GetElement mesh elem_idx))%nat start_b
    (S (elem_GetNumNodes (GetElement mesh elem_idx))) = Some stencil_b ->
  stencil_a <> [] -> stencil_b <> [] ->
  exists mesh',
    divide_at_frontier mesh elem_idx start_a end_a start_b end_b
    = (mesh', Returned (GetNumElements mesh)).
Proof.
  intros Helem Hpos Hsource Ha Hb Hane Hbne. unfold divide_at_frontier.
  rewrite Ha, Hb.
  destruct (resample_daughter_defined stencil_a _ Hane Hpos) as (locations_a & ->).
  destruct (resample_daughter_defined stencil_b _ Hbne Hpos) as (locations_b & ->).
  set (mesh1 := move_nodes_to mesh elem_idx locations_a).
  set (new_nodes_vec := seq (GetNumNodes mesh1) (length locations_b)).
  set (mesh2 := push_new_nodes mesh1 locations_b).
  set (mesh3 := copy_node_attributes mesh2 elem_idx new_nodes_vec).
  set (mesh4 := push_new_element mesh3 elem_idx new_nodes_vec).
  destruct (nodes_only_outlines _ _ (move_nodes_to_nodes_only mesh elem_idx locations_a))
    as (_ & L1 & G1). fold mesh1 in L1, G1.
  destruct (push_new_nodes_view mesh1 locations_b) as [E2 _]. fold mesh2 in E2.
  destruct (nodes_only_outlines _ _ (copy_node_attributes_nodes_only mesh2 elem_idx new_nodes_vec))
    as (_ & L3 & G3). fold mesh3 in L3, G3.
  assert (GetNumElements mesh3 = GetNumElements mesh) as L.
  { rewrite L3. unfold GetNumElements. rewrite E2. exact L1. }
  assert (GetElement mesh4 elem_idx = GetElement mesh elem_idx) as G.
  { unfold mesh4. rewrite push_new_element_old_element by (rewrite L; exact Helem).
    rewrite G3. unfold GetElement. rewrite E2. apply G1. }
  unfold update_fluid_sources. rewrite G, Hsource, L. eexists. reflexivity.
Qed.

(** One walk that finds its first node, with the numbers worked out. *)
Lemma find_frontier_snaps mesh elem_idx centroid unit_perp half_spacing next first last
    (global : nat) (location : c_vector2) (perpendicular_dist : R) (new_location : c_vector2) :
  first <> last ->
  elem_GetNodeGlobalIndex (GetElement mesh elem_idx) first = global ->
  mLocation (GetNode mesh global) = location ->
  inner_prod (GetVectorFromAtoB centroid location) unit_perp = perpendicular_dist ->
  half_spacing <= Rabs perpendicular_dist ->
  vsub location
       (vscale unit_perp (copysign (fabs perpendicular_dist - half_spacing) perpendicular_dist))
  = new_location ->
  find_frontier mesh elem_idx centroid unit_perp half_spacing next first last
  = (update_node mesh global (SetPoint new_location), FoundAt first).
Proof.
  intros Hne Hglobal Hloc Hpd Hfar Hnew.
  rewrite find_frontier_found_first; unfold elem_GetNode; rewrite ?Hglobal, ?Hloc, ?Hpd;
    try assumption.
  rewrite Hnew. reflexivity.
Qed.

(** One walk that tests one node, too near, and ends. *)
Lemma find_frontier_misses mesh elem_idx centroid unit_perp half_spacing next first last
    (global : nat) (location : c_vector2) (perpendicular_dist : R) :
  (0 < elem_GetNumNodes (GetElement mesh elem_idx))%nat ->
  first <> last -> next first = last ->
  elem_GetNodeGlobalIndex (GetElement mesh elem_idx) first = global ->
  mLocation (GetNode mesh global) = location ->
  inner_prod (GetVectorFromAtoB centroid location) unit_perp = perpendicular_dist ->
  Rabs perpendicular_dist < half_spacing ->
  find_frontier mesh elem_idx centroid unit_perp half_spacing next first last
  = (mesh, NoneFound).
Proof.
  intros Hpos Hne Hnext Hglobal Hloc Hpd Hnear.
  apply find_frontier_none_after_one; try assumption.
  unfold elem_GetNode. rewrite Hglobal, Hloc, Hpd. exact Hnear.
Qed.

(** Evaluation of closed expressions on vectors. *)
Ltac closed_abs :=
  repeat match goal with
         | |- context [Rabs ?e] =>
             first [ rewrite (Rabs_right e) by lra | rewrite (Rabs_left e) by lra ]
         end.

Ltac closed_vector :=
  unfold copysign, fabs, inner_prod, vsub, vscale, vdiv; cbn [fst snd];
  rewrite ?GetVectorFromAtoB_near by (cbn [fst snd]; apply Rabs_le; lra);
  unfold vsub; cbn [fst snd];
  repeat first [ rewrite Rltb_true by lra | rewrite Rltb_false by lra ];
  closed_abs;
  try (apply injective_projections; cbn [fst snd]); try lra.

(** *** A division that succeeds *)

(** A cell of six nodes, 0.2 wide and 0.2 high, centred at (0.5, 0.5),
    with its fluid source; the daughters are to be 0.1 apart. *)
Definition hexagon_element : ImmersedBoundaryElement :=
  {| elem_mIndex := 0; elem_mNodes := [0; 1; 2; 3; 4; 5]%nat;
     mMembraneSpringConstant := 1; mMembraneRestLength := 0.05;
     mAverageNodeSpacing := None; mElementAttributes := [];
     mCornerNodes := []; mpFluidSource := Some 0%nat |}.

Definition hexagon_mesh : ImmersedBoundaryMesh :=
  {| mNodes := [triangle_node 0 (0.4, 0.4) 2; triangle_node 1 (0.6, 0.4) 2;
                triangle_node 2 (0.6, 0.5) 2; triangle_node 3 (0.6, 0.6) 2;
                triangle_node 4 (0.4, 0.6) 2; triangle_node 5 (0.4, 0.5) 2];
     mElements := [hexagon_element];
     mMembraneIndex := None;
     mElementDivisionSpacing := Some 0.1;
     mCharacteristicNodeSpacing := 0.1;
     mElementFluidSources :=
       [{| source_mIndex := 0; source_mLocation := (0.5, 0.5); source_mStrength := 0.0;
           source_mAssociatedElementIndex := Some 0%nat |}];
     mBalancingFluidSources := [] |}.

Lemma hexagon_centroid : GetCentroidOfElement hexagon_mesh 0 = (0.5, 0.5).
Proof.
  unfold GetCentroidOfElement.
  cbn [is_membrane_index mMembraneIndex hexagon_mesh GetElement mElements nth
       hexagon_element elem_GetNumNodes elem_mNodes length seq fold_left
       elem_GetNodeLocation elem_GetNode elem_GetNodeGlobalIndex GetNode mNodes
       triangle_node mLocation Nat.modulo Nat.divmod Nat.add fst snd Nat.sub
       centroid_pos_1 centroid_x centroid_y element_signed_area zero_vector].
  rewrite !GetVectorFromAtoB_near by (cbn [fst snd]; apply Rabs_le; lra).
  unfold vsub. cbn [fst snd].
  match goal with
  | |- (reduce_to_unit ?a, reduce_to_unit ?b) = _ =>
      replace a with 0.5 by real_eq;
      replace b with 0.5 by real_eq
  end.
  unfold reduce_to_unit. rewrite !Rltb_false by lra.
  rewrite !fmod_1_unit by lra. reflexivity.
Qed.

(** The division of the cell along the vertical axis through its centre,
    which crosses the edges after nodes 0 and 3: the four walks find
    nodes 1, 3, 4 and 0 at once, and the second half returns. *)
Lemma hexagon_division_returns :
  exists mesh' new_elem_idx,
    DivideElement hexagon_mesh 0 0 3 (GetCentroidOfElement hexagon_mesh 0) (0, 1)
    = (mesh', Returned new_elem_idx).
Proof.
  rewrite hexagon_centroid.
  unfold DivideElement. cbn [mElementDivisionSpacing hexagon_mesh].
  rewrite norm_2_vertical, Rabs_R1.
  change (elem_GetNumNodes (GetElement hexagon_mesh 0)) with 6%nat.
  change ((0 + 1) mod 6)%nat with 1%nat. change ((3 + 1) mod 6)%nat with 4%nat.
  rewrite (find_frontier_snaps _ _ _ _ _ _ _ _ 1 (0.6, 0.4) (-0.1) (0.55, 0.4));
    [| lia | reflexivity | reflexivity | closed_vector | closed_vector | closed_vector ].
  cbn [found_or].
  rewrite (find_frontier_snaps _ _ _ _ _ _ _ _ 3 (0.6, 0.6) (-0.1) (0.55, 0.6));
    [| lia | reflexivity | reflexivity | closed_vector | closed_vector | closed_vector ].
  cbn [found_or].
  rewrite (find_frontier_snaps _ _ _ _ _ _ _ _ 4 (0.4, 0.6) 0.1 (0.45, 0.6));
    [| lia | reflexivity | reflexivity | closed_vector | closed_vector | closed_vector ].
  cbn [found_or].
  rewrite (find_frontier_snaps _ _ _ _ _ _ _ _ 0 (0.4, 0.4) 0.1 (0.45, 0.4));
    [| lia | reflexivity | reflexivity | closed_vector | closed_vector | closed_vector ].
  cbn [found_or].
  match goal with
  | |- context [divide_at_frontier ?m _ _ _ _ _] =>
      edestruct (divide_at_frontier_returns m 0 1 3 4 0) as [mesh' H];
        [ cbn; lia | cbn; lia | reflexivity | cbn; reflexivity | cbn; reflexivity
        | discriminate | discriminate | ]
  end.
  exists mesh'. eexists. exact H.
Qed.


(** ** C3: a division that fails *)

Lemma SetPoint_mLocation (n : Node) : SetPoint (mLocation n) n = n.
Proof. destruct n. reflexivity. Qed.

Lemma set_mNodes_mNodes (mesh : ImmersedBoundaryMesh) : set_mNodes mesh (mNodes mesh) = mesh.
Proof. destruct mesh. reflexivity. Qed.

(** A phase that writes to locations of nodes among [nodes], and to
    nothing else of the mesh. *)
Definition moves_nodes_only (nodes : list nat) (mesh mesh' : ImmersedBoundaryMesh) : Prop :=
  mesh' = set_mNodes mesh (mNodes mesh') /\
  GetNumNodes mesh' = GetNumNodes mesh /\
  forall g, (exists location, GetNode mesh' g = SetPoint location (GetNode mesh g)) /\
            (~ In g nodes -> GetNode mesh' g = GetNode mesh g).

Lemma moves_nodes_only_refl nodes mesh : moves_nodes_only nodes mesh mesh.
Proof.
  split; [symmetry; apply set_mNodes_mNodes |]. split; [reflexivity |].
  intros g. split; [| reflexivity].
  exists (mLocation (GetNode mesh g)). symmetry. apply SetPoint_mLocation.
Qed.

Lemma moves_nodes_only_trans nodes m1 m2 m3 :
  moves_nodes_only nodes m1 m2 -> moves_nodes_only nodes m2 m3 -> moves_nodes_only nodes m1 m3.
Proof.
  intros (S1 & L1 & G1) (S2 & L2 & G2). split; [| split].
  - rewrite S2 at 1. unfold set_mNodes. rewrite S1. reflexivity.
  - congruence.
  - intros g. destruct (G1 g) as [[p1 E1] F1]. destruct (G2 g) as [[p2 E2] F2]. split.
    + exists p2. rewrite E2, E1. reflexivity.
    + intros Hg. rewrite F2, F1 by exact Hg. reflexivity.
Qed.

Lemma moves_nodes_only_update_node nodes mesh (g : nat) (location : c_vector2) :
  In g nodes -> moves_nodes_only nodes mesh (update_node mesh g (SetPoint location)).
Proof.
  intros Hin. split; [reflexivity |]. split; [apply GetNumNodes_update_node |].
  intros g'. destruct (Nat.eq_dec g g') as [<- | Hne].
  - split; [| contradiction].
    destruct (Nat.lt_ge_cases g (GetNumNodes mesh)) as [Hlt | Hge].
    + exists location. apply GetNode_update_node_eq. exact Hlt.
    + exists zero_vector. unfold GetNode, update_node. cbn [mNodes set_mNodes].
      rewrite !nth_overflow; [reflexivity | exact Hge | rewrite list_update_length; exact Hge].
  - rewrite GetNode_update_node_neq by exact Hne. split; [| reflexivity].
    exists (mLocation (GetNode mesh g')). symmetry. apply SetPoint_mLocation.
Qed.

Lemma moves_nodes_only_elements nodes mesh mesh' :
  moves_nodes_only nodes mesh mesh' -> mElements mesh' = mElements mesh.
Proof. intros (E & _). rewrite E. reflexivity. Qed.

Lemma walk_nodes_found_bound next satisfied (last first fuel n i : nat) :
  (first < n)%nat -> (forall j, (next j < n)%nat) ->
  walk_nodes next satisfied last first fuel = FoundAt i -> (i < n)%nat.
Proof.
  intros Hfirst Hnext. revert first Hfirst.
  induction fuel as [| fuel IH]; intros first Hfirst H; [discriminate |].
  simpl in H. destruct (first =? last)%nat; [discriminate |].
  destruct (satisfied first).
  - inversion H; subst. exact Hfirst.
  - apply (IH (next first)); [apply Hnext | exact H].
Qed.

(** A walk moves at most one node, a node of the element. *)
Lemma find_frontier_moves mesh elem_idx centroid unit_perp half_spacing next first last :
  (first < elem_GetNumNodes (GetElement mesh elem_idx))%nat ->
  (forall j, (next j < elem_GetNumNodes (GetElement mesh elem_idx))%nat) ->
  moves_nodes_only (elem_mNodes (GetElement mesh elem_idx)) mesh
    (fst (find_frontier mesh elem_idx centroid unit_perp half_spacing next first last)).
Proof.
  intros Hfirst Hnext. unfold find_frontier.
  destruct (walk_nodes _ _ _ _ _) as [i | |] eqn:W; cbn [fst];
    try apply moves_nodes_only_refl.
  apply moves_nodes_only_update_node. unfold elem_GetNodeGlobalIndex.
  apply nth_In. apply (walk_nodes_found_bound _ _ _ _ _ _ _ Hfirst Hnext W).
Qed.

(** The second half of [DivideElement] throws nothing. *)
Lemma divide_at_frontier_throws_nothing mesh elem_idx start_a end_a start_b end_b mesh' e :
  divide_at_frontier mesh elem_idx start_a end_a start_b end_b <> (mesh', Threw e).
Proof.
  unfold divide_at_frontier, update_fluid_sources.
  repeat match goal with
         | |- context [match ?x with _ => _ end] => destruct x
         end; discriminate.
Qed.

(** C3.  When [DivideElement] fails with the division-spacing error, no
    node and no element has been added or removed, the elements and the
    fluid sources are as before, and a node can differ from what it was
    in its location only, and only if it is a node of the element being
    divided: each walk that found its frontier node has moved it, before
    the failure of another walk was detected. *)
Theorem DivideElement_failure_moves_only_locations (mesh mesh' : ImmersedBoundaryMesh)
    (elem_idx nodeAIndex nodeBIndex : nat) (centroid axisOfDivision : c_vector2) :
  (nodeAIndex < elem_GetNumNodes (GetElement mesh elem_idx))%nat ->
  (nodeBIndex < elem_GetNumNodes (GetElement mesh elem_idx))%nat ->
  DivideElement mesh elem_idx nodeAIndex nodeBIndex centroid axisOfDivision
    = (mesh', Threw CouldNotSpaceElements) ->
  mesh' = set_mNodes mesh (mNodes mesh') /\
  GetNumNodes mesh' = GetNumNodes mesh /\
  GetNumElements mesh' = GetNumElements mesh /\
  mElements mesh' = mElements mesh /\
  mElementFluidSources mesh' = mElementFluidSources mesh /\
  (forall g, exists location, GetNode mesh' g = SetPoint location (GetNode mesh g)) /\
  (forall g, ~ In g (elem_mNodes (GetElement mesh elem_idx)) ->
     GetNode mesh' g = GetNode mesh g).
Proof.
  intros HA HB H.
  assert (moves_nodes_only (elem_mNodes (GetElement mesh elem_idx)) mesh mesh') as (S & L & G).
  { unfold DivideElement in H.
    destruct (mElementDivisionSpacing mesh) as [spacing |]; [| discriminate].
    set (num_nodes := elem_GetNumNodes (GetElement mesh elem_idx)) in *.
    assert (num_nodes <> 0)%nat as Hpos by lia.
    assert (forall j, ((j + 1) mod num_nodes < num_nodes)%nat) as Hforwards
      by (intros j; apply Nat.mod_upper_bound; exact Hpos).
    assert (forall j, ((j + num_nodes - 1) mod num_nodes < num_nodes)%nat) as Hbackwards
      by (intros j; apply Nat.mod_upper_bound; exact Hpos).
    assert (forall m, moves_nodes_only (elem_mNodes (GetElement mesh elem_idx)) mesh m ->
              GetElement m elem_idx = GetElement mesh elem_idx) as Helem.
    { intros m Hm. unfold GetElement. rewrite (moves_nodes_only_elements _ _ _ Hm).
      reflexivity. }
    match type of H with
    | context [find_frontier mesh elem_idx ?c ?p ?h ?n ?f ?l] =>
        pose proof (find_frontier_moves mesh elem_idx c p h n f l) as P1;
        destruct (find_frontier mesh elem_idx c p h n f l) as [mesh1 c1]
    end.
    cbn [fst] in P1. specialize (P1 (Hforwards _) Hforwards).
    match type of H with
    | context [find_frontier mesh1 elem_idx ?c ?p ?h ?n ?f ?l] =>
        pose proof (find_frontier_moves mesh1 elem_idx c p h n f l) as P2;
        destruct (find_frontier mesh1 elem_idx c p h n f l) as [mesh2 c2]
    end.
    cbn [fst] in P2. rewrite (Helem _ P1) in P2. specialize (P2 HB Hbackwards).
    pose proof (moves_nodes_only_trans _ _ _ _ P1 P2) as P12.
    match type of H with
    | context [find_frontier mesh2 elem_idx ?c ?p ?h ?n ?f ?l] =>
        pose proof (find_frontier_moves mesh2 elem_idx c p h n f l) as P3;
        destruct (find_frontier mesh2 elem_idx c p h n f l) as [mesh3 c3]
    end.
    cbn [fst] in P3. rewrite (Helem _ P12) in P3. specialize (P3 (Hforwards _) Hforwards).
    pose proof (moves_nodes_only_trans _ _ _ _ P12 P3) as P123.
    match type of H with
    | context [find_frontier mesh3 elem_idx ?c ?p ?h ?n ?f ?l] =>
        pose proof (find_frontier_moves mesh3 elem_idx c p h n f l) as P4;
        destruct (find_frontier mesh3 elem_idx c p h n f l) as [mesh4 c4]
    end.
    cbn [fst] in P4. rewrite (Helem _ P123) in P4. specialize (P4 HA Hbackwards).
    pose proof (moves_nodes_only_trans _ _ _ _ P123 P4) as P.
    destruct c1, c2, c3, c4;
      try discriminate;
      try (exfalso; exact (divide_at_frontier_throws_nothing _ _ _ _ _ _ _ _ H));
      inversion H; subst; exact P. }
  repeat split.
  - exact S.
  - exact L.
  - unfold GetNumElements. rewrite S. reflexivity.
  - rewrite S. reflexivity.
  - rewrite S. reflexivity.
  - intros g. apply G.
  - intros g. apply G.
Qed.

(** A cell of four nodes, its long side (0.08) at 0.04 to the left of the
    centroid and its short side (0.04) at 0.05 to the right of it. *)
Definition trapezoid_element : ImmersedBoundaryElement :=
  {| elem_mIndex := 0; elem_mNodes := [0; 1; 2; 3]%nat;
     mMembraneSpringConstant := 1; mMembraneRestLength := 0.05;
     mAverageNodeSpacing := None; mElementAttributes := [];
     mCornerNodes := []; mpFluidSource := Some 0%nat |}.

Definition trapezoid_mesh : ImmersedBoundaryMesh :=
  {| mNodes := [triangle_node 0 (0.4, 0.46) 2; triangle_node 1 (0.49, 0.48) 2;
                triangle_node 2 (0.49, 0.52) 2; triangle_node 3 (0.4, 0.54) 2];
     mElements := [trapezoid_element];
     mMembraneIndex := None;
     mElementDivisionSpacing := Some 0.09;
     mCharacteristicNodeSpacing := 0.05;
     mElementFluidSources :=
       [{| source_mIndex := 0; source_mLocation := (0.44, 0.5); source_mStrength := 0.0;
           source_mAssociatedElementIndex := Some 0%nat |}];
     mBalancingFluidSources := [] |}.

Lemma trapezoid_centroid : GetCentroidOfElement trapezoid_mesh 0 = (0.44, 0.5).
Proof.
  unfold GetCentroidOfElement.
  cbn [is_membrane_index mMembraneIndex trapezoid_mesh GetElement mElements nth
       trapezoid_element elem_GetNumNodes elem_mNodes length seq fold_left
       elem_GetNodeLocation elem_GetNode elem_GetNodeGlobalIndex GetNode mNodes
       triangle_node mLocation Nat.modulo Nat.divmod Nat.add fst snd Nat.sub
       centroid_pos_1 centroid_x centroid_y element_signed_area zero_vector].
  rewrite !GetVectorFromAtoB_near by (cbn [fst snd]; apply Rabs_le; lra).
  unfold vsub. cbn [fst snd].
  match goal with
  | |- (reduce_to_unit ?a, reduce_to_unit ?b) = _ =>
      replace a with 0.44 by real_eq;
      replace b with 0.5 by real_eq
  end.
  unfold reduce_to_unit. rewrite !Rltb_false by lra.
  rewrite !fmod_1_unit by lra. reflexivity.
Qed.

(** The mesh with nodes 1 and 2 moved to 0.045 from the centroid. *)
Definition trapezoid_mesh_after : ImmersedBoundaryMesh :=
  update_node (update_node trapezoid_mesh 1 (SetPoint (0.485, 0.48))) 2
              (SetPoint (0.485, 0.52)).

(** The division along the vertical axis through the centroid, which
    crosses the edges after nodes 0 and 2, fails, and leaves the mesh
    above. *)
Lemma trapezoid_division_fails :
  DivideElement trapezoid_mesh 0 0 2 (GetCentroidOfElement trapezoid_mesh 0) (0, 1)
  = (trapezoid_mesh_after, Threw CouldNotSpaceElements).
Proof.
  rewrite trapezoid_centroid.
  unfold DivideElement. cbn [mElementDivisionSpacing trapezoid_mesh].
  rewrite norm_2_vertical, Rabs_R1.
  change (elem_GetNumNodes (GetElement trapezoid_mesh 0)) with 4%nat.
  change ((0 + 1) mod 4)%nat with 1%nat. change ((2 + 1) mod 4)%nat with 3%nat.
  rewrite (find_frontier_snaps _ _ _ _ _ _ _ _ 1 (0.49, 0.48) (-0.05) (0.485, 0.48));
    [| lia | reflexivity | reflexivity | closed_vector | closed_vector | closed_vector ].
  cbn [found_or].
  rewrite (find_frontier_snaps _ _ _ _ _ _ _ _ 2 (0.49, 0.52) (-0.05) (0.485, 0.52));
    [| lia | reflexivity | reflexivity | closed_vector | closed_vector | closed_vector ].
  cbn [found_or].
  rewrite (find_frontier_misses _ _ _ _ _ _ _ _ 3 (0.4, 0.54) 0.04);
    [| cbn; lia | lia | reflexivity | reflexivity | reflexivity | closed_vector
     | closed_vector ].
  cbn [found_or].
  rewrite (find_frontier_misses _ _ _ _ _ _ _ _ 0 (0.4, 0.46) 0.04);
    [| cbn; lia | lia | reflexivity | reflexivity | reflexivity | closed_vector
     | closed_vector ].
  reflexivity.
Qed.

(** The counterexample to C3 as the specification states it: the cell
    above is divided along the vertical axis through its centroid, with
    daughters to be 0.09 apart.  The walks of the right-hand half find
    nodes 1 and 2 (at 0.05 from the axis) and move them to 0.045 from
    it; the walks of the left-hand half find no node (both are at 0.04),
    and the call fails with nodes 1 and 2 moved. *)
Lemma DivideElement_failure_moves_frontier_nodes :
  DivideElement trapezoid_mesh 0 0 2 (GetCentroidOfElement trapezoid_mesh 0) (0, 1)
  = (trapezoid_mesh_after, Threw CouldNotSpaceElements) /\
  mLocation (GetNode trapezoid_mesh 1) = (0.49, 0.48) /\
  mLocation (GetNode trapezoid_mesh_after 1) = (0.485, 0.48) /\
  trapezoid_mesh_after <> trapezoid_mesh.
Proof.
  split; [exact trapezoid_division_fails |].
  split; [reflexivity |]. split; [reflexivity |].
  intros E.
  assert (fst (mLocation (GetNode trapezoid_mesh_after 1))
          = fst (mLocation (GetNode trapezoid_mesh 1))) as H by (rewrite E; reflexivity).
  cbn in H. lra.
Qed.

Lemma DivideElement_failure_moves_only_locations_witness :
  trapezoid_mesh_after = set_mNodes trapezoid_mesh (mNodes trapezoid_mesh_after) /\
  GetNumNodes trapezoid_mesh_after = GetNumNodes trapezoid_mesh /\
  GetNumElements trapezoid_mesh_after = GetNumElements trapezoid_mesh /\
  mElements trapezoid_mesh_after = mElements trapezoid_mesh /\
  mElementFluidSources trapezoid_mesh_after = mElementFluidSources trapezoid_mesh /\
  (forall g, exists location,
      GetNode trapezoid_mesh_after g = SetPoint location (GetNode trapezoid_mesh g)) /\
  (forall g, ~ In g (elem_mNodes (GetElement trapezoid_mesh 0)) ->
     GetNode trapezoid_mesh_after g = GetNode trapezoid_mesh g).
Proof.
  apply (DivideElement_failure_moves_only_locations trapezoid_mesh trapezoid_mesh_after 0 0 2
           (GetCentroidOfElement trapezoid_mesh 0) (0, 1));
    [cbn; lia | cbn; lia | exact trapezoid_division_fails].
Defined.

(* ================================================================== *)
(** * Part III: the rest of the mesh, of the forces and of the solver *)
(* ================================================================== *)

(** ** More of ImmersedBoundaryMesh.cpp *)

(** [GetVolumeOfElement]: the area of the polygon, by the shoelace sum
    over the vectors from the first node. *)
Definition GetVolumeOfElement (mesh : ImmersedBoundaryMesh) (index : nat) : R :=
  let p_element := GetElement mesh index in
  let first_node_location := elem_GetNodeLocation mesh p_element 0 in
  let num_nodes := elem_GetNumNodes p_element in
  let '(element_volume, _) :=
    fold_left
      (fun (st : R * c_vector2) local_index =>
         let '(element_volume, pos_1) := st in
         let next_node_location :=
           elem_GetNodeLocation mesh p_element ((local_index + 1) mod num_nodes)%nat in
         let pos_2 := GetVectorFromAtoB first_node_location next_node_location in
         let this_x := fst pos_1 in
         let this_y := snd pos_1 in
         let next_x := fst pos_2 in
         let next_y := snd pos_2 in
         (element_volume + 0.5 * (this_x * next_y - next_x * this_y), pos_2))
      (seq 0 num_nodes) (0.0, zero_vector) in
  fabs element_volume.

(** [GetElongationShapeFactorOfElement]. *)
Definition GetElongationShapeFactorOfElement (mesh : ImmersedBoundaryMesh) (index : nat) : R :=
  let moments := CalculateMomentsOfElement mesh index in
  let discriminant :=
    sqrt ((moment_xx moments - moment_yy moments) * (moment_xx moments - moment_yy moments)
          + 4.0 * moment_xy moments * moment_xy moments) in
  let largest_eigenvalue := (moment_xx moments + moment_yy moments + discriminant) * 0.5 in
  let smallest_eigenvalue := (moment_xx moments + moment_yy moments - discriminant) * 0.5 in
  sqrt (largest_eigenvalue / smallest_eigenvalue).

(** [CalculateBoundingBoxOfElement]: the two corners that are handed to
    the constructor of [ChasteCuboid].  One step of the loop over [dim],
    on one coordinate: *)
Definition stretch_bounds (bounds : R * R) (vec_to_node : R) : R * R :=
  if Rltb vec_to_node (fst bounds) then (vec_to_node, snd bounds)
  else if Rgtb vec_to_node (snd bounds) then (fst bounds, vec_to_node)
  else bounds.

Definition CalculateBoundingBoxOfElement (mesh : ImmersedBoundaryMesh) (index : nat)
  : c_vector2 * c_vector2 :=
  let p_elem := GetElement mesh index in
  let ref_point := mLocation (elem_GetNode mesh p_elem 0) in
  let '(bottom_left, top_right) :=
    fold_left
      (fun (st : c_vector2 * c_vector2) node_idx =>
         let '(bottom_left, top_right) := st in
         let vec_to_node :=
           GetVectorFromAtoB ref_point (mLocation (elem_GetNode mesh p_elem node_idx)) in
         let bounds_0 := stretch_bounds (fst bottom_left, fst top_right) (fst vec_to_node) in
         let bounds_1 := stretch_bounds (snd bottom_left, snd top_right) (snd vec_to_node) in
         ((fst bounds_0, fst bounds_1), (snd bounds_0, snd bounds_1)))
      (seq 0 (elem_GetNumNodes p_elem)) (zero_vector, zero_vector) in
  (vadd bottom_left ref_point, vadd top_right ref_point).

(** [GetTortuosityOfMesh].  [mMeshHasMembrane] is a member that the
    constructors set and that no later call changes; it is passed in.
    [GetNumElements() - 1] is an [unsigned] subtraction. *)
Definition tortuosity_total_length (mMeshHasMembrane : bool) (mesh : ImmersedBoundaryMesh) : R :=
  let first_elem_idx := if mMeshHasMembrane then 1%nat else 0%nat in
  let previous_centroid := GetCentroidOfElement mesh first_elem_idx in
  fst (fold_left
         (fun (st : R * c_vector2) elem_idx =>
            let '(total_length, previous_centroid) := st in
            let this_centroid := GetCentroidOfElement mesh elem_idx in
            (total_length + norm_2 (GetVectorFromAtoB previous_centroid this_centroid),
             this_centroid))
         (seq first_elem_idx (GetNumElements mesh - first_elem_idx))
         (0.0, previous_centroid)).

Definition tortuosity_straight_line_length (mMeshHasMembrane : bool)
    (mesh : ImmersedBoundaryMesh) : R :=
  let first_elem_idx := if mMeshHasMembrane then 1%nat else 0%nat in
  let first_centroid := GetCentroidOfElement mesh first_elem_idx in
  let last_centroid :=
    GetCentroidOfElement mesh
      (Z.to_nat (to_unsigned (Z.of_nat (GetNumElements mesh) - 1))) in
  let straight_line_length := norm_2 (GetVectorFromAtoB first_centroid last_centroid) in
  Rmax straight_line_length (1.0 - straight_line_length).

Definition GetTortuosityOfMesh (mMeshHasMembrane : bool) (mesh : ImmersedBoundaryMesh) : R :=
  tortuosity_total_length mMeshHasMembrane mesh
  / tortuosity_straight_line_length mMeshHasMembrane mesh.

(** [SetNode]. *)
Definition SetNode (mesh : ImmersedBoundaryMesh) (nodeIndex : nat) (point : c_vector2)
  : ImmersedBoundaryMesh :=
  update_node mesh nodeIndex (SetPoint point).

(** *** The callers of [DivideElement] *)

(** The test "is this node on the left of the axis" of
    [DivideElementAlongGivenAxis]. *)
Definition is_node_on_left (mesh : ImmersedBoundaryMesh) (pElement : ImmersedBoundaryElement)
    (centroid perp_axis : c_vector2) (local_index : nat) : bool :=
  Rgeb (inner_prod
          (GetVectorFromAtoB (elem_GetNodeLocation mesh pElement local_index) centroid)
          perp_axis) 0.

(** The loop that fills [intersecting_nodes]: the local indices of the
    nodes that lie on the other side of the axis than their next
    neighbour. *)
Definition intersecting_nodes (mesh : ImmersedBoundaryMesh) (elem_idx : nat)
    (axisOfDivision : c_vector2) : list nat :=
  let pElement := GetElement mesh elem_idx in
  let centroid := GetCentroidOfElement mesh (elem_mIndex pElement) in
  let perp_axis := (- snd axisOfDivision, fst axisOfDivision) in
  let num_nodes := elem_GetNumNodes pElement in
  fst (fold_left
         (fun (st : list nat * bool) i =>
            let '(intersecting_nodes, is_current_node_on_left) := st in
            let is_next_node_on_left :=
              is_node_on_left mesh pElement centroid perp_axis ((i + 1) mod num_nodes)%nat in
            (if Bool.eqb is_current_node_on_left is_next_node_on_left
             then intersecting_nodes
             else intersecting_nodes ++ [i],
             is_next_node_on_left))
         (seq 0 num_nodes)
         ([], is_node_on_left mesh pElement centroid perp_axis 0)).

(** [DivideElementAlongGivenAxis].  [GetNodeLocalIndex] is a method of
    Chaste's elements that is not part of the project; it is passed in.
    [placeOriginalElementBelow] is not read by the source. *)
Definition DivideElementAlongGivenAxis
    (GetNodeLocalIndex : ImmersedBoundaryElement -> nat -> nat)
    (mesh : ImmersedBoundaryMesh) (elem_idx : nat) (axisOfDivision : c_vector2)
  : ImmersedBoundaryMesh * outcome nat :=
  let pElement := GetElement mesh elem_idx in
  let centroid := GetCentroidOfElement mesh (elem_mIndex pElement) in
  let intersecting_nodes := intersecting_nodes mesh elem_idx axisOfDivision in
  if (length intersecting_nodes =? 2)%nat
  then
    DivideElement mesh elem_idx
      (GetNodeLocalIndex pElement (nth 0 intersecting_nodes 0%nat))
      (GetNodeLocalIndex pElement (nth 1 intersecting_nodes 0%nat))
      centroid axisOfDivision
  else (mesh, Threw AxisDoesNotCrossTwoEdges).

(** [DivideElementAlongShortAxis]; [ranf] is the next draw of the random
    number generator. *)
Definition DivideElementAlongShortAxis
    (GetNodeLocalIndex : ImmersedBoundaryElement -> nat -> nat)
    (mesh : ImmersedBoundaryMesh) (elem_idx : nat) (ranf : R)
  : ImmersedBoundaryMesh * outcome nat :=
  let pElement := GetElement mesh elem_idx in
  let short_axis := GetShortAxisOfElement mesh (elem_mIndex pElement) ranf in
  DivideElementAlongGivenAxis GetNodeLocalIndex mesh elem_idx short_axis.

(** Whether a call returned. *)
Definition is_returned {A : Type} (result : outcome A) : bool :=
  match result with
  | Returned _ => true
  | _ => false
  end.

(** ** More of ImmersedBoundarySimulationModifier.cpp *)

(** [ClearAppliedForce] of a node, and [ClearForces]: the applied force
    of every node and every cell of the two force grids are set to zero. *)
Definition ClearAppliedForce (n : Node) : Node :=
  {| mIndex := mIndex n; mLocation := mLocation n; mRegion := mRegion n;
     mAppliedForce := zero_vector;
     mNodeAttributes := mNodeAttributes n; mElementIndices := mElementIndices n |}.

Definition ClearForces (m : SimulationModifier) (mesh : ImmersedBoundaryMesh)
    (grids : grid R * grid R) : ImmersedBoundaryMesh * (grid R * grid R) :=
  let mesh := set_mNodes mesh (map ClearAppliedForce (mNodes mesh)) in
  let clear_cell (grids : grid R * grid R) (cell : nat * nat) :=
    (grid_update (fun _ => 0.0) (fst cell) (snd cell) (fst grids),
     grid_update (fun _ => 0.0) (fst cell) (snd cell) (snd grids)) in
  let cells :=
    flat_map (fun y => map (fun x => (y, x)) (seq 0 (Z.to_nat (mNumGridPtsX m))))
             (seq 0 (Z.to_nat (mNumGridPtsY m))) in
  (mesh, fold_left clear_cell cells grids).

(** The entries of [mSinX] and [mSinY]. *)
Definition mSinX (m : SimulationModifier) (x : nat) : R :=
  sin (PI * IZR (Z.of_nat x) * mGridSpacingX m).

Definition mSinY (m : SimulationModifier) (y : nat) : R :=
  sin (PI * IZR (Z.of_nat y) * mGridSpacingY m).

Definition Csub (a b : complex) : complex := (fst a - fst b, snd a - snd b).
(** [complex * double]. *)
Definition Cmul_real (a : complex) (r : R) : complex := (fst a * r, snd a * r).

(** "Do final stage of computation before inverse FFT": the divisor
    [op], and the two cells written at [(y, x)]. *)
Definition pre_inverse_op (m : SimulationModifier) (dt : R) (y x : nat) : R :=
  1 + (4 * dt / mReynolds m)
      * (mSinX m x * mSinX m x / (mGridSpacingX m * mGridSpacingX m)
         + mSinY m y * mSinY m y / (mGridSpacingY m * mGridSpacingY m)).

Definition pre_inverse_X_cell (m : SimulationModifier) (dt : R)
    (VelX_hat p_hat : grid complex) (y x : nat) : complex :=
  Cdiv_real
    (Csub (grid_get C0 VelX_hat y x)
          (Cmul (Cmul_real (Cdiv_real (Cmul_real mI dt) (mReynolds m * mGridSpacingX m))
                           (mSin2X m x))
                (grid_get C0 p_hat y x)))
    (pre_inverse_op m dt y x).

Definition pre_inverse_Y_cell (m : SimulationModifier) (dt : R)
    (VelY_hat p_hat : grid complex) (y x : nat) : complex :=
  Cdiv_real
    (Csub (grid_get C0 VelY_hat y x)
          (Cmul (Cmul_real (Cdiv_real (Cmul_real mI dt) (mReynolds m * mGridSpacingY m))
                           (mSin2Y m y))
                (grid_get C0 p_hat y x)))
    (pre_inverse_op m dt y x).

(** The part of [SolveNavierStokesSpectral] between the forward and the
    inverse transforms: the pressure, then the two grids that are
    transformed back. *)
Definition SolveInFourierSpace (m : SimulationModifier) (dt : R)
    (VelX_hat VelY_hat : grid complex) : grid complex * grid complex :=
  let numGridPtsX := Z.to_nat (mNumGridPtsX m) in
  let numGridPtsY := Z.to_nat (mNumGridPtsY m) in
  let p_hat := CalculatePressure m dt VelX_hat VelY_hat in
  (map (fun y => map (fun x => pre_inverse_X_cell m dt VelX_hat p_hat y x)
                     (seq 0 numGridPtsX))
       (seq 0 numGridPtsY),
   map (fun y => map (fun x => pre_inverse_Y_cell m dt VelY_hat p_hat y x)
                     (seq 0 numGridPtsX))
       (seq 0 numGridPtsY)).

(** ** The constructor of the mesh *)

(** Modelled from the spec: the constructor of [FluidSource] is not in
    the sources; a fluid source is "an integer-indexed point with a 2-D
    location and a scalar strength", a new one has the index and the
    location it is given (a coordinate that is not given is zero),
    strength zero and no associated element. *)
Definition new_FluidSource (index : nat) (location : c_vector2) : FluidSource :=
  {| source_mIndex := index; source_mLocation := location;
     source_mStrength := 0; source_mAssociatedElementIndex := None |}.

Definition SetAssociatedElementIndex (index : nat) (s : FluidSource) : FluidSource :=
  {| source_mIndex := source_mIndex s; source_mLocation := source_mLocation s;
     source_mStrength := source_mStrength s;
     source_mAssociatedElementIndex := Some index |}.

Definition SetStrength (strength : R) (s : FluidSource) : FluidSource :=
  {| source_mIndex := source_mIndex s; source_mLocation := source_mLocation s;
     source_mStrength := strength;
     source_mAssociatedElementIndex := source_mAssociatedElementIndex s |}.

Definition set_mCharacteristicNodeSpacing (mesh : ImmersedBoundaryMesh) (spacing : R)
  : ImmersedBoundaryMesh :=
  {| mNodes := mNodes mesh;
     mElements := mElements mesh;
     mMembraneIndex := mMembraneIndex mesh;
     mElementDivisionSpacing := mElementDivisionSpacing mesh;
     mCharacteristicNodeSpacing := spacing;
     mElementFluidSources := mElementFluidSources mesh;
     mBalancingFluidSources := mBalancingFluidSources mesh |}.

Definition set_mBalancingFluidSources (mesh : ImmersedBoundaryMesh)
    (sources : list FluidSource) : ImmersedBoundaryMesh :=
  {| mNodes := mNodes mesh;
     mElements := mElements mesh;
     mMembraneIndex := mMembraneIndex mesh;
     mElementDivisionSpacing := mElementDivisionSpacing mesh;
     mCharacteristicNodeSpacing := mCharacteristicNodeSpacing mesh;
     mElementFluidSources := mElementFluidSources mesh;
     mBalancingFluidSources := sources |}.

(** "Register elements with nodes". *)
Definition register_element_with_nodes (mesh : ImmersedBoundaryMesh) (index : nat)
  : ImmersedBoundaryMesh :=
  let p_element := GetElement mesh index in
  let element_index := elem_mIndex p_element in
  let num_nodes_in_element := elem_GetNumNodes p_element in
  fold_left
    (fun mesh node_index =>
       update_node mesh (elem_GetNodeGlobalIndex p_element node_index)
                   (AddElement element_index))
    (seq 0 num_nodes_in_element) mesh.

Definition register_elements_with_nodes (mesh : ImmersedBoundaryMesh) : ImmersedBoundaryMesh :=
  fold_left register_element_with_nodes (seq 0 (GetNumElements mesh)) mesh.

(** "Set characteristic node spacing to the average distance between
    nodes": the perimeter and the number of nodes of the elements other
    than the one at the position of the membrane index. *)
Definition average_distance_between_nodes (mesh : ImmersedBoundaryMesh) : R :=
  let '(total_perimeter, total_nodes) :=
    fold_left
      (fun (st : R * nat) elem_index =>
         let '(total_perimeter, total_nodes) := st in
         if is_membrane_index mesh elem_index then st
         else (total_perimeter + GetSurfaceAreaOfElement mesh elem_index,
               (total_nodes + elem_GetNumNodes (GetElement mesh elem_index))%nat))
      (seq 0 (GetNumElements mesh)) (0.0, 0%nat) in
  total_perimeter / IZR (Z.of_nat total_nodes).

(** "Position fluid sources at the centroid of each cell, and set
    strength to zero": the body of the loop, for the element at position
    [elem_it]. *)
Definition place_fluid_source (mesh : ImmersedBoundaryMesh) (elem_it : nat)
  : ImmersedBoundaryMesh :=
  let this_elem_idx := elem_mIndex (GetElement mesh elem_it) in
  if is_membrane_index mesh this_elem_idx then mesh
  else
    let source_idx := length (mElementFluidSources mesh) in
    let source_location := GetCentroidOfElement mesh this_elem_idx in
    let mesh :=
      set_mElementFluidSources mesh
        (mElementFluidSources mesh
         ++ [SetStrength 0.0
               (SetAssociatedElementIndex this_elem_idx
                  (new_FluidSource source_idx source_location))]) in
    update_element mesh elem_it (SetFluidSource source_idx).

(** The loop [while (current_location < 1.0)] that places the balancing
    sources; [None] when it has not ended after [fuel] iterations. *)
Fixpoint place_balancing_sources (balancing_source_spacing current_location : R)
    (sources : list FluidSource) (fuel : nat) : option (list FluidSource) :=
  match fuel with
  | O => None
  | S fuel' =>
      if Rltb current_location 1.0
      then
        let source_idx := length sources in
        place_balancing_sources balancing_source_spacing
          (current_location + balancing_source_spacing)
          (sources ++ [new_FluidSource source_idx (current_location, 0)]) fuel'
      else Some sources
  end.

(** The constructor, from the nodes and elements it is given, the number
    of grid points in x (a positive [unsigned]; the loop of the balancing
    sources then ends within that many iterations and one) and the
    membrane index.  The velocity grids are not part of the embedding. *)
Definition ImmersedBoundaryMesh_new (nodes : list Node)
    (elements : list ImmersedBoundaryElement) (numGridPtsX : Z) (membraneIndex : option nat)
  : option ImmersedBoundaryMesh :=
  let mesh :=
    {| mNodes := nodes;
       mElements := elements;
       mMembraneIndex := membraneIndex;
       mElementDivisionSpacing := None;
       mCharacteristicNodeSpacing := 0;
       mElementFluidSources := [];
       mBalancingFluidSources := [] |} in
  let mesh := register_elements_with_nodes mesh in
  let mesh := set_mCharacteristicNodeSpacing mesh (average_distance_between_nodes mesh) in
  let mesh := fold_left place_fluid_source (seq 0 (length elements)) mesh in
  let balancing_source_spacing := 4.0 / IZR numGridPtsX in
  let current_location := balancing_source_spacing / 8.0 in
  match place_balancing_sources balancing_source_spacing current_location []
                                (S (Z.to_nat numGridPtsX)) with
  | Some sources => Some (set_mBalancingFluidSources mesh sources)
  | None => None
  end.

(** ** More of ImmersedBoundaryMembraneElasticityForce.cpp *)







(* ================================================================== *)
(** * Part IV: properties of the code of Part III *)
(* ================================================================== *)

(** ** The periodic geometry kernel *)

Lemma GetVectorFromAtoB_dim_antisymmetric (a b : R) :
  GetVectorFromAtoB_dim b a = - GetVectorFromAtoB_dim a b.
Proof.
  unfold GetVectorFromAtoB_dim, copysign, fabs.
  replace (a - b) with (- (b - a)) by ring. rewrite !Rabs_Ropp.
  destruct (Rlt_dec 0.5 (Rabs (b - a))) as [Hfar | Hnear].
  - rewrite !Rgtb_true by exact Hfar.
    rewrite Ropp_involutive.
    destruct (Rlt_dec (b - a) 0) as [Hneg | Hpos].
    + rewrite (Rltb_true (b - a) 0) by exact Hneg.
      rewrite (Rltb_false (- (b - a)) 0) by lra. ring.
    + assert (0 < b - a) as Hpos'.
      { unfold Rabs in Hfar. destruct (Rcase_abs (b - a)); lra. }
      rewrite (Rltb_false (b - a) 0) by lra.
      rewrite (Rltb_true (- (b - a)) 0) by lra. ring.
  - rewrite !Rgtb_false by lra. ring.
Qed.

(** X1.  The vector from [B] to [A] is the opposite of the vector from
    [A] to [B], for any two points (inside the unit square or not), so
    the distance that the mesh measures between two points does not
    depend on their order. *)
Theorem GetVectorFromAtoB_antisymmetric (A B : c_vector2) :
  GetVectorFromAtoB B A = vscale (GetVectorFromAtoB A B) (-1) /\
  norm_2 (GetVectorFromAtoB B A) = norm_2 (GetVectorFromAtoB A B).
Proof.
  assert (GetVectorFromAtoB B A = vscale (GetVectorFromAtoB A B) (-1)) as E.
  { unfold GetVectorFromAtoB, vscale. cbn [fst snd].
    rewrite (GetVectorFromAtoB_dim_antisymmetric (fst A) (fst B)),
            (GetVectorFromAtoB_dim_antisymmetric (snd A) (snd B)).
    f_equal; ring. }
  split; [exact E |].
  rewrite E. unfold norm_2, vscale. cbn [fst snd]. f_equal. ring.
Qed.

Lemma GetVectorFromAtoB_self (A : c_vector2) : GetVectorFromAtoB A A = zero_vector.
Proof.
  unfold GetVectorFromAtoB, GetVectorFromAtoB_dim, zero_vector, fabs.
  replace (fst A - fst A) with 0 by ring. replace (snd A - snd A) with 0 by ring.
  rewrite Rabs_R0, Rgtb_false by lra. reflexivity.
Qed.

(** ** Centroid and area *)

(** X2.  For an element of three nodes that is not the membrane and has
    a triangle of nonzero area, [GetCentroidOfElement] returns the mean
    of the three vertices: the first node plus a third of the sum of the
    (periodic) vectors to the other two, brought back into the unit
    square. *)
Theorem GetCentroidOfElement_triangle (mesh : ImmersedBoundaryMesh) (index a b c : nat) :
  elem_mNodes (GetElement mesh index) = [a; b; c] ->
  is_membrane_index mesh index = false ->
  let first_node_location := mLocation (GetNode mesh a) in
  let to_b := GetVectorFromAtoB first_node_location (mLocation (GetNode mesh b)) in
  let to_c := GetVectorFromAtoB first_node_location (mLocation (GetNode mesh c)) in
  fst to_b * snd to_c - snd to_b * fst to_c <> 0 ->
  GetCentroidOfElement mesh index
  = (reduce_to_unit (fst first_node_location + (fst to_b + fst to_c) / 3),
     reduce_to_unit (snd first_node_location + (snd to_b + snd to_c) / 3)).
Proof.
  intros Hnodes Hmembrane first_node_location to_b to_c Harea.
  unfold GetCentroidOfElement. rewrite Hmembrane.
  unfold elem_GetNumNodes, elem_GetNodeLocation, elem_GetNode, elem_GetNodeGlobalIndex.
  rewrite Hnodes.
  cbn [length seq fold_left nth Nat.modulo Nat.divmod Nat.add Nat.sub fst snd
       centroid_pos_1 centroid_x centroid_y element_signed_area zero_vector].
  fold first_node_location. rewrite GetVectorFromAtoB_self. fold to_b to_c.
  cbn [zero_vector fst snd].
  f_equal; f_equal; f_equal; unfold Q2R; cbn [QArith_base.Qnum QArith_base.Qden];
    field; lra.
Qed.

Lemma GetCentroidOfElement_triangle_witness :
  GetCentroidOfElement small_triangle_mesh 0
  = (reduce_to_unit
       (fst (mLocation (GetNode small_triangle_mesh 0))
        + (fst (GetVectorFromAtoB (mLocation (GetNode small_triangle_mesh 0))
                                  (mLocation (GetNode small_triangle_mesh 1)))
           + fst (GetVectorFromAtoB (mLocation (GetNode small_triangle_mesh 0))
                                    (mLocation (GetNode small_triangle_mesh 2)))) / 3),
     reduce_to_unit
       (snd (mLocation (GetNode small_triangle_mesh 0))
        + (snd (GetVectorFromAtoB (mLocation (GetNode small_triangle_mesh 0))
                                  (mLocation (GetNode small_triangle_mesh 1)))
           + snd (GetVectorFromAtoB (mLocation (GetNode small_triangle_mesh 0))
                                    (mLocation (GetNode small_triangle_mesh 2)))) / 3)).
Proof.
  apply (GetCentroidOfElement_triangle small_triangle_mesh 0 0 1 2).
  - reflexivity.
  - reflexivity.
  - cbn [small_triangle_mesh GetNode mNodes nth triangle_node mLocation].
    rewrite !GetVectorFromAtoB_near by (cbn [fst snd]; apply Rabs_le; lra).
    unfold vsub. cbn [fst snd]. lra.
Defined.

(** X3.  An element of fewer than three nodes has area zero (they span
    no polygon): [GetVolumeOfElement] returns 0 for it. *)
Theorem GetVolumeOfElement_degenerate (mesh : ImmersedBoundaryMesh) (index : nat) :
  (elem_GetNumNodes (GetElement mesh index) < 3)%nat ->
  GetVolumeOfElement mesh index = 0.
Proof.
  intros Hfew. unfold GetVolumeOfElement, elem_GetNumNodes, elem_GetNodeLocation, elem_GetNode,
    elem_GetNodeGlobalIndex in *.
  destruct (elem_mNodes (GetElement mesh index)) as [| a [| b [| c rest]]];
    [| | | simpl in Hfew; lia];
    cbn [length seq fold_left nth Nat.modulo Nat.divmod Nat.add Nat.sub fst snd zero_vector];
    rewrite ?GetVectorFromAtoB_self; cbn [zero_vector fst snd]; unfold fabs.
  - replace 0.0 with 0 by lra. apply Rabs_R0.
  - replace (0.0 + 0.5 * (0 * 0 - 0 * 0)) with 0 by lra. apply Rabs_R0.
  - match goal with |- Rabs ?e = 0 => replace e with 0 by lra end. apply Rabs_R0.
Qed.

Lemma GetVolumeOfElement_degenerate_witness :
  GetVolumeOfElement pair_mesh 0 = 0.
Proof.
  apply (GetVolumeOfElement_degenerate pair_mesh 0). cbn. lia.
Defined.

(** ** The cache of the average node spacing *)

Lemma GetElement_update_element_eq mesh (index : nat) f :
  (index < GetNumElements mesh)%nat ->
  GetElement (update_element mesh index f) index = f (GetElement mesh index).
Proof.
  intros H. unfold GetElement, update_element. cbn [mElements set_mElements].
  apply nth_list_update_eq. exact H.
Qed.

(** X4.  [GetAverageNodeSpacingOfElement] caches: once it has been called
    for an element, a call with [recalculate] false returns the same
    value again and changes nothing, even when a node has been moved in
    between. *)
Theorem GetAverageNodeSpacingOfElement_cached (mesh : ImmersedBoundaryMesh)
    (index : nat) (recalculate : bool) (nodeIndex : nat) (point : c_vector2) :
  (index < GetNumElements mesh)%nat ->
  let first_call := GetAverageNodeSpacingOfElement mesh index recalculate in
  let moved := SetNode (fst first_call) nodeIndex point in
  GetAverageNodeSpacingOfElement moved index false = (moved, snd first_call).
Proof.
  intros Hindex first_call moved.
  assert (mAverageNodeSpacing (GetElement (fst first_call) index) = Some (snd first_call)) as E.
  { subst first_call. unfold GetAverageNodeSpacingOfElement.
    destruct recalculate; [| destruct (mAverageNodeSpacing (GetElement mesh index)) eqn:Ec];
      cbn [fst snd]; try exact Ec;
      rewrite GetElement_update_element_eq by exact Hindex; reflexivity. }
  unfold GetAverageNodeSpacingOfElement.
  change (GetElement moved index) with (GetElement (fst first_call) index).
  rewrite E. reflexivity.
Qed.

Lemma GetAverageNodeSpacingOfElement_cached_witness :
  let first_call := GetAverageNodeSpacingOfElement small_triangle_mesh 0 true in
  let moved := SetNode (fst first_call) 1 (0.7, 0.7) in
  GetAverageNodeSpacingOfElement moved 0 false = (moved, snd first_call).
Proof.
  apply (GetAverageNodeSpacingOfElement_cached small_triangle_mesh 0 true 1 (0.7, 0.7)).
  cbn. lia.
Defined.

(** ** Moments, elongation and the short axis *)

(** [I_xx] is returned non-negative (the three moments change sign
    together when it is not). *)
Lemma CalculateMomentsOfElement_xx_nonneg (mesh : ImmersedBoundaryMesh) (index : nat) :
  0 <= moment_xx (CalculateMomentsOfElement mesh index).
Proof.
  unfold CalculateMomentsOfElement.
  destruct (fold_left _ _ _) as [pos moments].
  set (scaled := (moment_xx moments / 12, moment_yy moments / 12, moment_xy moments / 24)).
  destruct (Rlt_dec (moment_xx scaled) 0.0) as [Hneg | Hpos].
  - rewrite Rltb_true by exact Hneg. unfold moment_xx in *. cbn [fst snd] in *. lra.
  - rewrite Rltb_false by lra. lra.
Qed.

(** X5.  When the product of inertia is small against the two moments,
    [I_xy^2 < I_xx * I_yy] (the matrix of second moments is definite),
    both eigenvalues are positive and the elongation shape factor is at
    least 1. *)
Theorem GetElongationShapeFactorOfElement_at_least_1 (mesh : ImmersedBoundaryMesh)
    (index : nat) :
  let moments := CalculateMomentsOfElement mesh index in
  moment_xy moments * moment_xy moments < moment_xx moments * moment_yy moments ->
  1 <= GetElongationShapeFactorOfElement mesh index.
Proof.
  intros moments Hdefinite. unfold GetElongationShapeFactorOfElement. fold moments.
  pose proof (CalculateMomentsOfElement_xx_nonneg mesh index) as Hxx. fold moments in Hxx.
  set (a := moment_xx moments) in *. set (b := moment_yy moments) in *.
  set (c := moment_xy moments) in *. clearbody a b c.
  replace (4.0 * c * c) with (4 * (c * c)) by lra.
  set (d := sqrt ((a - b) * (a - b) + 4 * (c * c))).
  assert (0 <= (a - b) * (a - b) + 4 * (c * c)) as Hdisc.
  { pose proof (Rle_0_sqr (a - b)). pose proof (Rle_0_sqr c). unfold Rsqr in *. lra. }
  assert (0 <= d) as Hd by apply sqrt_pos.
  assert (d * d = (a - b) * (a - b) + 4 * (c * c)) as Hdd by (apply sqrt_sqrt; exact Hdisc).
  assert (0 <= c * c) as Hcc by (pose proof (Rle_0_sqr c) as H; unfold Rsqr in H; exact H).
  assert (0 < a) as Ha.
  { destruct (Req_dec a 0) as [Ea | Ea]; [rewrite Ea, Rmult_0_l in Hdefinite; lra | lra]. }
  assert (0 < b) as Hb.
  { destruct (Rlt_dec 0 b) as [Hb | Hb]; [exact Hb |].
    assert (a * b <= 0) by nra. lra. }
  assert (d < a + b) as Hlt.
  { destruct (Rlt_dec d (a + b)) as [H | H]; [exact H |].
    assert ((a + b) * (a + b) <= d * d) by (apply Rmult_le_compat; lra). nra. }
  rewrite <- sqrt_1. apply sqrt_le_1_alt.
  apply (Rmult_le_reg_r ((a + b - d) * 0.5)); [lra |].
  unfold Rdiv. rewrite Rmult_assoc, Rinv_l by lra. lra.
Qed.

Lemma GetElongationShapeFactorOfElement_at_least_1_witness :
  1 <= GetElongationShapeFactorOfElement small_triangle_mesh 0.
Proof.
  apply (GetElongationShapeFactorOfElement_at_least_1 small_triangle_mesh 0).
  rewrite small_triangle_moments. unfold moment_xx, moment_yy, moment_xy. cbn [fst snd]. lra.
Defined.

(** X8.  In every branch [GetShortAxisOfElement] returns a unit vector,
    for any draw [ranf] of [0, 1]. *)
Theorem GetShortAxisOfElement_unit (mesh : ImmersedBoundaryMesh) (index : nat) (ranf : R) :
  0 <= ranf <= 1 ->
  norm_2 (GetShortAxisOfElement mesh index ranf) = 1.
Proof.
  intros Hr. unfold GetShortAxisOfElement.
  set (moments := CalculateMomentsOfElement mesh index).
  destruct (Rltb _ 1e-10).
  - unfold norm_2. cbn [fst snd].
    assert (0 <= 1.0 - ranf * ranf) as Hpos by nra.
    rewrite sqrt_sqrt by exact Hpos.
    replace (ranf * ranf + (1.0 - ranf * ranf)) with 1 by lra. apply sqrt_1.
  - destruct (Reqb _ 0.0).
    + destruct (Rltb _ _).
      * replace (0.0, 1.0) with (0, 1) by (f_equal; lra).
        rewrite norm_2_vertical. apply Rabs_R1.
      * replace (1.0, 0.0) with (1, 0) by (f_equal; lra).
        rewrite norm_2_horizontal. apply Rabs_R1.
    + set (lambda := 0.5 * _).
      set (t := (moment_xx moments - lambda) / moment_xy moments).
      replace (1.0, t) with (1, t) by (f_equal; lra).
      assert (0 < 1 * 1 + t * t) as Hpos by nra.
      assert (0 < norm_2 (1, t)) as Hn by (unfold norm_2; cbn [fst snd]; apply sqrt_lt_R0; exact Hpos).
      assert (norm_2 (1, t) * norm_2 (1, t) = 1 * 1 + t * t) as Hsq
        by (unfold norm_2; cbn [fst snd]; apply sqrt_sqrt; lra).
      set (n := norm_2 (1, t)) in *.
      unfold norm_2 at 1, vdiv. cbn [fst snd].
      replace (1 / n * (1 / n) + t / n * (t / n)) with 1; [apply sqrt_1 |].
      field_simplify_eq; [| lra]. lra.
Qed.

Lemma GetShortAxisOfElement_unit_witness :
  norm_2 (GetShortAxisOfElement small_triangle_mesh 0 0.25) = 1.
Proof.
  apply (GetShortAxisOfElement_unit small_triangle_mesh 0 0.25). lra.
Defined.

(** X9.  In its general branch (the discriminant is not below 1e-10 and
    the product of inertia is not zero) [GetShortAxisOfElement] returns
    an eigenvector of the inertia matrix [[I_xx, -I_xy], [-I_xy, I_yy]]
    for its largest eigenvalue [(I_xx + I_yy + sqrt discriminant) / 2]. *)
Theorem GetShortAxisOfElement_eigenvector (mesh : ImmersedBoundaryMesh) (index : nat)
    (ranf : R) :
  let moments := CalculateMomentsOfElement mesh index in
  let I_xx := moment_xx moments in
  let I_yy := moment_yy moments in
  let I_xy := moment_xy moments in
  let discriminant := (I_xx - I_yy) * (I_xx - I_yy) + 4.0 * I_xy * I_xy in
  1e-10 <= discriminant -> I_xy <> 0 ->
  let lambda := 0.5 * (I_xx + I_yy + sqrt discriminant) in
  let short_axis := GetShortAxisOfElement mesh index ranf in
  I_xx * fst short_axis - I_xy * snd short_axis = lambda * fst short_axis /\
  - I_xy * fst short_axis + I_yy * snd short_axis = lambda * snd short_axis /\
  0.5 * (I_xx + I_yy - sqrt discriminant) <= lambda.
Proof.
  intros moments I_xx I_yy I_xy discriminant Hdisc Hxy lambda short_axis.
  assert (sqrt discriminant * sqrt discriminant = discriminant) as Hsq
    by (apply sqrt_sqrt; lra).
  assert (0 <= sqrt discriminant) as Hpos by apply sqrt_pos.
  assert (short_axis = vdiv (1.0, (I_xx - lambda) / I_xy) (norm_2 (1.0, (I_xx - lambda) / I_xy)))
    as E.
  { subst short_axis. unfold GetShortAxisOfElement.
    fold moments. fold I_xx I_yy I_xy. fold discriminant.
    rewrite Rltb_false by (unfold fabs; rewrite Rabs_pos_eq; lra).
    unfold Reqb. destruct (Req_dec_T I_xy 0.0) as [E0 | _]; [exfalso; apply Hxy; lra |].
    reflexivity. }
  rewrite E. clear E. replace 1.0 with 1 by lra. set (t := (I_xx - lambda) / I_xy).
  assert (0 < norm_2 (1, t)) as Hn.
  { unfold norm_2. cbn [fst snd]. apply sqrt_lt_R0. nra. }
  set (n := norm_2 (1, t)) in *. unfold vdiv. cbn [fst snd].
  assert (I_xy * t = I_xx - lambda) as Ht by (unfold t; field; exact Hxy).
  assert ((I_xx - lambda) * (I_yy - lambda) = I_xy * I_xy) as Hchar.
  { unfold lambda. set (s := sqrt discriminant) in *. unfold discriminant in Hsq.
    replace ((I_xx - 0.5 * (I_xx + I_yy + s)) * (I_yy - 0.5 * (I_xx + I_yy + s)))
      with ((s * s - (I_xx - I_yy) * (I_xx - I_yy)) / 4) by real_eq.
    rewrite Hsq. real_eq. }
  assert (I_yy * t - I_xy = lambda * t) as Hrow.
  { apply (Rmult_eq_reg_l I_xy); [| exact Hxy].
    replace (I_xy * (I_yy * t - I_xy)) with (I_yy * (I_xy * t) - I_xy * I_xy) by ring.
    replace (I_xy * (lambda * t)) with (lambda * (I_xy * t)) by ring.
    rewrite Ht. nra. }
  repeat split.
  - replace (I_xx * (1 / n) - I_xy * (t / n)) with ((I_xx - I_xy * t) / n)
      by (field; lra).
    rewrite Ht. field. lra.
  - replace (- I_xy * (1 / n) + I_yy * (t / n)) with ((I_yy * t - I_xy) / n)
      by (field; lra).
    rewrite Hrow. field. lra.
  - unfold lambda. lra.
Qed.

(** A right triangle with legs of length 0.4. *)
Definition wide_triangle_mesh : ImmersedBoundaryMesh :=
  {| mNodes := [triangle_node 0 (0.3, 0.3) 2; triangle_node 1 (0.7, 0.3) 2;
                triangle_node 2 (0.3, 0.7) 2];
     mElements := [triangle_element];
     mMembraneIndex := None;
     mElementDivisionSpacing := None;
     mCharacteristicNodeSpacing := 0.4;
     mElementFluidSources := [];
     mBalancingFluidSources := [] |}.

Lemma wide_triangle_centroid :
  GetCentroidOfElement wide_triangle_mesh 0 = (0.3 + 0.4 / 3, 0.3 + 0.4 / 3).
Proof.
  unfold GetCentroidOfElement.
  cbn [is_membrane_index mMembraneIndex wide_triangle_mesh GetElement mElements nth
       triangle_element elem_GetNumNodes elem_mNodes length seq fold_left
       elem_GetNodeLocation elem_GetNode elem_GetNodeGlobalIndex GetNode mNodes
       triangle_node mLocation Nat.modulo Nat.divmod Nat.add fst snd Nat.sub
       centroid_pos_1 centroid_x centroid_y element_signed_area zero_vector].
  rewrite !GetVectorFromAtoB_near by (cbn [fst snd]; apply Rabs_le; lra).
  unfold vsub. cbn [fst snd].
  match goal with
  | |- (reduce_to_unit ?a, reduce_to_unit ?b) = _ =>
      replace a with (0.3 + 0.4 / 3) by real_eq;
      replace b with (0.3 + 0.4 / 3) by real_eq
  end.
  unfold reduce_to_unit. rewrite Rltb_false by lra.
  rewrite fmod_1_unit by lra. reflexivity.
Qed.

Lemma wide_triangle_moments :
  CalculateMomentsOfElement wide_triangle_mesh 0 = (4 / 5625, 4 / 5625, - (2 / 5625)).
Proof.
  unfold CalculateMomentsOfElement. rewrite wide_triangle_centroid.
  cbn [wide_triangle_mesh GetElement mElements nth
       triangle_element elem_GetNumNodes elem_mNodes length seq fold_left
       elem_GetNodeLocation elem_GetNode elem_GetNodeGlobalIndex GetNode mNodes
       triangle_node mLocation Nat.modulo Nat.divmod Nat.add fst snd Nat.sub].
  rewrite !GetVectorFromAtoB_near by (cbn [fst snd]; apply Rabs_le; lra).
  unfold vsub, moment_xx, moment_yy, moment_xy. cbn [fst snd].
  rewrite Rltb_false by lra.
  f_equal; [f_equal |]; real_eq.
Qed.

Lemma GetShortAxisOfElement_eigenvector_witness :
  let moments := CalculateMomentsOfElement wide_triangle_mesh 0 in
  let I_xx := moment_xx moments in
  let I_yy := moment_yy moments in
  let I_xy := moment_xy moments in
  let discriminant := (I_xx - I_yy) * (I_xx - I_yy) + 4.0 * I_xy * I_xy in
  let lambda := 0.5 * (I_xx + I_yy + sqrt discriminant) in
  let short_axis := GetShortAxisOfElement wide_triangle_mesh 0 0.5 in
  I_xx * fst short_axis - I_xy * snd short_axis = lambda * fst short_axis /\
  - I_xy * fst short_axis + I_yy * snd short_axis = lambda * snd short_axis /\
  0.5 * (I_xx + I_yy - sqrt discriminant) <= lambda.
Proof.
  apply (GetShortAxisOfElement_eigenvector wide_triangle_mesh 0 0.5);
    rewrite wide_triangle_moments; unfold moment_xx, moment_yy, moment_xy; cbn [fst snd]; lra.
Defined.

(** ** Tortuosity *)

Lemma tortuosity_total_length_nonneg (mMeshHasMembrane : bool) (mesh : ImmersedBoundaryMesh) :
  0 <= tortuosity_total_length mMeshHasMembrane mesh.
Proof.
  unfold tortuosity_total_length.
  set (step := fun (st : R * c_vector2) (elem_idx : nat) => _).
  assert (forall l st, 0 <= fst st -> 0 <= fst (fold_left step l st)) as H.
  { induction l as [| e l IH]; intros st Hst; [exact Hst |].
    simpl. apply IH. destruct st as [total previous]. unfold step. cbn [fst].
    pose proof (norm_2_nonneg (GetVectorFromAtoB previous (GetCentroidOfElement mesh e))).
    cbn [fst] in Hst. lra. }
  apply H. cbn [fst]. lra.
Qed.

(** X6.  [GetTortuosityOfMesh] divides by a straight-line length that is
    at least 1/2 (it is the larger of a length and of 1 minus that
    length), so it never divides by zero; the total length and the
    tortuosity returned are not negative, and the tortuosity is at most
    twice the total length. *)
Theorem GetTortuosityOfMesh_bounds (mMeshHasMembrane : bool) (mesh : ImmersedBoundaryMesh) :
  1 / 2 <= tortuosity_straight_line_length mMeshHasMembrane mesh /\
  0 <= GetTortuosityOfMesh mMeshHasMembrane mesh
    <= 2 * tortuosity_total_length mMeshHasMembrane mesh.
Proof.
  pose proof (tortuosity_total_length_nonneg mMeshHasMembrane mesh) as Htotal.
  assert (1 / 2 <= tortuosity_straight_line_length mMeshHasMembrane mesh) as Hstraight.
  { unfold tortuosity_straight_line_length.
    set (s := norm_2 _). unfold Rmax. destruct (Rle_dec s (1.0 - s)); lra. }
  split; [exact Hstraight |].
  unfold GetTortuosityOfMesh.
  set (total := tortuosity_total_length mMeshHasMembrane mesh) in *.
  set (straight := tortuosity_straight_line_length mMeshHasMembrane mesh) in *.
  split.
  - apply Rmult_le_pos; [exact Htotal | left; apply Rinv_0_lt_compat; lra].
  - apply (Rmult_le_reg_r straight); [lra |].
    unfold Rdiv. rewrite Rmult_assoc, Rinv_l by lra. nra.
Qed.

(** ** The bounding box *)

Lemma stretch_bounds_spec (bounds : R * R) (v : R) :
  fst bounds <= snd bounds ->
  let bounds' := stretch_bounds bounds v in
  fst bounds' <= fst bounds /\ snd bounds <= snd bounds' /\
  fst bounds' <= v <= snd bounds'.
Proof.
  intros H. unfold stretch_bounds.
  destruct (Rlt_dec v (fst bounds)) as [Hlo | Hlo].
  - rewrite Rltb_true by exact Hlo. cbn [fst snd]. lra.
  - rewrite Rltb_false by lra.
    destruct (Rlt_dec (snd bounds) v) as [Hhi | Hhi].
    + rewrite Rgtb_true by exact Hhi. cbn [fst snd]. lra.
    + rewrite Rgtb_false by lra. cbn zeta. lra.
Qed.

(** The loop of [CalculateBoundingBoxOfElement] over a list of nodes. *)
Definition bounding_loop (vec_to_node : nat -> c_vector2) (node_idxs : list nat)
    (st : c_vector2 * c_vector2) : c_vector2 * c_vector2 :=
  fold_left
    (fun (st : c_vector2 * c_vector2) node_idx =>
       let '(bottom_left, top_right) := st in
       let bounds_0 :=
         stretch_bounds (fst bottom_left, fst top_right) (fst (vec_to_node node_idx)) in
       let bounds_1 :=
         stretch_bounds (snd bottom_left, snd top_right) (snd (vec_to_node node_idx)) in
       ((fst bounds_0, fst bounds_1), (snd bounds_0, snd bounds_1)))
    node_idxs st.

Lemma bounding_loop_spec (vec_to_node : nat -> c_vector2) (node_idxs : list nat)
    (st : c_vector2 * c_vector2) :
  fst (fst st) <= fst (snd st) -> snd (fst st) <= snd (snd st) ->
  let st' := bounding_loop vec_to_node node_idxs st in
  (fst (fst st') <= fst (fst st) /\ fst (snd st) <= fst (snd st')) /\
  (snd (fst st') <= snd (fst st) /\ snd (snd st) <= snd (snd st')) /\
  forall i, In i node_idxs ->
    fst (fst st') <= fst (vec_to_node i) <= fst (snd st') /\
    snd (fst st') <= snd (vec_to_node i) <= snd (snd st').
Proof.
  revert st. induction node_idxs as [| j l IH]; intros [[bl0 bl1] [tr0 tr1]] H0 H1.
  - cbn. repeat split; try lra; contradiction.
  - cbn [fst snd] in H0, H1.
    pose proof (stretch_bounds_spec (bl0, tr0) (fst (vec_to_node j)) H0) as S0.
    pose proof (stretch_bounds_spec (bl1, tr1) (snd (vec_to_node j)) H1) as S1.
    cbn [fst snd] in S0, S1. cbn zeta in S0, S1.
    set (b0 := stretch_bounds (bl0, tr0) (fst (vec_to_node j))) in *.
    set (b1 := stretch_bounds (bl1, tr1) (snd (vec_to_node j))) in *.
    change (bounding_loop vec_to_node (j :: l) (bl0, bl1, (tr0, tr1)))
      with (bounding_loop vec_to_node l ((fst b0, fst b1), (snd b0, snd b1))).
    destruct (IH ((fst b0, fst b1), (snd b0, snd b1))) as (I0 & I1 & Iall);
      [cbn [fst snd]; lra | cbn [fst snd]; lra |].
    cbn [fst snd] in I0, I1. cbn [fst snd].
    split; [lra |]. split; [lra |].
    intros i [<- | Hin]; [lra | apply Iall; exact Hin].
Qed.

(** X7.  The box of [CalculateBoundingBoxOfElement] holds node 0 of the
    element, and every node of the element at the place where the
    shortest (periodic) vector from node 0 puts it; so its lower corner
    is below its upper corner. *)
Theorem CalculateBoundingBoxOfElement_bounds (mesh : ImmersedBoundaryMesh)
    (index node_idx : nat) :
  (node_idx < elem_GetNumNodes (GetElement mesh index))%nat ->
  let p_elem := GetElement mesh index in
  let box := CalculateBoundingBoxOfElement mesh index in
  let ref_point := mLocation (elem_GetNode mesh p_elem 0) in
  let node :=
    vadd (GetVectorFromAtoB ref_point (mLocation (elem_GetNode mesh p_elem node_idx)))
         ref_point in
  (fst (fst box) <= fst ref_point <= fst (snd box) /\
   snd (fst box) <= snd ref_point <= snd (snd box)) /\
  (fst (fst box) <= fst node <= fst (snd box) /\
   snd (fst box) <= snd node <= snd (snd box)).
Proof.
  intros Hi p_elem box ref_point node.
  set (vec_to_node :=
         fun i => GetVectorFromAtoB ref_point (mLocation (elem_GetNode mesh p_elem i))).
  assert (box = (vadd (fst (bounding_loop vec_to_node (seq 0 (elem_GetNumNodes p_elem))
                                          (zero_vector, zero_vector))) ref_point,
                 vadd (snd (bounding_loop vec_to_node (seq 0 (elem_GetNumNodes p_elem))
                                          (zero_vector, zero_vector))) ref_point)) as E.
  { subst box. unfold CalculateBoundingBoxOfElement, bounding_loop, vec_to_node.
    fold p_elem. fold ref_point.
    destruct (fold_left _ _ _) as [bottom_left top_right]. reflexivity. }
  destruct (bounding_loop_spec vec_to_node (seq 0 (elem_GetNumNodes p_elem))
              (zero_vector, zero_vector)) as (I0 & I1 & Iall);
    [cbn; lra | cbn; lra |].
  specialize (Iall node_idx). rewrite in_seq in Iall.
  destruct Iall as [N0 N1]; [fold p_elem in Hi; lia |].
  rewrite E. subst node. fold (vec_to_node node_idx).
  unfold vadd, zero_vector in *. cbn [fst snd] in *. lra.
Qed.

Lemma CalculateBoundingBoxOfElement_bounds_witness :
  let p_elem := GetElement wide_triangle_mesh 0 in
  let box := CalculateBoundingBoxOfElement wide_triangle_mesh 0 in
  let ref_point := mLocation (elem_GetNode wide_triangle_mesh p_elem 0) in
  let node :=
    vadd (GetVectorFromAtoB ref_point (mLocation (elem_GetNode wide_triangle_mesh p_elem 2)))
         ref_point in
  (fst (fst box) <= fst ref_point <= fst (snd box) /\
   snd (fst box) <= snd ref_point <= snd (snd box)) /\
  (fst (fst box) <= fst node <= fst (snd box) /\
   snd (fst box) <= snd node <= snd (snd box)).
Proof.
  apply (CalculateBoundingBoxOfElement_bounds wide_triangle_mesh 0 2). cbn. lia.
Defined.

(** ** The nodes where the axis of division crosses the element *)

(** The loop of [intersecting_nodes] over a list of local indices, for
    any test [on_left] of the side of a node. *)
Definition crossing_loop (on_left : nat -> bool) (num_nodes : nat) (idxs : list nat)
    (st : list nat * bool) : list nat * bool :=
  fold_left
    (fun (st : list nat * bool) i =>
       let '(intersecting_nodes, is_current_node_on_left) := st in
       let is_next_node_on_left := on_left ((i + 1) mod num_nodes)%nat in
       (if Bool.eqb is_current_node_on_left is_next_node_on_left
        then intersecting_nodes
        else intersecting_nodes ++ [i],
        is_next_node_on_left))
    idxs st.

Lemma crossing_loop_parity (on_left : nat -> bool) (num_nodes : nat) (initial : bool)
    (idxs : list nat) (st : list nat * bool) :
  Nat.even (length (fst st)) = Bool.eqb (snd st) initial ->
  Forall (fun i => (i < num_nodes)%nat) (fst st) ->
  Forall (fun i => (i < num_nodes)%nat) idxs ->
  let st' := crossing_loop on_left num_nodes idxs st in
  Nat.even (length (fst st')) = Bool.eqb (snd st') initial /\
  Forall (fun i => (i < num_nodes)%nat) (fst st').
Proof.
  revert st. induction idxs as [| i idxs IH]; intros [acc current] Hparity Hacc Hidxs.
  - split; assumption.
  - cbn [fst snd] in Hparity, Hacc. inversion Hidxs as [| ? ? Hi Hrest]; subst.
    unfold crossing_loop. cbn [fold_left].
    set (next := on_left ((i + 1) mod num_nodes)%nat).
    fold (crossing_loop on_left num_nodes idxs
            (if Bool.eqb current next then acc else acc ++ [i], next)).
    apply IH; cbn [fst snd]; [| | exact Hrest].
    + destruct (Bool.eqb current next) eqn:E.
      * apply eqb_prop in E. subst next. rewrite <- E. exact Hparity.
      * rewrite length_app. cbn [length]. rewrite Nat.add_1_r, Nat.even_succ, <- Nat.negb_even.
        rewrite Hparity. destruct current, next, initial; try reflexivity; discriminate.
    + destruct (Bool.eqb current next); [exact Hacc |].
      apply Forall_app. split; [exact Hacc | constructor; [exact Hi | constructor]].
Qed.

Lemma crossing_loop_last (on_left : nat -> bool) (num_nodes : nat) (idxs : list nat)
    (i : nat) (st : list nat * bool) :
  snd (crossing_loop on_left num_nodes (idxs ++ [i]) st) = on_left ((i + 1) mod num_nodes)%nat.
Proof.
  unfold crossing_loop. rewrite fold_left_app. cbn [fold_left].
  destruct (fold_left _ idxs st) as [acc current]. reflexivity.
Qed.

(** X10.  The axis of division crosses the outline of an element an even
    number of times: [DivideElementAlongGivenAxis] finds an even number
    of intersecting nodes, each a local index of the element; so when it
    gives up with its exception, it has found 0, 4, 6, ... of them. *)
Theorem intersecting_nodes_even (mesh : ImmersedBoundaryMesh) (elem_idx : nat)
    (axisOfDivision : c_vector2) :
  Nat.even (length (intersecting_nodes mesh elem_idx axisOfDivision)) = true /\
  Forall (fun i => (i < elem_GetNumNodes (GetElement mesh elem_idx))%nat)
         (intersecting_nodes mesh elem_idx axisOfDivision).
Proof.
  unfold intersecting_nodes.
  set (pElement := GetElement mesh elem_idx).
  set (centroid := GetCentroidOfElement mesh (elem_mIndex pElement)).
  set (perp_axis := (- snd axisOfDivision, fst axisOfDivision)).
  set (num_nodes := elem_GetNumNodes pElement).
  set (on_left := is_node_on_left mesh pElement centroid perp_axis).
  fold (crossing_loop on_left num_nodes (seq 0 num_nodes) ([], on_left 0%nat)).
  destruct (crossing_loop_parity on_left num_nodes (on_left 0%nat) (seq 0 num_nodes)
              ([], on_left 0%nat)) as [Hparity Hbound].
  - cbn. symmetry. apply eqb_reflx.
  - constructor.
  - apply Forall_forall. intros i Hi. apply in_seq in Hi. lia.
  - split; [| exact Hbound].
    cbn zeta in Hparity. rewrite Hparity.
    destruct num_nodes as [| k]; [cbn; apply eqb_reflx |].
    rewrite seq_S, crossing_loop_last. cbn [Nat.add].
    replace (k + 1)%nat with (S k) by lia. rewrite Nat.Div0.mod_same. apply eqb_reflx.
Qed.

(** ** What a division that returns has done *)

(** A phase that writes to locations of nodes, and to nothing else of
    the mesh. *)
Definition relocated (mesh mesh' : ImmersedBoundaryMesh) : Prop :=
  mesh' = set_mNodes mesh (mNodes mesh') /\
  GetNumNodes mesh' = GetNumNodes mesh /\
  forall g, exists location, GetNode mesh' g = SetPoint location (GetNode mesh g).

Lemma relocated_refl mesh : relocated mesh mesh.
Proof.
  split; [symmetry; apply set_mNodes_mNodes |]. split; [reflexivity |].
  intros g. exists (mLocation (GetNode mesh g)). symmetry. apply SetPoint_mLocation.
Qed.

Lemma relocated_trans m1 m2 m3 : relocated m1 m2 -> relocated m2 m3 -> relocated m1 m3.
Proof.
  intros (S1 & L1 & G1) (S2 & L2 & G2). split; [| split].
  - rewrite S2 at 1. unfold set_mNodes. rewrite S1. reflexivity.
  - congruence.
  - intros g. destruct (G1 g) as [p1 E1]. destruct (G2 g) as [p2 E2].
    exists p2. rewrite E2, E1. reflexivity.
Qed.

Lemma relocated_update_node mesh (g : nat) (location : c_vector2) :
  relocated mesh (update_node mesh g (SetPoint location)).
Proof.
  split; [reflexivity |]. split; [apply GetNumNodes_update_node |].
  intros g'. destruct (Nat.eq_dec g g') as [<- | Hne].
  - destruct (Nat.lt_ge_cases g (GetNumNodes mesh)) as [Hlt | Hge].
    + exists location. apply GetNode_update_node_eq. exact Hlt.
    + exists zero_vector. unfold GetNode, update_node. cbn [mNodes set_mNodes].
      rewrite !nth_overflow; [reflexivity | exact Hge | rewrite list_update_length; exact Hge].
  - rewrite GetNode_update_node_neq by exact Hne.
    exists (mLocation (GetNode mesh g')). symmetry. apply SetPoint_mLocation.
Qed.

Lemma relocated_fold {A : Type} (step : ImmersedBoundaryMesh -> A -> ImmersedBoundaryMesh)
    (l : list A) mesh :
  (forall m a, relocated m (step m a)) -> relocated mesh (fold_left step l mesh).
Proof.
  intros H. revert mesh. induction l as [| a l IH]; intros mesh; [apply relocated_refl |].
  cbn [fold_left]. apply (relocated_trans _ (step mesh a)); [apply H | apply IH].
Qed.

Lemma relocated_elements mesh mesh' :
  relocated mesh mesh' ->
  mElements mesh' = mElements mesh /\
  mElementFluidSources mesh' = mElementFluidSources mesh /\
  mMembraneIndex mesh' = mMembraneIndex mesh.
Proof. intros (E & _). rewrite E. repeat split. Qed.

Lemma find_frontier_relocated mesh elem_idx centroid unit_perp half_spacing next first last :
  relocated mesh
    (fst (find_frontier mesh elem_idx centroid unit_perp half_spacing next first last)).
Proof.
  unfold find_frontier. destruct (walk_nodes _ _ _ _ _); cbn [fst];
    try apply relocated_refl.
  apply relocated_update_node.
Qed.

Lemma move_nodes_to_relocated mesh elem_idx locations :
  relocated mesh (move_nodes_to mesh elem_idx locations).
Proof.
  unfold move_nodes_to. apply relocated_fold. intros m a. apply relocated_update_node.
Qed.

(** The four walks of [DivideElement] relocate nodes; a division that
    returns has then run its second half. *)
Lemma DivideElement_returned_inv mesh elem_idx nodeAIndex nodeBIndex centroid axisOfDivision
    mesh' result :
  DivideElement mesh elem_idx nodeAIndex nodeBIndex centroid axisOfDivision
    = (mesh', Returned result) ->
  exists mesh0 start_a end_a start_b end_b,
    relocated mesh mesh0 /\
    divide_at_frontier mesh0 elem_idx start_a end_a start_b end_b = (mesh', Returned result).
Proof.
  unfold DivideElement.
  destruct (mElementDivisionSpacing mesh) as [spacing |]; [| discriminate].
  cbv zeta.
  match goal with
  | |- context [find_frontier mesh elem_idx centroid ?p ?h ?n ?f ?l] =>
      pose proof (find_frontier_relocated mesh elem_idx centroid p h n f l) as R1;
      destruct (find_frontier mesh elem_idx centroid p h n f l) as [mesh1 c1]
  end.
  cbn [fst] in R1.
  match goal with
  | |- context [find_frontier mesh1 elem_idx centroid ?p ?h ?n ?f ?l] =>
      pose proof (find_frontier_relocated mesh1 elem_idx centroid p h n f l) as R2;
      destruct (find_frontier mesh1 elem_idx centroid p h n f l) as [mesh2 c2]
  end.
  cbn [fst] in R2.
  match goal with
  | |- context [find_frontier mesh2 elem_idx centroid ?p ?h ?n ?f ?l] =>
      pose proof (find_frontier_relocated mesh2 elem_idx centroid p h n f l) as R3;
      destruct (find_frontier mesh2 elem_idx centroid p h n f l) as [mesh3 c3]
  end.
  cbn [fst] in R3.
  match goal with
  | |- context [find_frontier mesh3 elem_idx centroid ?p ?h ?n ?f ?l] =>
      pose proof (find_frontier_relocated mesh3 elem_idx centroid p h n f l) as R4;
      destruct (find_frontier mesh3 elem_idx centroid p h n f l) as [mesh4 c4]
  end.
  cbn [fst] in R4.
  assert (relocated mesh mesh4) as R.
  { apply (relocated_trans _ mesh1); [exact R1 |].
    apply (relocated_trans _ mesh2); [exact R2 |].
    apply (relocated_trans _ mesh3); [exact R3 | exact R4]. }
  destruct c1, c2, c3, c4; try discriminate.
  intros H. eexists mesh4, _, _, _, _. split; [exact R | exact H].
Qed.

(** The phases of the second half, for a division that returns. *)
Lemma divide_at_frontier_returned_inv mesh elem_idx start_a end_a start_b end_b mesh' result :
  divide_at_frontier mesh elem_idx start_a end_a start_b end_b = (mesh', Returned result) ->
  exists new_locations_a new_locations_b,
    length new_locations_b = elem_GetNumNodes (GetElement mesh elem_idx) /\
    update_fluid_sources
      (push_new_element
         (copy_node_attributes
            (push_new_nodes (move_nodes_to mesh elem_idx new_locations_a) new_locations_b)
            elem_idx (seq (GetNumNodes mesh) (length new_locations_b)))
         elem_idx (seq (GetNumNodes mesh) (length new_locations_b)))
      elem_idx (GetNumElements mesh)
    = (mesh', Returned result).
Proof.
  unfold divide_at_frontier.
  destruct (collect_stencil _ _ _ start_a _) as [stencil_a |]; [| discriminate].
  destruct (collect_stencil _ _ _ start_b _) as [stencil_b |];
    [| destruct stencil_a; discriminate].
  destruct (resample_daughter stencil_a _) as [locations_a |] eqn:Ra; [| discriminate].
  destruct (resample_daughter stencil_b _) as [locations_b |] eqn:Rb;
    [| destruct locations_a; discriminate].
  cbv zeta. intros H. exists locations_a, locations_b.
  split; [apply (resample_daughter_length _ _ _ Rb) |].
  destruct (move_nodes_to_relocated mesh elem_idx locations_a) as (_ & L1 & _).
  destruct (nodes_only_outlines _ _ (move_nodes_to_nodes_only mesh elem_idx locations_a))
    as (_ & N1 & _).
  rewrite L1 in H.
  set (mesh1 := move_nodes_to mesh elem_idx locations_a) in *.
  set (new_nodes_vec := seq (GetNumNodes mesh) (length locations_b)) in *.
  destruct (push_new_nodes_view mesh1 locations_b) as [E2 _].
  destruct (nodes_only_outlines _ _
              (copy_node_attributes_nodes_only (push_new_nodes mesh1 locations_b)
                 elem_idx new_nodes_vec)) as (_ & N3 & _).
  rewrite N3 in H. unfold GetNumElements at 1 in H. rewrite E2 in H.
  fold (GetNumElements mesh1) in H. rewrite N1 in H. exact H.
Qed.

(** The elements that exist before the second half are not touched by
    its phases up to the new element. *)
Lemma division_phases_old_element mesh elem_idx locations_a locations_b new_nodes_vec (e : nat) :
  (e < GetNumElements mesh)%nat ->
  GetElement
    (push_new_element
       (copy_node_attributes
          (push_new_nodes (move_nodes_to mesh elem_idx locations_a) locations_b)
          elem_idx new_nodes_vec)
       elem_idx new_nodes_vec) e
  = GetElement mesh e.
Proof.
  intros He.
  set (mesh1 := move_nodes_to mesh elem_idx locations_a).
  set (mesh2 := push_new_nodes mesh1 locations_b).
  set (mesh3 := copy_node_attributes mesh2 elem_idx new_nodes_vec).
  destruct (nodes_only_outlines _ _ (move_nodes_to_nodes_only mesh elem_idx locations_a))
    as (_ & L1 & G1). fold mesh1 in L1, G1.
  destruct (push_new_nodes_view mesh1 locations_b) as [E2 _]. fold mesh2 in E2.
  destruct (nodes_only_outlines _ _ (copy_node_attributes_nodes_only mesh2 elem_idx new_nodes_vec))
    as (_ & L3 & G3). fold mesh3 in L3, G3.
  assert (GetNumElements mesh3 = GetNumElements mesh) as L.
  { rewrite L3. unfold GetNumElements. rewrite E2. exact L1. }
  rewrite push_new_element_old_element by (rewrite L; exact He).
  rewrite G3. unfold GetElement. rewrite E2. apply G1.
Qed.

Lemma DivideElement_returned_source mesh elem_idx nodeAIndex nodeBIndex centroid axisOfDivision
    mesh' result :
  (elem_idx < GetNumElements mesh)%nat ->
  DivideElement mesh elem_idx nodeAIndex nodeBIndex centroid axisOfDivision
    = (mesh', Returned result) ->
  exists source, mpFluidSource (GetElement mesh elem_idx) = Some source.
Proof.
  intros He H.
  destruct (DivideElement_returned_inv _ _ _ _ _ _ _ _ H)
    as (mesh0 & start_a & end_a & start_b & end_b & R & H0).
  destruct (relocated_elements _ _ R) as (E0 & _).
  destruct (divide_at_frontier_returned_inv _ _ _ _ _ _ _ _ H0)
    as (locations_a & locations_b & _ & H1).
  unfold update_fluid_sources in H1.
  rewrite division_phases_old_element in H1
    by (unfold GetNumElements; rewrite E0; exact He).
  unfold GetElement in H1 at 1. rewrite E0 in H1. fold (GetElement mesh elem_idx) in H1.
  destruct (mpFluidSource (GetElement mesh elem_idx)) as [source |]; [| discriminate].
  exists source. reflexivity.
Qed.

(** The hexagon of the division example, without its fluid source. *)
Definition hexagon_mesh_without_source : ImmersedBoundaryMesh :=
  set_mElements hexagon_mesh
    [{| elem_mIndex := 0; elem_mNodes := [0; 1; 2; 3; 4; 5]%nat;
        mMembraneSpringConstant := 1; mMembraneRestLength := 0.05;
        mAverageNodeSpacing := None; mElementAttributes := [];
        mCornerNodes := []; mpFluidSource := None |}].

(** X11.  An element that has no fluid source cannot be divided: on such
    an element of the mesh (the membrane, which the constructor gives no
    source, is one) [DivideElement] never returns the index of a new
    element; it throws, or reads through the null pointer of the source. *)
Theorem DivideElement_needs_fluid_source (mesh : ImmersedBoundaryMesh) (elem_idx : nat)
    (nodeAIndex nodeBIndex : nat) (centroid axisOfDivision : c_vector2) :
  (elem_idx < GetNumElements mesh)%nat ->
  mpFluidSource (GetElement mesh elem_idx) = None ->
  is_returned
    (snd (DivideElement mesh elem_idx nodeAIndex nodeBIndex centroid axisOfDivision))
  = false.
Proof.
  intros He Hnone.
  destruct (DivideElement mesh elem_idx nodeAIndex nodeBIndex centroid axisOfDivision)
    as [mesh' [result | e |]] eqn:H; [| reflexivity | reflexivity].
  destruct (DivideElement_returned_source _ _ _ _ _ _ _ _ He H) as [source Hs].
  rewrite Hnone in Hs. discriminate.
Qed.

Lemma DivideElement_needs_fluid_source_witness :
  (0 < GetNumElements hexagon_mesh_without_source)%nat /\
  mpFluidSource (GetElement hexagon_mesh_without_source 0) = None /\
  is_returned
    (snd (DivideElement hexagon_mesh_without_source 0 1 4 (0.5, 0.5) (0, 1)))
  = false.
Proof.
  split; [cbn; lia |]. split; [reflexivity |].
  apply DivideElement_needs_fluid_source; [cbn; lia | reflexivity].
Defined.

(** *** The nodes of the new element *)

Lemma push_new_nodes_mNodes mesh locations :
  push_new_nodes mesh locations
  = set_mNodes mesh
      (mNodes mesh
       ++ map (fun p => new_Node (fst p) (snd p))
              (combine (seq (GetNumNodes mesh) (length locations)) locations)).
Proof.
  revert mesh. induction locations as [| location locations IH]; intros mesh.
  - cbn. rewrite app_nil_r. symmetry. apply set_mNodes_mNodes.
  - unfold push_new_nodes. cbn [fold_left].
    fold (push_new_nodes
            (set_mNodes mesh (mNodes mesh ++ [new_Node (GetNumNodes mesh) location]))
            locations).
    rewrite IH. unfold set_mNodes, GetNumNodes. cbn [mNodes mElements mMembraneIndex
      mElementDivisionSpacing mCharacteristicNodeSpacing mElementFluidSources
      mBalancingFluidSources length seq combine map fst snd].
    rewrite <- app_assoc, length_app. cbn [length app].
    replace (length (mNodes mesh) + 1)%nat with (S (length (mNodes mesh))) by lia.
    reflexivity.
Qed.

Lemma push_new_nodes_old_node mesh locations (g : nat) :
  (g < GetNumNodes mesh)%nat ->
  GetNode (push_new_nodes mesh locations) g = GetNode mesh g.
Proof.
  intros Hg. rewrite push_new_nodes_mNodes. unfold GetNode. cbn [mNodes set_mNodes].
  apply app_nth1. exact Hg.
Qed.

Lemma push_new_nodes_new_node mesh locations (i : nat) :
  (i < length locations)%nat ->
  GetNode (push_new_nodes mesh locations) (GetNumNodes mesh + i)
  = new_Node (GetNumNodes mesh + i) (nth i locations zero_vector).
Proof.
  intros Hi. rewrite push_new_nodes_mNodes. unfold GetNode. cbn [mNodes set_mNodes].
  rewrite app_nth2 by (unfold GetNumNodes; lia).
  replace (GetNumNodes mesh + i - length (mNodes mesh))%nat with i
    by (unfold GetNumNodes; lia).
  rewrite (nth_indep _ null_node (new_Node (fst (0%nat, zero_vector)) (snd (0%nat, zero_vector))))
    by (rewrite length_map, length_combine, length_seq; lia).
  rewrite (map_nth (fun p => new_Node (fst p) (snd p))).
  rewrite combine_nth by apply length_seq.
  rewrite seq_nth by exact Hi. reflexivity.
Qed.

Lemma push_new_nodes_GetNumNodes mesh locations :
  GetNumNodes (push_new_nodes mesh locations) = (GetNumNodes mesh + length locations)%nat.
Proof.
  rewrite push_new_nodes_mNodes. unfold GetNumNodes. cbn [mNodes set_mNodes].
  rewrite length_app, length_map, length_combine, length_seq. lia.
Qed.

(** What "Copy node attributes" does to a new node. *)
Definition copy_attributes_from (old_node new_node : Node) : Node :=
  fold_left (fun n attribute => AddNodeAttribute attribute n)
            (mNodeAttributes old_node)
            (SetRegion (mRegion old_node) new_node).

(** While the nodes below [num_old] are not written to, the loop of
    [copy_node_attributes] reads what they were when it began. *)
Lemma copy_loop_as_update_nodes (pElement : ImmersedBoundaryElement) (new_nodes_vec : list nat)
    (num_old : nat) (mesh0 : ImmersedBoundaryMesh) (idxs : list nat)
    (mesh : ImmersedBoundaryMesh) :
  (forall i, In i idxs ->
             (elem_GetNodeGlobalIndex pElement i < num_old)%nat /\
             (num_old <= nth i new_nodes_vec 0)%nat) ->
  (forall g, (g < num_old)%nat -> GetNode mesh g = GetNode mesh0 g) ->
  fold_left
    (fun mesh node_idx =>
       let old_node := elem_GetNode mesh pElement node_idx in
       update_node mesh (nth node_idx new_nodes_vec 0%nat)
         (fun new_node =>
            fold_left (fun n attribute => AddNodeAttribute attribute n)
                      (mNodeAttributes old_node)
                      (SetRegion (mRegion old_node) new_node)))
    idxs mesh
  = update_nodes (fun i => nth i new_nodes_vec 0%nat)
      (fun i => copy_attributes_from (elem_GetNode mesh0 pElement i)) idxs mesh.
Proof.
  revert mesh. induction idxs as [| i idxs IH]; intros mesh Hidx Hold; [reflexivity |].
  unfold update_nodes. cbn [fold_left].
  fold (update_nodes (fun i => nth i new_nodes_vec 0%nat)
          (fun i => copy_attributes_from (elem_GetNode mesh0 pElement i)) idxs).
  destruct (Hidx i (or_introl eq_refl)) as [Hlt Hge].
  assert (elem_GetNode mesh pElement i = elem_GetNode mesh0 pElement i) as E.
  { unfold elem_GetNode. apply Hold. exact Hlt. }
  rewrite E. fold (copy_attributes_from (elem_GetNode mesh0 pElement i)).
  apply IH.
  - intros j Hj. apply Hidx. right. exact Hj.
  - intros g Hg. rewrite GetNode_update_node_neq by lia. apply Hold. exact Hg.
Qed.

Lemma AddNodeAttributes_fields (attributes : list R) (n : Node) :
  let n' := fold_left (fun n attribute => AddNodeAttribute attribute n) attributes n in
  mIndex n' = mIndex n /\ mLocation n' = mLocation n /\ mRegion n' = mRegion n /\
  mAppliedForce n' = mAppliedForce n /\
  mNodeAttributes n' = mNodeAttributes n ++ attributes /\
  mElementIndices n' = mElementIndices n.
Proof.
  revert n. induction attributes as [| a attributes IH]; intros n.
  - cbn. rewrite app_nil_r. repeat split.
  - cbn [fold_left]. destruct (IH (AddNodeAttribute a n)) as (E1 & E2 & E3 & E4 & E5 & E6).
    cbv zeta. rewrite E1, E2, E3, E4, E5, E6. cbn. rewrite <- app_assoc. repeat split.
Qed.

Lemma push_new_element_node mesh elem_idx new_nodes_vec (g : nat) :
  NoDup new_nodes_vec ->
  (forall g', In g' new_nodes_vec -> (g' < GetNumNodes mesh)%nat) ->
  GetNode (push_new_element mesh elem_idx new_nodes_vec) g
  = if in_dec Nat.eq_dec g new_nodes_vec
    then AddElement (GetNumElements mesh) (GetNode mesh g)
    else GetNode mesh g.
Proof.
  intros Hnd Hlt. unfold push_new_element.
  set (mesh1 := set_mElements mesh _).
  change (fold_left (fun mesh0 node => update_node mesh0 node (AddElement (GetNumElements mesh)))
            new_nodes_vec mesh1)
    with (update_nodes (fun node => node) (fun _ => AddElement (GetNumElements mesh))
            new_nodes_vec mesh1).
  unfold GetNode at 1, update_element. cbn [mNodes set_mElements].
  match goal with
  | |- nth g (mNodes ?m) null_node = _ =>
      change (nth g (mNodes m) null_node) with (GetNode m g)
  end.
  destruct (in_dec Nat.eq_dec g new_nodes_vec) as [Hin | Hnotin].
  - rewrite (update_nodes_hit (fun node => node) (fun _ => AddElement (GetNumElements mesh))
               new_nodes_vec mesh1 g).
    + reflexivity.
    + rewrite map_id. exact Hnd.
    + exact Hin.
    + apply (Hlt g Hin).
  - rewrite update_nodes_frame by (rewrite map_id; exact Hnotin). reflexivity.
Qed.

(** The nodes after the phases of the second half up to the new
    element, for an element whose nodes are nodes of the mesh. *)
Lemma division_phases_nodes mesh elem_idx locations_a locations_b :
  let pElement := GetElement mesh elem_idx in
  let num_old := GetNumNodes mesh in
  let new_nodes_vec := seq num_old (length locations_b) in
  let mesh1 := move_nodes_to mesh elem_idx locations_a in
  let mesh4 :=
    push_new_element
      (copy_node_attributes (push_new_nodes mesh1 locations_b) elem_idx new_nodes_vec)
      elem_idx new_nodes_vec in
  length locations_b = elem_GetNumNodes pElement ->
  Forall (fun g => (g < num_old)%nat) (elem_mNodes pElement) ->
  (forall g, (g < num_old)%nat ->
             exists location, GetNode mesh4 g = SetPoint location (GetNode mesh g)) /\
  (forall i, (i < elem_GetNumNodes pElement)%nat ->
             GetNode mesh4 (num_old + i)
             = AddElement (GetNumElements mesh)
                 (copy_attributes_from (elem_GetNode mesh1 pElement i)
                    (new_Node (num_old + i) (nth i locations_b zero_vector)))).
Proof.
  intros pElement num_old new_nodes_vec mesh1 mesh4 Hlen Hvalid.
  set (mesh2 := push_new_nodes mesh1 locations_b).
  set (mesh3 := copy_node_attributes mesh2 elem_idx new_nodes_vec).
  destruct (move_nodes_to_relocated mesh elem_idx locations_a) as (_ & L1 & G1).
  fold mesh1 in L1, G1.
  destruct (nodes_only_outlines _ _ (move_nodes_to_nodes_only mesh elem_idx locations_a))
    as (_ & N1 & E1). fold mesh1 in N1, E1.
  destruct (push_new_nodes_view mesh1 locations_b) as [E2 _]. fold mesh2 in E2.
  assert (GetElement mesh2 elem_idx = pElement) as P2.
  { unfold GetElement. rewrite E2. apply E1. }
  assert (GetNumNodes mesh2 = (num_old + length locations_b)%nat) as L2.
  { unfold mesh2. rewrite push_new_nodes_GetNumNodes, L1. reflexivity. }
  assert (forall i, (i < elem_GetNumNodes pElement)%nat ->
                    (elem_GetNodeGlobalIndex pElement i < num_old)%nat) as Hglobal.
  { intros i Hi. unfold elem_GetNodeGlobalIndex.
    apply (proj1 (Forall_forall _ _) Hvalid). apply nth_In. exact Hi. }
  assert (mesh3
          = update_nodes (fun i => nth i new_nodes_vec 0%nat)
              (fun i => copy_attributes_from (elem_GetNode mesh2 pElement i))
              (seq 0 (elem_GetNumNodes pElement)) mesh2) as E3.
  { unfold mesh3, copy_node_attributes. rewrite P2.
    apply (copy_loop_as_update_nodes pElement new_nodes_vec num_old mesh2).
    - intros i Hi. apply in_seq in Hi. split; [apply Hglobal; lia |].
      unfold new_nodes_vec. rewrite seq_nth by lia. lia.
    - reflexivity. }
  assert (map (fun i => nth i new_nodes_vec 0%nat) (seq 0 (elem_GetNumNodes pElement))
          = new_nodes_vec) as Hmap.
  { pose proof (map_nth_seq new_nodes_vec 0%nat) as H.
    replace (length new_nodes_vec) with (elem_GetNumNodes pElement) in H
      by (unfold new_nodes_vec; rewrite length_seq; symmetry; exact Hlen).
    exact H. }
  assert (GetNumNodes mesh3 = GetNumNodes mesh2) as L3.
  { rewrite E3. apply update_nodes_elements. }
  assert (GetNumElements mesh3 = GetNumElements mesh) as N3.
  { rewrite E3. unfold GetNumElements.
    rewrite (proj1 (update_nodes_elements _ _ _ _)), E2. exact N1. }
  assert (forall g', In g' new_nodes_vec -> (g' < GetNumNodes mesh3)%nat) as Hnew.
  { intros g' Hg'. apply in_seq in Hg'. rewrite L3, L2. lia. }
  split.
  - intros g Hg. unfold mesh4. fold mesh2. fold mesh3.
    rewrite push_new_element_node by (try apply seq_NoDup; exact Hnew).
    destruct (in_dec Nat.eq_dec g new_nodes_vec) as [Hin | _];
      [apply in_seq in Hin; lia |].
    rewrite E3, update_nodes_frame
      by (rewrite Hmap; intros Hin; apply in_seq in Hin; lia).
    unfold mesh2. rewrite push_new_nodes_old_node by (rewrite L1; exact Hg). apply G1.
  - intros i Hi. unfold mesh4. fold mesh2. fold mesh3.
    rewrite push_new_element_node by (try apply seq_NoDup; exact Hnew).
    destruct (in_dec Nat.eq_dec (num_old + i)%nat new_nodes_vec) as [_ | Hnotin];
      [| exfalso; apply Hnotin; apply in_seq; lia].
    rewrite N3. f_equal.
    assert (nth i new_nodes_vec 0%nat = (num_old + i)%nat) as Hnth
      by (unfold new_nodes_vec; apply seq_nth; lia).
    rewrite <- Hnth at 1. rewrite E3.
    rewrite (update_nodes_hit (fun i => nth i new_nodes_vec 0%nat)
               (fun i => copy_attributes_from (elem_GetNode mesh2 pElement i))).
    + rewrite Hnth.
      pose proof (push_new_nodes_new_node mesh1 locations_b i) as Hfresh.
      rewrite L1 in Hfresh. fold mesh2 in Hfresh. fold num_old in Hfresh.
      rewrite Hfresh by lia.
      f_equal. unfold elem_GetNode, mesh2.
      apply push_new_nodes_old_node. rewrite L1. apply Hglobal. exact Hi.
    + rewrite Hmap. apply seq_NoDup.
    + apply in_seq. lia.
    + rewrite Hnth, L2. lia.
Qed.

Lemma update_fluid_sources_returned mesh elem_idx new_elem_idx mesh' result :
  update_fluid_sources mesh elem_idx new_elem_idx = (mesh', Returned result) ->
  exists source,
    mpFluidSource (GetElement mesh elem_idx) = Some source /\
    result = new_elem_idx /\
    mesh'
    = update_element
        (set_mElementFluidSources mesh
           (list_update
              (set_source_location
                 (GetCentroidOfElement mesh (elem_mIndex (GetElement mesh elem_idx))))
              source (mElementFluidSources mesh)
            ++ [{| source_mIndex := new_elem_idx;
                   source_mLocation :=
                     GetCentroidOfElement
                       (set_mElementFluidSources mesh
                          (list_update
                             (set_source_location
                                (GetCentroidOfElement mesh
                                   (elem_mIndex (GetElement mesh elem_idx))))
                             source (mElementFluidSources mesh)))
                       new_elem_idx;
                   source_mStrength := 0.0;
                   source_mAssociatedElementIndex := Some new_elem_idx |}]))
        new_elem_idx
        (SetFluidSource (length (mElementFluidSources mesh))).
Proof.
  unfold update_fluid_sources.
  destruct (mpFluidSource (GetElement mesh elem_idx)) as [source |]; [| discriminate].
  intros H. inversion H; subst. exists source.
  cbn [mElementFluidSources set_mElementFluidSources]. rewrite list_update_length.
  repeat split.
Qed.

(** X12.  After a division that returns, of an element whose nodes are
    nodes of the mesh: a node that was there before differs from what it
    was in its location at most; the new nodes follow the old ones, and
    the i-th of them has the region and the node attributes of the i-th
    node of the divided element, no applied force, and the new element
    as its one containing element. *)
Theorem DivideElement_daughter_nodes (mesh mesh' : ImmersedBoundaryMesh) (elem_idx : nat)
    (nodeAIndex nodeBIndex : nat) (centroid axisOfDivision : c_vector2) (result : nat) :
  DivideElement mesh elem_idx nodeAIndex nodeBIndex centroid axisOfDivision
    = (mesh', Returned result) ->
  Forall (fun g => (g < GetNumNodes mesh)%nat) (elem_mNodes (GetElement mesh elem_idx)) ->
  (forall g, (g < GetNumNodes mesh)%nat ->
             exists location, GetNode mesh' g = SetPoint location (GetNode mesh g)) /\
  (forall i, (i < elem_GetNumNodes (GetElement mesh elem_idx))%nat ->
             let parent := elem_GetNode mesh (GetElement mesh elem_idx) i in
             let new_node := GetNode mesh' (GetNumNodes mesh + i) in
             mIndex new_node = (GetNumNodes mesh + i)%nat /\
             mRegion new_node = mRegion parent /\
             mNodeAttributes new_node = mNodeAttributes parent /\
             mAppliedForce new_node = zero_vector /\
             mElementIndices new_node = [result]).
Proof.
  intros H Hvalid.
  destruct (DivideElement_returned_inv _ _ _ _ _ _ _ _ H)
    as (mesh0 & start_a & end_a & start_b & end_b & R & H0).
  destruct (relocated_elements _ _ R) as (E0 & _).
  destruct R as (_ & L0 & G0).
  destruct (divide_at_frontier_returned_inv _ _ _ _ _ _ _ _ H0)
    as (locations_a & locations_b & Hlen & H1).
  destruct (update_fluid_sources_returned _ _ _ _ _ H1) as (source & _ & -> & ->).
  assert (GetElement mesh0 elem_idx = GetElement mesh elem_idx) as P0
    by (unfold GetElement; rewrite E0; reflexivity).
  assert (GetNumElements mesh0 = GetNumElements mesh) as N0
    by (unfold GetNumElements; rewrite E0; reflexivity).
  destruct (division_phases_nodes mesh0 elem_idx locations_a locations_b) as [Hold Hnew].
  { exact Hlen. }
  { rewrite P0, L0. exact Hvalid. }
  rewrite P0, L0, N0 in *.
  split.
  - intros g Hg. destruct (Hold g Hg) as [location Eg]. destruct (G0 g) as [location0 Eg0].
    exists location. unfold GetNode, update_element in *.
    cbn [mNodes set_mElements set_mElementFluidSources] in *.
    rewrite Eg, Eg0. reflexivity.
  - intros i Hi parent new_node. unfold new_node.
    unfold GetNode at 1 2 3 4 5, update_element.
    cbn [mNodes set_mElements set_mElementFluidSources].
    match goal with
    | |- context [nth _ (mNodes ?m) null_node] =>
        change (nth (GetNumNodes mesh + i) (mNodes m) null_node)
          with (GetNode m (GetNumNodes mesh + i))
    end.
    rewrite (Hnew i Hi). unfold copy_attributes_from.
    set (old_node := elem_GetNode (move_nodes_to mesh0 elem_idx locations_a)
                       (GetElement mesh elem_idx) i).
    assert (mRegion old_node = mRegion parent /\
            mNodeAttributes old_node = mNodeAttributes parent) as [Hr Ha].
    { unfold old_node, parent, elem_GetNode.
      destruct (move_nodes_to_relocated mesh0 elem_idx locations_a) as (_ & _ & G1).
      destruct (G1 (elem_GetNodeGlobalIndex (GetElement mesh elem_idx) i)) as [l1 ->].
      destruct (G0 (elem_GetNodeGlobalIndex (GetElement mesh elem_idx) i)) as [l0 ->].
      split; reflexivity. }
    destruct (AddNodeAttributes_fields (mNodeAttributes old_node)
                (SetRegion (mRegion old_node)
                   (new_Node (GetNumNodes mesh + i) (nth i locations_b zero_vector))))
      as (F1 & F2 & F3 & F4 & F5 & F6).
    cbn [AddElement mIndex mRegion mNodeAttributes mAppliedForce mElementIndices].
    rewrite F1, F3, F4, F5, F6. cbn. rewrite Hr, Ha. repeat split.
Qed.

Lemma DivideElement_daughter_nodes_witness :
  exists mesh' result,
    DivideElement hexagon_mesh 0 0 3 (GetCentroidOfElement hexagon_mesh 0) (0, 1)
    = (mesh', Returned result) /\
    Forall (fun g => (g < GetNumNodes hexagon_mesh)%nat)
           (elem_mNodes (GetElement hexagon_mesh 0)) /\
    (forall g, (g < GetNumNodes hexagon_mesh)%nat ->
               exists location, GetNode mesh' g = SetPoint location (GetNode hexagon_mesh g)) /\
    (forall i, (i < elem_GetNumNodes (GetElement hexagon_mesh 0))%nat ->
               let parent := elem_GetNode hexagon_mesh (GetElement hexagon_mesh 0) i in
               let new_node := GetNode mesh' (GetNumNodes hexagon_mesh + i) in
               mIndex new_node = (GetNumNodes hexagon_mesh + i)%nat /\
               mRegion new_node = mRegion parent /\
               mNodeAttributes new_node = mNodeAttributes parent /\
               mAppliedForce new_node = zero_vector /\
               mElementIndices new_node = [result]).
Proof.
  destruct hexagon_division_returns as (mesh' & result & H).
  assert (Forall (fun g => (g < GetNumNodes hexagon_mesh)%nat)
                 (elem_mNodes (GetElement hexagon_mesh 0))) as Hvalid
    by (cbn; repeat constructor; lia).
  exists mesh', result. split; [exact H |]. split; [exact Hvalid |].
  apply (DivideElement_daughter_nodes hexagon_mesh mesh' 0 0 3
           (GetCentroidOfElement hexagon_mesh 0) (0, 1) result H Hvalid).
Defined.

(** *** The new element and the fluid sources *)

(** The members of the mesh that are neither nodes nor elements. *)
Definition mesh_settings (mesh : ImmersedBoundaryMesh)
  : option nat * option R * R * list FluidSource * list FluidSource :=
  (mMembraneIndex mesh, mElementDivisionSpacing mesh, mCharacteristicNodeSpacing mesh,
   mElementFluidSources mesh, mBalancingFluidSources mesh).

Lemma mesh_settings_fold {A : Type} (step : ImmersedBoundaryMesh -> A -> ImmersedBoundaryMesh)
    (l : list A) mesh :
  (forall m a, mesh_settings (step m a) = mesh_settings m) ->
  mesh_settings (fold_left step l mesh) = mesh_settings mesh.
Proof.
  intros H. revert mesh. induction l as [| a l IH]; intros mesh; [reflexivity |].
  cbn [fold_left]. rewrite IH. apply H.
Qed.

Lemma division_phases_settings mesh elem_idx locations_a locations_b new_nodes_vec :
  mesh_settings
    (push_new_element
       (copy_node_attributes
          (push_new_nodes (move_nodes_to mesh elem_idx locations_a) locations_b)
          elem_idx new_nodes_vec)
       elem_idx new_nodes_vec)
  = mesh_settings mesh.
Proof.
  unfold push_new_element, update_element.
  match goal with
  | |- mesh_settings (set_mElements ?m _) = _ => change (mesh_settings m = mesh_settings mesh)
  end.
  rewrite mesh_settings_fold by reflexivity.
  match goal with
  | |- mesh_settings (set_mElements ?m _) = _ => change (mesh_settings m = mesh_settings mesh)
  end.
  unfold copy_node_attributes. rewrite mesh_settings_fold by reflexivity.
  rewrite push_new_nodes_mNodes.
  match goal with
  | |- mesh_settings (set_mNodes ?m _) = _ => change (mesh_settings m = mesh_settings mesh)
  end.
  unfold move_nodes_to. apply mesh_settings_fold. reflexivity.
Qed.

Lemma push_new_element_new_element mesh elem_idx new_nodes_vec :
  GetElement (push_new_element mesh elem_idx new_nodes_vec) (GetNumElements mesh)
  = set_attributes_and_corners
      (mElementAttributes (GetElement mesh elem_idx))
      (mCornerNodes (GetElement mesh elem_idx))
      (new_ImmersedBoundaryElement (GetNumElements mesh) new_nodes_vec).
Proof.
  unfold push_new_element.
  set (mesh1 := set_mElements mesh
                  (mElements mesh
                   ++ [new_ImmersedBoundaryElement (GetNumElements mesh) new_nodes_vec])).
  set (mesh2 := fold_left
                  (fun mesh0 node => update_node mesh0 node (AddElement (GetNumElements mesh)))
                  new_nodes_vec mesh1).
  assert (nodes_only mesh1 mesh2) as [E _].
  { apply nodes_only_fold. intros m a. apply nodes_only_update_node. reflexivity. }
  unfold GetElement at 1, update_element. cbn [mElements set_mElements].
  rewrite E. unfold mesh1. cbn [mElements set_mElements].
  rewrite nth_list_update_eq by (rewrite length_app; unfold GetNumElements; cbn; lia).
  rewrite app_nth2 by (unfold GetNumElements; lia).
  unfold GetNumElements. rewrite Nat.sub_diag. reflexivity.
Qed.

(** The centroid of an element reads the nodes of the mesh, which
    element is the membrane, and the nodes of the element. *)
Lemma GetCentroidOfElement_ext mesh mesh' (index : nat) :
  mNodes mesh' = mNodes mesh ->
  mMembraneIndex mesh' = mMembraneIndex mesh ->
  elem_mNodes (GetElement mesh' index) = elem_mNodes (GetElement mesh index) ->
  GetCentroidOfElement mesh' index = GetCentroidOfElement mesh index.
Proof.
  intros Hn Hm He.
  unfold GetCentroidOfElement, is_membrane_index, elem_GetNumNodes, elem_GetNodeLocation,
    elem_GetNode, elem_GetNodeGlobalIndex, GetNode.
  rewrite Hn, Hm, He. reflexivity.
Qed.

Lemma elem_mNodes_update_element mesh (index index' : nat)
    (f : ImmersedBoundaryElement -> ImmersedBoundaryElement) :
  (forall e, elem_mNodes (f e) = elem_mNodes e) ->
  elem_mNodes (GetElement (update_element mesh index f) index')
  = elem_mNodes (GetElement mesh index').
Proof.
  intros Hf. unfold GetElement, update_element. cbn [mElements set_mElements].
  destruct (Nat.eq_dec index index') as [<- | Hne].
  - destruct (Nat.lt_ge_cases index (length (mElements mesh))) as [Hlt | Hge].
    + rewrite nth_list_update_eq by exact Hlt. apply Hf.
    + rewrite nth_list_update_default by exact Hge.
      rewrite nth_overflow by exact Hge. reflexivity.
  - rewrite nth_list_update_neq by exact Hne. reflexivity.
Qed.

Lemma division_phases_GetNumElements mesh elem_idx locations_a locations_b new_nodes_vec :
  GetNumElements
    (copy_node_attributes
       (push_new_nodes (move_nodes_to mesh elem_idx locations_a) locations_b)
       elem_idx new_nodes_vec)
  = GetNumElements mesh /\
  GetElement
    (copy_node_attributes
       (push_new_nodes (move_nodes_to mesh elem_idx locations_a) locations_b)
       elem_idx new_nodes_vec) elem_idx
  = GetElement mesh elem_idx.
Proof.
  set (mesh1 := move_nodes_to mesh elem_idx locations_a).
  set (mesh2 := push_new_nodes mesh1 locations_b).
  destruct (nodes_only_outlines _ _ (move_nodes_to_nodes_only mesh elem_idx locations_a))
    as (_ & L1 & G1). fold mesh1 in L1, G1.
  destruct (push_new_nodes_view mesh1 locations_b) as [E2 _]. fold mesh2 in E2.
  destruct (nodes_only_outlines _ _ (copy_node_attributes_nodes_only mesh2 elem_idx new_nodes_vec))
    as (_ & L3 & G3).
  split.
  - rewrite L3. unfold GetNumElements. rewrite E2. exact L1.
  - rewrite G3. unfold GetElement. rewrite E2. apply G1.
Qed.

(** X13.  After a division that returns, of an element of the mesh: the
    divided element had a fluid source and keeps it; there is one fluid
    source more, the last one, of strength zero, which belongs to the new
    element and lies at the centroid of the new element; the source of
    the divided element has moved to the new centroid of that element,
    the other sources are as before; and the new element has the element
    attributes and the corner nodes of the divided element. *)
Theorem DivideElement_fluid_sources (mesh mesh' : ImmersedBoundaryMesh) (elem_idx : nat)
    (nodeAIndex nodeBIndex : nat) (centroid axisOfDivision : c_vector2) (result : nat)
    (default : FluidSource) :
  DivideElement mesh elem_idx nodeAIndex nodeBIndex centroid axisOfDivision
    = (mesh', Returned result) ->
  (elem_idx < GetNumElements mesh)%nat ->
  let pElement := GetElement mesh elem_idx in
  let num_sources := length (mElementFluidSources mesh) in
  exists source,
    mpFluidSource pElement = Some source /\
    GetElement mesh' elem_idx = pElement /\
    length (mElementFluidSources mesh') = S num_sources /\
    mpFluidSource (GetElement mesh' result) = Some num_sources /\
    nth num_sources (mElementFluidSources mesh') default
    = {| source_mIndex := result;
         source_mLocation := GetCentroidOfElement mesh' result;
         source_mStrength := 0.0;
         source_mAssociatedElementIndex := Some result |} /\
    ((source < num_sources)%nat ->
     nth source (mElementFluidSources mesh') default
     = set_source_location (GetCentroidOfElement mesh' (elem_mIndex pElement))
         (nth source (mElementFluidSources mesh) default)) /\
    (forall k, (k < num_sources)%nat -> k <> source ->
               nth k (mElementFluidSources mesh') default
               = nth k (mElementFluidSources mesh) default) /\
    mBalancingFluidSources mesh' = mBalancingFluidSources mesh /\
    mElementAttributes (GetElement mesh' result) = mElementAttributes pElement /\
    mCornerNodes (GetElement mesh' result) = mCornerNodes pElement.
Proof.
  intros H He pElement num_sources.
  destruct (DivideElement_returned_inv _ _ _ _ _ _ _ _ H)
    as (mesh0 & start_a & end_a & start_b & end_b & R & H0).
  destruct (relocated_elements _ _ R) as (E0 & S0 & M0).
  assert (mBalancingFluidSources mesh0 = mBalancingFluidSources mesh) as B0
    by (destruct R as (-> & _); reflexivity).
  destruct (divide_at_frontier_returned_inv _ _ _ _ _ _ _ _ H0)
    as (locations_a & locations_b & Hlen & H1).
  assert (GetElement mesh0 elem_idx = pElement) as P0
    by (unfold GetElement; rewrite E0; reflexivity).
  assert (GetNumElements mesh0 = GetNumElements mesh) as N0
    by (unfold GetNumElements; rewrite E0; reflexivity).
  set (new_nodes_vec := seq (GetNumNodes mesh0) (length locations_b)) in *.
  set (mesh3 := copy_node_attributes
                  (push_new_nodes (move_nodes_to mesh0 elem_idx locations_a) locations_b)
                  elem_idx new_nodes_vec) in *.
  set (mesh4 := push_new_element mesh3 elem_idx new_nodes_vec) in *.
  destruct (division_phases_GetNumElements mesh0 elem_idx locations_a locations_b new_nodes_vec)
    as [N3 P3]. fold mesh3 in N3, P3. rewrite N0 in N3. rewrite P0 in P3.
  assert (GetElement mesh4 elem_idx = pElement) as P4.
  { unfold mesh4, mesh3. rewrite division_phases_old_element by (rewrite N0; exact He).
    exact P0. }
  pose proof (division_phases_settings mesh0 elem_idx locations_a locations_b new_nodes_vec)
    as Hsettings.
  fold mesh3 in Hsettings. fold mesh4 in Hsettings.
  assert (mElementFluidSources mesh4 = mElementFluidSources mesh) as S4
    by (rewrite <- S0; exact (f_equal (fun t => snd (fst t)) Hsettings)).
  assert (mBalancingFluidSources mesh4 = mBalancingFluidSources mesh) as B4
    by (rewrite <- B0; exact (f_equal snd Hsettings)).
  assert (GetElement mesh4 (GetNumElements mesh)
          = set_attributes_and_corners (mElementAttributes pElement) (mCornerNodes pElement)
              (new_ImmersedBoundaryElement (GetNumElements mesh) new_nodes_vec)) as Pnew.
  { unfold mesh4. rewrite <- N3. rewrite push_new_element_new_element, P3. reflexivity. }
  assert (GetNumElements mesh4 = S (GetNumElements mesh)) as N4.
  { unfold mesh4, push_new_element, GetNumElements, update_element.
    cbn [mElements set_mElements]. rewrite list_update_length.
    match goal with
    | |- length (mElements (fold_left ?step ?l ?m)) = _ =>
        assert (nodes_only m (fold_left step l m)) as [E _]
          by (apply nodes_only_fold; intros m' a; apply nodes_only_update_node; reflexivity)
    end.
    rewrite E. cbn [mElements set_mElements]. rewrite length_app. cbn [length].
    fold (GetNumElements mesh3). rewrite N3. unfold GetNumElements. lia. }
  destruct (update_fluid_sources_returned _ _ _ _ _ H1) as (source & Hsource & -> & ->).
  rewrite P4 in Hsource. rewrite ?N0, ?P4, ?S4. fold num_sources.
  exists source.
  set (old_centroid := GetCentroidOfElement mesh4 (elem_mIndex pElement)).
  set (moved := list_update (set_source_location old_centroid) source
                  (mElementFluidSources mesh)).
  set (new_centroid := GetCentroidOfElement (set_mElementFluidSources mesh4 moved)
                         (GetNumElements mesh)).
  set (new_source := {| source_mIndex := GetNumElements mesh;
                        source_mLocation := new_centroid;
                        source_mStrength := 0.0;
                        source_mAssociatedElementIndex := Some (GetNumElements mesh) |}).
  set (mesh' := update_element (set_mElementFluidSources mesh4 (moved ++ [new_source]))
                  (GetNumElements mesh) (SetFluidSource num_sources)).
  assert (length moved = num_sources) as Lmoved by apply list_update_length.
  assert (GetElement mesh' (GetNumElements mesh)
          = SetFluidSource num_sources (GetElement mesh4 (GetNumElements mesh))) as Pnew'.
  { unfold mesh'. rewrite GetElement_update_element_eq; [reflexivity |].
    change (GetNumElements (set_mElementFluidSources mesh4 (moved ++ [new_source])))
      with (GetNumElements mesh4). lia. }
  assert (forall index, GetCentroidOfElement mesh' index = GetCentroidOfElement mesh4 index)
    as Hcentroid.
  { intros index. apply GetCentroidOfElement_ext; [reflexivity | reflexivity |].
    unfold mesh'. rewrite elem_mNodes_update_element by reflexivity. reflexivity. }
  split; [exact Hsource |].
  split.
  { rewrite <- P4. unfold mesh', GetElement, update_element.
    cbn [mElements set_mElements set_mElementFluidSources].
    apply nth_list_update_neq. lia. }
  split.
  { unfold mesh'. cbn [mElementFluidSources update_element set_mElements
                       set_mElementFluidSources].
    rewrite length_app, Lmoved. cbn [length]. lia. }
  split; [rewrite Pnew'; reflexivity |].
  split.
  { unfold mesh' at 1. cbn [mElementFluidSources update_element set_mElements
                            set_mElementFluidSources].
    rewrite app_nth2 by lia. rewrite Lmoved, Nat.sub_diag. cbn [nth].
    unfold new_source. f_equal. rewrite Hcentroid. unfold new_centroid.
    apply GetCentroidOfElement_ext; reflexivity. }
  split.
  { intros Hlt. unfold mesh' at 1. cbn [mElementFluidSources update_element set_mElements
                                        set_mElementFluidSources].
    rewrite app_nth1 by lia. unfold moved. rewrite nth_list_update_eq by exact Hlt.
    rewrite Hcentroid. reflexivity. }
  split.
  { intros k Hk Hne. unfold mesh' at 1. cbn [mElementFluidSources update_element set_mElements
                                             set_mElementFluidSources].
    rewrite app_nth1 by lia. unfold moved. apply nth_list_update_neq. lia. }
  split; [exact B4 |].
  rewrite Pnew', Pnew. split; reflexivity.
Qed.

Lemma DivideElement_fluid_sources_witness :
  exists mesh' result,
    DivideElement hexagon_mesh 0 0 3 (GetCentroidOfElement hexagon_mesh 0) (0, 1)
    = (mesh', Returned result) /\
    (0 < GetNumElements hexagon_mesh)%nat /\
    let default := {| source_mIndex := 0; source_mLocation := zero_vector;
                      source_mStrength := 0; source_mAssociatedElementIndex := None |} in
    let pElement := GetElement hexagon_mesh 0 in
    let num_sources := length (mElementFluidSources hexagon_mesh) in
    exists source,
      mpFluidSource pElement = Some source /\
      GetElement mesh' 0 = pElement /\
      length (mElementFluidSources mesh') = S num_sources /\
      mpFluidSource (GetElement mesh' result) = Some num_sources /\
      nth num_sources (mElementFluidSources mesh') default
      = {| source_mIndex := result;
           source_mLocation := GetCentroidOfElement mesh' result;
           source_mStrength := 0.0;
           source_mAssociatedElementIndex := Some result |} /\
      ((source < num_sources)%nat ->
       nth source (mElementFluidSources mesh') default
       = set_source_location (GetCentroidOfElement mesh' (elem_mIndex pElement))
           (nth source (mElementFluidSources hexagon_mesh) default)) /\
      (forall k, (k < num_sources)%nat -> k <> source ->
                 nth k (mElementFluidSources mesh') default
                 = nth k (mElementFluidSources hexagon_mesh) default) /\
      mBalancingFluidSources mesh' = mBalancingFluidSources hexagon_mesh /\
      mElementAttributes (GetElement mesh' result) = mElementAttributes pElement /\
      mCornerNodes (GetElement mesh' result) = mCornerNodes pElement.
Proof.
  destruct hexagon_division_returns as (mesh' & result & H).
  assert (0 < GetNumElements hexagon_mesh)%nat as He by (cbn; lia).
  exists mesh', result. split; [exact H |]. split; [exact He |].
  intros default.
  apply (DivideElement_fluid_sources hexagon_mesh mesh' 0 0 3
           (GetCentroidOfElement hexagon_mesh 0) (0, 1) result default H He).
Defined.

(** ** The walks to the frontier nodes *)

Lemma walk_nodes_found_satisfied next satisfied (last first fuel i : nat) :
  walk_nodes next satisfied last first fuel = FoundAt i -> satisfied i = true.
Proof.
  revert first. induction fuel as [| fuel IH]; intros first H; [discriminate |].
  simpl in H. destruct (first =? last)%nat; [discriminate |].
  destruct (satisfied first) eqn:E.
  - inversion H; subst. exact E.
  - apply (IH (next first)). exact H.
Qed.

(** X14.  The node a walk of [DivideElement] finds was at least
    [half_spacing] away from the line through the centroid along the
    axis of division, and the walk moves it, and no other node, straight
    towards that line: it ends at distance [half_spacing] from the line,
    on the side it was on, and as far along the line as it was.  (For a
    unit normal [unit_perp], and a node that is, before and after, within
    half the domain of the centroid in both directions.) *)
Theorem find_frontier_snaps_to_half_spacing (mesh mesh' : ImmersedBoundaryMesh)
    (elem_idx : nat) (centroid unit_perp : c_vector2) (half_spacing : R)
    (next : nat -> nat) (first last i : nat) :
  find_frontier mesh elem_idx centroid unit_perp half_spacing next first last
    = (mesh', FoundAt i) ->
  inner_prod unit_perp unit_perp = 1 ->
  let global := elem_GetNodeGlobalIndex (GetElement mesh elem_idx) i in
  let old_location := mLocation (GetNode mesh global) in
  let new_location := mLocation (GetNode mesh' global) in
  (global < GetNumNodes mesh)%nat ->
  Rabs (fst old_location - fst centroid) <= 0.5 ->
  Rabs (snd old_location - snd centroid) <= 0.5 ->
  Rabs (fst new_location - fst centroid) <= 0.5 ->
  Rabs (snd new_location - snd centroid) <= 0.5 ->
  let perpendicular_dist :=
    inner_prod (GetVectorFromAtoB centroid old_location) unit_perp in
  half_spacing <= Rabs perpendicular_dist /\
  inner_prod (GetVectorFromAtoB centroid new_location) unit_perp
  = (if Rltb perpendicular_dist 0 then - half_spacing else half_spacing) /\
  (forall axis, inner_prod axis unit_perp = 0 ->
                inner_prod (GetVectorFromAtoB centroid new_location) axis
                = inner_prod (GetVectorFromAtoB centroid old_location) axis) /\
  (forall g, g <> global -> GetNode mesh' g = GetNode mesh g).
Proof.
  intros H Hunit global old_location new_location Hglobal Ho0 Ho1 Hn0 Hn1 perpendicular_dist.
  unfold find_frontier in H.
  destruct (walk_nodes _ _ _ _ _) as [j | |] eqn:W; try discriminate.
  apply walk_nodes_found_satisfied in W.
  injection H as Hmesh Hj. subst j.
  unfold elem_GetNode in W, Hmesh. fold global in W, Hmesh.
  fold old_location in W, Hmesh. fold perpendicular_dist in W, Hmesh.
  apply Rleb_spec in W. unfold fabs in W.
  assert (new_location
          = vsub old_location
              (vscale unit_perp
                 (copysign (fabs perpendicular_dist - half_spacing) perpendicular_dist)))
    as Enew.
  { unfold new_location. rewrite <- Hmesh.
    rewrite GetNode_update_node_eq by exact Hglobal. reflexivity. }
  split; [exact W |].
  assert (copysign (fabs perpendicular_dist - half_spacing) perpendicular_dist
          = perpendicular_dist
            - (if Rltb perpendicular_dist 0 then - half_spacing else half_spacing)) as Ec.
  { unfold copysign, fabs. rewrite (Rabs_right (Rabs perpendicular_dist - half_spacing)) by lra.
    unfold Rltb. destruct (Rlt_dec perpendicular_dist 0).
    - rewrite Rabs_left by assumption. lra.
    - rewrite Rabs_right by lra. lra. }
  assert (perpendicular_dist
          = (fst old_location - fst centroid) * fst unit_perp
            + (snd old_location - snd centroid) * snd unit_perp) as Epd.
  { unfold perpendicular_dist. rewrite GetVectorFromAtoB_near by assumption. reflexivity. }
  rewrite (GetVectorFromAtoB_near centroid new_location) by assumption.
  rewrite (GetVectorFromAtoB_near centroid old_location) by assumption.
  rewrite Enew, Ec.
  set (side := if Rltb perpendicular_dist 0 then - half_spacing else half_spacing) in *.
  unfold inner_prod in Hunit.
  split; [| split].
  - unfold inner_prod, vsub, vscale. cbn [fst snd]. clearbody side.
    replace ((fst old_location - fst unit_perp * (perpendicular_dist - side) - fst centroid)
             * fst unit_perp
             + (snd old_location - snd unit_perp * (perpendicular_dist - side) - snd centroid)
               * snd unit_perp)
      with ((fst old_location - fst centroid) * fst unit_perp
            + (snd old_location - snd centroid) * snd unit_perp
            - (perpendicular_dist - side)
              * (fst unit_perp * fst unit_perp + snd unit_perp * snd unit_perp)) by ring.
    rewrite Hunit, <- Epd. ring.
  - intros axis Haxis. unfold inner_prod in Haxis.
    unfold inner_prod, vsub, vscale. cbn [fst snd].
    replace ((fst old_location - fst unit_perp * (perpendicular_dist - side) - fst centroid)
             * fst axis
             + (snd old_location - snd unit_perp * (perpendicular_dist - side) - snd centroid)
               * snd axis)
      with ((fst old_location - fst centroid) * fst axis
            + (snd old_location - snd centroid) * snd axis
            - (perpendicular_dist - side)
              * (fst axis * fst unit_perp + snd axis * snd unit_perp)) by ring.
    rewrite Haxis. ring.
  - intros g Hg. rewrite <- Hmesh. apply GetNode_update_node_neq. lia.
Qed.

Lemma find_frontier_snaps_to_half_spacing_witness :
  let forwards := fun i => ((i + 1) mod 6)%nat in
  let mesh' := update_node hexagon_mesh 1 (SetPoint (0.55, 0.4)) in
  let old_location := mLocation (GetNode hexagon_mesh 1) in
  let new_location := mLocation (GetNode mesh' 1) in
  let perpendicular_dist :=
    inner_prod (GetVectorFromAtoB (0.5, 0.5) old_location) (-1, 0) in
  find_frontier hexagon_mesh 0 (0.5, 0.5) (-1, 0) 0.05 forwards 1 3 = (mesh', FoundAt 1%nat) /\
  inner_prod (-1, 0) (-1, 0) = 1 /\
  (1 < GetNumNodes hexagon_mesh)%nat /\
  Rabs (fst old_location - 0.5) <= 0.5 /\ Rabs (snd old_location - 0.5) <= 0.5 /\
  Rabs (fst new_location - 0.5) <= 0.5 /\ Rabs (snd new_location - 0.5) <= 0.5 /\
  0.05 <= Rabs perpendicular_dist /\
  inner_prod (GetVectorFromAtoB (0.5, 0.5) new_location) (-1, 0)
  = (if Rltb perpendicular_dist 0 then - (0.05) else 0.05) /\
  (forall axis, inner_prod axis (-1, 0) = 0 ->
                inner_prod (GetVectorFromAtoB (0.5, 0.5) new_location) axis
                = inner_prod (GetVectorFromAtoB (0.5, 0.5) old_location) axis) /\
  (forall g, g <> 1%nat -> GetNode mesh' g = GetNode hexagon_mesh g).
Proof.
  intros forwards mesh' old_location new_location perpendicular_dist.
  assert (find_frontier hexagon_mesh 0 (0.5, 0.5) (-1, 0) 0.05 forwards 1 3
          = (mesh', FoundAt 1%nat)) as H.
  { apply (find_frontier_snaps _ _ _ _ _ _ _ _ 1 (0.6, 0.4) (-0.1) (0.55, 0.4));
      [lia | reflexivity | reflexivity | closed_vector | closed_vector | closed_vector]. }
  assert (inner_prod (-1, 0) (-1, 0) = 1) as Hunit by (unfold inner_prod; cbn [fst snd]; lra).
  assert (1 < GetNumNodes hexagon_mesh)%nat as Hglobal by (cbn; lia).
  assert (Rabs (fst old_location - 0.5) <= 0.5) as Ho0 by (cbn; apply Rabs_le; lra).
  assert (Rabs (snd old_location - 0.5) <= 0.5) as Ho1 by (cbn; apply Rabs_le; lra).
  assert (Rabs (fst new_location - 0.5) <= 0.5) as Hn0 by (cbn; apply Rabs_le; lra).
  assert (Rabs (snd new_location - 0.5) <= 0.5) as Hn1 by (cbn; apply Rabs_le; lra).
  split; [exact H |]. split; [exact Hunit |]. split; [exact Hglobal |].
  split; [exact Ho0 |]. split; [exact Ho1 |]. split; [exact Hn0 |]. split; [exact Hn1 |].
  exact (find_frontier_snaps_to_half_spacing hexagon_mesh mesh' 0 (0.5, 0.5) (-1, 0) 0.05
           forwards 1 3 1 H Hunit Hglobal Ho0 Ho1 Hn0 Hn1).
Defined.

(** ** Resampling a stencil *)

Lemma cumulative_after_step previous back rest (j : nat) :
  (j < length rest)%nat ->
  nth j (cumulative_after previous back rest) 0
  = nth j (back :: cumulative_after previous back rest) 0
    + norm_2 (GetVectorFromAtoB (nth j (previous :: rest) zero_vector)
                                (nth j rest zero_vector)).
Proof.
  revert previous back j. induction rest as [| location rest IH]; intros previous back j Hj.
  - cbn in Hj. lia.
  - destruct j as [| j]; [reflexivity |].
    cbn [cumulative_after]. cbn [nth]. cbn [length] in Hj.
    rewrite (IH location _ j) by lia. reflexivity.
Qed.

Lemma cumulative_distances_step (stencil : list c_vector2) (j : nat) :
  (j + 1 < length stencil)%nat ->
  nth (j + 1) (cumulative_distances stencil) 0
  = nth j (cumulative_distances stencil) 0
    + norm_2 (GetVectorFromAtoB (nth j stencil zero_vector)
                                (nth (j + 1) stencil zero_vector)).
Proof.
  destruct stencil as [| first rest]; [cbn; lia |]. intros Hj.
  cbn [length] in Hj. replace (j + 1)%nat with (S j) by lia.
  cbn [cumulative_distances]. cbn [nth].
  apply (cumulative_after_step first 0.0 rest j). lia.
Qed.

Lemma advance_last_idx_used_spec (location_along_arc : R) (cumulative : list R)
    (fuel last_idx_used last' : nat) :
  advance_last_idx_used location_along_arc cumulative last_idx_used fuel = Some last' ->
  nth last_idx_used cumulative 0 <= location_along_arc ->
  (last_idx_used <= last')%nat /\
  (last' + 1 < length cumulative)%nat /\
  nth last' cumulative 0 <= location_along_arc <= nth (last' + 1) cumulative 0.
Proof.
  revert last_idx_used. induction fuel as [| fuel IH]; intros last_idx_used H Hlow;
    [discriminate |].
  cbn [advance_last_idx_used] in H.
  destruct (last_idx_used + 1 <? length cumulative)%nat eqn:Hin; [| discriminate].
  apply Nat.ltb_lt in Hin.
  destruct (Rgtb location_along_arc (nth (last_idx_used + 1) cumulative 0)) eqn:Hgt.
  - apply Rltb_spec in Hgt.
    destruct (IH (S last_idx_used) H) as (Hle & Hlt & Hbounds).
    + replace (S last_idx_used) with (last_idx_used + 1)%nat by lia. lra.
    + split; [lia |]. split; assumption.
  - inversion H; subst.
    assert (~ nth (last' + 1) cumulative 0 < location_along_arc) as Hnot.
    { intros Hlt. apply Rltb_spec in Hlt. unfold Rgtb in Hgt. congruence. }
    split; [lia |]. split; [exact Hin | lra].
Qed.

(** Where the loop over [node_idx] places its points. *)
Lemma resample_stencil_on_outline (stencil : list c_vector2) (cumulative : list R)
    (target_spacing : R) :
  0 <= target_spacing ->
  (forall j, (j + 1 < length cumulative)%nat ->
             nth j cumulative 0 < nth (j + 1) cumulative 0) ->
  forall (n a last_idx_used : nat) (locations : list c_vector2),
    nth last_idx_used cumulative 0 <= IZR (Z.of_nat a) * target_spacing ->
    resample_stencil stencil cumulative target_spacing (seq a n) last_idx_used
      = Some locations ->
    forall k, (k < n)%nat ->
      exists (j : nat) (t : R),
        (j + 1 < length cumulative)%nat /\ 0 <= t <= 1 /\
        nth k locations zero_vector
        = vadd (nth j stencil zero_vector)
               (vscale (GetVectorFromAtoB (nth j stencil zero_vector)
                                          (nth (j + 1) stencil zero_vector)) t) /\
        nth j cumulative 0 + t * (nth (j + 1) cumulative 0 - nth j cumulative 0)
        = IZR (Z.of_nat (a + k)) * target_spacing.
Proof.
  intros Hspacing Hgap. induction n as [| n IH]; intros a last_idx_used locations Hlow H k Hk;
    [lia |].
  cbn [seq resample_stencil] in H.
  destruct (advance_last_idx_used _ _ _ _) as [last' |] eqn:Hadv; [| discriminate].
  destruct (advance_last_idx_used_spec _ _ _ _ _ Hadv Hlow) as (_ & Hin & Hbounds).
  destruct (resample_stencil stencil cumulative target_spacing (seq (S a) n) last')
    as [rest |] eqn:Hrest; [| discriminate].
  cbn [option_map] in H. inversion H; subst. clear H.
  destruct k as [| k].
  - exists last'.
    exists ((IZR (Z.of_nat a) * target_spacing - nth last' cumulative 0)
            / (nth (last' + 1) cumulative 0 - nth last' cumulative 0)).
    pose proof (Hgap last' Hin) as Hpos.
    split; [exact Hin |]. split; [| split].
    + split.
      * apply Rmult_le_pos; [lra |]. apply Rlt_le, Rinv_0_lt_compat. lra.
      * apply (Rmult_le_reg_r (nth (last' + 1) cumulative 0 - nth last' cumulative 0));
          [lra |].
        unfold Rdiv. rewrite Rmult_assoc, Rinv_l by lra. lra.
    + reflexivity.
    + rewrite Nat.add_0_r. field. lra.
  - destruct (IH (S a) last' rest) with (k := k) as (j & t & Hj & Ht & Hloc & Harc).
    + rewrite Nat2Z.inj_succ, succ_IZR. nra.
    + exact Hrest.
    + lia.
    + exists j, t. split; [exact Hj |]. split; [exact Ht |]. split; [exact Hloc |].
      replace (a + S k)%nat with (S a + k)%nat by lia. exact Harc.
Qed.

Lemma last_nth_length {A : Type} (l : list A) (d : A) :
  l <> [] -> last l d = nth (length l - 1) l d.
Proof.
  intros Hne. destruct (exists_last Hne) as (l' & a & E).
  rewrite E, last_last, length_app. simpl.
  replace (length l' + 1 - 1)%nat with (length l') by lia.
  rewrite nth_middle. reflexivity.
Qed.

Lemma norm_2_positive (v : c_vector2) : fst v <> 0 \/ snd v <> 0 -> 0 < norm_2 v.
Proof.
  intros H. unfold norm_2. apply sqrt_lt_R0.
  pose proof (Rle_0_sqr (fst v)) as H0. pose proof (Rle_0_sqr (snd v)) as H1.
  unfold Rsqr in H0, H1.
  destruct H as [H | H].
  - pose proof (Rsqr_pos_lt _ H) as P. unfold Rsqr in P. lra.
  - pose proof (Rsqr_pos_lt _ H) as P. unfold Rsqr in P. lra.
Qed.

(** X15.  The points [DivideElement] resamples from a stencil, closed by
    its first point, of which no two consecutive points coincide: there
    are as many as asked for, each lies on an edge of the closed stencil,
    and the k-th is at [k] times the target spacing (the length of the
    outline over the number of points) along the outline from the first
    point of the stencil. *)
Theorem resample_daughter_on_outline (stencil : list c_vector2) (num_nodes : nat)
    (locations : list c_vector2) :
  resample_daughter stencil num_nodes = Some locations ->
  let closed := stencil ++ [nth 0 stencil zero_vector] in
  let cumulative := cumulative_distances closed in
  let edge j :=
    GetVectorFromAtoB (nth j closed zero_vector) (nth (j + 1) closed zero_vector) in
  (forall j, (j < length stencil)%nat -> 0 < norm_2 (edge j)) ->
  length locations = num_nodes /\
  forall k, (k < num_nodes)%nat ->
    exists (j : nat) (t : R),
      (j < length stencil)%nat /\ 0 <= t <= 1 /\
      nth k locations zero_vector = vadd (nth j closed zero_vector) (vscale (edge j) t) /\
      nth j cumulative 0 + t * norm_2 (edge j)
      = IZR (Z.of_nat k) * (last cumulative 0 / IZR (Z.of_nat num_nodes)).
Proof.
  intros H closed cumulative edge Hedges.
  split; [apply (resample_daughter_length _ _ _ H) |].
  intros k Hk.
  assert (stencil <> []) as Hne.
  { intros E. subst stencil. destruct num_nodes as [| n]; [lia |].
    unfold resample_daughter in H. cbn in H. discriminate. }
  assert (closed <> []) as Hclosed by (unfold closed; destruct stencil; discriminate).
  destruct (cumulative_distances_spec closed Hclosed) as [Hlen Hnonneg].
  fold cumulative in Hlen, Hnonneg.
  assert (length closed = (length stencil + 1)%nat) as Lclosed
    by (unfold closed; rewrite length_app; reflexivity).
  assert (forall j, (j + 1 < length cumulative)%nat ->
                    nth (j + 1) cumulative 0 = nth j cumulative 0 + norm_2 (edge j)) as Hstep.
  { intros j Hj. apply cumulative_distances_step. lia. }
  assert (0 <= last cumulative 0 / IZR (Z.of_nat num_nodes)) as Hspacing.
  { rewrite last_nth_length by (intros E; rewrite E in Hlen; cbn in Hlen; lia).
    apply Rmult_le_pos; [apply Hnonneg |].
    apply Rlt_le, Rinv_0_lt_compat, IZR_lt. lia. }
  unfold resample_daughter in H. fold closed in H. fold cumulative in H.
  destruct (resample_stencil_on_outline closed cumulative _ Hspacing) with
    (n := num_nodes) (a := 0%nat) (last_idx_used := 0%nat) (locations := locations) (k := k)
    as (j & t & Hj & Ht & Hloc & Harc).
  - intros j Hj. rewrite (Hstep j Hj).
    pose proof (Hedges j ltac:(lia)). lra.
  - unfold cumulative. destruct closed; cbn; lra.
  - exact H.
  - exact Hk.
  - exists j, t. split; [lia |]. split; [exact Ht |]. split; [exact Hloc |].
    rewrite (Hstep j Hj) in Harc. cbn [Nat.add] in Harc. rewrite <- Harc. ring.
Qed.

(** The corners of a square of side 0.2, as a stencil. *)
Definition square_stencil : list c_vector2 :=
  [(0.4, 0.4); (0.6, 0.4); (0.6, 0.6); (0.4, 0.6)].

Lemma resample_daughter_on_outline_witness :
  exists locations,
    resample_daughter square_stencil 3 = Some locations /\
    let closed := square_stencil ++ [nth 0 square_stencil zero_vector] in
    let cumulative := cumulative_distances closed in
    let edge j :=
      GetVectorFromAtoB (nth j closed zero_vector) (nth (j + 1) closed zero_vector) in
    (forall j, (j < length square_stencil)%nat -> 0 < norm_2 (edge j)) /\
    length locations = 3%nat /\
    forall k, (k < 3)%nat ->
      exists (j : nat) (t : R),
        (j < length square_stencil)%nat /\ 0 <= t <= 1 /\
        nth k locations zero_vector = vadd (nth j closed zero_vector) (vscale (edge j) t) /\
        nth j cumulative 0 + t * norm_2 (edge j)
        = IZR (Z.of_nat k) * (last cumulative 0 / IZR (Z.of_nat 3)).
Proof.
  destruct (resample_daughter_defined square_stencil 3) as [locations H];
    [discriminate | lia |].
  exists locations. split; [exact H |].
  intros closed cumulative edge.
  assert (forall j, (j < length square_stencil)%nat -> 0 < norm_2 (edge j)) as Hedges.
  { intros j Hj. apply norm_2_positive. unfold edge, closed.
    destruct j as [| [| [| [| j]]]]; [| | | | cbn in Hj; lia];
      cbn [square_stencil app nth Nat.add];
      rewrite GetVectorFromAtoB_near by (cbn [fst snd]; apply Rabs_le; lra);
      unfold vsub; cbn [fst snd]; lra. }
  split; [exact Hedges |].
  exact (resample_daughter_on_outline square_stencil 3 locations H Hedges).
Defined.

(** ** The solve in Fourier space *)

(** The cell of [p_hat] at a mode of the grid. *)
Lemma CalculatePressure_cell (m : SimulationModifier) (dt : R)
    (VelX_hat VelY_hat : grid complex) (y x : nat) :
  (y < Z.to_nat (mNumGridPtsY m))%nat -> (x < Z.to_nat (mNumGridPtsX m))%nat ->
  grid_get C0 (CalculatePressure m dt VelX_hat VelY_hat) y x
  = if ((y =? Z.to_nat (mNumGridPtsY m) / 2) && (x =? 0))%nat then C0
    else if ((y =? Z.to_nat (mNumGridPtsY m) / 2)
             && (x =? Z.to_nat (mNumGridPtsX m) / 2))%nat then C0
    else if ((y =? 0) && (x =? Z.to_nat (mNumGridPtsX m) / 2))%nat then C0
    else if ((y =? 0) && (x =? 0))%nat then C0
    else Cdiv_real (pressure_numerator m VelX_hat VelY_hat y x)
                   (pressure_denominator m dt y x).
Proof.
  intros Hy Hx. unfold CalculatePressure.
  set (ny := Z.to_nat (mNumGridPtsY m)) in *. set (nx := Z.to_nat (mNumGridPtsX m)) in *.
  set (F := fun y x => Cdiv_real (pressure_numerator m VelX_hat VelY_hat y x)
                                 (pressure_denominator m dt y x)).
  pose proof (grid_wf_tabulate F ny nx) as W0.
  change (fun y0 => map (fun x0 => Cdiv_real (pressure_numerator m VelX_hat VelY_hat y0 x0)
                                             (pressure_denominator m dt y0 x0))
                        (seq 0 nx))
    with (fun y0 => map (fun x0 => F y0 x0) (seq 0 nx)).
  rewrite (grid_get_set _ _ _ _ _ ny nx);
    [| repeat apply grid_wf_update; exact W0 | exact Hy | exact Hx].
  rewrite (grid_get_set _ _ _ _ _ ny nx);
    [| repeat apply grid_wf_update; exact W0 | exact Hy | exact Hx].
  rewrite (grid_get_set _ _ _ _ _ ny nx);
    [| repeat apply grid_wf_update; exact W0 | exact Hy | exact Hx].
  rewrite (grid_get_set _ _ _ _ _ ny nx); [| exact W0 | exact Hy | exact Hx].
  rewrite grid_get_tabulate by assumption. reflexivity.
Qed.

Lemma SolveInFourierSpace_cell (m : SimulationModifier) (dt : R)
    (VelX_hat VelY_hat : grid complex) (y x : nat) :
  (y < Z.to_nat (mNumGridPtsY m))%nat -> (x < Z.to_nat (mNumGridPtsX m))%nat ->
  let p_hat := CalculatePressure m dt VelX_hat VelY_hat in
  grid_get C0 (fst (SolveInFourierSpace m dt VelX_hat VelY_hat)) y x
  = pre_inverse_X_cell m dt VelX_hat p_hat y x /\
  grid_get C0 (snd (SolveInFourierSpace m dt VelX_hat VelY_hat)) y x
  = pre_inverse_Y_cell m dt VelY_hat p_hat y x.
Proof.
  intros Hy Hx p_hat. unfold SolveInFourierSpace. cbn [fst snd]. fold p_hat.
  split.
  - apply (grid_get_tabulate C0 (fun y x => pre_inverse_X_cell m dt VelX_hat p_hat y x));
      assumption.
  - apply (grid_get_tabulate C0 (fun y x => pre_inverse_Y_cell m dt VelY_hat p_hat y x));
      assumption.
Qed.

Lemma pre_inverse_op_at_least_1 (m : SimulationModifier) (dt : R) (y x : nat) :
  0 <= dt -> 0 < mReynolds m -> 1 <= pre_inverse_op m dt y x.
Proof.
  intros Hdt HRe. unfold pre_inverse_op.
  assert (0 <= 4 * dt / mReynolds m).
  { apply Rmult_le_pos; [lra |]. apply Rlt_le, Rinv_0_lt_compat. exact HRe. }
  assert (forall s d, 0 <= s * s / (d * d)) as Hsq.
  { intros s d. unfold Rdiv. rewrite Rinv_mult.
    replace (s * s * (/ d * / d)) with ((s * / d) * (s * / d)) by ring.
    apply Rle_0_sqr. }
  pose proof (Hsq (mSinX m x) (mGridSpacingX m)).
  pose proof (Hsq (mSinY m y) (mGridSpacingY m)).
  nra.
Qed.

Lemma pressure_denominator_zero_sines (m : SimulationModifier) (dt : R) (y x : nat) :
  0 < dt -> 0 < mReynolds m -> mGridSpacingX m <> 0 -> mGridSpacingY m <> 0 ->
  pressure_denominator m dt y x = 0 ->
  mSin2X m x = 0 /\ mSin2Y m y = 0.
Proof.
  intros Hdt HRe HDx HDy H. unfold pressure_denominator in H.
  set (a := mSin2X m x) in *. set (b := mSin2Y m y) in *.
  set (Dx := mGridSpacingX m) in *. set (Dy := mGridSpacingY m) in *.
  assert (0 < dt / mReynolds m) as Hq by (apply Rdiv_lt_0_compat; assumption).
  assert (0 < / (Dx * Dx)) as HiX.
  { apply Rinv_0_lt_compat. pose proof (Rsqr_pos_lt Dx HDx) as P. unfold Rsqr in P. exact P. }
  assert (0 < / (Dy * Dy)) as HiY.
  { apply Rinv_0_lt_compat. pose proof (Rsqr_pos_lt Dy HDy) as P. unfold Rsqr in P. exact P. }
  unfold Rdiv at 1 2 in H.
  assert (a * a * / (Dx * Dx) + b * b * / (Dy * Dy) = 0) as H0 by nra.
  assert (0 <= a * a * / (Dx * Dx)) by (apply Rmult_le_pos; nra).
  assert (0 <= b * b * / (Dy * Dy)) by (apply Rmult_le_pos; nra).
  assert (a * a = 0) by nra. assert (b * b = 0) by nra.
  split; nra.
Qed.

(** The algebra of the projection at one mode: with the pressure the
    quotient of numerator and denominator, the numerator of the two
    cells that are transformed back is zero. *)
Lemma projection_algebra (a b Dx Dy Re dt op : R) (U V : complex) :
  Re <> 0 -> Dx <> 0 -> Dy <> 0 -> op <> 0 ->
  (a * a / (Dx * Dx) + b * b / (Dy * Dy)) * (dt / Re) <> 0 ->
  let numerator :=
    Cmul (Copp mI) (Cadd (Cdiv_real (Cscale a U) Dx) (Cdiv_real (Cscale b V) Dy)) in
  let p := Cdiv_real numerator ((a * a / (Dx * Dx) + b * b / (Dy * Dy)) * (dt / Re)) in
  let X :=
    Cdiv_real
      (Csub U (Cmul (Cmul_real (Cdiv_real (Cmul_real mI dt) (Re * Dx)) a) p)) op in
  let Y :=
    Cdiv_real
      (Csub V (Cmul (Cmul_real (Cdiv_real (Cmul_real mI dt) (Re * Dy)) b) p)) op in
  Cmul (Copp mI) (Cadd (Cdiv_real (Cscale a X) Dx) (Cdiv_real (Cscale b Y) Dy)) = C0.
Proof.
  intros HRe HDx HDy Hop HD numerator p X Y.
  assert (dt <> 0) as Hdt.
  { intros E. apply HD. rewrite E. unfold Rdiv. ring. }
  assert (a * a * (Dy * Dy) + b * b * (Dx * Dx) <> 0) as Hab.
  { intros E. apply HD.
    replace (a * a / (Dx * Dx) + b * b / (Dy * Dy))
      with ((a * a * (Dy * Dy) + b * b * (Dx * Dx)) / (Dx * Dx * (Dy * Dy)))
      by (field; split; assumption).
    rewrite E. unfold Rdiv. ring. }
  destruct U as [u1 u2], V as [v1 v2].
  unfold X, Y, p, numerator, Cmul, Copp, Cadd, Cdiv_real, Cscale, Csub, Cmul_real, mI, C0.
  cbn [fst snd].
  apply injective_projections; cbn [fst snd]; field; repeat split; assumption.
Qed.

(** X16.  The velocity that [SolveNavierStokesSpectral] transforms back
    is free of divergence: on a grid of even numbers of points, with
    positive time step and Reynolds number, the numerator of the
    pressure solve, taken of the two grids [pre_inverse_X] and
    [pre_inverse_Y], is zero at every mode. *)
Theorem SolveInFourierSpace_divergence_free (numGridPtsY numGridPtsX : Z) (reynolds dt : R)
    (VelX_hat VelY_hat : grid complex) (y x : nat) :
  (0 < numGridPtsX)%Z -> (numGridPtsX mod 2 = 0)%Z ->
  (0 < numGridPtsY)%Z -> (numGridPtsY mod 2 = 0)%Z ->
  0 < dt -> 0 < reynolds ->
  (y < Z.to_nat numGridPtsY)%nat -> (x < Z.to_nat numGridPtsX)%nat ->
  let m := SetMemberVariables numGridPtsY numGridPtsX reynolds in
  let pre_inverse := SolveInFourierSpace m dt VelX_hat VelY_hat in
  pressure_numerator m (fst pre_inverse) (snd pre_inverse) y x = C0.
Proof.
  intros HNx HEx HNy HEy Hdt HRe Hy Hx m pre_inverse.
  assert (mGridSpacingX m <> 0) as HDx.
  { cbn. apply Rgt_not_eq, Rdiv_lt_0_compat; [lra | apply IZR_lt; exact HNx]. }
  assert (mGridSpacingY m <> 0) as HDy.
  { cbn. apply Rgt_not_eq, Rdiv_lt_0_compat; [lra | apply IZR_lt; exact HNy]. }
  destruct (SolveInFourierSpace_cell m dt VelX_hat VelY_hat y x Hy Hx) as [EX EY].
  fold pre_inverse in EX, EY.
  unfold pressure_numerator. rewrite EX, EY.
  destruct (Req_dec (pressure_denominator m dt y x) 0) as [Hzero | Hnonzero].
  - destruct (pressure_denominator_zero_sines m dt y x Hdt HRe HDx HDy Hzero) as [-> ->].
    unfold Cmul, Copp, Cadd, Cdiv_real, Cscale, mI, C0. cbn [fst snd].
    apply injective_projections; cbn [fst snd]; unfold Rdiv; ring.
  - assert (~ gauge_mode (Z.to_nat numGridPtsY) (Z.to_nat numGridPtsX) y x) as Hng.
    { intros G. apply Hnonzero.
      apply (pressure_denominator_zero numGridPtsY numGridPtsX reynolds dt y x); assumption. }
    assert (grid_get C0 (CalculatePressure m dt VelX_hat VelY_hat) y x
            = Cdiv_real (pressure_numerator m VelX_hat VelY_hat y x)
                        (pressure_denominator m dt y x)) as Ep.
    { rewrite CalculatePressure_cell by assumption.
      cbn [mNumGridPtsX mNumGridPtsY SetMemberVariables m].
      destruct (Nat.eqb_spec y (Z.to_nat numGridPtsY / 2)), (Nat.eqb_spec x 0),
               (Nat.eqb_spec x (Z.to_nat numGridPtsX / 2)), (Nat.eqb_spec y 0);
        simpl; try reflexivity; exfalso; apply Hng; unfold gauge_mode; tauto. }
    unfold pre_inverse_X_cell, pre_inverse_Y_cell. rewrite Ep.
    unfold pressure_numerator, pressure_denominator.
    apply projection_algebra.
    + apply Rgt_not_eq. exact HRe.
    + exact HDx.
    + exact HDy.
    + pose proof (pre_inverse_op_at_least_1 m dt y x (Rlt_le _ _ Hdt) HRe). lra.
    + exact Hnonzero.
Qed.

Lemma SolveInFourierSpace_divergence_free_witness :
  let m := SetMemberVariables 4 4 1 in
  let VelX_hat := [[(1, 0); (0, 1); (2, 0); (0, 0)]] in
  let VelY_hat := [[(0, 0); (1, 1); (0, 2); (3, 0)]] in
  let pre_inverse := SolveInFourierSpace m 1 VelX_hat VelY_hat in
  pressure_numerator m (fst pre_inverse) (snd pre_inverse) 0 1 = C0.
Proof.
  apply (SolveInFourierSpace_divergence_free 4 4 1 1); try reflexivity; try lra; cbn; lia.
Defined.

(** X17.  The mode (0,0), the mean of the flow, goes through the solve
    in Fourier space unchanged, whatever the time step: neither the
    pressure nor the viscosity acts on it. *)
Theorem SolveInFourierSpace_mean_flow (numGridPtsY numGridPtsX : Z) (reynolds dt : R)
    (VelX_hat VelY_hat : grid complex) :
  (0 < numGridPtsX)%Z -> (0 < numGridPtsY)%Z -> 0 < reynolds ->
  let m := SetMemberVariables numGridPtsY numGridPtsX reynolds in
  let pre_inverse := SolveInFourierSpace m dt VelX_hat VelY_hat in
  grid_get C0 (fst pre_inverse) 0 0 = grid_get C0 VelX_hat 0 0 /\
  grid_get C0 (snd pre_inverse) 0 0 = grid_get C0 VelY_hat 0 0.
Proof.
  intros HNx HNy HRe m pre_inverse.
  assert (0 < Z.to_nat (mNumGridPtsY m))%nat as Hy by (cbn; lia).
  assert (0 < Z.to_nat (mNumGridPtsX m))%nat as Hx by (cbn; lia).
  destruct (SolveInFourierSpace_cell m dt VelX_hat VelY_hat 0 0 Hy Hx) as [EX EY].
  fold pre_inverse in EX, EY. rewrite EX, EY.
  assert (grid_get C0 (CalculatePressure m dt VelX_hat VelY_hat) 0 0 = C0) as Ep.
  { rewrite CalculatePressure_cell by assumption.
    repeat match goal with
           | |- (if ?c then C0 else _) = C0 =>
               first [reflexivity | destruct c; [reflexivity |]]
           end. }
  assert (pre_inverse_op m dt 0 0 = 1) as Eop.
  { unfold pre_inverse_op, mSinX, mSinY. cbn [Z.of_nat].
    rewrite !Rmult_0_r, !Rmult_0_l, sin_0. unfold Rdiv. ring. }
  unfold pre_inverse_X_cell, pre_inverse_Y_cell. rewrite Ep, Eop.
  unfold Cdiv_real, Csub, Cmul, Cmul_real, C0. cbn [fst snd].
  assert (mGridSpacingX m <> 0) as HDx.
  { cbn. apply Rgt_not_eq, Rdiv_lt_0_compat; [lra | apply IZR_lt; exact HNx]. }
  assert (mGridSpacingY m <> 0) as HDy.
  { cbn. apply Rgt_not_eq, Rdiv_lt_0_compat; [lra | apply IZR_lt; exact HNy]. }
  assert (mReynolds m <> 0) as HRe' by (apply Rgt_not_eq; exact HRe).
  split; apply injective_projections; cbn [fst snd]; field; split; assumption.
Qed.

Lemma SolveInFourierSpace_mean_flow_witness :
  let m := SetMemberVariables 4 4 1 in
  let VelX_hat := [[(1, 0); (0, 1); (2, 0); (0, 0)]] in
  let VelY_hat := [[(0, 0); (1, 1); (0, 2); (3, 0)]] in
  let pre_inverse := SolveInFourierSpace m 0.01 VelX_hat VelY_hat in
  grid_get C0 (fst pre_inverse) 0 0 = grid_get C0 VelX_hat 0 0 /\
  grid_get C0 (snd pre_inverse) 0 0 = grid_get C0 VelY_hat 0 0.
Proof.
  apply (SolveInFourierSpace_mean_flow 4 4 1 0.01); try reflexivity; lra.
Defined.

(** ** The upwind scheme *)

(** X18.  A uniform flow has no advection term: when every cell of the
    velocity grids holds the same velocity, [UpwindScheme] leaves zero in
    every cell of its two output grids (on a grid of at least two points
    in each direction). *)
Theorem UpwindScheme_uniform_flow (m : SimulationModifier) (in_x in_y : grid R)
    (U V : R) (y x : nat) :
  (2 <= mNumGridPtsX m < 2 ^ 32)%Z -> (2 <= mNumGridPtsY m < 2 ^ 32)%Z ->
  mGridSpacingX m <> 0 -> mGridSpacingY m <> 0 ->
  (forall y' x', (y' < Z.to_nat (mNumGridPtsY m))%nat -> (x' < Z.to_nat (mNumGridPtsX m))%nat ->
                 grid_get 0 in_x y' x' = U /\ grid_get 0 in_y y' x' = V) ->
  (y < Z.to_nat (mNumGridPtsY m))%nat -> (x < Z.to_nat (mNumGridPtsX m))%nat ->
  grid_get 0 (fst (UpwindScheme m in_x in_y)) y x = 0 /\
  grid_get 0 (snd (UpwindScheme m in_x in_y)) y x = 0.
Proof.
  intros HNx HNy HDx HDy Huniform Hy Hx.
  set (st := upwind_state_at m in_x in_y y x).
  destruct (upwind_state_at_indices m in_x in_y y x) as (I1 & I2 & I3 & I4);
    try lia.
  fold st in I1, I2, I3, I4.
  destruct (UpwindScheme_cell m in_x in_y y x Hy Hx) as [Cx Cy].
  destruct (upwind_state_at_wf m in_x in_y y x) as [Wx Wy].
  fold st in Cx, Cy, Wx, Wy.
  assert (prev_x st < Z.to_nat (mNumGridPtsX m))%nat as B1
    by (rewrite I1; apply Nat.mod_upper_bound; lia).
  assert (next_x st < Z.to_nat (mNumGridPtsX m))%nat as B2
    by (rewrite I2; apply Nat.mod_upper_bound; lia).
  assert (prev_y st < Z.to_nat (mNumGridPtsY m))%nat as B3
    by (rewrite I3; apply Nat.mod_upper_bound; lia).
  assert (next_y st < Z.to_nat (mNumGridPtsY m))%nat as B4
    by (rewrite I4; apply Nat.mod_upper_bound; lia).
  destruct (Huniform y x Hy Hx) as [Eu Ev].
  destruct (Huniform y (prev_x st) Hy B1) as [Eu1 Ev1].
  destruct (Huniform y (next_x st) Hy B2) as [Eu2 Ev2].
  destruct (Huniform (prev_y st) x B3 Hx) as [Eu3 Ev3].
  destruct (Huniform (next_y st) x B4 Hx) as [Eu4 Ev4].
  split.
  - rewrite Cx. cbn [out_x upwind_cell].
    rewrite (grid_get_update_eq _ _ _ _ _ (Z.to_nat (mNumGridPtsY m)) (Z.to_nat (mNumGridPtsX m)));
      [| apply grid_wf_update; exact Wx | exact Hy | exact Hx].
    rewrite (grid_get_update_eq _ _ _ _ _ _ _ Wx Hy Hx).
    rewrite Eu, Ev, Eu1, Eu2, Eu3, Eu4.
    destruct (Rgtb U 0), (Rgtb V 0); unfold Rdiv; ring.
  - rewrite Cy. cbn [out_y upwind_cell].
    rewrite (grid_get_update_eq _ _ _ _ _ (Z.to_nat (mNumGridPtsY m)) (Z.to_nat (mNumGridPtsX m)));
      [| apply grid_wf_update; exact Wy | exact Hy | exact Hx].
    rewrite (grid_get_update_eq _ _ _ _ _ _ _ Wy Hy Hx).
    rewrite Eu, Ev, Ev1, Ev2, Ev3, Ev4.
    destruct (Rgtb U 0), (Rgtb V 0); unfold Rdiv; ring.
Qed.

Lemma UpwindScheme_uniform_flow_witness :
  let m := SetMemberVariables 2 2 1 in
  let in_x := [[1; 1]; [1; 1]] in
  let in_y := [[-2; -2]; [-2; -2]] in
  grid_get 0 (fst (UpwindScheme m in_x in_y)) 1 0 = 0 /\
  grid_get 0 (snd (UpwindScheme m in_x in_y)) 1 0 = 0.
Proof.
  apply (UpwindScheme_uniform_flow (SetMemberVariables 2 2 1) _ _ 1 (-2)).
  - cbn. lia.
  - cbn. lia.
  - cbn. lra.
  - cbn. lra.
  - intros y' x' Hy' Hx'. cbn in Hy', Hx'.
    destruct y' as [| [| y']], x' as [| [| x']]; try lia; split; reflexivity.
  - cbn. lia.
  - cbn. lia.
Defined.

(** ** Spreading the forces of many nodes *)

Lemma spread_to_cells_wf (m : SimulationModifier) (dl : R) (applied_force : c_vector2)
    (points : list StencilPoint) (grids : grid R * grid R) (ny nx : nat) :
  grid_wf (fst grids) ny nx -> grid_wf (snd grids) ny nx ->
  grid_wf (fst (fold_left (spread_to_cell m dl applied_force) points grids)) ny nx /\
  grid_wf (snd (fold_left (spread_to_cell m dl applied_force) points grids)) ny nx.
Proof.
  revert grids. induction points as [| p points IH]; intros grids Hx Hy; [split; assumption |].
  cbn [fold_left]. apply IH; unfold spread_to_cell; cbn [fst snd];
    apply grid_wf_update; assumption.
Qed.

(** The totals of the force grids after the nodes of a list have spread
    their forces. *)
Lemma PropagateForcesToFluidGrid_total (m : SimulationModifier) (dl : R) (nodes : list Node)
    (grids : grid R * grid R) :
  (0 < mNumGridPtsX m)%Z -> (0 < mNumGridPtsY m)%Z ->
  grid_wf (fst grids) (Z.to_nat (mNumGridPtsY m)) (Z.to_nat (mNumGridPtsX m)) ->
  grid_wf (snd grids) (Z.to_nat (mNumGridPtsY m)) (Z.to_nat (mNumGridPtsX m)) ->
  let grids' := PropagateForcesToFluidGrid m dl nodes grids in
  let cell_area := mGridSpacingX m * mGridSpacingY m in
  let weighted component :=
    list_sum (map (fun node => component (mAppliedForce node)
                               * stencil_weight_sum m (mLocation node)) nodes) in
  grid_total (fst grids') * cell_area
  = grid_total (fst grids) * cell_area + dl * weighted fst /\
  grid_total (snd grids') * cell_area
  = grid_total (snd grids) * cell_area + dl * weighted snd.
Proof.
  intros HNx HNy. revert grids.
  induction nodes as [| node nodes IH]; intros grids Hx Hy; cbv zeta.
  - cbn. split; ring.
  - change (PropagateForcesToFluidGrid m dl (node :: nodes) grids)
      with (PropagateForcesToFluidGrid m dl nodes
              (PropagateForcesToFluidGrid m dl [node] grids)).
    destruct (PropagateForcesToFluidGrid_one_node m dl node grids HNx HNy Hx Hy) as [Ex Ey].
    cbv zeta in Ex, Ey.
    destruct (spread_to_cells_wf m dl (mAppliedForce node)
                (spreading_stencil m (mLocation node)) grids _ _ Hx Hy) as [Wx Wy].
    destruct (IH (PropagateForcesToFluidGrid m dl [node] grids) Wx Wy) as [Ix Iy].
    cbv zeta in Ix, Iy. rewrite Ix, Iy, Ex, Ey.
    cbn [map]. rewrite !list_sum_cons. split; ring.
Qed.

Lemma weighted_forces_whole (numGridPtsY numGridPtsX : Z) (reynolds : R)
    (nodes : list Node) (component : c_vector2 -> R) :
  (0 < numGridPtsX < 2 ^ 31)%Z -> (0 < numGridPtsY < 2 ^ 31)%Z ->
  Forall (fun node =>
            (0 <= fst (mLocation node) < 1 /\ 0 <= snd (mLocation node) < 1) /\
            ((numGridPtsX mod 4 = 0)%Z \/ 1.0 / IZR numGridPtsX <= fst (mLocation node)) /\
            ((numGridPtsY mod 4 = 0)%Z \/ 1.0 / IZR numGridPtsY <= snd (mLocation node)))
         nodes ->
  map (fun node => component (mAppliedForce node)
                   * stencil_weight_sum (SetMemberVariables numGridPtsY numGridPtsX reynolds)
                       (mLocation node)) nodes
  = map (fun node => component (mAppliedForce node)) nodes.
Proof.
  intros HNx HNy Hnodes.
  induction Hnodes as [| node nodes Hnode Hrest IH]; [reflexivity |].
  cbn [map]. rewrite IH. f_equal.
  destruct Hnode as ((Hx & Hy) & Hwx & Hwy).
  rewrite (stencil_partition_of_unity numGridPtsY numGridPtsX reynolds
             (mLocation node) HNx HNy Hx Hy Hwx Hwy).
  ring.
Qed.

(** X19.  Spreading conserves force: when every node lies in the unit
    square and, along each axis, the number of grid points is a multiple
    of 4 or the node is at least one grid spacing from the lower edge,
    the force grids filled from zero by [PropagateForcesToFluidGrid]
    hold, summed over the cells and times the area of a cell, the sum of
    the applied forces of the nodes times [dl]. *)
Theorem PropagateForcesToFluidGrid_conserves_force (numGridPtsY numGridPtsX : Z)
    (reynolds dl : R) (nodes : list Node) :
  (0 < numGridPtsX < 2 ^ 31)%Z -> (0 < numGridPtsY < 2 ^ 31)%Z ->
  Forall (fun node =>
            (0 <= fst (mLocation node) < 1 /\ 0 <= snd (mLocation node) < 1) /\
            ((numGridPtsX mod 4 = 0)%Z \/ 1.0 / IZR numGridPtsX <= fst (mLocation node)) /\
            ((numGridPtsY mod 4 = 0)%Z \/ 1.0 / IZR numGridPtsY <= snd (mLocation node)))
         nodes ->
  let m := SetMemberVariables numGridPtsY numGridPtsX reynolds in
  let grids' := PropagateForcesToFluidGrid m dl nodes (SetupGrid 0 m, SetupGrid 0 m) in
  let cell_area := mGridSpacingX m * mGridSpacingY m in
  grid_total (fst grids') * cell_area
  = dl * list_sum (map (fun node => fst (mAppliedForce node)) nodes) /\
  grid_total (snd grids') * cell_area
  = dl * list_sum (map (fun node => snd (mAppliedForce node)) nodes).
Proof.
  intros HNx HNy Hnodes m grids' cell_area.
  destruct (PropagateForcesToFluidGrid_total m dl nodes (SetupGrid 0 m, SetupGrid 0 m))
    as [Ex Ey]; try apply SetupGrid_wf; try (cbn; lia).
  cbv zeta in Ex, Ey. fold grids' in Ex, Ey. fold cell_area in Ex, Ey.
  cbn [fst snd] in Ex, Ey. rewrite grid_total_SetupGrid in Ex, Ey.
  unfold m in Ex, Ey.
  rewrite (weighted_forces_whole numGridPtsY numGridPtsX reynolds nodes fst HNx HNy Hnodes)
    in Ex.
  rewrite (weighted_forces_whole numGridPtsY numGridPtsX reynolds nodes snd HNx HNy Hnodes)
    in Ey.
  split; lra.
Qed.

Lemma PropagateForcesToFluidGrid_conserves_force_witness :
  let nodes :=
    [ {| mIndex := 0; mLocation := (0.1, 0.5); mRegion := 0; mAppliedForce := (1, -2);
         mNodeAttributes := []; mElementIndices := [] |};
      {| mIndex := 1; mLocation := (0.7, 0.05); mRegion := 0; mAppliedForce := (3, 1);
         mNodeAttributes := []; mElementIndices := [] |} ] in
  let m := SetMemberVariables 8 4 1 in
  let grids' := PropagateForcesToFluidGrid m 0.1 nodes (SetupGrid 0 m, SetupGrid 0 m) in
  let cell_area := mGridSpacingX m * mGridSpacingY m in
  grid_total (fst grids') * cell_area
  = 0.1 * list_sum (map (fun node => fst (mAppliedForce node)) nodes) /\
  grid_total (snd grids') * cell_area
  = 0.1 * list_sum (map (fun node => snd (mAppliedForce node)) nodes).
Proof.
  intros nodes.
  apply (PropagateForcesToFluidGrid_conserves_force 8 4 1 0.1 nodes); [lia | lia |].
  unfold nodes. repeat constructor; cbn [mLocation fst snd]; lra.
Defined.

(** ** The net force of the membrane elasticity *)

(** The sum of the applied forces of the nodes of the mesh. *)
Definition total_applied_force (mesh : ImmersedBoundaryMesh) : c_vector2 :=
  (list_sum (map (fun n => fst (mAppliedForce n)) (mNodes mesh)),
   list_sum (map (fun n => snd (mAppliedForce n)) (mNodes mesh))).

Lemma list_sum_app (l l' : list R) : list_sum (l ++ l') = list_sum l + list_sum l'.
Proof.
  induction l as [| a l IH]; [change (list_sum l' = 0 + list_sum l'); lra |].
  cbn [app]. rewrite !list_sum_cons, IH. lra.
Qed.

Lemma list_sum_map_sub {A : Type} (f g : A -> R) (l : list A) :
  list_sum (map (fun a => f a - g a) l) = list_sum (map f l) - list_sum (map g l).
Proof.
  induction l as [| a l IH]; [change (0 = 0 - 0); lra |].
  cbn [map]. rewrite !list_sum_cons, IH. lra.
Qed.

(** Around a cycle of [n] springs, what the springs before the nodes
    give is what the springs after the nodes give. *)
Lemma list_sum_cyclic_shift (f : nat -> R) (n : nat) :
  list_sum (map (fun i => f ((i + n - 1) mod n)%nat) (seq 0 n)) = list_sum (map f (seq 0 n)).
Proof.
  destruct n as [| k]; [reflexivity |].
  assert (list_sum (map f (seq 0 (S k))) = list_sum (map f (seq 0 k)) + f k) as ER.
  { rewrite seq_S, map_app, list_sum_app. cbn [Nat.add map]. rewrite list_sum_cons.
    change (list_sum []) with 0. lra. }
  rewrite ER. cbn [seq map]. rewrite list_sum_cons.
  replace ((0 + S k - 1) mod S k)%nat with k
    by (cbn [Nat.add]; rewrite Nat.sub_succ, Nat.sub_0_r, Nat.mod_small; lia).
  rewrite <- seq_shift, map_map.
  rewrite (map_ext_in _ f).
  - lra.
  - intros j Hj. apply in_seq in Hj. f_equal.
    replace (S j + S k - 1)%nat with (j + 1 * S k)%nat by lia.
    rewrite Nat.Div0.mod_add. apply Nat.mod_small. lia.
Qed.

Lemma total_applied_force_update_node (mesh : ImmersedBoundaryMesh) (g : nat)
    (force : c_vector2) :
  (g < GetNumNodes mesh)%nat ->
  total_applied_force (update_node mesh g (AddAppliedForceContribution force))
  = vadd (total_applied_force mesh) force.
Proof.
  unfold total_applied_force, update_node, GetNumNodes, vadd.
  cbn [mNodes set_mNodes fst snd].
  generalize (mNodes mesh) as nodes. intros nodes. revert g.
  induction nodes as [| n nodes IH]; intros g Hg; [cbn in Hg; lia |].
  destruct g as [| g].
  - cbn [list_update map]. rewrite !list_sum_cons. cbn [AddAppliedForceContribution
      mAppliedForce vadd fst snd]. f_equal; lra.
  - cbn [list_update map]. rewrite !list_sum_cons.
    cbn [length] in Hg. specialize (IH g ltac:(lia)).
    injection IH as IHx IHy. rewrite IHx, IHy. f_equal; lra.
Qed.

Lemma total_applied_force_add_forces global force idxs mesh :
  (forall i, In i idxs -> (global i < GetNumNodes mesh)%nat) ->
  total_applied_force (add_forces global force idxs mesh)
  = vadd (total_applied_force mesh)
         (list_sum (map (fun i => fst (force i)) idxs),
          list_sum (map (fun i => snd (force i)) idxs)).
Proof.
  revert mesh. induction idxs as [| i idxs IH]; intros mesh Hin.
  - cbn. unfold vadd. cbn [fst snd]. destruct (total_applied_force mesh). cbn. f_equal; lra.
  - unfold add_forces. cbn [fold_left].
    fold (add_forces global force idxs
            (update_node mesh (global i) (AddAppliedForceContribution (force i)))).
    rewrite IH by (intros j Hj; rewrite GetNumNodes_update_node; apply Hin; right; exact Hj).
    rewrite total_applied_force_update_node by (apply Hin; left; reflexivity).
    cbn [map]. rewrite !list_sum_cons. unfold vadd. cbn [fst snd]. f_equal; lra.
Qed.

Lemma membrane_force_on_element_total mesh elem :
  Forall (fun g => (g < GetNumNodes mesh)%nat) (elem_mNodes elem) ->
  total_applied_force (membrane_force_on_element mesh elem) = total_applied_force mesh.
Proof.
  intros Hvalid. rewrite membrane_force_on_element_add_forces.
  rewrite total_applied_force_add_forces.
  - unfold vsub. cbn [fst snd].
    rewrite !list_sum_map_sub.
    rewrite (list_sum_cyclic_shift
               (fun i => fst (elastic_force_to_next_node mesh elem i))).
    rewrite (list_sum_cyclic_shift
               (fun i => snd (elastic_force_to_next_node mesh elem i))).
    unfold vadd. destruct (total_applied_force mesh). cbn [fst snd]. f_equal; lra.
  - intros i Hi. apply in_seq in Hi. unfold elem_GetNodeGlobalIndex.
    apply (proj1 (Forall_forall _ _) Hvalid). apply nth_In. unfold elem_GetNumNodes in Hi. lia.
Qed.

(** X20.  The membrane elasticity force adds no net force: when the
    nodes of every element are nodes of the mesh and no edge of an
    element has length zero, the sum of the applied forces of the nodes
    is after [AddForceContribution] what it was before. *)
Theorem Membrane_AddForceContribution_no_net_force (mesh : ImmersedBoundaryMesh) :
  (forall elem, In elem (mElements mesh) ->
     Forall (fun g => (g < GetNumNodes mesh)%nat) (elem_mNodes elem) /\
     forall i, (i < elem_GetNumNodes elem)%nat ->
       norm_2 (GetVectorFromAtoB
                 (elem_GetNodeLocation mesh elem ((i + 1) mod elem_GetNumNodes elem)%nat)
                 (elem_GetNodeLocation mesh elem i)) <> 0) ->
  total_applied_force (Membrane_AddForceContribution mesh) = total_applied_force mesh.
Proof.
  intros Hvalid. unfold Membrane_AddForceContribution.
  assert (forall es mesh',
            GetNumNodes mesh' = GetNumNodes mesh ->
            (forall elem, In elem es -> In elem (mElements mesh)) ->
            total_applied_force (fold_left membrane_force_on_element es mesh')
            = total_applied_force mesh') as Hloop.
  { induction es as [| elem es IH]; intros mesh' Hnum Hes; [reflexivity |].
    cbn [fold_left]. rewrite IH.
    - apply membrane_force_on_element_total. rewrite Hnum.
      apply Hvalid, Hes. left. reflexivity.
    - rewrite <- Hnum. rewrite membrane_force_on_element_add_forces.
      apply add_forces_geometry.
    - intros e He. apply Hes. right. exact He. }
  apply Hloop; [reflexivity | intros elem He; exact He].
Qed.

Lemma Membrane_AddForceContribution_no_net_force_witness :
  (forall elem, In elem (mElements small_triangle_mesh) ->
     Forall (fun g => (g < GetNumNodes small_triangle_mesh)%nat) (elem_mNodes elem) /\
     forall i, (i < elem_GetNumNodes elem)%nat ->
       norm_2 (GetVectorFromAtoB
                 (elem_GetNodeLocation small_triangle_mesh elem
                    ((i + 1) mod elem_GetNumNodes elem)%nat)
                 (elem_GetNodeLocation small_triangle_mesh elem i)) <> 0) /\
  total_applied_force (Membrane_AddForceContribution small_triangle_mesh)
  = total_applied_force small_triangle_mesh.
Proof.
  assert (forall elem, In elem (mElements small_triangle_mesh) ->
     Forall (fun g => (g < GetNumNodes small_triangle_mesh)%nat) (elem_mNodes elem) /\
     forall i, (i < elem_GetNumNodes elem)%nat ->
       norm_2 (GetVectorFromAtoB
                 (elem_GetNodeLocation small_triangle_mesh elem
                    ((i + 1) mod elem_GetNumNodes elem)%nat)
                 (elem_GetNodeLocation small_triangle_mesh elem i)) <> 0) as Hvalid.
  { intros elem [<- | []]. split.
    - cbn. repeat constructor; lia.
    - intros i Hi. apply Rgt_not_eq, norm_2_positive.
      cbn in Hi.
      destruct i as [| [| [| i]]]; [| | | lia];
        cbn [triangle_element elem_GetNumNodes elem_mNodes length Nat.add Nat.modulo
             Nat.divmod fst snd Nat.sub elem_GetNodeLocation elem_GetNode
             elem_GetNodeGlobalIndex nth GetNode mNodes small_triangle_mesh triangle_node
             mLocation];
        rewrite GetVectorFromAtoB_near by (cbn [fst snd]; apply Rabs_le; lra);
        unfold vsub; cbn [fst snd]; lra. }
  split; [exact Hvalid |].
  exact (Membrane_AddForceContribution_no_net_force small_triangle_mesh Hvalid).
Defined.

(** ** What the cell-cell interaction force writes *)

(** A node without its applied force. *)
Definition node_but_force (n : Node) : nat * c_vector2 * nat * list R * list nat :=
  (mIndex n, mLocation n, mRegion n, mNodeAttributes n, mElementIndices n).

Lemma GetAverageNodeSpacingOfElement_outlines mesh index recalculate :
  element_outlines (fst (GetAverageNodeSpacingOfElement mesh index recalculate))
  = element_outlines mesh.
Proof.
  unfold GetAverageNodeSpacingOfElement.
  destruct recalculate, (mAverageNodeSpacing (GetElement mesh index)); try reflexivity;
    cbn [fst]; unfold element_outlines, update_element; cbn [mElements set_mElements];
    apply map_list_update_preserved; reflexivity.
Qed.

Lemma pair_forces_outlines force pop mesh pair force_a_to_b force_b_to_a mesh' :
  pair_forces force pop mesh pair = Some (force_a_to_b, force_b_to_a, mesh') ->
  element_outlines mesh' = element_outlines mesh.
Proof.
  unfold pair_forces.
  destruct (first_containing_element (GetNode mesh (fst pair))
            =? first_containing_element (GetNode mesh (snd pair)))%nat; [discriminate |].
  destruct (Rltb _ _); [| discriminate].
  pose proof (GetAverageNodeSpacingOfElement_outlines mesh
                (first_containing_element (GetNode mesh (fst pair))) false) as Ha.
  destruct (GetAverageNodeSpacingOfElement mesh
              (first_containing_element (GetNode mesh (fst pair))) false) as [mesh1 sa].
  pose proof (GetAverageNodeSpacingOfElement_outlines mesh1
                (first_containing_element (GetNode mesh (snd pair))) false) as Hb.
  destruct (GetAverageNodeSpacingOfElement mesh1
              (first_containing_element (GetNode mesh (snd pair))) false) as [mesh2 sb].
  simpl in Ha, Hb. intros H. inversion H; subst. congruence.
Qed.

Lemma pair_step_writes force pop mesh pair :
  let mesh' := pair_step force pop mesh pair in
  GetNumNodes mesh' = GetNumNodes mesh /\
  element_outlines mesh' = element_outlines mesh /\
  (forall g, node_but_force (GetNode mesh' g) = node_but_force (GetNode mesh g)) /\
  (forall g, fst pair <> g -> snd pair <> g -> GetNode mesh' g = GetNode mesh g).
Proof.
  unfold pair_step.
  destruct (pair_forces force pop mesh pair) as [[[fa fb] mesh1] |] eqn:E; cbv zeta;
    [| repeat split; reflexivity].
  pose proof (pair_forces_nodes _ _ _ _ _ _ _ E) as En.
  pose proof (pair_forces_outlines _ _ _ _ _ _ _ E) as Eo.
  assert (forall g, GetNode mesh1 g = GetNode mesh g) as Eg
    by (intros g; unfold GetNode; rewrite En; reflexivity).
  split; [| split; [| split]].
  - rewrite !GetNumNodes_update_node. unfold GetNumNodes. rewrite En. reflexivity.
  - rewrite <- Eo. reflexivity.
  - intros g. rewrite !(GetNode_update_node_preserved node_but_force) by reflexivity.
    rewrite Eg. reflexivity.
  - intros g Ha Hb. rewrite !GetNode_update_node_neq by assumption. apply Eg.
Qed.

Lemma pair_loop_writes force pop pairs mesh :
  let mesh' := fold_left (pair_step force pop) pairs mesh in
  GetNumNodes mesh' = GetNumNodes mesh /\
  element_outlines mesh' = element_outlines mesh /\
  (forall g, node_but_force (GetNode mesh' g) = node_but_force (GetNode mesh g)) /\
  (forall g, (forall pair, In pair pairs -> fst pair <> g /\ snd pair <> g) ->
             GetNode mesh' g = GetNode mesh g).
Proof.
  revert mesh. induction pairs as [| pair pairs IH]; intros mesh; cbv zeta.
  - repeat split; reflexivity.
  - cbn [fold_left].
    destruct (IH (pair_step force pop mesh pair)) as (N1 & O1 & P1 & F1).
    destruct (pair_step_writes force pop mesh pair) as (N0 & O0 & P0 & F0).
    cbv zeta in N1, O1, P1, F1, N0, O0, P0, F0.
    split; [congruence |]. split; [congruence |]. split.
    + intros g. rewrite P1. apply P0.
    + intros g Hg. rewrite F1 by (intros p Hp; apply Hg; right; exact Hp).
      destruct (Hg pair (or_introl eq_refl)) as [Ha Hb]. apply F0; assumption.
Qed.

(** X21.  Once its set-up has run, a call of the cell-cell interaction
    force returns, leaves the force object as it is, and writes to
    applied forces of nodes named in the pairs and to nothing else of a
    node: the nodes are as many, each keeps its index, location, region,
    attributes and containing elements, a node named in no pair is
    untouched, and the elements keep their indices and their nodes. *)
Theorem CellCell_force_writes_applied_forces_only (force : CellCellInteractionForce)
    (pop : ImmersedBoundaryCellPopulation) (rNodePairs : list (nat * nat)) :
  mProteinNodeAttributeLocations force <> [] ->
  let result := CellCell_AddImmersedBoundaryForceContribution force pop rNodePairs in
  let mesh := rGetMesh pop in
  let mesh' := rGetMesh (snd (fst result)) in
  snd result = Returned tt /\
  fst (fst result) = force /\
  GetNumNodes mesh' = GetNumNodes mesh /\
  element_outlines mesh' = element_outlines mesh /\
  (forall g, node_but_force (GetNode mesh' g) = node_but_force (GetNode mesh g)) /\
  (forall g, (forall pair, In pair rNodePairs -> fst pair <> g /\ snd pair <> g) ->
             GetNode mesh' g = GetNode mesh g).
Proof.
  intros Hset. unfold CellCell_AddImmersedBoundaryForceContribution.
  destruct (mProteinNodeAttributeLocations force) as [| location locations] eqn:E;
    [contradiction |].
  cbv zeta. cbn [fst snd rGetMesh set_rGetMesh].
  split; [reflexivity |]. split; [reflexivity |].
  apply pair_loop_writes.
Qed.

Lemma CellCell_force_writes_applied_forces_only_witness :
  let result :=
    CellCell_AddImmersedBoundaryForceContribution morse_force pair_population
      [(0%nat, 1%nat)] in
  let mesh := rGetMesh pair_population in
  let mesh' := rGetMesh (snd (fst result)) in
  snd result = Returned tt /\
  fst (fst result) = morse_force /\
  GetNumNodes mesh' = GetNumNodes mesh /\
  element_outlines mesh' = element_outlines mesh /\
  (forall g, node_but_force (GetNode mesh' g) = node_but_force (GetNode mesh g)) /\
  (forall g, (forall pair, In pair [(0%nat, 1%nat)] -> fst pair <> g /\ snd pair <> g) ->
             GetNode mesh' g = GetNode mesh g).
Proof.
  apply (CellCell_force_writes_applied_forces_only morse_force pair_population
           [(0%nat, 1%nat)]).
  discriminate.
Defined.

(** ** The set-up of the cell-cell interaction force *)

(** X22.  The set-up of the cell-cell interaction force refuses a
    population in which some node has another number of attributes than
    node 0: the call throws, no node has been given an attribute, and no
    attribute location has been recorded, so that the next call runs the
    set-up again; the rest length has been assigned all the same. *)
Theorem CellCell_set_up_rejects_uneven_attributes (force : CellCellInteractionForce)
    (pop : ImmersedBoundaryCellPopulation) (rNodePairs : list (nat * nat)) (n : Node) :
  mProteinNodeAttributeLocations force = [] ->
  In n (mNodes (rGetMesh pop)) ->
  length (mNodeAttributes n) <> length (mNodeAttributes (GetNode (rGetMesh pop) 0)) ->
  let result := CellCell_AddImmersedBoundaryForceContribution force pop rNodePairs in
  snd result = Threw NodeAttributesDiffer /\
  snd (fst result) = pop /\
  mProteinNodeAttributeLocations (fst (fst result)) = [] /\
  mRestLength (fst (fst result)) = 0.25 * GetInteractionDistance pop.
Proof.
  intros Hempty Hin Hlen. unfold CellCell_AddImmersedBoundaryForceContribution.
  rewrite Hempty. unfold CellCell_SetUp.
  assert (forallb
            (fun n0 => (length (mNodeAttributes n0)
                        =? length (mNodeAttributes (GetNode (rGetMesh pop) 0)))%nat)
            (mNodes (rGetMesh pop)) = false) as Hcheck.
  { apply not_true_is_false. intros Hall.
    rewrite forallb_forall in Hall. specialize (Hall n Hin).
    apply Nat.eqb_eq in Hall. contradiction. }
  rewrite Hcheck. cbv zeta. cbn [fst snd mProteinNodeAttributeLocations mRestLength].
  repeat split. exact Hempty.
Qed.

(** A cell of two nodes, of which only the second has an attribute. *)
Definition uneven_population : ImmersedBoundaryCellPopulation :=
  {| rGetMesh :=
       {| mNodes := [lamina_node 0 0 (0.5, 0.5);
                     {| mIndex := 1; mLocation := (0.5, 0.6); mRegion := 2;
                        mAppliedForce := zero_vector; mNodeAttributes := [7];
                        mElementIndices := [0%nat] |}];
          mElements := [{| elem_mIndex := 0; elem_mNodes := [0; 1]%nat;
                           mMembraneSpringConstant := 1; mMembraneRestLength := 0.05;
                           mAverageNodeSpacing := None; mElementAttributes := [];
                           mCornerNodes := []; mpFluidSource := None |}];
          mMembraneIndex := None;
          mElementDivisionSpacing := None;
          mCharacteristicNodeSpacing := 0.1;
          mElementFluidSources := [];
          mBalancingFluidSources := [] |};
     GetInteractionDistance := 0.1;
     GetIntrinsicSpacing := 0.01 |}.

Lemma CellCell_set_up_rejects_uneven_attributes_witness :
  let result :=
    CellCell_AddImmersedBoundaryForceContribution new_cell_cell_force uneven_population [] in
  snd result = Threw NodeAttributesDiffer /\
  snd (fst result) = uneven_population /\
  mProteinNodeAttributeLocations (fst (fst result)) = [] /\
  mRestLength (fst (fst result)) = 0.25 * GetInteractionDistance uneven_population.
Proof.
  apply (CellCell_set_up_rejects_uneven_attributes new_cell_cell_force uneven_population []
           (GetNode (rGetMesh uneven_population) 1)).
  - reflexivity.
  - right. left. reflexivity.
  - cbn. lia.
Defined.

Lemma AddNodeAttributes_times (count : nat) (n : Node) :
  length (mNodeAttributes
            (fold_left (fun n (_ : nat) => AddNodeAttribute 0.0 n) (seq 0 count) n))
  = (length (mNodeAttributes n) + count)%nat.
Proof.
  generalize 0%nat as start. revert n.
  induction count as [| count IH]; intros n start; [cbn; lia |].
  cbn [seq fold_left]. rewrite IH. unfold AddNodeAttribute. cbn [mNodeAttributes
    set_mNodeAttributes]. rewrite length_app. cbn [length]. lia.
Qed.

Lemma add_protein_levels_length force e_cad p_cad integrin n :
  length (mNodeAttributes (add_protein_levels force e_cad p_cad integrin n))
  = length (mNodeAttributes n).
Proof.
  unfold add_protein_levels. cbn [mNodeAttributes set_mNodeAttributes].
  rewrite !list_update_length. reflexivity.
Qed.

Lemma update_nodes_preserved {T : Type} (proj : Node -> T) global f idxs mesh g :
  (forall i n, proj (f i n) = proj n) ->
  proj (GetNode (update_nodes global f idxs mesh) g) = proj (GetNode mesh g).
Proof.
  intros Hf. revert mesh. induction idxs as [| i idxs IH]; intros mesh; [reflexivity |].
  unfold update_nodes. cbn [fold_left].
  fold (update_nodes global f idxs (update_node mesh (global i) (f i))).
  rewrite IH. apply GetNode_update_node_preserved. apply Hf.
Qed.

Lemma InitializeProteinLevels_length force mesh g :
  length (mNodeAttributes (GetNode (InitializeProteinLevels force mesh) g))
  = length (mNodeAttributes (GetNode mesh g)).
Proof.
  unfold InitializeProteinLevels.
  generalize (seq 0 (GetNumElements mesh)) as elem_idxs. intros elem_idxs. revert mesh.
  induction elem_idxs as [| elem_idx elem_idxs IH]; intros mesh; [reflexivity |].
  cbn [fold_left]. rewrite IH, InitializeProteinLevels_element_eq.
  apply (update_nodes_preserved (fun n => length (mNodeAttributes n))).
  intros _ n. apply add_protein_levels_length.
Qed.

(** X23.  The set-up of the cell-cell interaction force runs once: after
    a first call that returns, on a force of at least one protein, the
    attribute locations recorded are the numbers that follow the
    attributes the nodes had, every node has that many attributes more,
    and a second call returns without changing the force object or the
    attributes of any node. *)
Theorem CellCell_set_up_runs_once (force : CellCellInteractionForce)
    (pop : ImmersedBoundaryCellPopulation) (rNodePairs rNodePairs' : list (nat * nat)) :
  mProteinNodeAttributeLocations force = [] ->
  (0 < mNumProteins force)%nat ->
  let first := CellCell_AddImmersedBoundaryForceContribution force pop rNodePairs in
  snd first = Returned tt ->
  let force1 := fst (fst first) in
  let pop1 := snd (fst first) in
  let second := CellCell_AddImmersedBoundaryForceContribution force1 pop1 rNodePairs' in
  let num_node_attributes := length (mNodeAttributes (GetNode (rGetMesh pop) 0)) in
  mProteinNodeAttributeLocations force1
  = map (fun protein_idx => (num_node_attributes + protein_idx)%nat)
        (seq 0 (mNumProteins force)) /\
  (forall g, (g < GetNumNodes (rGetMesh pop))%nat ->
             length (mNodeAttributes (GetNode (rGetMesh pop1) g))
             = (num_node_attributes + mNumProteins force)%nat) /\
  snd second = Returned tt /\
  fst (fst second) = force1 /\
  (forall g, mNodeAttributes (GetNode (rGetMesh (snd (fst second))) g)
             = mNodeAttributes (GetNode (rGetMesh pop1) g)).
Proof.
  intros Hempty Hproteins first Hreturned force1 pop1 second num_node_attributes.
  unfold first, CellCell_AddImmersedBoundaryForceContribution in Hreturned.
  rewrite Hempty in Hreturned. unfold CellCell_SetUp in Hreturned.
  assert (mProteinNodeAttributeLocations force1
          = map (fun protein_idx => (num_node_attributes + protein_idx)%nat)
                (seq 0 (mNumProteins force)) /\
          forall g, (g < GetNumNodes (rGetMesh pop))%nat ->
                    length (mNodeAttributes (GetNode (rGetMesh pop1) g))
                    = (num_node_attributes + mNumProteins force)%nat) as [Hlocations Hlengths].
  { unfold force1, pop1, first, CellCell_AddImmersedBoundaryForceContribution.
    rewrite Hempty. unfold CellCell_SetUp.
    fold num_node_attributes. fold num_node_attributes in Hreturned.
    destruct (forallb _ (mNodes (rGetMesh pop))) eqn:Hcheck; [| discriminate].
    cbv zeta. cbn [fst snd mProteinNodeAttributeLocations mNumProteins rGetMesh set_rGetMesh].
    rewrite Hempty. split; [reflexivity |].
    intros g Hg. rewrite pair_loop_attributes, InitializeProteinLevels_length.
    unfold GetNode at 1. cbn [mNodes set_mNodes].
    rewrite (nth_indep _ null_node
               (fold_left (fun n (_ : nat) => AddNodeAttribute 0.0 n)
                          (seq 0 (mNumProteins force)) null_node))
      by (rewrite length_map; exact Hg).
    rewrite (map_nth (fun n => fold_left (fun n (_ : nat) => AddNodeAttribute 0.0 n)
                                         (seq 0 (mNumProteins force)) n)).
    rewrite AddNodeAttributes_times. f_equal.
    rewrite forallb_forall in Hcheck.
    apply Nat.eqb_eq, Hcheck, nth_In. exact Hg. }
  split; [exact Hlocations |]. split; [exact Hlengths |].
  assert (mProteinNodeAttributeLocations force1 <> []) as Hset.
  { rewrite Hlocations. destruct (mNumProteins force); [lia | discriminate]. }
  unfold second, CellCell_AddImmersedBoundaryForceContribution.
  destruct (mProteinNodeAttributeLocations force1) as [| location locations];
    [contradiction |].
  cbv zeta. cbn [fst snd rGetMesh set_rGetMesh].
  split; [reflexivity |]. split; [reflexivity |].
  intros g. apply pair_loop_attributes.
Qed.

Lemma CellCell_set_up_runs_once_witness :
  let first :=
    CellCell_AddImmersedBoundaryForceContribution new_cell_cell_force lamina_population [] in
  let force1 := fst (fst first) in
  let pop1 := snd (fst first) in
  let second :=
    CellCell_AddImmersedBoundaryForceContribution force1 pop1 [(0%nat, 1%nat)] in
  let num_node_attributes :=
    length (mNodeAttributes (GetNode (rGetMesh lamina_population) 0)) in
  mProteinNodeAttributeLocations force1
  = map (fun protein_idx => (num_node_attributes + protein_idx)%nat)
        (seq 0 (mNumProteins new_cell_cell_force)) /\
  (forall g, (g < GetNumNodes (rGetMesh lamina_population))%nat ->
             length (mNodeAttributes (GetNode (rGetMesh pop1) g))
             = (num_node_attributes + mNumProteins new_cell_cell_force)%nat) /\
  snd second = Returned tt /\
  fst (fst second) = force1 /\
  (forall g, mNodeAttributes (GetNode (rGetMesh (snd (fst second))) g)
             = mNodeAttributes (GetNode (rGetMesh pop1) g)).
Proof.
  apply (CellCell_set_up_runs_once new_cell_cell_force lamina_population []
           [(0%nat, 1%nat)]).
  - reflexivity.
  - cbn. lia.
  - reflexivity.
Defined.

(** ** Clearing the forces *)

Lemma clear_cells_zero (cells : list (nat * nat)) (grids : grid R * grid R) (ny nx : nat) :
  let clear_cell (grids : grid R * grid R) (cell : nat * nat) :=
    (grid_update (fun _ => 0.0) (fst cell) (snd cell) (fst grids),
     grid_update (fun _ => 0.0) (fst cell) (snd cell) (snd grids)) in
  let grids' := fold_left clear_cell cells grids in
  grid_wf (fst grids) ny nx -> grid_wf (snd grids) ny nx ->
  (grid_wf (fst grids') ny nx /\ grid_wf (snd grids') ny nx) /\
  forall y x, (y < ny)%nat -> (x < nx)%nat ->
    (In (y, x) cells \/ grid_get 0 (fst grids) y x = 0) ->
    (In (y, x) cells \/ grid_get 0 (snd grids) y x = 0) ->
    grid_get 0 (fst grids') y x = 0 /\ grid_get 0 (snd grids') y x = 0.
Proof.
  intros clear_cell. revert grids.
  induction cells as [| cell cells IH]; intros grids grids' Wx Wy.
  - split; [split; assumption |]. intros y x _ _ [[] | Hx] [[] | Hy]. split; assumption.
  - destruct (IH (clear_cell grids cell)) as [W Hzero].
    { unfold clear_cell. cbn [fst]. apply grid_wf_update. exact Wx. }
    { unfold clear_cell. cbn [snd]. apply grid_wf_update. exact Wy. }
    split; [exact W |].
    intros y x Hy Hx Hfst Hsnd.
    destruct (Nat.eq_dec y (fst cell)) as [Ey | Ny];
      [destruct (Nat.eq_dec x (snd cell)) as [Ex | Nx] |].
    + subst y x. apply Hzero; try assumption; right; unfold clear_cell; cbn [fst snd].
      * rewrite (grid_get_update_eq _ _ _ _ _ ny nx) by assumption. lra.
      * rewrite (grid_get_update_eq _ _ _ _ _ ny nx) by assumption. lra.
    + apply Hzero; try assumption.
      * destruct Hfst as [[Hc | Hin] | Hold]; [subst cell; cbn in Nx; lia | left; exact Hin |].
        right. unfold clear_cell. cbn [fst]. rewrite grid_get_update_neq by (right; exact Nx).
        exact Hold.
      * destruct Hsnd as [[Hc | Hin] | Hold]; [subst cell; cbn in Nx; lia | left; exact Hin |].
        right. unfold clear_cell. cbn [snd]. rewrite grid_get_update_neq by (right; exact Nx).
        exact Hold.
    + apply Hzero; try assumption.
      * destruct Hfst as [[Hc | Hin] | Hold]; [subst cell; cbn in Ny; lia | left; exact Hin |].
        right. unfold clear_cell. cbn [fst]. rewrite grid_get_update_neq by (left; exact Ny).
        exact Hold.
      * destruct Hsnd as [[Hc | Hin] | Hold]; [subst cell; cbn in Ny; lia | left; exact Hin |].
        right. unfold clear_cell. cbn [snd]. rewrite grid_get_update_neq by (left; exact Ny).
        exact Hold.
Qed.

Lemma zero_grid_is_SetupGrid (m : SimulationModifier) (g : grid R) :
  grid_wf g (Z.to_nat (mNumGridPtsY m)) (Z.to_nat (mNumGridPtsX m)) ->
  (forall y x, (y < Z.to_nat (mNumGridPtsY m))%nat -> (x < Z.to_nat (mNumGridPtsX m))%nat ->
               grid_get 0 g y x = 0) ->
  g = SetupGrid 0 m.
Proof.
  intros [Hlen Hrows] Hzero. unfold SetupGrid.
  apply (nth_ext _ _ [] []); [rewrite repeat_length; exact Hlen |].
  intros y Hy. rewrite Hlen in Hy.
  rewrite (nth_indep (repeat (repeat 0 (Z.to_nat (mNumGridPtsX m)))
                             (Z.to_nat (mNumGridPtsY m)))
                     [] (repeat 0 (Z.to_nat (mNumGridPtsX m))))
    by (rewrite repeat_length; exact Hy).
  rewrite nth_repeat.
  apply (nth_ext _ _ 0 0); [rewrite repeat_length; apply Hrows; exact Hy |].
  intros x Hx. rewrite (Hrows y Hy) in Hx. rewrite nth_repeat.
  apply (Hzero y x Hy Hx).
Qed.

(** X24.  [ClearForces] puts the two force grids back into the state in
    which [SetupGrid] made them, every cell zero, and leaves every node
    with no applied force and otherwise as it was. *)
Theorem ClearForces_resets (m : SimulationModifier) (mesh : ImmersedBoundaryMesh)
    (grids : grid R * grid R) :
  grid_wf (fst grids) (Z.to_nat (mNumGridPtsY m)) (Z.to_nat (mNumGridPtsX m)) ->
  grid_wf (snd grids) (Z.to_nat (mNumGridPtsY m)) (Z.to_nat (mNumGridPtsX m)) ->
  let result := ClearForces m mesh grids in
  snd result = (SetupGrid 0 m, SetupGrid 0 m) /\
  GetNumNodes (fst result) = GetNumNodes mesh /\
  mElements (fst result) = mElements mesh /\
  forall g, mAppliedForce (GetNode (fst result) g) = zero_vector /\
            node_but_force (GetNode (fst result) g) = node_but_force (GetNode mesh g).
Proof.
  intros Wx Wy result. unfold result, ClearForces. cbn [fst snd].
  split; [| split; [| split]].
  - match goal with
    | |- fold_left ?step ?cells grids = _ =>
        destruct (clear_cells_zero cells grids _ _ Wx Wy) as [[Wx' Wy'] Hzero]
    end.
    cbv zeta in Wx', Wy', Hzero.
    match goal with
    | |- ?g = _ => rewrite (surjective_pairing g)
    end.
    f_equal; apply zero_grid_is_SetupGrid; try assumption; intros y x Hy Hx;
      apply Hzero; try assumption; left; apply in_flat_map; exists y;
      (split; [apply in_seq; lia | apply in_map, in_seq; lia]).
  - unfold GetNumNodes. cbn [mNodes set_mNodes]. apply length_map.
  - reflexivity.
  - intros g. unfold GetNode. cbn [mNodes set_mNodes].
    destruct (Nat.lt_ge_cases g (length (mNodes mesh))) as [Hlt | Hge].
    + rewrite (nth_indep _ null_node (ClearAppliedForce null_node))
        by (rewrite length_map; exact Hlt).
      rewrite (map_nth ClearAppliedForce). split; reflexivity.
    + rewrite !nth_overflow; [split; reflexivity | exact Hge | rewrite length_map; exact Hge].
Qed.

Lemma ClearForces_resets_witness :
  let m := SetMemberVariables 2 2 1 in
  let grids := ([[1; 2]; [3; 4]], [[5; 6]; [7; 8]]) in
  let result := ClearForces m pair_mesh grids in
  snd result = (SetupGrid 0 m, SetupGrid 0 m) /\
  GetNumNodes (fst result) = GetNumNodes pair_mesh /\
  mElements (fst result) = mElements pair_mesh /\
  forall g, mAppliedForce (GetNode (fst result) g) = zero_vector /\
            node_but_force (GetNode (fst result) g) = node_but_force (GetNode pair_mesh g).
Proof.
  apply (ClearForces_resets (SetMemberVariables 2 2 1) pair_mesh
           ([[1; 2]; [3; 4]], [[5; 6]; [7; 8]])).
  - split; [reflexivity |]. intros [| [| y]] Hy; try reflexivity. cbn in Hy. lia.
  - split; [reflexivity |]. intros [| [| y]] Hy; try reflexivity. cbn in Hy. lia.
Defined.

(** ** The delta function *)

Lemma cos_2PI_period (x : R) : cos (x + 2 * PI) = cos x.
Proof.
  replace (x + 2 * PI) with (x + 2 * IZR 1 * PI) by ring. apply cos_period_Z.
Qed.

(** X25.  [Delta1D] lies between 0 and [1 / (2 spacing)], which it takes
    at distance 0; it is 0 at distance two spacings; and it has no
    cut-off: it repeats itself every four spacings. *)
Theorem Delta1D_shape (dist spacing : R) :
  0 < spacing ->
  0 <= Delta1D dist spacing <= 1 / (2 * spacing) /\
  Delta1D 0 spacing = 1 / (2 * spacing) /\
  Delta1D (2 * spacing) spacing = 0 /\
  Delta1D (dist + 4 * spacing) spacing = Delta1D dist spacing.
Proof.
  intros Hs. unfold Delta1D.
  assert (0 < / spacing) as Hinv by (apply Rinv_0_lt_compat; exact Hs).
  split; [| split; [| split]].
  - pose proof (COS_bound (PI * dist / (2 * spacing))) as [Hlow Hhigh].
    set (c := cos (PI * dist / (2 * spacing))) in *. clearbody c.
    replace (1 / (2 * spacing)) with (0.25 * (1.0 + 1) * / spacing) by real_eq.
    unfold Rdiv. split.
    + apply Rmult_le_pos; [lra | lra].
    + apply Rmult_le_compat_r; lra.
  - replace (PI * 0 / (2 * spacing)) with 0 by (field; lra).
    rewrite cos_0. real_eq.
  - replace (PI * (2 * spacing) / (2 * spacing)) with PI by (field; lra).
    rewrite cos_PI. real_eq.
  - replace (PI * (dist + 4 * spacing) / (2 * spacing))
      with (PI * dist / (2 * spacing) + 2 * PI) by (field; lra).
    rewrite cos_2PI_period. reflexivity.
Qed.

Lemma Delta1D_shape_witness :
  0 <= Delta1D 0.3 0.25 <= 1 / (2 * 0.25) /\
  Delta1D 0 0.25 = 1 / (2 * 0.25) /\
  Delta1D (2 * 0.25) 0.25 = 0 /\
  Delta1D (0.3 + 4 * 0.25) 0.25 = Delta1D 0.3 0.25.
Proof.
  apply (Delta1D_shape 0.3 0.25). lra.
Defined.


(** ** The constructor of the mesh *)

(** The loop of the balancing sources, entered for the [j]-th time on a
    grid of [N] points in x: it places the sources [j], [j+1], ... while
    [4 j < N]. *)
Lemma place_balancing_sources_spec (N : Z) (d j : nat) (current_location : R)
    (sources : list FluidSource) (fuel : nat) :
  (0 < N)%Z ->
  let balancing_source_spacing := 4.0 / IZR N in
  let num_sources := Z.to_nat ((N + 3) / 4) in
  (j + d = num_sources)%nat -> (d < fuel)%nat ->
  current_location
  = balancing_source_spacing / 8.0 + IZR (Z.of_nat j) * balancing_source_spacing ->
  exists result,
    place_balancing_sources balancing_source_spacing current_location sources fuel
    = Some result /\
    map source_mLocation result
    = map source_mLocation sources
      ++ map (fun k => ((4 * IZR (Z.of_nat k) + 0.5) / IZR N, 0)) (seq j d) /\
    map source_mIndex result = map source_mIndex sources ++ seq (length sources) d.
Proof.
  intros HN balancing_source_spacing num_sources.
  assert (0 < IZR N) as HNR by (apply IZR_lt; exact HN).
  assert (4 * Z.of_nat num_sources - 3 <= N <= 4 * Z.of_nat num_sources)%Z as Hq.
  { unfold num_sources. rewrite Z2Nat.id by (apply Z.div_pos; lia).
    pose proof (Z.div_mod (N + 3) 4 ltac:(lia)) as Hdiv.
    pose proof (Z.mod_pos_bound (N + 3) 4 ltac:(lia)) as Hmod. lia. }
  assert (forall k : nat,
            balancing_source_spacing / 8.0 + IZR (Z.of_nat k) * balancing_source_spacing
            = (4 * IZR (Z.of_nat k) + 0.5) / IZR N) as Hloc.
  { intros k. unfold balancing_source_spacing. real_eq. }
  revert j current_location sources fuel.
  induction d as [| d IH]; intros j current_location sources fuel Hj Hfuel Hcurrent;
    (destruct fuel as [| fuel]; [lia |]); cbn [place_balancing_sources].
  - rewrite Rltb_false.
    + exists sources. cbn [seq map]. rewrite !app_nil_r. repeat split.
    + rewrite Hcurrent, Hloc.
      apply (Rmult_le_reg_r (IZR N)); [exact HNR |].
      unfold Rdiv. rewrite Rmult_assoc, Rinv_l by lra.
      assert (IZR N <= 4 * IZR (Z.of_nat j)) as Hle.
      { rewrite <- mult_IZR. apply IZR_le. lia. }
      lra.
  - rewrite Rltb_true.
    + destruct (IH (S j) (current_location + balancing_source_spacing)
                  (sources ++ [new_FluidSource (length sources) (current_location, 0)]) fuel)
        as (result & Hresult & Hlocations & Hindices); [lia | lia | |].
      * rewrite Hcurrent, Nat2Z.inj_succ, succ_IZR. ring.
      * exists result. split; [exact Hresult |].
        rewrite Hlocations, Hindices, !map_app, length_app. cbn [map length seq
          source_mLocation source_mIndex new_FluidSource].
        rewrite <- !app_assoc. cbn [app].
        rewrite Hcurrent, Hloc.
        replace (length sources + 1)%nat with (S (length sources)) by lia.
        split; reflexivity.
    + rewrite Hcurrent, Hloc.
      apply (Rmult_lt_reg_r (IZR N)); [exact HNR |].
      unfold Rdiv. rewrite Rmult_assoc, Rinv_l by lra.
      assert (4 * IZR (Z.of_nat j) + 1 <= IZR N) as Hle.
      { rewrite <- mult_IZR, <- plus_IZR. apply IZR_le. lia. }
      lra.
Qed.

(** The element fluid source the constructor makes. *)
Definition element_source (index : nat) (location : c_vector2) (element_index : nat)
  : FluidSource :=
  {| source_mIndex := index; source_mLocation := location; source_mStrength := 0.0;
     source_mAssociatedElementIndex := Some element_index |}.

(** What the loop over the elements keeps, and where it places the
    sources, for positions in the vector of elements that are distinct. *)
Definition needs_source (mesh : ImmersedBoundaryMesh) (elem_it : nat) : bool :=
  negb (is_membrane_index mesh (elem_mIndex (GetElement mesh elem_it))).

Lemma place_fluid_source_keeps mesh elem_it :
  let mesh' := place_fluid_source mesh elem_it in
  mesh_settings (set_mElementFluidSources mesh' []) = mesh_settings (set_mElementFluidSources mesh [])
  /\ mNodes mesh' = mNodes mesh
  /\ element_outlines mesh' = element_outlines mesh
  /\ (forall j, j <> elem_it -> GetElement mesh' j = GetElement mesh j)
  /\ mElementFluidSources mesh'
     = mElementFluidSources mesh
       ++ (if needs_source mesh elem_it
           then [element_source (length (mElementFluidSources mesh))
                   (GetCentroidOfElement mesh (elem_mIndex (GetElement mesh elem_it)))
                   (elem_mIndex (GetElement mesh elem_it))]
           else [])
  /\ ((elem_it < GetNumElements mesh)%nat ->
      mpFluidSource (GetElement mesh' elem_it)
      = if needs_source mesh elem_it then Some (length (mElementFluidSources mesh))
        else mpFluidSource (GetElement mesh elem_it)).
Proof.
  unfold place_fluid_source, needs_source.
  destruct (is_membrane_index mesh (elem_mIndex (GetElement mesh elem_it))); cbv zeta;
    cbn [negb].
  - rewrite app_nil_r. repeat split; reflexivity.
  - split; [reflexivity |]. split; [reflexivity |]. split; [| split; [| split]].
    + unfold element_outlines, update_element. cbn [mElements set_mElements
        set_mElementFluidSources]. apply map_list_update_preserved. reflexivity.
    + intros j Hj. unfold GetElement, update_element. cbn [mElements set_mElements
        set_mElementFluidSources]. apply nth_list_update_neq. lia.
    + reflexivity.
    + intros Hlt. rewrite GetElement_update_element_eq by exact Hlt. reflexivity.
Qed.

(** Two meshes with the same nodes, membrane index and outlines of
    elements. *)
Definition same_cells (mesh mesh' : ImmersedBoundaryMesh) : Prop :=
  mNodes mesh' = mNodes mesh /\
  mMembraneIndex mesh' = mMembraneIndex mesh /\
  element_outlines mesh' = element_outlines mesh.

Lemma same_cells_trans m1 m2 m3 : same_cells m1 m2 -> same_cells m2 m3 -> same_cells m1 m3.
Proof. intros (A1 & B1 & C1) (A2 & B2 & C2). repeat split; congruence. Qed.

Lemma same_cells_reads mesh mesh' :
  same_cells mesh mesh' ->
  GetNumElements mesh' = GetNumElements mesh /\
  (forall j, elem_mIndex (GetElement mesh' j) = elem_mIndex (GetElement mesh j) /\
             elem_mNodes (GetElement mesh' j) = elem_mNodes (GetElement mesh j)) /\
  (forall index, GetCentroidOfElement mesh' index = GetCentroidOfElement mesh index) /\
  (forall j, needs_source mesh' j = needs_source mesh j).
Proof.
  intros (Hn & Hm & Ho).
  assert (forall j, element_outline (GetElement mesh' j) = element_outline (GetElement mesh j))
    as Hj.
  { intros j. unfold GetElement.
    rewrite <- !(map_nth element_outline). unfold element_outlines in Ho. rewrite Ho.
    reflexivity. }
  assert (forall j, elem_mIndex (GetElement mesh' j) = elem_mIndex (GetElement mesh j) /\
                    elem_mNodes (GetElement mesh' j) = elem_mNodes (GetElement mesh j)) as Hj'.
  { intros j. specialize (Hj j). unfold element_outline in Hj. injection Hj as H1 H2.
    split; assumption. }
  split; [| split; [exact Hj' | split]].
  - unfold GetNumElements. rewrite <- (length_map element_outline (mElements mesh')).
    unfold element_outlines in Ho. rewrite Ho. apply length_map.
  - intros index. apply GetCentroidOfElement_ext; [exact Hn | exact Hm | apply Hj'].
  - intros j. unfold needs_source, is_membrane_index. rewrite Hm, (proj1 (Hj' j)). reflexivity.
Qed.

Lemma place_fluid_source_same_cells mesh elem_it :
  same_cells mesh (place_fluid_source mesh elem_it).
Proof.
  destruct (place_fluid_source_keeps mesh elem_it) as (Hs & Hn & Ho & _).
  cbv zeta in Hs, Hn, Ho. split; [exact Hn |]. split; [| exact Ho].
  exact (f_equal (fun t => fst (fst (fst (fst t)))) Hs).
Qed.

Lemma place_fluid_sources_loop (idxs : list nat) (mesh : ImmersedBoundaryMesh) :
  NoDup idxs -> (forall i, In i idxs -> (i < GetNumElements mesh)%nat) ->
  let mesh' := fold_left place_fluid_source idxs mesh in
  same_cells mesh mesh' /\
  mesh_settings (set_mElementFluidSources mesh' [])
  = mesh_settings (set_mElementFluidSources mesh []) /\
  (forall j, ~ In j idxs -> GetElement mesh' j = GetElement mesh j) /\
  length (mElementFluidSources mesh')
  = (length (mElementFluidSources mesh) + length (filter (needs_source mesh) idxs))%nat /\
  (forall k default, (k < length (mElementFluidSources mesh))%nat ->
     nth k (mElementFluidSources mesh') default = nth k (mElementFluidSources mesh) default) /\
  (forall i, In i idxs ->
     if needs_source mesh i
     then exists k,
            (length (mElementFluidSources mesh) <= k < length (mElementFluidSources mesh'))%nat /\
            mpFluidSource (GetElement mesh' i) = Some k /\
            forall default,
              nth k (mElementFluidSources mesh') default
              = element_source k
                  (GetCentroidOfElement mesh (elem_mIndex (GetElement mesh i)))
                  (elem_mIndex (GetElement mesh i))
     else mpFluidSource (GetElement mesh' i) = mpFluidSource (GetElement mesh i)).
Proof.
  revert mesh. induction idxs as [| i idxs IH]; intros mesh Hnd Hlt; cbv zeta.
  - cbn [fold_left filter length]. rewrite Nat.add_0_r.
    repeat split; try reflexivity. intros i [].
  - inversion Hnd as [| ? ? Hnotin Hnd']; subst.
    cbn [fold_left].
    set (mesh1 := place_fluid_source mesh i).
    pose proof (place_fluid_source_same_cells mesh i) as C1. fold mesh1 in C1.
    destruct (same_cells_reads _ _ C1) as (N1 & E1 & G1 & S1).
    destruct (place_fluid_source_keeps mesh i) as (K1 & _ & _ & F1 & A1 & P1).
    cbv zeta in K1, F1, A1, P1. fold mesh1 in K1, F1, A1, P1.
    specialize (P1 (Hlt i (or_introl eq_refl))).
    destruct (IH mesh1 Hnd') as (C2 & K2 & F2 & L2 & X2 & P2).
    { intros j Hj. rewrite N1. apply Hlt. right. exact Hj. }
    cbv zeta in C2, K2, F2, L2, X2, P2.
    set (mesh' := fold_left place_fluid_source idxs mesh1) in *.
    assert (length (mElementFluidSources mesh1)
            = (length (mElementFluidSources mesh)
               + (if needs_source mesh i then 1 else 0))%nat) as L1.
    { rewrite A1, length_app. destruct (needs_source mesh i); reflexivity. }
    split; [apply (same_cells_trans _ mesh1); assumption |].
    split; [congruence |].
    split; [| split; [| split]].
    + intros j Hj. rewrite F2 by (intros Hin; apply Hj; right; exact Hin).
      apply F1. intros E. apply Hj. left. symmetry. exact E.
    + rewrite L2, L1. cbn [filter].
      rewrite (filter_ext_in (needs_source mesh1) (needs_source mesh))
        by (intros j _; apply S1).
      destruct (needs_source mesh i); cbn [length]; lia.
    + intros k default Hk. rewrite X2 by lia. rewrite A1. apply app_nth1. exact Hk.
    + intros j [<- | Hj].
      * rewrite (F2 i Hnotin), P1.
        destruct (needs_source mesh i) eqn:Hneeds; [| reflexivity].
        exists (length (mElementFluidSources mesh)).
        split; [lia |]. split; [reflexivity |].
        intros default. rewrite X2 by lia. rewrite A1.
        rewrite app_nth2 by lia. rewrite Nat.sub_diag. reflexivity.
      * specialize (P2 j Hj). rewrite S1 in P2.
        assert (i <> j) as Hij by (intros E; subst j; contradiction).
        rewrite (F1 j ltac:(lia)) in P2.
        destruct (needs_source mesh j); [| exact P2].
        destruct P2 as (k & Hk & Hsource & Hnth).
        exists k. split; [lia |]. split; [exact Hsource |].
        intros default. rewrite Hnth, G1. reflexivity.
Qed.

Lemma set_insert_In (i x : nat) (s : list nat) :
  In x (set_insert i s) <-> x = i \/ In x s.
Proof.
  induction s as [| j s IH]; cbn [set_insert].
  - cbn. intuition.
  - destruct (i <? j)%nat; [cbn; intuition |].
    destruct (Nat.eqb_spec i j) as [-> | Hne]; [cbn; intuition |].
    cbn [In]. rewrite IH. intuition.
Qed.

(** The registrations of the constructor, as pairs of a node and the
    index of an element that holds it. *)
Definition registrations (elements : list ImmersedBoundaryElement) : list (nat * nat) :=
  flat_map (fun e => map (fun g => (g, elem_mIndex e)) (elem_mNodes e)) elements.

Definition register (mesh : ImmersedBoundaryMesh) (pairs : list (nat * nat))
  : ImmersedBoundaryMesh :=
  fold_left (fun mesh p => update_node mesh (fst p) (AddElement (snd p))) pairs mesh.

Lemma register_app mesh pairs pairs' :
  register mesh (pairs ++ pairs') = register (register mesh pairs) pairs'.
Proof. apply fold_left_app. Qed.

Lemma register_keeps mesh pairs :
  mElements (register mesh pairs) = mElements mesh /\
  mesh_settings (register mesh pairs) = mesh_settings mesh /\
  GetNumNodes (register mesh pairs) = GetNumNodes mesh.
Proof.
  revert mesh. induction pairs as [| p pairs IH]; intros mesh; [repeat split |].
  unfold register. cbn [fold_left].
  fold (register (update_node mesh (fst p) (AddElement (snd p))) pairs).
  destruct (IH (update_node mesh (fst p) (AddElement (snd p)))) as (E & S & N).
  rewrite E, S, N, GetNumNodes_update_node. repeat split.
Qed.

Lemma register_loop_eq (l : list nat) (element_index : nat) (idxs : list nat) mesh :
  fold_left
    (fun mesh node_index => update_node mesh (nth node_index l 0%nat) (AddElement element_index))
    idxs mesh
  = register mesh (map (fun node_index => (nth node_index l 0%nat, element_index)) idxs).
Proof.
  revert mesh. induction idxs as [| i idxs IH]; intros mesh; [reflexivity |].
  unfold register. cbn [fold_left map fst snd]. apply IH.
Qed.

Lemma register_element_with_nodes_eq mesh index :
  register_element_with_nodes mesh index
  = register mesh (map (fun g => (g, elem_mIndex (GetElement mesh index)))
                       (elem_mNodes (GetElement mesh index))).
Proof.
  unfold register_element_with_nodes, elem_GetNumNodes, elem_GetNodeGlobalIndex.
  cbv zeta. rewrite register_loop_eq. f_equal.
  rewrite <- (map_map (fun node_index => nth node_index (elem_mNodes (GetElement mesh index)) 0%nat)
                      (fun g => (g, elem_mIndex (GetElement mesh index)))).
  rewrite map_nth_seq. reflexivity.
Qed.

Lemma register_elements_with_nodes_eq mesh :
  register_elements_with_nodes mesh = register mesh (registrations (mElements mesh)).
Proof.
  unfold register_elements_with_nodes, registrations, GetNumElements.
  assert (forall done todo mesh0,
            mElements mesh0 = done ++ todo ->
            fold_left register_element_with_nodes (seq (length done) (length todo)) mesh0
            = register mesh0
                (flat_map (fun e => map (fun g => (g, elem_mIndex e)) (elem_mNodes e)) todo))
    as Hloop.
  { intros done todo. revert done.
    induction todo as [| e todo IH]; intros done mesh0 Hsplit; [reflexivity |].
    cbn [length seq fold_left flat_map].
    rewrite register_app, register_element_with_nodes_eq.
    assert (GetElement mesh0 (length done) = e) as He.
    { unfold GetElement. rewrite Hsplit, app_nth2, Nat.sub_diag by lia. reflexivity. }
    rewrite He.
    replace (S (length done)) with (length (done ++ [e]))
      by (rewrite length_app; cbn; lia).
    apply IH.
    rewrite (proj1 (register_keeps _ _)), Hsplit, <- app_assoc. reflexivity. }
  apply (Hloop [] (mElements mesh) mesh). reflexivity.
Qed.

(** A node without its containing elements. *)
Definition node_but_elements (n : Node) : nat * c_vector2 * nat * c_vector2 * list R :=
  (mIndex n, mLocation n, mRegion n, mAppliedForce n, mNodeAttributes n).

Lemma register_node mesh pairs (g : nat) :
  node_but_elements (GetNode (register mesh pairs) g) = node_but_elements (GetNode mesh g) /\
  ((g < GetNumNodes mesh)%nat ->
   forall x, In x (mElementIndices (GetNode (register mesh pairs) g))
             <-> In x (mElementIndices (GetNode mesh g)) \/ In (g, x) pairs).
Proof.
  revert mesh. induction pairs as [| p pairs IH]; intros mesh.
  - split; [reflexivity |]. intros _ x. cbn. intuition.
  - unfold register. cbn [fold_left].
    fold (register (update_node mesh (fst p) (AddElement (snd p))) pairs).
    destruct (IH (update_node mesh (fst p) (AddElement (snd p)))) as [Hkeep Hin].
    split.
    + rewrite Hkeep. apply (GetNode_update_node_preserved node_but_elements). reflexivity.
    + intros Hg x. rewrite Hin by (rewrite GetNumNodes_update_node; exact Hg).
      destruct p as [g' x']. cbn [fst snd In].
      destruct (Nat.eq_dec g' g) as [-> | Hne].
      * rewrite GetNode_update_node_eq by exact Hg. cbn [AddElement mElementIndices].
        rewrite set_insert_In. split.
        -- intros [[-> | H] | H]; auto.
        -- intros [H | [H | H]]; auto. injection H as <-. auto.
      * rewrite GetNode_update_node_neq by exact Hne. split.
        -- intros [H | H]; auto.
        -- intros [H | [H | H]]; auto. injection H as E _. contradiction.
Qed.

Lemma registrations_In (elements : list ImmersedBoundaryElement) (g x : nat) :
  In (g, x) (registrations elements)
  <-> exists e, In e elements /\ elem_mIndex e = x /\ In g (elem_mNodes e).
Proof.
  unfold registrations. rewrite in_flat_map. split.
  - intros (e & He & Hin). apply in_map_iff in Hin. destruct Hin as (g' & Heq & Hg').
    injection Heq as Hg0 Hx0. subst g' x. exists e. auto.
  - intros (e & He & Hx & Hg). subst x. exists e. split; [exact He |].
    apply in_map_iff. exists g. auto.
Qed.

(** The phases of the constructor. *)
Lemma ImmersedBoundaryMesh_new_inv (nodes : list Node)
    (elements : list ImmersedBoundaryElement) (numGridPtsX : Z) (membraneIndex : option nat)
    (mesh : ImmersedBoundaryMesh) :
  ImmersedBoundaryMesh_new nodes elements numGridPtsX membraneIndex = Some mesh ->
  let mesh0 :=
    {| mNodes := nodes; mElements := elements; mMembraneIndex := membraneIndex;
       mElementDivisionSpacing := None; mCharacteristicNodeSpacing := 0;
       mElementFluidSources := []; mBalancingFluidSources := [] |} in
  let mesh1 := register mesh0 (registrations elements) in
  let mesh2 := set_mCharacteristicNodeSpacing mesh1 (average_distance_between_nodes mesh1) in
  let mesh3 := fold_left place_fluid_source (seq 0 (length elements)) mesh2 in
  mElements mesh2 = elements /\
  mNodes mesh2 = mNodes mesh1 /\
  mMembraneIndex mesh2 = membraneIndex /\
  mElementDivisionSpacing mesh2 = None /\
  mElementFluidSources mesh2 = [] /\
  exists sources, mesh = set_mBalancingFluidSources mesh3 sources.
Proof.
  unfold ImmersedBoundaryMesh_new. cbv zeta.
  rewrite register_elements_with_nodes_eq. cbn [mElements].
  destruct (place_balancing_sources _ _ _ _) as [sources |]; [| discriminate].
  intros H. injection H as <-.
  match goal with
  | |- context [register ?m0 ?pairs] =>
      destruct (register_keeps m0 pairs) as (E & S & _)
  end.
  cbn [mElements set_mCharacteristicNodeSpacing mNodes mMembraneIndex
       mElementDivisionSpacing mElementFluidSources].
  split; [exact E |]. split; [reflexivity |].
  unfold mesh_settings in S. cbn [mMembraneIndex mElementDivisionSpacing
    mCharacteristicNodeSpacing mElementFluidSources mBalancingFluidSources] in S.
  injection S as S1 S2 _ S4 _.
  split; [exact S1 |]. split; [exact S2 |]. split; [exact S4 |].
  exists sources. reflexivity.
Qed.

Lemma ImmersedBoundaryMesh_new_returns (nodes : list Node)
    (elements : list ImmersedBoundaryElement) (numGridPtsX : Z) (membraneIndex : option nat) :
  (0 < numGridPtsX)%Z ->
  exists mesh,
    ImmersedBoundaryMesh_new nodes elements numGridPtsX membraneIndex = Some mesh /\
    map source_mLocation (mBalancingFluidSources mesh)
    = map (fun k => ((4 * IZR (Z.of_nat k) + 0.5) / IZR numGridPtsX, 0))
          (seq 0 (Z.to_nat ((numGridPtsX + 3) / 4))) /\
    map source_mIndex (mBalancingFluidSources mesh)
    = seq 0 (Z.to_nat ((numGridPtsX + 3) / 4)).
Proof.
  intros HN. unfold ImmersedBoundaryMesh_new.
  destruct (place_balancing_sources_spec numGridPtsX (Z.to_nat ((numGridPtsX + 3) / 4)) 0
              (4.0 / IZR numGridPtsX / 8.0) [] (S (Z.to_nat numGridPtsX)) HN)
    as (sources & Hsources & Hlocations & Hindices).
  - reflexivity.
  - assert ((numGridPtsX + 3) / 4 <= numGridPtsX)%Z.
    { apply Z.div_le_upper_bound; lia. }
    lia.
  - cbn [Z.of_nat]. ring.
  - cbv zeta. rewrite Hsources. eexists. split; [reflexivity |].
    cbn [mBalancingFluidSources set_mBalancingFluidSources].
    split; [exact Hlocations | exact Hindices].
Qed.

(** X26.  On a grid of a positive number [N] of points in x the
    constructor of the mesh returns, and leaves a row of balancing fluid
    sources on the line y = 0, numbered from 0, half a grid spacing in
    from the left and four grid spacings apart: source [k] is at
    [x = (4 k + 0.5) / N], for every [k] with [4 k < N].  The division
    spacing of the new mesh is unset, its membrane index and its numbers
    of nodes and elements are those given. *)
Theorem ImmersedBoundaryMesh_new_balancing_sources (nodes : list Node)
    (elements : list ImmersedBoundaryElement) (numGridPtsX : Z) (membraneIndex : option nat) :
  (0 < numGridPtsX)%Z ->
  exists mesh,
    ImmersedBoundaryMesh_new nodes elements numGridPtsX membraneIndex = Some mesh /\
    map source_mLocation (mBalancingFluidSources mesh)
    = map (fun k => ((4 * IZR (Z.of_nat k) + 0.5) / IZR numGridPtsX, 0))
          (seq 0 (Z.to_nat ((numGridPtsX + 3) / 4))) /\
    map source_mIndex (mBalancingFluidSources mesh)
    = seq 0 (Z.to_nat ((numGridPtsX + 3) / 4)) /\
    mElementDivisionSpacing mesh = None /\
    mMembraneIndex mesh = membraneIndex /\
    GetNumNodes mesh = length nodes /\
    GetNumElements mesh = length elements.
Proof.
  intros HN.
  destruct (ImmersedBoundaryMesh_new_returns nodes elements numGridPtsX membraneIndex HN)
    as (mesh & Hnew & Hlocations & Hindices).
  exists mesh. split; [exact Hnew |]. split; [exact Hlocations |]. split; [exact Hindices |].
  destruct (ImmersedBoundaryMesh_new_inv _ _ _ _ _ Hnew)
    as (E2 & N2 & M2 & D2 & S2 & sources & ->).
  cbv zeta in E2, N2, M2, D2, S2.
  match goal with
  | |- context [fold_left place_fluid_source ?idxs ?m2] =>
      destruct (place_fluid_sources_loop idxs m2) as ((Hn & Hm & Ho) & K & _);
        [apply seq_NoDup
        | intros i Hi; apply in_seq in Hi; unfold GetNumElements; rewrite E2; lia |];
      destruct (same_cells_reads _ _ (conj Hn (conj Hm Ho))) as (Hnum & _)
  end.
  cbv zeta in Hn, Hm, Ho, K, Hnum.
  assert (forall m l, mesh_settings (set_mElementFluidSources m l)
                      = (mMembraneIndex m, mElementDivisionSpacing m,
                         mCharacteristicNodeSpacing m, l, mBalancingFluidSources m)) as Hset
    by reflexivity.
  rewrite !Hset in K. injection K as _ K2 _ _.
  cbn [mElementDivisionSpacing mMembraneIndex set_mBalancingFluidSources].
  split; [rewrite K2; exact D2 |].
  split; [rewrite Hm; exact M2 |].
  split.
  - unfold GetNumNodes. cbn [mNodes set_mBalancingFluidSources]. rewrite Hn, N2.
    match goal with
    | |- context [register ?m0 ?pairs] =>
        destruct (register_keeps m0 pairs) as (_ & _ & N1)
    end.
    exact N1.
  - unfold GetNumElements in *. cbn [mElements set_mBalancingFluidSources].
    rewrite Hnum, E2. reflexivity.
Qed.

Lemma ImmersedBoundaryMesh_new_balancing_sources_witness :
  exists mesh,
    ImmersedBoundaryMesh_new (mNodes lamina_mesh) (mElements lamina_mesh) 8 (Some 0%nat)
    = Some mesh /\
    map source_mLocation (mBalancingFluidSources mesh)
    = map (fun k => ((4 * IZR (Z.of_nat k) + 0.5) / IZR 8, 0))
          (seq 0 (Z.to_nat ((8 + 3) / 4))) /\
    map source_mIndex (mBalancingFluidSources mesh) = seq 0 (Z.to_nat ((8 + 3) / 4)) /\
    mElementDivisionSpacing mesh = None /\
    mMembraneIndex mesh = Some 0%nat /\
    GetNumNodes mesh = length (mNodes lamina_mesh) /\
    GetNumElements mesh = length (mElements lamina_mesh).
Proof.
  apply (ImmersedBoundaryMesh_new_balancing_sources (mNodes lamina_mesh)
           (mElements lamina_mesh) 8 (Some 0%nat)).
  lia.
Defined.

Lemma filter_positions {A : Type} (l : list A) (d : A) (P : A -> bool) :
  length (filter (fun i => P (nth i l d)) (seq 0 (length l))) = length (filter P l).
Proof.
  transitivity (length (filter P (map (fun i => nth i l d) (seq 0 (length l)))));
    [| rewrite map_nth_seq; reflexivity].
  generalize (seq 0 (length l)) as idxs. intros idxs.
  induction idxs as [| i idxs IH]; [reflexivity |].
  cbn [filter map]. destruct (P (nth i l d)); cbn [length]; rewrite IH; reflexivity.
Qed.

(** X27.  In a mesh its constructor has made, the element at every
    position whose index is not the membrane index has a fluid source of
    its own, of strength zero, which carries the index of the element
    and lies at the centroid of the element of that index; an element
    whose index is the membrane index has what it was given (no source,
    for a new element); and there are as many element fluid sources as
    there are elements whose index is not the membrane index. *)
Theorem ImmersedBoundaryMesh_new_element_sources (nodes : list Node)
    (elements : list ImmersedBoundaryElement) (numGridPtsX : Z) (membraneIndex : option nat)
    (mesh : ImmersedBoundaryMesh) (elem_it : nat) :
  ImmersedBoundaryMesh_new nodes elements numGridPtsX membraneIndex = Some mesh ->
  (elem_it < length elements)%nat ->
  let p_element := nth elem_it elements null_element in
  let this_elem_idx := elem_mIndex p_element in
  (if is_membrane_index mesh this_elem_idx
   then mpFluidSource (GetElement mesh elem_it) = mpFluidSource p_element
   else exists k,
          (k < length (mElementFluidSources mesh))%nat /\
          mpFluidSource (GetElement mesh elem_it) = Some k /\
          forall default,
            nth k (mElementFluidSources mesh) default
            = element_source k (GetCentroidOfElement mesh this_elem_idx) this_elem_idx) /\
  length (mElementFluidSources mesh)
  = length (filter (fun e => negb (is_membrane_index mesh (elem_mIndex e))) elements).
Proof.
  intros Hnew Hit p_element this_elem_idx.
  destruct (ImmersedBoundaryMesh_new_inv _ _ _ _ _ Hnew)
    as (E2 & N2 & M2 & D2 & S2 & sources & ->).
  cbv zeta in E2, N2, M2, D2, S2.
  match goal with
  | |- context [fold_left place_fluid_source ?idxs ?m2] =>
      set (mesh2 := m2) in *;
      destruct (place_fluid_sources_loop idxs mesh2) as (C & _ & _ & L & _ & P);
        [apply seq_NoDup
        | intros i Hi; apply in_seq in Hi; unfold GetNumElements; rewrite E2; lia |];
      set (mesh3 := fold_left place_fluid_source idxs mesh2) in *
  end.
  cbv zeta in C, L, P.
  destruct (same_cells_reads _ _ C) as (_ & _ & G & _).
  assert (GetElement mesh2 elem_it = p_element) as Hp
    by (unfold GetElement; rewrite E2; reflexivity).
  assert (forall index, is_membrane_index (set_mBalancingFluidSources mesh3 sources) index
                        = is_membrane_index mesh2 index) as Hmembrane.
  { intros index. unfold is_membrane_index.
    cbn [mMembraneIndex set_mBalancingFluidSources].
    destruct C as (_ & -> & _). reflexivity. }
  assert (forall index, GetCentroidOfElement (set_mBalancingFluidSources mesh3 sources) index
                        = GetCentroidOfElement mesh2 index) as Hcentroid.
  { intros index. rewrite <- G. apply GetCentroidOfElement_ext; reflexivity. }
  split.
  - specialize (P elem_it ltac:(apply in_seq; lia)).
    unfold needs_source in P. rewrite Hp in P. fold this_elem_idx in P.
    rewrite Hmembrane.
    change (GetElement (set_mBalancingFluidSources mesh3 sources) elem_it)
      with (GetElement mesh3 elem_it).
    change (mElementFluidSources (set_mBalancingFluidSources mesh3 sources))
      with (mElementFluidSources mesh3).
    destruct (is_membrane_index mesh2 this_elem_idx); cbn [negb] in P; [exact P |].
    destruct P as (k & Hk & Hsource & Hnth).
    exists k. split; [lia |]. split; [exact Hsource |].
    intros default. rewrite Hnth, Hcentroid. reflexivity.
  - change (mElementFluidSources (set_mBalancingFluidSources mesh3 sources))
      with (mElementFluidSources mesh3).
    rewrite L, S2. cbn [length Nat.add].
    rewrite <- (filter_positions elements null_element).
    f_equal. apply filter_ext. intros i.
    unfold needs_source, GetElement. rewrite E2, Hmembrane. reflexivity.
Qed.

Lemma ImmersedBoundaryMesh_new_element_sources_witness :
  exists mesh,
    ImmersedBoundaryMesh_new (mNodes lamina_mesh) (mElements lamina_mesh) 8 (Some 0%nat)
    = Some mesh /\
    (1 < length (mElements lamina_mesh))%nat /\
    let p_element := nth 1 (mElements lamina_mesh) null_element in
    let this_elem_idx := elem_mIndex p_element in
    (if is_membrane_index mesh this_elem_idx
     then mpFluidSource (GetElement mesh 1) = mpFluidSource p_element
     else exists k,
            (k < length (mElementFluidSources mesh))%nat /\
            mpFluidSource (GetElement mesh 1) = Some k /\
            forall default,
              nth k (mElementFluidSources mesh) default
              = element_source k (GetCentroidOfElement mesh this_elem_idx) this_elem_idx) /\
    length (mElementFluidSources mesh)
    = length (filter (fun e => negb (is_membrane_index mesh (elem_mIndex e)))
                     (mElements lamina_mesh)).
Proof.
  destruct (ImmersedBoundaryMesh_new_returns (mNodes lamina_mesh) (mElements lamina_mesh) 8
              (Some 0%nat)) as (mesh & Hnew & _); [lia |].
  assert (1 < length (mElements lamina_mesh))%nat as Hit by (cbn; lia).
  exists mesh. split; [exact Hnew |]. split; [exact Hit |].
  apply (ImmersedBoundaryMesh_new_element_sources (mNodes lamina_mesh)
           (mElements lamina_mesh) 8 (Some 0%nat) mesh 1 Hnew Hit).
Defined.

(** X28.  In a mesh its constructor has made, a node is as it was given
    but for its containing elements, and these are the ones it was given
    with and the indices of the elements that hold the node. *)
Theorem ImmersedBoundaryMesh_new_registers (nodes : list Node)
    (elements : list ImmersedBoundaryElement) (numGridPtsX : Z) (membraneIndex : option nat)
    (mesh : ImmersedBoundaryMesh) (g : nat) :
  ImmersedBoundaryMesh_new nodes elements numGridPtsX membraneIndex = Some mesh ->
  (g < length nodes)%nat ->
  node_but_elements (GetNode mesh g) = node_but_elements (nth g nodes null_node) /\
  forall x,
    In x (mElementIndices (GetNode mesh g))
    <-> In x (mElementIndices (nth g nodes null_node))
        \/ exists e, In e elements /\ elem_mIndex e = x /\ In g (elem_mNodes e).
Proof.
  intros Hnew Hg.
  destruct (ImmersedBoundaryMesh_new_inv _ _ _ _ _ Hnew)
    as (E2 & N2 & _ & _ & _ & sources & ->).
  cbv zeta in E2, N2.
  match goal with
  | |- context [fold_left place_fluid_source ?idxs ?m2] =>
      destruct (place_fluid_sources_loop idxs m2) as ((Hn & _) & _);
        [apply seq_NoDup
        | intros i Hi; apply in_seq in Hi; unfold GetNumElements; rewrite E2; lia |]
  end.
  cbv zeta in Hn.
  unfold GetNode at 1 2. cbn [mNodes set_mBalancingFluidSources]. rewrite Hn, N2.
  match goal with
  | |- context [register ?m0 ?pairs] =>
      destruct (register_node m0 pairs g) as [Hkeep Hin];
        change (nth g (mNodes (register m0 pairs)) null_node)
          with (GetNode (register m0 pairs) g)
  end.
  split; [exact Hkeep |].
  intros x. rewrite Hin by exact Hg. rewrite registrations_In. reflexivity.
Qed.

Lemma ImmersedBoundaryMesh_new_registers_witness :
  exists mesh,
    ImmersedBoundaryMesh_new (mNodes hexagon_mesh) (mElements hexagon_mesh) 8 None
    = Some mesh /\
    (1 < length (mNodes hexagon_mesh))%nat /\
    node_but_elements (GetNode mesh 1)
    = node_but_elements (nth 1 (mNodes hexagon_mesh) null_node) /\
    forall x,
      In x (mElementIndices (GetNode mesh 1))
      <-> In x (mElementIndices (nth 1 (mNodes hexagon_mesh) null_node))
          \/ exists e, In e (mElements hexagon_mesh) /\ elem_mIndex e = x
                       /\ In 1%nat (elem_mNodes e).
Proof.
  destruct (ImmersedBoundaryMesh_new_returns (mNodes hexagon_mesh) (mElements hexagon_mesh) 8
              None) as (mesh & Hnew & _); [lia |].
  assert (1 < length (mNodes hexagon_mesh))%nat as Hg by (cbn; lia).
  exists mesh. split; [exact Hnew |]. split; [exact Hg |].
  apply (ImmersedBoundaryMesh_new_registers (mNodes hexagon_mesh) (mElements hexagon_mesh) 8
           None mesh 1 Hnew Hg).
Defined.


(** ** Loops over the elements that write to the nodes of each *)




(** ** The regions the membrane elasticity force gives the nodes *)







(** ** How many nodes of an element become basal, or apical *)


















